(** * Linear BVH construction: radix tree build (axom/spin/internal/linear_bvh/build_radix_tree.hpp)

    Shallow embedding of the sequential (SEQ_EXEC, non-RAJA) instantiation of
    the pipeline
      transform_boxes ; reduce ; get_mcodes ; sort_mcodes ; reorder ;
      build_tree ; propagate_aabbs
    followed by the properties of the tree it builds.

    Conventions.
    - [int32] and [uint32] values are integers of [Z]; index arithmetic is
      carried out in [Z] (signed overflow is undefined in C++, and for
      arrays of at most 2^30 entries no index expression of [build_tree]
      leaves the int32 range), the [uint32] conversions are written [uint32].
    - An [axom::Array] / [ArrayView] is a [list], read and written through
      [aget] and [aset], which report an access outside the array.
    - [for_all<SEQ_EXEC>(n, body)] runs [body 0], ..., [body (n-1)] in order.
    - Loops whose trip count is not syntactically bounded take [fuel]. *)

From Stdlib Require Import ZArith List Lia Bool Permutation Sorted FinFun.
From Stdlib Require Import QArith Qminmax Qabs.
Import ListNotations.
Local Open Scope Z_scope.

(* ================================================================== *)
(** ** Results of executions *)

Inductive result (A : Type) : Type :=
| Ok (a : A)
| OutOfBounds
| DivByZero
| AssertFailed
| OutOfFuel.
Arguments Ok {A} a.
Arguments OutOfBounds {A}.
Arguments DivByZero {A}.
Arguments AssertFailed {A}.
Arguments OutOfFuel {A}.

Definition bind {A B : Type} (m : result A) (k : A -> result B) : result B :=
  match m with
  | Ok a => k a
  | OutOfBounds => OutOfBounds
  | DivByZero => DivByZero
  | AssertFailed => AssertFailed
  | OutOfFuel => OutOfFuel
  end.

Notation "x <- m ;; k" := (bind m (fun x => k))
  (at level 61, m at next level, right associativity).

(* ================================================================== *)
(** ** Arrays *)

Definition alen {A : Type} (a : list A) : Z := Z.of_nat (length a).

Definition aget {A : Type} (a : list A) (i : Z) : result A :=
  if i <? 0 then OutOfBounds
  else match nth_error a (Z.to_nat i) with
       | Some x => Ok x
       | None => OutOfBounds
       end.

Fixpoint upd {A : Type} (k : nat) (v : A) (a : list A) : list A :=
  match a, k with
  | [], _ => []
  | _ :: t, O => v :: t
  | x :: t, S k' => x :: upd k' v t
  end.

Definition aset {A : Type} (a : list A) (i : Z) (v : A) : result (list A) :=
  if (0 <=? i) && (i <? alen a) then Ok (upd (Z.to_nat i) v a)
  else OutOfBounds.

(** [for_all<SEQ_EXEC>(size, body)]. *)
Fixpoint for_all_from {St : Type} (start : Z) (count : nat)
  (body : Z -> St -> result St) (s : St) : result St :=
  match count with
  | O => Ok s
  | S c => s' <- body start s ;; for_all_from (start + 1) c body s'
  end.

Definition for_all {St : Type} (size : Z) (body : Z -> St -> result St)
  (s : St) : result St :=
  for_all_from 0 (Z.to_nat size) body s.

(* ================================================================== *)
(** ** Machine integers *)

Definition uint32 (x : Z) : Z := x mod 2 ^ 32.

(** Modelled from the spec: [axom::utilities::leadingZeros]
    (core/utilities/BitUtilities.hpp is not part of the excerpt), "the number
    of leading zero bits" of a 32-bit word; 32 for the zero word. *)
Fixpoint clz_from (k : nat) (word : Z) : Z :=
  match k with
  | O => 0
  | S k' => if Z.testbit word (Z.of_nat k') then 0 else 1 + clz_from k' word
  end.

Definition leadingZeros (word : Z) : Z := clz_from 32 word.

(** [float32(l)] for an [int32] l: round to nearest, ties to even, on a
    24-bit significand.  Every integer of magnitude at most 2^24 is
    represented exactly; the value is again an integer. *)
Definition float32_of_int (l : Z) : Z :=
  let e := Z.log2 l in
  if e <? 24 then l
  else
    let sh := e - 23 in
    let q := Z.shiftr l sh in
    let r := l - Z.shiftl q sh in
    let half := Z.shiftl 1 (sh - 1) in
    let q' := if (half <? r) || ((r =? half) && Z.odd q) then q + 1 else q in
    Z.shiftl q' sh.

(** [(int32)ceil(x / y)] for an integral float x and a power of two y:
    the division is exact in binary floating point, so this is the integer
    ceiling of the quotient. *)
Definition ceil_div (x y : Z) : Z := - ((- x) / y).

(* ================================================================== *)
(** ** delta *)

Definition delta (a b inner_size : Z) (mcodes : list Z) : result Z :=
  let out_of_range := (b <? 0) || (inner_size <? b) in
  let bb := if out_of_range then 0 else b in
  acode <- aget mcodes a ;;
  bcode <- aget mcodes bb ;;
  let exor := Z.lxor acode bcode in
  let tie := exor =? 0 in
  let exor := if tie then Z.lxor (uint32 a) (uint32 bb) else exor in
  let count := leadingZeros exor in
  let count := if tie then count + 32 else count in
  Ok (if out_of_range then -1 else count).

(* ================================================================== *)
(** ** build_tree *)

Record Links : Type := mkLinks {
  lchildren : list Z;
  rchildren : list Z;
  parents : list Z
}.

(** [while(delta(i, i + lmax * d) > min_delta) lmax *= 2;] *)
Fixpoint doubling_loop (fuel : nat) (i d min_delta inner_size : Z)
  (mcodes : list Z) (lmax : Z) : result Z :=
  match fuel with
  | O => OutOfFuel
  | S f =>
      dl <- delta i (i + lmax * d) inner_size mcodes ;;
      if min_delta <? dl
      then doubling_loop f i d min_delta inner_size mcodes (lmax * 2)
      else Ok lmax
  end.

(** [for(t = lmax / 2; t >= 1; t /= 2) if(delta(i, i+(l+t)*d) > min_delta) l += t;] *)
Fixpoint range_loop (fuel : nat) (i d min_delta inner_size : Z)
  (mcodes : list Z) (l t : Z) : result Z :=
  match fuel with
  | O => OutOfFuel
  | S f =>
      if 1 <=? t then
        dl <- delta i (i + (l + t) * d) inner_size mcodes ;;
        range_loop f i d min_delta inner_size mcodes
          (if min_delta <? dl then l + t else l) (Z.quot t 2)
      else Ok l
  end.

(** [for(t = ceil(float32(l) / div_factor);; div_factor *= 2, t = ...)
      { if(delta(i, i+(s+t)*d) > delta_node) s += t;  if(t == 1) break; }] *)
Fixpoint split_loop (fuel : nat) (i d delta_node inner_size : Z)
  (mcodes : list Z) (l s div_factor : Z) : result Z :=
  match fuel with
  | O => OutOfFuel
  | S f =>
      let t := ceil_div (float32_of_int l) div_factor in
      dl <- delta i (i + (s + t) * d) inner_size mcodes ;;
      let s' := if delta_node <? dl then s + t else s in
      if t =? 1 then Ok s'
      else split_loop f i d delta_node inner_size mcodes l s' (div_factor * 2)
  end.

(** The search part of the loop body: far end [j] of the range of node [i]
    and the [split] position. *)
Definition node_search (fuel : nat) (inner_size : Z) (mcodes : list Z) (i : Z)
  : result (Z * Z) :=
  dr <- delta i (i + 1) inner_size mcodes ;;
  dl <- delta i (i - 1) inner_size mcodes ;;
  let d := if dr - dl <? 0 then -1 else 1 in
  min_delta <- delta i (i - d) inner_size mcodes ;;
  lmax <- doubling_loop fuel i d min_delta inner_size mcodes 2 ;;
  l <- range_loop fuel i d min_delta inner_size mcodes 0 (Z.quot lmax 2) ;;
  let j := i + l * d in
  delta_node <- delta i j inner_size mcodes ;;
  s <- split_loop fuel i d delta_node inner_size mcodes l 0 2 ;;
  let split := i + s * d + Z.min d 0 in
  Ok (j, split).

(** The child index chosen for each side. *)
Definition left_child (inner_size i j split : Z) : Z :=
  if Z.min i j =? split then split + inner_size else split.

Definition right_child (inner_size i j split : Z) : Z :=
  if Z.max i j =? split + 1 then split + inner_size + 1 else split + 1.

(** The assignment part of the loop body. *)
Definition node_assign (inner_size i j split : Z) (k : Links) : result Links :=
  let lc := left_child inner_size i j split in
  let rc := right_child inner_size i j split in
  p1 <- aset (parents k) lc i ;;
  l1 <- aset (lchildren k) i lc ;;
  p2 <- aset p1 rc i ;;
  r1 <- aset (rchildren k) i rc ;;
  p3 <- (if i =? 0 then aset p2 0 (-1) else Ok p2) ;;
  Ok (mkLinks l1 r1 p3).

Definition build_tree_body (fuel : nat) (inner_size : Z) (mcodes : list Z)
  (i : Z) (k : Links) : result Links :=
  js <- node_search fuel inner_size mcodes i ;;
  node_assign inner_size i (fst js) (snd js) k.

Definition build_links (fuel : nat) (inner_size : Z) (mcodes : list Z)
  (k : Links) : result Links :=
  for_all inner_size (build_tree_body fuel inner_size mcodes) k.

(* ================================================================== *)
(** ** Bounding boxes and the tree record *)

(** Modelled from the spec: [primal::BoundingBox<FloatType, NDIMS>]
    (primal/geometry/BoundingBox.hpp is not part of the excerpt), "a
    bounding-box type supporting min/max corner access, union, and centroid
    extraction".  [FloatType] coordinates are exact rationals: rounding,
    infinities and NaN are outside the model.  [emptyBox] is [BoxType {}]. *)
Class BoundingBox (Box : Type) : Type := {
  getMin : Box -> list Q;
  getMax : Box -> list Q;
  getCentroid : Box -> list Q;
  scale : Q -> Box -> Box;
  addBox : Box -> Box -> Box;
  emptyBox : Box
}.

(** Modelled from the spec: [RadixTree<FloatType, NDIMS>]
    (linear_bvh/RadixTree.hpp is not part of the excerpt); the fields are the
    ones build_radix_tree.hpp reads and writes. *)
Record RadixTree (Box : Type) : Type := mkRadixTree {
  m_size : Z;
  m_inner_size : Z;
  m_left_children : list Z;
  m_right_children : list Z;
  m_parents : list Z;
  m_inner_aabbs : list Box;
  m_leafs : list Z;
  m_mcodes : list Z;
  m_leaf_aabbs : list Box
}.
Arguments mkRadixTree {Box}.
Arguments m_size {Box}.
Arguments m_inner_size {Box}.
Arguments m_left_children {Box}.
Arguments m_right_children {Box}.
Arguments m_parents {Box}.
Arguments m_inner_aabbs {Box}.
Arguments m_leafs {Box}.
Arguments m_mcodes {Box}.
Arguments m_leaf_aabbs {Box}.

(** Modelled from the spec: [RadixTree::allocate]: "all arrays are pre-sized
    to n or n-1 before construction begins"; the parent array has one entry
    per node.  [fill] and [junk] are the contents the allocator hands out. *)
Definition allocate {Box : Type} (fill : Z) (junk : Box) (size : Z)
  : RadixTree Box :=
  let inner_size := size - 1 in
  mkRadixTree size inner_size
    (repeat fill (Z.to_nat inner_size))
    (repeat fill (Z.to_nat inner_size))
    (repeat fill (Z.to_nat (size + inner_size)))
    (repeat junk (Z.to_nat inner_size))
    (repeat fill (Z.to_nat size))
    (repeat fill (Z.to_nat size))
    (repeat junk (Z.to_nat size)).

Definition build_tree {Box : Type} (fuel : nat) (data : RadixTree Box)
  : result (RadixTree Box) :=
  let inner_size := m_inner_size data in
  k <- build_links fuel inner_size (m_mcodes data)
         (mkLinks (m_left_children data) (m_right_children data)
                  (m_parents data)) ;;
  Ok (mkRadixTree (m_size data) (m_inner_size data)
        (lchildren k) (rchildren k) (parents k)
        (m_inner_aabbs data) (m_leafs data) (m_mcodes data)
        (m_leaf_aabbs data)).

(* ================================================================== *)
(** ** transform_boxes, reduce *)

Definition transform_boxes {Box : Type} `{BoundingBox Box}
  (boxes : list Box) (aabbs : list Box) (size : Z) (scale_factor : Q)
  : result (list Box) :=
  for_all size
    (fun i aabbs =>
       aabb <- aget boxes i ;;
       aset aabbs i (scale scale_factor aabb))
    aabbs.

(** The branch without RAJA: [global_bounds.addBox(aabbs[i])] for each i. *)
Definition reduce {Box : Type} `{BoundingBox Box} (aabbs : list Box)
  (size : Z) : result Box :=
  for_all size
    (fun i global_bounds =>
       aabb <- aget aabbs i ;;
       Ok (addBox global_bounds aabb))
    emptyBox.

(* ================================================================== *)
(** ** Morton codes *)

(** Conversion of a float to [int32]: truncation towards zero. *)
Definition float_to_int (q : Q) : Z := Z.quot (Qnum q) (Zpos (Qden q)).

Definition int_coords (point : list Q) : list Z :=
  let Dims := alen point in
  let NUM_BITS_PER_DIM := Z.quot 32 Dims in
  let FLOAT_TO_INT := inject_Z (Z.shiftl 1 NUM_BITS_PER_DIM) in
  let FLOAT_CEILING := (FLOAT_TO_INT - 1)%Q in
  map (fun p => float_to_int
                  (Qmin (Qmax (p * FLOAT_TO_INT)%Q 0%Q) FLOAT_CEILING))
      point.

(** [convertPointToMorton<int32>] (spin/MortonIndex.hpp) is not part of the
    excerpt and is taken as a parameter. *)
Definition morton32_encode (convertPointToMorton : list Z -> Z)
  (point : list Q) : Z :=
  convertPointToMorton (int_coords point).

(** Modelled from the spec: [utilities::isNearlyEqual] with its default
    threshold (core/utilities/Utilities.hpp is not part of the excerpt). *)
Definition isNearlyEqual (a b : Q) : bool :=
  Qle_bool (Qabs (a - b)) (1 # 100000000).

(** Division, reporting a zero divisor. *)
Definition fdiv (a b : Q) : result Q :=
  if Qeq_bool b 0 then DivByZero else Ok (a / b)%Q.

Fixpoint map2 {A B C : Type} (f : A -> B -> C) (u : list A) (v : list B)
  : list C :=
  match u, v with
  | x :: u', y :: v' => f x y :: map2 f u' v'
  | _, _ => []
  end.

Definition vsub (u v : list Q) : list Q := map2 Qminus u v.
Definition vmul (u v : list Q) : list Q := map2 Qmult u v.

Fixpoint inverse_extent (extent : list Q) : result (list Q) :=
  match extent with
  | [] => Ok []
  | e :: rest =>
      inv <- (if isNearlyEqual e 0 then Ok 0%Q else fdiv 1 e) ;;
      invs <- inverse_extent rest ;;
      Ok (inv :: invs)
  end.

(** The centroid of a box normalised into the global bounds. *)
Definition normalized_centroid {Box : Type} `{BoundingBox Box}
  (min_coord inv_extent : list Q) (aabb : Box) : list Q :=
  vmul (vsub (getCentroid aabb) min_coord) inv_extent.

Definition get_mcodes {Box : Type} `{BoundingBox Box}
  (convertPointToMorton : list Z -> Z)
  (aabbs : list Box) (size : Z) (bounds : Box) (mcodes : list Z)
  : result (list Z) :=
  let extent := vsub (getMax bounds) (getMin bounds) in
  let min_coord := getMin bounds in
  inv_extent <- inverse_extent extent ;;
  for_all size
    (fun i mcodes =>
       aabb <- aget aabbs i ;;
       let centroid := normalized_centroid min_coord inv_extent aabb in
       aset mcodes i (uint32 (morton32_encode convertPointToMorton centroid)))
    mcodes.

(* ================================================================== *)
(** ** array_counting, reorder, sort_mcodes *)

Definition array_counting (iterator : list Z) (size start step : Z)
  : result (list Z) :=
  for_all size (fun i it => aset it i (start + i * step)) iterator.

(** [temp_v[i] = array_v[indices[i]]] for i < size; [array = std::move(temp)].
    [temp] is uninitialised storage of [size] entries: its previous content
    is never read, so the gathered values are collected in order. *)
Fixpoint gather {T : Type} (indices : list Z) (array : list T) (start : Z)
  (count : nat) : result (list T) :=
  match count with
  | O => Ok []
  | S c =>
      in_idx <- aget indices start ;;
      x <- aget array in_idx ;;
      rest <- gather indices array (start + 1) c ;;
      Ok (x :: rest)
  end.

Definition reorder {T : Type} (indices : list Z) (array : list T) (size : Z)
  : result (list T) :=
  gather indices array 0 (Z.to_nat size).

(** [std::stable_sort] belongs to the C++ library; it is modelled by the
    stable insertion sort: an element is placed after every element that
    does not compare greater, so equal elements keep their input order. *)
Fixpoint stable_insert {T : Type} (less : T -> T -> bool) (x : T)
  (sorted : list T) : list T :=
  match sorted with
  | [] => [x]
  | y :: rest =>
      if less y x then y :: stable_insert less x rest
      else x :: y :: rest
  end.

Fixpoint stable_sort {T : Type} (less : T -> T -> bool) (l : list T)
  : list T :=
  match l with
  | [] => []
  | x :: rest => stable_insert less x (stable_sort less rest)
  end.

(** Unchecked read [mcodes[i]] inside the comparator. *)
Definition code_at (mcodes : list Z) (i : Z) : Z :=
  nth (Z.to_nat i) mcodes 0.

(** The fallback on [std::stable_sort]; returns the reordered codes and the
    permutation. *)
Definition sort_mcodes (mcodes : list Z) (size : Z) (iter : list Z)
  : result (list Z * list Z) :=
  iter1 <- array_counting iter size 0 1 ;;
  let n := Z.to_nat size in
  let iter2 :=
    stable_sort (fun i1 i2 => code_at mcodes i1 <? code_at mcodes i2)
                (firstn n iter1) ++ skipn n iter1 in
  mcodes' <- reorder iter2 mcodes size ;;
  Ok (mcodes', iter2).

(* ================================================================== *)
(** ** propagate_aabbs *)

(** The arrays [propagate_aabbs] writes: the inner boxes, the visit counters
    and, to state how often a counter is incremented and a box is stored, the
    traces of the nodes [atomic_increment] and [sync_store] were called on
    (most recent first). *)
Record Propagation (Box : Type) : Type := mkPropagation {
  inner_aabbs : list Box;
  counters : list Z;
  increments : list Z;
  stores : list Z
}.
Arguments mkPropagation {Box}.
Arguments inner_aabbs {Box}.
Arguments counters {Box}.
Arguments increments {Box}.
Arguments stores {Box}.

(** Host branch: an acquire fence, then the value. *)
Definition sync_load {Box : Type} (boxes : list Box) (idx : Z) : result Box :=
  aget boxes idx.

(** Host branch: the assignment, then a release fence. *)
Definition sync_store {Box : Type} (st : Propagation Box) (idx : Z)
  (value : Box) : result (Propagation Box) :=
  boxes <- aset (inner_aabbs st) idx value ;;
  Ok (mkPropagation boxes (counters st) (increments st) (idx :: stores st)).

(** The branch without RAJA: read the counter, add one to it, return the
    value read. *)
Definition atomic_increment {Box : Type} (st : Propagation Box) (addr : Z)
  : result (Z * Propagation Box) :=
  old <- aget (counters st) addr ;;
  cs <- aset (counters st) addr (old + 1) ;;
  Ok (old, mkPropagation (inner_aabbs st) cs (addr :: increments st)
             (stores st)).

(** [while(current_node != -1) { ... }] of one leaf. *)
Fixpoint walk {Box : Type} `{BoundingBox Box} (fuel : nat) (inner_size : Z)
  (lch rch par : list Z) (leaf_aabbs : list Box)
  (aabb : Box) (last_node current_node : Z) (st : Propagation Box)
  : result (Propagation Box) :=
  match fuel with
  | O => OutOfFuel
  | S f =>
      if current_node =? -1 then Ok st
      else
        os <- atomic_increment st current_node ;;
        let old := fst os in
        let st := snd os in
        if old =? 0 then Ok st
        else
          lchild <- aget lch current_node ;;
          rchild <- aget rch current_node ;;
          let other_child := if lchild =? last_node then rchild else lchild in
          other_aabb <-
            (if inner_size <=? other_child
             then aget leaf_aabbs (other_child - inner_size)
             else sync_load (inner_aabbs st) other_child) ;;
          let aabb := addBox aabb other_aabb in
          st <- sync_store st current_node aabb ;;
          parent <- aget par current_node ;;
          walk f inner_size lch rch par leaf_aabbs aabb current_node parent st
  end.

Definition propagate_leaf {Box : Type} `{BoundingBox Box} (fuel : nat)
  (inner_size : Z) (lch rch par : list Z) (leaf_aabbs : list Box)
  (i : Z) (st : Propagation Box) : result (Propagation Box) :=
  aabb <- aget leaf_aabbs i ;;
  current_node <- aget par (inner_size + i) ;;
  walk fuel inner_size lch rch par leaf_aabbs aabb (inner_size + i)
       current_node st.

(** [propagate_aabbs] with the final counters and the store trace;
    [SLIC_ASSERT(leaf_size == data.m_size)] comes first, the counters are
    value-initialised. *)
Definition propagate_trace {Box : Type} `{BoundingBox Box} (fuel : nat)
  (data : RadixTree Box) : result (Propagation Box) :=
  let inner_size := m_inner_size data in
  let leaf_size := m_inner_size data + 1 in
  if negb (leaf_size =? m_size data) then AssertFailed
  else
    inner0 <- for_all inner_size (fun idx boxes => aset boxes idx emptyBox)
                (m_inner_aabbs data) ;;
    let counters0 := repeat 0 (Z.to_nat inner_size) in
    for_all leaf_size
      (propagate_leaf fuel inner_size (m_left_children data)
         (m_right_children data) (m_parents data) (m_leaf_aabbs data))
      (mkPropagation inner0 counters0 [] []).

Definition propagate_aabbs {Box : Type} `{BoundingBox Box} (fuel : nat)
  (data : RadixTree Box) : result (RadixTree Box) :=
  st <- propagate_trace fuel data ;;
  Ok (mkRadixTree (m_size data) (m_inner_size data)
        (m_left_children data) (m_right_children data) (m_parents data)
        (inner_aabbs st) (m_leafs data) (m_mcodes data) (m_leaf_aabbs data)).

(* ================================================================== *)
(** ** build_radix_tree *)

(** The memory [build_radix_tree] works on: the caller's box array, the
    caller's [bounds] and the tree. *)
Record Memory (Box : Type) : Type := mkMemory {
  boxes : list Box;
  bounds : Box;
  radix_tree : RadixTree Box
}.
Arguments mkMemory {Box}.
Arguments boxes {Box}.
Arguments bounds {Box}.
Arguments radix_tree {Box}.

Definition with_leaf_aabbs {Box : Type} (t : RadixTree Box) (a : list Box)
  : RadixTree Box :=
  mkRadixTree (m_size t) (m_inner_size t) (m_left_children t)
    (m_right_children t) (m_parents t) (m_inner_aabbs t) (m_leafs t)
    (m_mcodes t) a.

Definition with_mcodes {Box : Type} (t : RadixTree Box) (c : list Z)
  : RadixTree Box :=
  mkRadixTree (m_size t) (m_inner_size t) (m_left_children t)
    (m_right_children t) (m_parents t) (m_inner_aabbs t) (m_leafs t)
    c (m_leaf_aabbs t).

Definition with_leafs {Box : Type} (t : RadixTree Box) (l : list Z)
  : RadixTree Box :=
  mkRadixTree (m_size t) (m_inner_size t) (m_left_children t)
    (m_right_children t) (m_parents t) (m_inner_aabbs t) l
    (m_mcodes t) (m_leaf_aabbs t).

(** The stages up to and including [reorder]. *)
Definition sort_stage {Box : Type} `{BoundingBox Box}
  (convertPointToMorton : list Z -> Z) (fill : Z) (junk : Box)
  (size : Z) (scale_factor : Q) (mem : Memory Box) : result (Memory Box) :=
  if size <=? 0 then AssertFailed
  else
    let t := allocate fill junk size in
    aabbs <- transform_boxes (boxes mem) (m_leaf_aabbs t) size scale_factor ;;
    let t := with_leaf_aabbs t aabbs in
    bnds <- reduce (m_leaf_aabbs t) size ;;
    codes <- get_mcodes convertPointToMorton (m_leaf_aabbs t) size bnds
               (m_mcodes t) ;;
    let t := with_mcodes t codes in
    sorted <- sort_mcodes (m_mcodes t) size (m_leafs t) ;;
    let t := with_leafs (with_mcodes t (fst sorted)) (snd sorted) in
    aabbs' <- reorder (m_leafs t) (m_leaf_aabbs t) size ;;
    let t := with_leaf_aabbs t aabbs' in
    Ok (mkMemory (boxes mem) bnds t).

Definition build_radix_tree {Box : Type} `{BoundingBox Box}
  (convertPointToMorton : list Z -> Z) (fill : Z) (junk : Box) (fuel : nat)
  (size : Z) (scale_factor : Q) (mem : Memory Box) : result (Memory Box) :=
  mem1 <- sort_stage convertPointToMorton fill junk size scale_factor mem ;;
  t <- build_tree fuel (radix_tree mem1) ;;
  t <- propagate_aabbs fuel t ;;
  Ok (mkMemory (boxes mem1) (bounds mem1) t).

(* ================================================================== *)
(** ** A concrete box type for the examples *)

(** Axis-aligned boxes with rational corners; the box without corners is the
    empty box, absorbed by every union. *)
Record QBox : Type := mkQBox { qmin : list Q; qmax : list Q }.

Definition qbox_is_empty (b : QBox) : bool :=
  match qmin b with [] => true | _ => false end.

Definition qbox_centroid (b : QBox) : list Q :=
  map2 (fun lo hi => ((lo + hi) / 2)%Q) (qmin b) (qmax b).

Definition qbox_scale (f : Q) (b : QBox) : QBox :=
  mkQBox
    (map2 (fun lo hi => ((lo + hi) / 2 - f * ((hi - lo) / 2))%Q) (qmin b) (qmax b))
    (map2 (fun lo hi => ((lo + hi) / 2 + f * ((hi - lo) / 2))%Q) (qmin b) (qmax b)).

Definition qbox_add (a b : QBox) : QBox :=
  if qbox_is_empty a then b
  else if qbox_is_empty b then a
  else mkQBox (map2 Qmin (qmin a) (qmin b)) (map2 Qmax (qmax a) (qmax b)).

#[export] Instance QBox_BoundingBox : BoundingBox QBox := {
  getMin := qmin;
  getMax := qmax;
  getCentroid := qbox_centroid;
  scale := qbox_scale;
  addBox := qbox_add;
  emptyBox := mkQBox [] []
}.

(** Bit interleaving of integer coordinates, for the examples. *)
Fixpoint interleave_bit (coords : list Z) (b : Z) (pos : Z) : Z :=
  match coords with
  | [] => 0
  | c :: rest =>
      Z.lor (if Z.testbit c b then Z.shiftl 1 pos else 0)
            (interleave_bit rest b (pos + 1))
  end.

Fixpoint interleave_from (coords : list Z) (nbits : nat) : Z :=
  match nbits with
  | O => 0
  | S k =>
      Z.lor (interleave_bit coords (Z.of_nat k) (Z.of_nat k * alen coords))
            (interleave_from coords k)
  end.

Definition interleave (coords : list Z) : Z := interleave_from coords 16.

(* ================================================================== *)
(** ** Vocabulary of the statements *)

(** The code array is sorted (what [sort_mcodes] establishes) and holds
    [uint32] values. *)
Fixpoint is_sorted (mcodes : list Z) : bool :=
  match mcodes with
  | [] => true
  | x :: rest =>
      match rest with
      | [] => true
      | y :: _ => (x <=? y) && is_sorted rest
      end
  end.

Definition all_uint32 (mcodes : list Z) : bool :=
  forallb (fun c => (0 <=? c) && (c <? 2 ^ 32)) mcodes.

(** The value [delta a b] returns on an array of [n] codes whose last
    position is [inner_size = n - 1]. *)
Definition dval (mcodes : list Z) (a b : Z) : Z :=
  if (b <? 0) || (alen mcodes - 1 <? b) then -1
  else if code_at mcodes a =? code_at mcodes b
       then 32 + leadingZeros (Z.lxor a b)
       else leadingZeros (Z.lxor (code_at mcodes a) (code_at mcodes b)).

(** The code of a position extended by the position itself: the key the
    tie-break of [delta] compares. *)
Definition key (mcodes : list Z) (a : Z) : Z := code_at mcodes a * 2 ^ 32 + a.

(** The loop conditions of the body of [build_tree], on the values [delta]
    returns: "the probe at distance [x] from [i] in direction [d] has a
    common prefix longer than [bound]". *)
Definition probe (mcodes : list Z) (i d bound x : Z) : bool :=
  bound <? dval mcodes i (i + x * d).

(** The direction chosen by node [i]. *)
Definition direction (mcodes : list Z) (i : Z) : Z :=
  if dval mcodes i (i + 1) - dval mcodes i (i - 1) <? 0 then -1 else 1.

(** The positions 0, ..., n-1. *)
Definition iota (n : nat) : list Z := map Z.of_nat (seq 0 n).

(** The order [sort_mcodes] sorts positions by: by code, and by original
    position among equal codes. *)
Definition code_then_position (mcodes : list Z) (x y : Z) : Prop :=
  code_at mcodes x < code_at mcodes y \/
  (code_at mcodes x = code_at mcodes y /\ x < y).

(** [lo, hi] is the range of positions of an internal node: the keys in it
    share a prefix strictly longer than the one either neighbour outside
    shares with them. *)
Definition is_block (mcodes : list Z) (lo hi : Z) : Prop :=
  0 <= lo /\ lo < hi /\ hi < alen mcodes /\
  dval mcodes lo (lo - 1) < dval mcodes lo hi /\
  dval mcodes hi (hi + 1) < dval mcodes lo hi.

(** Binary trees over sorted positions: a leaf is a position, an internal
    node carries its index in the tree arrays. *)
Inductive shape : Type :=
| Leaf (p : Z)
| Node (v : Z) (l r : shape).

(** The index of the root of a tree in the parent array: leaves come after
    the [inner_size] internal nodes. *)
Definition node_index (inner_size : Z) (t : shape) : Z :=
  match t with
  | Leaf p => inner_size + p
  | Node v _ _ => v
  end.

Fixpoint leaves (t : shape) : list Z :=
  match t with
  | Leaf p => [p]
  | Node _ l r => leaves l ++ leaves r
  end.

Fixpoint internals (t : shape) : list Z :=
  match t with
  | Leaf _ => []
  | Node v l r => v :: internals l ++ internals r
  end.

Fixpoint tree_nodes (inner_size : Z) (t : shape) : list Z :=
  match t with
  | Leaf p => [inner_size + p]
  | Node v l r => v :: tree_nodes inner_size l ++ tree_nodes inner_size r
  end.

Fixpoint height (t : shape) : nat :=
  match t with
  | Leaf _ => O
  | Node _ l r => S (Nat.max (height l) (height r))
  end.

(** [start, start + 1, ..., start + len - 1]. *)
Fixpoint zseq (start : Z) (len : nat) : list Z :=
  match len with
  | O => []
  | S k => start :: zseq (start + 1) k
  end.

(** The positions [lo, ..., hi]. *)
Definition zrange (lo hi : Z) : list Z := zseq lo (Z.to_nat (hi - lo + 1)).

(** The children node [i] assigns itself. *)
Definition node_children (fuel : nat) (inner_size : Z) (mcodes : list Z)
  (i : Z) : result (Z * Z) :=
  js <- node_search fuel inner_size mcodes i ;;
  Ok (left_child inner_size i (fst js) (snd js),
      right_child inner_size i (fst js) (snd js)).

(** [t] is a tree of the children the nodes compute. *)
Fixpoint computed_tree (fuel : nat) (mcodes : list Z) (t : shape) : Prop :=
  match t with
  | Leaf p => 0 <= p < alen mcodes
  | Node v l r =>
      0 <= v < alen mcodes - 1 /\
      node_children fuel (alen mcodes - 1) mcodes v
        = Ok (node_index (alen mcodes - 1) l, node_index (alen mcodes - 1) r) /\
      computed_tree fuel mcodes l /\ computed_tree fuel mcodes r
  end.

(** The link arrays hold the tree [t] below a node whose parent entry is
    [parent]. *)
Fixpoint realizes (inner_size : Z) (k : Links) (parent : Z) (t : shape)
  : Prop :=
  match t with
  | Leaf p =>
      0 <= p /\ aget (parents k) (inner_size + p) = Ok parent
  | Node v l r =>
      0 <= v < inner_size /\
      aget (lchildren k) v = Ok (node_index inner_size l) /\
      aget (rchildren k) v = Ok (node_index inner_size r) /\
      aget (parents k) v = Ok parent /\
      realizes inner_size k v l /\ realizes inner_size k v r
  end.

(** Following left and right children from node [v], in tree_nodes. *)
Fixpoint visit (fuel : nat) (inner_size : Z) (lch rch : list Z) (v : Z)
  : result (list Z) :=
  match fuel with
  | O => OutOfFuel
  | S f =>
      if inner_size <=? v then Ok [v]
      else
        l <- aget lch v ;;
        r <- aget rch v ;;
        vl <- visit f inner_size lch rch l ;;
        vr <- visit f inner_size lch rch r ;;
        Ok (v :: vl ++ vr)
  end.

(** The (parent, child) pairs of a tree. *)
Fixpoint edges (inner_size : Z) (t : shape) : list (Z * Z) :=
  match t with
  | Leaf _ => []
  | Node v l r =>
      (v, node_index inner_size l) :: (v, node_index inner_size r)
        :: edges inner_size l ++ edges inner_size r
  end.

(** The index a child range gets: a leaf, or the end of the range next to
    the split. *)
Definition child_index (inner_size : Z) (right : bool) (lo hi : Z) : Z :=
  if lo =? hi then inner_size + lo else if right then lo else hi.

(** The internal indices used below a range. *)
Definition child_internals (right : bool) (lo hi : Z) : list Z :=
  if right then zrange lo (hi - 1) else zrange (lo + 1) hi.

(** The state of the link arrays once the nodes before [k] have run: their
    children are recorded, and each child records its parent. *)
Definition links_upto (mcodes : list Z) (fuel : nat) (k : Z) (st : Links)
  : Prop :=
  alen (lchildren st) = alen mcodes - 1 /\
  alen (rchildren st) = alen mcodes - 1 /\
  alen (parents st) = Z.of_nat (length mcodes) + (alen mcodes - 1) /\
  (forall i c1 c2, 0 <= i < k ->
     node_children fuel (alen mcodes - 1) mcodes i = Ok (c1, c2) ->
     code_at (lchildren st) i = c1 /\ code_at (rchildren st) i = c2 /\
     code_at (parents st) c1 = i /\ code_at (parents st) c2 = i) /\
  (0 < k -> code_at (parents st) 0 = -1).

(** An input of 2^24 + 2 sorted codes: 2^24 + 1 equal codes, then a larger
    one; with it the zero-initialised link arrays of the tree. *)
Definition defect_size : nat := Z.to_nat (2 ^ 24 + 1).

Definition defect_codes : list Z := repeat 0 defect_size ++ [1].

Definition defect_links0 : Links :=
  mkLinks (repeat 0 defect_size) (repeat 0 defect_size)
          (repeat 0 (defect_size + defect_size + 1)).

(** The box [propagate_aabbs] computes for a tree: a leaf has its sorted
    leaf box; at an internal node the walk arriving second, from the right
    child, adds the box of the left child to its own. *)
Fixpoint subtree_box {Box : Type} `{BoundingBox Box} (leaf_aabbs : list Box)
  (t : shape) : Box :=
  match t with
  | Leaf p => nth (Z.to_nat p) leaf_aabbs emptyBox
  | Node _ l r =>
      addBox (subtree_box leaf_aabbs r) (subtree_box leaf_aabbs l)
  end.

(** The effects of [atomic_increment] and [sync_store] on the state. *)
Definition incr_counter {Box : Type} (v : Z) (st : Propagation Box)
  : Propagation Box :=
  mkPropagation (inner_aabbs st)
    (upd (Z.to_nat v) (code_at (counters st) v + 1) (counters st))
    (v :: increments st) (stores st).

Definition store_box {Box : Type} (v : Z) (b : Box) (st : Propagation Box)
  : Propagation Box :=
  mkPropagation (upd (Z.to_nat v) b (inner_aabbs st)) (counters st)
    (increments st) (v :: stores st).

(** The state once the walks of all leaves of [t] have passed through [t]:
    below each internal node the left leaves run first and their last walk
    stops at the node, then the right leaves run and their last walk stores
    the box of the node. *)
Fixpoint finish {Box : Type} `{BoundingBox Box} (leaf_aabbs : list Box)
  (t : shape) (st : Propagation Box) : Propagation Box :=
  match t with
  | Leaf _ => st
  | Node v l r =>
      store_box v (subtree_box leaf_aabbs t)
        (incr_counter v
           (finish leaf_aabbs r (incr_counter v (finish leaf_aabbs l st))))
  end.

(** Number of internal nodes on the path from the last leaf up to the root
    of [t]. *)
Fixpoint rdepth (t : shape) : nat :=
  match t with
  | Leaf _ => O
  | Node _ _ r => S (rdepth r)
  end.



(** Every internal node of [t] has been visited twice and holds the box of
    its subtree. *)
Fixpoint boxes_done {Box : Type} `{BoundingBox Box} (leaf_aabbs : list Box)
  (st : Propagation Box) (t : shape) : Prop :=
  match t with
  | Leaf _ => True
  | Node v l r =>
      aget (inner_aabbs st) v = Ok (subtree_box leaf_aabbs t) /\
      code_at (counters st) v = 2 /\
      boxes_done leaf_aabbs st l /\ boxes_done leaf_aabbs st r
  end.

(** The box of node [c]: a sorted leaf box or an inner box. *)
Definition box_of {Box : Type} (inner_size : Z) (leaf_aabbs inner : list Box)
  (c : Z) : result Box :=
  if inner_size <=? c then aget leaf_aabbs (c - inner_size)
  else aget inner c.

(* ================================================================== *)
(** ** The remaining functions of the file and vocabulary for them *)

(** [morton64_encode]: each coordinate is scaled by 2^21 and clamped to
    [0, 2^21 - 1] before the conversion to [int64];
    [convertPointToMorton<int64>] is taken as a parameter. *)
Definition clamp21 (x : Q) : Z :=
  float_to_int (Qmin (Qmax (x * inject_Z 2097152)%Q 0%Q) (inject_Z 2097151)).

Definition morton64_encode (convertPointToMorton : list Z -> Z)
  (x y z : Q) : Z :=
  convertPointToMorton [clamp21 x; clamp21 y; clamp21 z].

(** Containment of boxes with rational corners: the empty box is inside
    every box, and a box with corners is inside another when it lies between
    the corners of the other along every axis of the other. *)
Definition qbox_encloses (outer inner : QBox) : Prop :=
  qbox_is_empty inner = true \/
  (qbox_is_empty outer = false /\
   forall k, (k < length (qmin outer))%nat -> (k < length (qmax outer))%nat ->
     (nth k (qmin outer) 0 <= nth k (qmin inner) 0)%Q /\
     (nth k (qmax inner) 0 <= nth k (qmax outer) 0)%Q).

(** The branch of [sort_mcodes] on [RAJA::stable_sort_pairs].  RAJA is not
    part of the repository; its sort of (key, value) pairs is modelled, as
    [std::stable_sort] is, by the stable insertion sort, here on the pairs
    (code, position) compared by code: the first [size] codes and positions
    are sorted together, in place. *)
Definition sort_mcodes_pairs (mcodes : list Z) (size : Z) (iter : list Z)
  : result (list Z * list Z) :=
  iter1 <- array_counting iter size 0 1 ;;
  let n := Z.to_nat size in
  let pairs :=
    stable_sort (fun p q : Z * Z => fst p <? fst q)
                (combine (firstn n mcodes) (firstn n iter1)) in
  Ok (map fst pairs ++ skipn n mcodes, map snd pairs ++ skipn n iter1).

(** What [build_radix_tree] relies on of the record [allocate] hands back:
    the two sizes and the length of every array, nothing about the entries. *)
Definition allocated {Box : Type} (size : Z) (t : RadixTree Box) : Prop :=
  m_size t = size /\ m_inner_size t = size - 1 /\
  alen (m_left_children t) = size - 1 /\
  alen (m_right_children t) = size - 1 /\
  alen (m_parents t) = size + (size - 1) /\
  alen (m_inner_aabbs t) = size - 1 /\
  alen (m_leafs t) = size /\
  alen (m_mcodes t) = size /\
  alen (m_leaf_aabbs t) = size.

(** [build_radix_tree] from the statement after [radix_tree.allocate] on,
    with the allocated record [t0] given: the stages up to and including
    [reorder], then the whole. *)
Definition sort_stage_on {Box : Type} `{BoundingBox Box}
  (convertPointToMorton : list Z -> Z) (t0 : RadixTree Box)
  (size : Z) (scale_factor : Q) (mem : Memory Box) : result (Memory Box) :=
  if size <=? 0 then AssertFailed
  else
    let t := t0 in
    aabbs <- transform_boxes (boxes mem) (m_leaf_aabbs t) size scale_factor ;;
    let t := with_leaf_aabbs t aabbs in
    bnds <- reduce (m_leaf_aabbs t) size ;;
    codes <- get_mcodes convertPointToMorton (m_leaf_aabbs t) size bnds
               (m_mcodes t) ;;
    let t := with_mcodes t codes in
    sorted <- sort_mcodes (m_mcodes t) size (m_leafs t) ;;
    let t := with_leafs (with_mcodes t (fst sorted)) (snd sorted) in
    aabbs' <- reorder (m_leafs t) (m_leaf_aabbs t) size ;;
    let t := with_leaf_aabbs t aabbs' in
    Ok (mkMemory (boxes mem) bnds t).

Definition build_radix_tree_on {Box : Type} `{BoundingBox Box}
  (convertPointToMorton : list Z -> Z) (t0 : RadixTree Box) (fuel : nat)
  (size : Z) (scale_factor : Q) (mem : Memory Box) : result (Memory Box) :=
  mem1 <- sort_stage_on convertPointToMorton t0 size scale_factor mem ;;
  t <- build_tree fuel (radix_tree mem1) ;;
  t <- propagate_aabbs fuel t ;;
  Ok (mkMemory (boxes mem1) (bounds mem1) t).
(* ================================================================== *)
(* ================================================================== *)
(** * Properties *)

(** ** Arrays *)

Lemma alen_nonneg {A : Type} (a : list A) : 0 <= alen a.
Proof. unfold alen; lia. Qed.

Lemma aget_ok {A : Type} (a : list A) (i : Z) (d : A) :
  0 <= i < alen a -> aget a i = Ok (nth (Z.to_nat i) a d).
Proof.
  intros Hi. unfold aget, alen in *.
  destruct (i <? 0) eqn:E; [apply Z.ltb_lt in E; lia|].
  destruct (nth_error a (Z.to_nat i)) eqn:En.
  - erewrite nth_error_nth; eauto.
  - apply nth_error_None in En. lia.
Qed.

Lemma aget_inv {A : Type} (a : list A) (i : Z) (x : A) :
  aget a i = Ok x -> 0 <= i < alen a /\ nth_error a (Z.to_nat i) = Some x.
Proof.
  unfold aget, alen. destruct (i <? 0) eqn:E; [discriminate|].
  apply Z.ltb_ge in E.
  destruct (nth_error a (Z.to_nat i)) eqn:En; [|discriminate].
  intros H; inversion H; subst. split; [|reflexivity].
  assert (Z.to_nat i < length a)%nat by (apply nth_error_Some; congruence).
  lia.
Qed.

Lemma aget_oob {A : Type} (a : list A) (i : Z) :
  ~ (0 <= i < alen a) -> aget a i = OutOfBounds.
Proof.
  intros Hi. unfold aget, alen in *.
  destruct (i <? 0) eqn:E; [reflexivity|]. apply Z.ltb_ge in E.
  destruct (nth_error a (Z.to_nat i)) eqn:En; [|reflexivity].
  assert (Z.to_nat i < length a)%nat by (apply nth_error_Some; congruence).
  lia.
Qed.

Lemma upd_length {A : Type} (k : nat) (v : A) (a : list A) :
  length (upd k v a) = length a.
Proof.
  revert k; induction a as [|x t IH]; intros [|k]; simpl; auto.
Qed.

Lemma upd_nth_same {A : Type} (k : nat) (v d : A) (a : list A) :
  (k < length a)%nat -> nth k (upd k v a) d = v.
Proof.
  revert k; induction a as [|x t IH]; intros [|k] Hk; simpl in *;
    try lia; auto; try (apply IH; lia).
Qed.

Lemma upd_nth_other {A : Type} (k m : nat) (v d : A) (a : list A) :
  k <> m -> nth m (upd k v a) d = nth m a d.
Proof.
  revert k m; induction a as [|x t IH]; intros [|k] [|m] Hkm; simpl;
    auto; try lia; try (apply IH; lia).
Qed.

Lemma aset_ok {A : Type} (a : list A) (i : Z) (v : A) :
  0 <= i < alen a -> aset a i v = Ok (upd (Z.to_nat i) v a).
Proof.
  intros Hi. unfold aset.
  replace (0 <=? i) with true by (symmetry; apply Z.leb_le; lia).
  replace (i <? alen a) with true by (symmetry; apply Z.ltb_lt; lia).
  reflexivity.
Qed.

Lemma aset_inv {A : Type} (a a' : list A) (i : Z) (v : A) :
  aset a i v = Ok a' -> 0 <= i < alen a /\ a' = upd (Z.to_nat i) v a.
Proof.
  unfold aset. destruct (0 <=? i) eqn:E1; simpl; [|discriminate].
  destruct (i <? alen a) eqn:E2; [|discriminate].
  apply Z.leb_le in E1. apply Z.ltb_lt in E2.
  intros H; inversion H; auto.
Qed.

Lemma aset_oob {A : Type} (a : list A) (i : Z) (v : A) :
  ~ (0 <= i < alen a) -> aset a i v = OutOfBounds.
Proof.
  intros Hi. unfold aset.
  destruct (0 <=? i) eqn:E1; simpl; [|reflexivity].
  destruct (i <? alen a) eqn:E2; [|reflexivity].
  apply Z.leb_le in E1. apply Z.ltb_lt in E2. lia.
Qed.

Lemma alen_upd {A : Type} (k : nat) (v : A) (a : list A) :
  alen (upd k v a) = alen a.
Proof. unfold alen. now rewrite upd_length. Qed.

(** ** leadingZeros *)

Lemma clz_from_ext (k : nat) (x y : Z) :
  (forall i, 0 <= i < Z.of_nat k -> Z.testbit x i = Z.testbit y i) ->
  clz_from k x = clz_from k y.
Proof.
  induction k as [|k IH]; intros Hb; [reflexivity|].
  cbn [clz_from]. rewrite (Hb (Z.of_nat k)) by lia.
  rewrite IH; [reflexivity|]. intros i Hi. apply Hb. lia.
Qed.

Lemma clz_from_range (k : nat) (x : Z) : 0 <= clz_from k x <= Z.of_nat k.
Proof.
  induction k as [|k IH]; cbn [clz_from]; [lia|].
  destruct (Z.testbit x (Z.of_nat k)); lia.
Qed.

Lemma leadingZeros_range (x : Z) : 0 <= leadingZeros x <= 32.
Proof. unfold leadingZeros. pose proof (clz_from_range 32 x). lia. Qed.

Lemma leadingZeros_uint32 (x : Z) : leadingZeros (uint32 x) = leadingZeros x.
Proof.
  unfold leadingZeros, uint32. apply clz_from_ext. intros i Hi.
  apply Z.mod_pow2_bits_low. lia.
Qed.

Lemma leadingZeros_lxor_uint32 (a b : Z) :
  leadingZeros (Z.lxor (uint32 a) (uint32 b)) = leadingZeros (Z.lxor a b).
Proof.
  unfold leadingZeros, uint32. apply clz_from_ext. intros i Hi.
  rewrite !Z.lxor_spec, !Z.mod_pow2_bits_low by lia. reflexivity.
Qed.

Lemma clz_from_zero (k : nat) : clz_from k 0 = Z.of_nat k.
Proof.
  induction k as [|k IH]; cbn [clz_from]; [reflexivity|].
  rewrite Z.bits_0, IH. lia.
Qed.

Lemma clz_from_log2 (k : nat) (x : Z) :
  0 < x < 2 ^ Z.of_nat k -> clz_from k x = Z.of_nat k - 1 - Z.log2 x.
Proof.
  induction k as [|k IH]; intros Hx.
  - simpl in Hx. lia.
  - cbn [clz_from]. rewrite Nat2Z.inj_succ, Z.pow_succ_r in Hx by lia.
    destruct (Z.testbit x (Z.of_nat k)) eqn:Eb.
    + assert (Z.of_nat k <= Z.log2 x).
      { destruct (Z.le_gt_cases (Z.of_nat k) (Z.log2 x)) as [L|G]; auto.
        rewrite Z.bits_above_log2 in Eb by lia. discriminate. }
      assert (Z.log2 x < Z.of_nat k + 1).
      { assert (Hp : x < 2 ^ (Z.of_nat k + 1))
          by (rewrite Z.pow_add_r by lia; lia).
        apply Z.log2_lt_pow2 in Hp; lia. }
      lia.
    + assert (x < 2 ^ Z.of_nat k).
      { destruct (Z.lt_ge_cases x (2 ^ Z.of_nat k)) as [L|G]; auto.
        assert (Z.log2 x = Z.of_nat k).
        { apply Z.log2_unique; [lia|]. rewrite Z.pow_succ_r by lia. lia. }
        rewrite <- H in Eb. rewrite Z.bit_log2 in Eb by lia. discriminate. }
      rewrite IH by lia. lia.
Qed.

Lemma leadingZeros_log2 (x : Z) :
  0 < x < 2 ^ 32 -> leadingZeros x = 31 - Z.log2 x.
Proof.
  intros Hx. unfold leadingZeros. rewrite clz_from_log2; simpl; lia.
Qed.

(** ** delta *)

Lemma delta_in_range (a b inner_size : Z) (mcodes : list Z) :
  0 <= a < alen mcodes -> 0 <= b <= inner_size -> b < alen mcodes ->
  delta a b inner_size mcodes =
    Ok (if code_at mcodes a =? code_at mcodes b
        then 32 + leadingZeros (Z.lxor a b)
        else leadingZeros (Z.lxor (code_at mcodes a) (code_at mcodes b))).
Proof.
  intros Ha Hb Hb'. unfold delta, code_at.
  replace (b <? 0) with false by (symmetry; apply Z.ltb_ge; lia).
  replace (inner_size <? b) with false by (symmetry; apply Z.ltb_ge; lia).
  cbn [orb].
  rewrite (aget_ok mcodes a 0), (aget_ok mcodes b 0) by lia. cbn [bind].
  set (ca := nth (Z.to_nat a) mcodes 0). set (cb := nth (Z.to_nat b) mcodes 0).
  destruct (Z.lxor ca cb =? 0) eqn:E.
  - apply Z.eqb_eq, Z.lxor_eq in E. rewrite E, Z.eqb_refl.
    rewrite leadingZeros_lxor_uint32. f_equal. lia.
  - apply Z.eqb_neq in E.
    destruct (ca =? cb) eqn:E'; [|reflexivity].
    apply Z.eqb_eq in E'. rewrite E', Z.lxor_nilpotent in E. congruence.
Qed.

Lemma delta_out_of_range (a b inner_size : Z) (mcodes : list Z) :
  0 <= a < alen mcodes -> b < 0 \/ inner_size < b ->
  delta a b inner_size mcodes = Ok (-1).
Proof.
  intros Ha Hb. unfold delta.
  assert (E : (b <? 0) || (inner_size <? b) = true).
  { apply orb_true_iff. destruct Hb; [left; apply Z.ltb_lt|right; apply Z.ltb_lt]; lia. }
  rewrite E. rewrite (aget_ok mcodes a 0), (aget_ok mcodes 0 0) by lia.
  reflexivity.
Qed.

(** C3.  For a sorted position [a] of an array of [n] codes and every
    integer [b], [delta a b] returns -1 exactly when [b] is outside
    [0, n-1]; inside, it is the number of leading zero bits of the XOR of
    the two codes, and 32 plus the number of leading zero bits of the XOR
    of the two positions when the codes are identical. *)
Theorem delta_spec (mcodes : list Z) (a b : Z) :
  0 <= a <= alen mcodes - 1 ->
  exists r,
    delta a b (alen mcodes - 1) mcodes = Ok r /\
    (r = -1 <-> ~ (0 <= b <= alen mcodes - 1)) /\
    (0 <= b <= alen mcodes - 1 ->
     r = if code_at mcodes a =? code_at mcodes b
         then 32 + leadingZeros (Z.lxor a b)
         else leadingZeros (Z.lxor (code_at mcodes a) (code_at mcodes b))).
Proof.
  intros Ha.
  destruct (Z.lt_ge_cases b 0) as [Hneg|Hpos];
    [|destruct (Z.lt_ge_cases (alen mcodes - 1) b) as [Hbig|Hin]].
  - exists (-1). rewrite delta_out_of_range by lia.
    split; [reflexivity|]. split; [|lia]. split; intros; lia.
  - exists (-1). rewrite delta_out_of_range by lia.
    split; [reflexivity|]. split; [|lia]. split; intros; lia.
  - eexists. rewrite delta_in_range by lia. split; [reflexivity|].
    split; [|reflexivity].
    pose proof (leadingZeros_range (Z.lxor a b)).
    pose proof (leadingZeros_range
                  (Z.lxor (code_at mcodes a) (code_at mcodes b))).
    destruct (code_at mcodes a =? code_at mcodes b); split; intros; lia.
Qed.

Lemma delta_spec_witness :
  exists r,
    delta 0 1 (alen [5; 5; 9] - 1) [5; 5; 9] = Ok r /\
    (r = -1 <-> ~ (0 <= 1 <= alen [5; 5; 9] - 1)) /\
    (0 <= 1 <= alen [5; 5; 9] - 1 ->
     r = if code_at [5; 5; 9] 0 =? code_at [5; 5; 9] 1
         then 32 + leadingZeros (Z.lxor 0 1)
         else leadingZeros (Z.lxor (code_at [5; 5; 9] 0) (code_at [5; 5; 9] 1))).
Proof. apply (delta_spec [5; 5; 9] 0 1). simpl. lia. Defined.

(* ================================================================== *)
(** ** The highest bit in which two numbers differ *)

Lemma bit_split (w h : Z) :
  0 <= h ->
  w = 2 ^ (h + 1) * (w / 2 ^ (h + 1)) + 2 ^ h * Z.b2z (Z.testbit w h)
      + w mod 2 ^ h.
Proof.
  intros Hh. rewrite Z.testbit_spec' by lia.
  assert (P : 0 < 2 ^ h) by (apply Z.pow_pos_nonneg; lia).
  rewrite Z.pow_add_r, Z.pow_1_r by lia.
  rewrite <- Z.div_div by lia.
  rewrite (Z.div_mod w (2 ^ h)) at 1 by lia.
  rewrite (Z.div_mod (w / 2 ^ h) 2) at 1 by lia.
  ring.
Qed.

Lemma above_eq_div (x y h : Z) :
  0 <= h ->
  (forall m, h < m -> Z.testbit x m = Z.testbit y m) ->
  x / 2 ^ (h + 1) = y / 2 ^ (h + 1).
Proof.
  intros Hh Hab. apply Z.bits_inj'. intros m Hm.
  rewrite !Z.div_pow2_bits by lia. apply Hab. lia.
Qed.

Lemma lt_by_bits (x y h : Z) :
  0 <= h ->
  (forall m, h < m -> Z.testbit x m = Z.testbit y m) ->
  Z.testbit x h = false -> Z.testbit y h = true -> x < y.
Proof.
  intros Hh Hab Hx Hy.
  pose proof (bit_split x h Hh) as Ex. pose proof (bit_split y h Hh) as Ey.
  rewrite Hx in Ex. rewrite Hy in Ey.
  rewrite (above_eq_div x y h Hh Hab) in Ex.
  assert (P : 0 < 2 ^ h) by (apply Z.pow_pos_nonneg; lia).
  pose proof (Z.mod_pos_bound x (2 ^ h) P).
  pose proof (Z.mod_pos_bound y (2 ^ h) P).
  cbn [Z.b2z] in Ex, Ey. lia.
Qed.

Lemma highest_diff (x y : Z) :
  0 <= x -> 0 <= y -> x <> y ->
  0 <= Z.log2 (Z.lxor x y) /\
  Z.testbit x (Z.log2 (Z.lxor x y)) <> Z.testbit y (Z.log2 (Z.lxor x y)) /\
  (forall m, Z.log2 (Z.lxor x y) < m -> Z.testbit x m = Z.testbit y m).
Proof.
  intros Hx Hy Hne.
  assert (Hw : 0 < Z.lxor x y).
  { assert (0 <= Z.lxor x y) by (apply Z.lxor_nonneg; tauto).
    assert (Z.lxor x y <> 0) by (intros E; apply Z.lxor_eq in E; auto).
    lia. }
  split; [apply Z.log2_nonneg|]. split.
  - pose proof (Z.bit_log2 _ Hw) as Hb. rewrite Z.lxor_spec in Hb.
    destruct (Z.testbit x _), (Z.testbit y _); simpl in Hb; congruence.
  - intros m Hm.
    assert (Hb : Z.testbit (Z.lxor x y) m = false)
      by (apply Z.bits_above_log2; lia).
    rewrite Z.lxor_spec in Hb.
    destruct (Z.testbit x m), (Z.testbit y m); simpl in Hb; congruence.
Qed.

Lemma lt_highest_diff (x y : Z) :
  0 <= x < y ->
  Z.testbit x (Z.log2 (Z.lxor x y)) = false /\
  Z.testbit y (Z.log2 (Z.lxor x y)) = true.
Proof.
  intros Hxy.
  destruct (highest_diff x y) as (Hh & Hd & Hab); try lia.
  destruct (Z.testbit x (Z.log2 (Z.lxor x y))) eqn:Ex,
           (Z.testbit y (Z.log2 (Z.lxor x y))) eqn:Ey; try congruence; auto.
  exfalso.
  assert (y < x); [|lia].
  apply (lt_by_bits y x (Z.log2 (Z.lxor x y))); auto.
  intros m Hm. symmetry. auto.
Qed.

Lemma log2_lxor_unique (x y h : Z) :
  0 <= h ->
  Z.testbit x h <> Z.testbit y h ->
  (forall m, h < m -> Z.testbit x m = Z.testbit y m) ->
  Z.log2 (Z.lxor x y) = h.
Proof.
  intros Hh Hd Hab. apply Z.log2_bits_unique.
  - rewrite Z.lxor_spec.
    destruct (Z.testbit x h), (Z.testbit y h); simpl; congruence.
  - intros m Hm. rewrite Z.lxor_spec, (Hab m Hm). apply xorb_nilpotent.
Qed.

(** Between three increasing numbers the two outer ones first differ at the
    higher of the two places where neighbours first differ, and those two
    places are distinct. *)
Lemma highest_diff_chain (x y z : Z) :
  0 <= x < y -> y < z ->
  Z.log2 (Z.lxor x y) <> Z.log2 (Z.lxor y z) /\
  Z.log2 (Z.lxor x z) = Z.max (Z.log2 (Z.lxor x y)) (Z.log2 (Z.lxor y z)).
Proof.
  intros Hxy Hyz.
  destruct (highest_diff x y) as (H1 & D1 & A1); try lia.
  destruct (highest_diff y z) as (H2 & D2 & A2); try lia.
  destruct (lt_highest_diff x y Hxy) as (X1 & Y1).
  destruct (lt_highest_diff y z) as (Y2 & Z2); [lia|].
  set (h1 := Z.log2 (Z.lxor x y)) in *. set (h2 := Z.log2 (Z.lxor y z)) in *.
  assert (Hne : h1 <> h2) by (intros E; rewrite E in Y1; congruence).
  split; [exact Hne|].
  destruct (Z.lt_ge_cases h1 h2) as [L|G].
  - rewrite Z.max_r by lia. apply log2_lxor_unique; auto.
    + rewrite (A1 h2 L). exact D2.
    + intros m Hm. rewrite (A1 m) by lia. apply A2; lia.
  - rewrite Z.max_l by lia. apply log2_lxor_unique; auto.
    + rewrite <- (A2 h1) by lia. exact D1.
    + intros m Hm. rewrite <- (A2 m) by lia. apply A1; lia.
Qed.

(* ================================================================== *)
(** ** Sorted code arrays and the metric [delta] induces on positions *)

Lemma delta_dval (mcodes : list Z) (a b : Z) :
  0 <= a < alen mcodes ->
  delta a b (alen mcodes - 1) mcodes = Ok (dval mcodes a b).
Proof.
  intros Ha. unfold dval.
  destruct ((b <? 0) || (alen mcodes - 1 <? b)) eqn:E.
  - apply delta_out_of_range; auto. apply orb_true_iff in E.
    destruct E as [E|E]; apply Z.ltb_lt in E; lia.
  - apply orb_false_iff in E. destruct E as [E1 E2].
    apply Z.ltb_ge in E1, E2. apply delta_in_range; lia.
Qed.

Lemma is_sorted_cons (x : Z) (l : list Z) :
  is_sorted (x :: l) = true ->
  is_sorted l = true /\ forall y, In y l -> x <= y.
Proof.
  revert x. induction l as [|y l IH]; intros x H.
  - split; [reflexivity|]. intros y [].
  - cbn [is_sorted] in H. apply andb_true_iff in H. destruct H as [H1 H2].
    apply Z.leb_le in H1. split; [exact H2|].
    intros z [->|Hz]; [lia|]. destruct (IH y H2) as [_ Hall].
    specialize (Hall z Hz). lia.
Qed.

Lemma is_sorted_nth (l : list Z) (p q : nat) :
  is_sorted l = true -> (p <= q < length l)%nat -> nth p l 0 <= nth q l 0.
Proof.
  revert p q. induction l as [|x l IH]; intros p q Hs Hpq; [simpl in Hpq; lia|].
  destruct (is_sorted_cons x l Hs) as [Hs' Hall].
  destruct p as [|p], q as [|q]; simpl in *; try lia.
  - apply Hall. apply nth_In. lia.
  - apply IH; auto. lia.
Qed.

Lemma sorted_code_le (mcodes : list Z) (a b : Z) :
  is_sorted mcodes = true -> 0 <= a <= b -> b < alen mcodes ->
  code_at mcodes a <= code_at mcodes b.
Proof.
  intros Hs Hab Hb. unfold code_at, alen in *. apply is_sorted_nth; auto. lia.
Qed.

Lemma code_at_range (mcodes : list Z) (a : Z) :
  all_uint32 mcodes = true -> 0 <= a < alen mcodes ->
  0 <= code_at mcodes a < 2 ^ 32.
Proof.
  intros Hu Ha. unfold all_uint32 in Hu. rewrite forallb_forall in Hu.
  unfold code_at, alen in *.
  assert (Hin : In (nth (Z.to_nat a) mcodes 0) mcodes) by (apply nth_In; lia).
  apply Hu in Hin. apply andb_true_iff in Hin. destruct Hin as [H1 H2].
  apply Z.leb_le in H1. apply Z.ltb_lt in H2. lia.
Qed.

Lemma testbit_above (a k m : Z) :
  0 <= a < 2 ^ k -> 0 <= k <= m -> Z.testbit a m = false.
Proof.
  intros Ha Hk. destruct (Z.eq_dec a 0) as [->|Hne]; [apply Z.bits_0|].
  apply Z.bits_above_log2; [lia|].
  assert (Z.log2 a < k) by (apply Z.log2_lt_pow2; lia). lia.
Qed.

Lemma lxor_bound (a b k : Z) :
  0 <= k -> 0 <= a < 2 ^ k -> 0 <= b < 2 ^ k -> 0 <= Z.lxor a b < 2 ^ k.
Proof.
  intros Hk Ha Hb.
  assert (E : Z.lxor a b mod 2 ^ k = Z.lxor a b).
  { apply Z.bits_inj'. intros m Hm. destruct (Z.lt_ge_cases m k) as [L|G].
    - apply Z.mod_pow2_bits_low; lia.
    - rewrite Z.mod_pow2_bits_high by lia.
      rewrite Z.lxor_spec, (testbit_above a k m), (testbit_above b k m); auto; lia. }
  rewrite <- E. apply Z.mod_pos_bound. apply Z.pow_pos_nonneg; lia.
Qed.

Section Keys.
Variable mcodes : list Z.
Hypothesis Hsorted : is_sorted mcodes = true.
Hypothesis Huint : all_uint32 mcodes = true.
Hypothesis Hsize : alen mcodes <= 2 ^ 32.

Let inr (a : Z) : Prop := 0 <= a < alen mcodes.

Lemma key_bits (a m : Z) :
  inr a -> 0 <= m ->
  Z.testbit (key mcodes a) m =
    if m <? 32 then Z.testbit a m else Z.testbit (code_at mcodes a) (m - 32).
Proof.
  intros Ha Hm. unfold key, inr in *.
  destruct (m <? 32) eqn:E.
  - apply Z.ltb_lt in E.
    rewrite <- (Z.mod_pow2_bits_low (code_at mcodes a * 2 ^ 32 + a) 32 m) by lia.
    rewrite Z.add_comm, Z.mod_add by lia.
    rewrite Z.mod_small by lia. reflexivity.
  - apply Z.ltb_ge in E.
    replace m with ((m - 32) + 32) at 1 by lia.
    rewrite <- Z.div_pow2_bits by lia.
    rewrite Z.add_comm, Z.div_add by lia.
    rewrite Z.div_small by lia. reflexivity.
Qed.

Lemma key_nonneg (a : Z) : inr a -> 0 <= key mcodes a.
Proof.
  intros Ha. unfold key. pose proof (code_at_range mcodes a Huint Ha).
  unfold inr in Ha. lia.
Qed.

Lemma key_lt (a b : Z) : inr a -> inr b -> a < b -> key mcodes a < key mcodes b.
Proof.
  intros Ha Hb Hab. unfold key, inr in *.
  assert (code_at mcodes a <= code_at mcodes b)
    by (apply sorted_code_le; auto; lia).
  lia.
Qed.

Lemma dval_key (a b : Z) :
  inr a -> inr b -> a <> b ->
  dval mcodes a b = 63 - Z.log2 (Z.lxor (key mcodes a) (key mcodes b)).
Proof.
  intros Ha Hb Hne. unfold dval.
  pose proof (code_at_range mcodes a Huint Ha) as Ca.
  pose proof (code_at_range mcodes b Huint Hb) as Cb.
  unfold inr in Ha, Hb.
  replace (b <? 0) with false by (symmetry; apply Z.ltb_ge; lia).
  replace (alen mcodes - 1 <? b) with false by (symmetry; apply Z.ltb_ge; lia).
  cbn [orb].
  destruct (code_at mcodes a =? code_at mcodes b) eqn:E.
  - apply Z.eqb_eq in E.
    destruct (highest_diff a b) as (Hh & Hd & Hab); try lia.
    assert (Hx : 0 <= Z.lxor a b < 2 ^ 32) by (apply lxor_bound; lia).
    assert (Hx0 : Z.lxor a b <> 0) by (intros E0; apply Z.lxor_eq in E0; auto).
    assert (Hlt : Z.log2 (Z.lxor a b) < 32) by (apply Z.log2_lt_pow2; lia).
    rewrite leadingZeros_log2 by lia.
    rewrite (log2_lxor_unique (key mcodes a) (key mcodes b) (Z.log2 (Z.lxor a b)));
      [lia|lia| |].
    + rewrite !key_bits by (unfold inr; lia).
      replace (Z.log2 (Z.lxor a b) <? 32) with true
        by (symmetry; apply Z.ltb_lt; lia). exact Hd.
    + intros m Hm. rewrite !key_bits by (unfold inr; lia).
      destruct (m <? 32); [apply Hab; lia|]. now rewrite E.
  - apply Z.eqb_neq in E.
    destruct (highest_diff (code_at mcodes a) (code_at mcodes b))
      as (Hh & Hd & Hab); try lia.
    assert (Hx : 0 <= Z.lxor (code_at mcodes a) (code_at mcodes b) < 2 ^ 32)
      by (apply lxor_bound; lia).
    assert (Hx0 : Z.lxor (code_at mcodes a) (code_at mcodes b) <> 0)
      by (intros E0; apply Z.lxor_eq in E0; auto).
    rewrite leadingZeros_log2 by lia.
    set (h := Z.log2 (Z.lxor (code_at mcodes a) (code_at mcodes b))) in *.
    rewrite (log2_lxor_unique (key mcodes a) (key mcodes b) (32 + h));
      [lia|lia| |].
    + rewrite !key_bits by (unfold inr; lia).
      replace (32 + h <? 32) with false by (symmetry; apply Z.ltb_ge; lia).
      replace (32 + h - 32) with h by lia. exact Hd.
    + intros m Hm. rewrite !key_bits by (unfold inr; lia).
      replace (m <? 32) with false by (symmetry; apply Z.ltb_ge; lia).
      apply Hab. lia.
Qed.

Lemma dval_sym (a b : Z) : inr a -> inr b -> dval mcodes a b = dval mcodes b a.
Proof.
  intros Ha Hb. unfold dval, inr in *.
  replace (b <? 0) with false by (symmetry; apply Z.ltb_ge; lia).
  replace (a <? 0) with false by (symmetry; apply Z.ltb_ge; lia).
  replace (alen mcodes - 1 <? b) with false by (symmetry; apply Z.ltb_ge; lia).
  replace (alen mcodes - 1 <? a) with false by (symmetry; apply Z.ltb_ge; lia).
  cbn [orb]. rewrite (Z.eqb_sym (code_at mcodes a)).
  rewrite (Z.lxor_comm a b), (Z.lxor_comm (code_at mcodes a)). reflexivity.
Qed.

Lemma dval_self (a : Z) : inr a -> dval mcodes a a = 64.
Proof.
  intros Ha. unfold dval, inr in *.
  replace (a <? 0) with false by (symmetry; apply Z.ltb_ge; lia).
  replace (alen mcodes - 1 <? a) with false by (symmetry; apply Z.ltb_ge; lia).
  cbn [orb]. rewrite Z.eqb_refl, Z.lxor_nilpotent. reflexivity.
Qed.

Lemma dval_outside (a b : Z) : ~ inr b -> dval mcodes a b = -1.
Proof.
  intros Hb. unfold dval, inr in *.
  destruct ((b <? 0) || (alen mcodes - 1 <? b)) eqn:E; [reflexivity|].
  apply orb_false_iff in E. destruct E as [E1 E2].
  apply Z.ltb_ge in E1, E2. lia.
Qed.

Lemma dval_bounds (a b : Z) :
  inr a -> inr b -> a <> b -> 0 <= dval mcodes a b <= 63.
Proof.
  intros Ha Hb Hne. rewrite dval_key by auto.
  pose proof (key_nonneg a Ha). pose proof (key_nonneg b Hb).
  assert (Hk : key mcodes a < 2 ^ 64 /\ key mcodes b < 2 ^ 64).
  { pose proof (code_at_range mcodes a Huint Ha).
    pose proof (code_at_range mcodes b Huint Hb).
    unfold key, inr in *. change (2 ^ 64) with (2 ^ 32 * 2 ^ 32). nia. }
  assert (Hx : 0 <= Z.lxor (key mcodes a) (key mcodes b) < 2 ^ 64)
    by (apply lxor_bound; lia).
  pose proof (Z.log2_nonneg (Z.lxor (key mcodes a) (key mcodes b))).
  assert (Hx0 : Z.lxor (key mcodes a) (key mcodes b) <> 0).
  { intros E0. apply Z.lxor_eq in E0. unfold key in E0.
    assert (a < b \/ b < a) as [L|L] by lia;
      [pose proof (key_lt a b Ha Hb L)|pose proof (key_lt b a Hb Ha L)];
      unfold key in *; lia. }
  assert (Z.log2 (Z.lxor (key mcodes a) (key mcodes b)) < 64)
    by (apply Z.log2_lt_pow2; lia).
  lia.
Qed.

Lemma dval_chain_strict (a b c : Z) :
  inr a -> inr c -> a < b < c ->
  dval mcodes a b <> dval mcodes b c /\
  dval mcodes a c = Z.min (dval mcodes a b) (dval mcodes b c).
Proof.
  intros Ha Hc Hab.
  assert (Hb : inr b) by (unfold inr in *; lia).
  rewrite !dval_key by (auto; lia).
  destruct (highest_diff_chain (key mcodes a) (key mcodes b) (key mcodes c))
    as [Hne Hmax].
  - split; [apply key_nonneg; auto|apply key_lt; auto; lia].
  - apply key_lt; auto; lia.
  - rewrite Hmax. lia.
Qed.

(** The common prefix of a range is the shortest common prefix found
    inside it. *)
Lemma dval_chain (a b c : Z) :
  inr a -> inr c -> a <= b <= c ->
  dval mcodes a c = Z.min (dval mcodes a b) (dval mcodes b c).
Proof.
  intros Ha Hc Hab.
  assert (Hb : inr b) by (unfold inr in *; lia).
  destruct (Z.eq_dec a b) as [->|Hn1].
  - rewrite (dval_self b) by auto.
    destruct (Z.eq_dec b c) as [->|Hn].
    + rewrite dval_self by auto. lia.
    + pose proof (dval_bounds b c Hb Hc Hn). lia.
  - destruct (Z.eq_dec b c) as [->|Hn2].
    + rewrite (dval_self c) by auto.
      pose proof (dval_bounds a c Ha Hc Hn1). lia.
    + apply dval_chain_strict; auto. lia.
Qed.

Lemma dval_mono_r (a b c : Z) :
  inr a -> inr c -> a <= b <= c -> dval mcodes a c <= dval mcodes a b.
Proof. intros. rewrite (dval_chain a b c) by auto. lia. Qed.

Lemma dval_mono_l (a b c : Z) :
  inr a -> inr c -> a <= b <= c -> dval mcodes a c <= dval mcodes b c.
Proof. intros. rewrite (dval_chain a b c) by auto. lia. Qed.

End Keys.

(* ================================================================== *)
(** ** The three loops of the body of [build_tree] *)

Lemma pow2_pos (e : nat) : 0 < 2 ^ Z.of_nat e.
Proof. apply Z.pow_pos_nonneg; lia. Qed.

Lemma pow2_succ (e : nat) : 2 ^ Z.of_nat (S e) = 2 ^ Z.of_nat e * 2.
Proof. rewrite Nat2Z.inj_succ, Z.pow_succ_r by lia. lia. Qed.

Lemma pow2_ge (e : nat) : Z.of_nat e < 2 ^ Z.of_nat e.
Proof. apply Z.pow_gt_lin_r; lia. Qed.

Lemma ceil_div_bounds (x y : Z) :
  0 < y -> x <= ceil_div x y * y < x + y.
Proof.
  intros Hy. unfold ceil_div.
  pose proof (Z.div_mod (- x) y). pose proof (Z.mod_pos_bound (- x) y Hy). nia.
Qed.

Lemma ceil_div_one (x y : Z) : 0 < y -> (ceil_div x y = 1 <-> 0 < x <= y).
Proof.
  intros Hy. pose proof (ceil_div_bounds x y Hy). split; intros; nia.
Qed.

Lemma ceil_div_double (x y : Z) :
  0 < y -> ceil_div x (y * 2) = ceil_div (ceil_div x y) 2.
Proof.
  intros Hy. unfold ceil_div. rewrite Z.opp_involutive.
  rewrite Z.div_div by lia. reflexivity.
Qed.

Lemma float32_of_int_exact (l : Z) : l <= 2 ^ 24 -> float32_of_int l = l.
Proof.
  intros Hl. unfold float32_of_int.
  destruct (Z.log2 l <? 24) eqn:E; [reflexivity|].
  apply Z.ltb_ge in E.
  assert (0 < l) by (destruct (Z.lt_ge_cases 0 l); auto;
                      rewrite Z.log2_nonpos in E by lia; lia).
  assert (Z.log2 l <= 24).
  { pose proof (Z.log2_le_mono l (2 ^ 24) Hl) as Hm.
    rewrite Z.log2_pow2 in Hm by lia. exact Hm. }
  assert (E24 : Z.log2 l = 24) by lia.
  assert (l = 2 ^ 24).
  { pose proof (Z.log2_spec l H). rewrite E24 in H1. lia. }
  subst l. reflexivity.
Qed.

Lemma float32_of_int_bounds (l : Z) :
  1 <= l < 2 ^ 31 -> 1 <= float32_of_int l <= 2 ^ 31.
Proof.
  intros Hl. unfold float32_of_int.
  destruct (Z.log2 l <? 24) eqn:E; [lia|]. apply Z.ltb_ge in E.
  pose proof (Z.log2_spec l ltac:(lia)) as [Hlo Hhi].
  assert (He : Z.log2 l < 31) by (apply Z.log2_lt_pow2; lia).
  set (e := Z.log2 l) in *. set (sh := e - 23).
  assert (Hsh : 1 <= sh <= 7) by (unfold sh; lia).
  assert (P : 0 < 2 ^ sh) by (apply Z.pow_pos_nonneg; lia).
  assert (E1 : 2 ^ e = 2 ^ 23 * 2 ^ sh).
  { unfold sh. rewrite <- Z.pow_add_r by lia. f_equal. lia. }
  assert (E2 : 2 ^ Z.succ e = 2 ^ 24 * 2 ^ sh).
  { unfold sh. rewrite <- Z.pow_add_r by lia. f_equal. lia. }
  rewrite Z.shiftr_div_pow2 by lia.
  set (q := l / 2 ^ sh).
  assert (Hq : 2 ^ 23 <= q < 2 ^ 24).
  { unfold q. split.
    - apply Z.div_le_lower_bound; lia.
    - apply Z.div_lt_upper_bound; lia. }
  match goal with
  | |- context [if ?c then q + 1 else q] =>
      set (q' := if c then q + 1 else q);
      assert (Hq' : q <= q' <= q + 1) by (unfold q'; destruct c; lia)
  end.
  rewrite Z.shiftl_mul_pow2 by lia.
  assert (2 ^ sh <= 2 ^ 7) by (apply Z.pow_le_mono_r; lia).
  split; [nia|]. change (2 ^ 31) with (2 ^ 24 * 2 ^ 7). nia.
Qed.

Section Loops.
Variable mcodes : list Z.
Variable i : Z.
Hypothesis Hi : 0 <= i < alen mcodes.

Let inner_size := alen mcodes - 1.

Lemma doubling_loop_step (f : nat) (d md lmax : Z) :
  doubling_loop (S f) i d md inner_size mcodes lmax =
    if probe mcodes i d md lmax
    then doubling_loop f i d md inner_size mcodes (lmax * 2)
    else Ok lmax.
Proof.
  cbn [doubling_loop]. unfold inner_size. rewrite delta_dval by exact Hi.
  reflexivity.
Qed.

Lemma range_loop_step (f : nat) (d md l t : Z) :
  range_loop (S f) i d md inner_size mcodes l t =
    if 1 <=? t
    then range_loop f i d md inner_size mcodes
           (if probe mcodes i d md (l + t) then l + t else l) (Z.quot t 2)
    else Ok l.
Proof.
  cbn [range_loop]. unfold inner_size. rewrite delta_dval by exact Hi.
  reflexivity.
Qed.

Lemma split_loop_step (f : nat) (d dn l s div : Z) :
  split_loop (S f) i d dn inner_size mcodes l s div =
    let t := ceil_div (float32_of_int l) div in
    let s' := if probe mcodes i d dn (s + t) then s + t else s in
    if t =? 1 then Ok s'
    else split_loop f i d dn inner_size mcodes l s' (div * 2).
Proof.
  cbn [split_loop]. unfold inner_size. rewrite delta_dval by exact Hi.
  reflexivity.
Qed.

(** The doubling loop stops at the first power of two whose probe fails. *)
Lemma doubling_loop_ok (d md : Z) (gap : nat) :
  forall (e fuel : nat),
    (gap < fuel)%nat ->
    probe mcodes i d md (2 ^ Z.of_nat (e + gap)) = false ->
    exists m : nat,
      (e <= m <= e + gap)%nat /\
      doubling_loop fuel i d md inner_size mcodes (2 ^ Z.of_nat e)
        = Ok (2 ^ Z.of_nat m) /\
      probe mcodes i d md (2 ^ Z.of_nat m) = false /\
      (forall j : nat, (e <= j < m)%nat ->
                       probe mcodes i d md (2 ^ Z.of_nat j) = true).
Proof.
  induction gap as [|gap IH]; intros e fuel Hf Hp;
    (destruct fuel as [|fuel]; [lia|]); rewrite doubling_loop_step.
  - rewrite Nat.add_0_r in Hp. rewrite Hp. exists e.
    split; [lia|]. split; [reflexivity|]. split; [exact Hp|].
    intros j Hj; lia.
  - destruct (probe mcodes i d md (2 ^ Z.of_nat e)) eqn:E.
    + destruct (IH (S e) fuel) as (m & Hm & Hr & Hpm & Hall); [lia| |].
      { replace (S e + gap)%nat with (e + S gap)%nat by lia. exact Hp. }
      exists m. rewrite <- pow2_succ.
      split; [lia|]. split; [exact Hr|]. split; [exact Hpm|].
      intros j Hj. destruct (Nat.eq_dec j e) as [->|Hne]; [exact E|].
      apply Hall. lia.
    + exists e. split; [lia|]. split; [reflexivity|]. split; [exact E|].
      intros j Hj; lia.
Qed.

(** The halving loop ends between a probe that holds and one that fails. *)
Lemma range_loop_ok (d md : Z) (e : nat) :
  forall (l : Z) (fuel : nat),
    (e + 1 < fuel)%nat ->
    probe mcodes i d md l = true ->
    probe mcodes i d md (l + 2 ^ Z.of_nat (S e)) = false ->
    exists l' : Z,
      range_loop fuel i d md inner_size mcodes l (2 ^ Z.of_nat e) = Ok l' /\
      l <= l' < l + 2 ^ Z.of_nat (S e) /\
      probe mcodes i d md l' = true /\
      probe mcodes i d md (l' + 1) = false.
Proof.
  induction e as [|e IH]; intros l fuel Hf Hl Hu;
    (destruct fuel as [|fuel]; [lia|]); rewrite range_loop_step.
  - change (2 ^ Z.of_nat 0) with 1. change (2 ^ Z.of_nat 1) with 2 in *.
    change (1 <=? 1) with true. cbv iota. change (Z.quot 1 2) with 0.
    destruct fuel as [|fuel]; [lia|]. rewrite range_loop_step.
    change (1 <=? 0) with false. cbv iota.
    destruct (probe mcodes i d md (l + 1)) eqn:E.
    + exists (l + 1). split; [reflexivity|]. split; [lia|].
      split; [exact E|].
      replace (l + 1 + 1) with (l + 2) by lia. exact Hu.
    + exists l. split; [reflexivity|]. split; [lia|]. split; [exact Hl|exact E].
  - pose proof (pow2_pos e) as P. pose proof (pow2_succ e) as S1.
    pose proof (pow2_succ (S e)) as S2.
    replace (1 <=? 2 ^ Z.of_nat (S e)) with true
      by (symmetry; apply Z.leb_le; lia).
    replace (Z.quot (2 ^ Z.of_nat (S e)) 2) with (2 ^ Z.of_nat e)
      by (rewrite S1, Z.quot_mul by lia; reflexivity).
    destruct (probe mcodes i d md (l + 2 ^ Z.of_nat (S e))) eqn:E.
    + destruct (IH (l + 2 ^ Z.of_nat (S e)) fuel) as (l' & Hr & Hb & H1 & H2);
        [lia|exact E| |].
      { replace (l + 2 ^ Z.of_nat (S e) + 2 ^ Z.of_nat (S e))
          with (l + 2 ^ Z.of_nat (S (S e))) by lia. exact Hu. }
      exists l'. split; [exact Hr|]. split; [lia|]. split; assumption.
    + destruct (IH l fuel) as (l' & Hr & Hb & H1 & H2); [lia|exact Hl|exact E|].
      exists l'. split; [exact Hr|]. split; [lia|]. split; assumption.
Qed.

(** The split loop reaches [t == 1] as soon as the divisor is not below
    [float32(l)], provided [float32(l)] is positive. *)
Lemma split_loop_terminates (d dn l : Z) (gap : nat) :
  forall (k fuel : nat) (s : Z),
    (gap < fuel)%nat ->
    1 <= float32_of_int l <= 2 ^ Z.of_nat (k + gap) ->
    exists s' : Z,
      split_loop fuel i d dn inner_size mcodes l s (2 ^ Z.of_nat k) = Ok s'.
Proof.
  induction gap as [|gap IH]; intros k fuel s Hf HL;
    (destruct fuel as [|fuel]; [lia|]); rewrite split_loop_step; cbv zeta;
    pose proof (pow2_pos k) as P;
    pose proof (ceil_div_one (float32_of_int l) (2 ^ Z.of_nat k) P) as H1.
  - rewrite Nat.add_0_r in HL.
    replace (ceil_div (float32_of_int l) (2 ^ Z.of_nat k) =? 1) with true
      by (symmetry; apply Z.eqb_eq; apply H1; lia).
    eexists; reflexivity.
  - destruct (ceil_div (float32_of_int l) (2 ^ Z.of_nat k) =? 1) eqn:E.
    + eexists; reflexivity.
    + rewrite <- pow2_succ. apply IH; [lia|].
      replace (S k + gap)%nat with (k + S gap)%nat by lia. exact HL.
Qed.

End Loops.

(* ================================================================== *)
(** ** Termination of the body of [build_tree] *)

Lemma dval_ge_m1 (mcodes : list Z) (a b : Z) : -1 <= dval mcodes a b.
Proof.
  unfold dval. pose proof (leadingZeros_range (Z.lxor a b)).
  pose proof (leadingZeros_range
                (Z.lxor (code_at mcodes a) (code_at mcodes b))).
  destruct (_ || _); [lia|]. destruct (_ =? _); lia.
Qed.

Lemma direction_cases (mcodes : list Z) (i : Z) :
  direction mcodes i = 1 \/ direction mcodes i = -1.
Proof. unfold direction. destruct (_ <? _); auto. Qed.

(** The neighbour in the chosen direction shares a strictly longer prefix
    with [i] than the neighbour on the other side. *)
Lemma direction_strict (mcodes : list Z) (i : Z) :
  is_sorted mcodes = true -> all_uint32 mcodes = true ->
  alen mcodes <= 2 ^ 32 ->
  0 <= i < alen mcodes - 1 ->
  dval mcodes i (i - direction mcodes i) < dval mcodes i (i + direction mcodes i).
Proof.
  intros Hs Hu Hn Hi.
  assert (Hr : 0 <= dval mcodes i (i + 1) <= 63)
    by (apply dval_bounds; auto; lia).
  destruct (Z.eq_dec i 0) as [->|Hi0].
  - unfold direction. rewrite (dval_outside mcodes 0 (0 - 1)) by lia.
    replace (dval mcodes 0 (0 + 1) - -1 <? 0) with false
      by (symmetry; apply Z.ltb_ge; lia).
    rewrite (dval_outside mcodes 0 (0 - 1)) by lia. lia.
  - destruct (dval_chain_strict mcodes Hs Hu Hn (i - 1) i (i + 1)) as [Hne _];
      try lia.
    rewrite (dval_sym mcodes (i - 1) i) in Hne by lia.
    unfold direction.
    destruct (dval mcodes i (i + 1) - dval mcodes i (i - 1) <? 0) eqn:E.
    + apply Z.ltb_lt in E. replace (i - -1) with (i + 1) by lia.
      replace (i + -1) with (i - 1) by lia. lia.
    + apply Z.ltb_ge in E. lia.
Qed.

Lemma probe_outside (mcodes : list Z) (i d bound x : Z) :
  -1 <= bound -> ~ (0 <= i + x * d < alen mcodes) ->
  probe mcodes i d bound x = false.
Proof.
  intros Hb Ho. unfold probe. rewrite dval_outside by exact Ho.
  apply Z.ltb_ge. lia.
Qed.

Lemma probe_true_inside (mcodes : list Z) (i d bound x : Z) :
  -1 <= bound -> probe mcodes i d bound x = true ->
  0 <= i + x * d < alen mcodes.
Proof.
  intros Hb Hp.
  destruct (Z.le_gt_cases 0 (i + x * d)) as [H1|H1];
    [destruct (Z.lt_ge_cases (i + x * d) (alen mcodes)) as [H2|H2]|];
    try lia; rewrite probe_outside in Hp by lia; discriminate.
Qed.

(** What [node_search] computes, loop by loop. *)
Lemma node_search_unfold (mcodes : list Z) (i : Z) (fuel : nat)
  (lmax l s : Z) :
  0 <= i < alen mcodes ->
  let inner_size := alen mcodes - 1 in
  let d := direction mcodes i in
  let min_delta := dval mcodes i (i - d) in
  doubling_loop fuel i d min_delta inner_size mcodes 2 = Ok lmax ->
  range_loop fuel i d min_delta inner_size mcodes 0 (Z.quot lmax 2) = Ok l ->
  split_loop fuel i d (dval mcodes i (i + l * d)) inner_size mcodes l 0 2
    = Ok s ->
  node_search fuel inner_size mcodes i
    = Ok (i + l * d, i + s * d + Z.min d 0).
Proof.
  intros Hi inner_size d min_delta H1 H2 H3. unfold node_search.
  fold inner_size. unfold inner_size at 1 2.
  rewrite !delta_dval by exact Hi. cbn [bind].
  fold (direction mcodes i). fold d. unfold inner_size at 1.
  rewrite delta_dval by exact Hi. cbn [bind]. fold min_delta.
  rewrite H1. cbn [bind]. rewrite H2. cbn [bind].
  unfold inner_size at 1. rewrite delta_dval by exact Hi. cbn [bind].
  rewrite H3. reflexivity.
Qed.

(** The doubling and the halving loop of node [i]: they end, on a range
    length at the boundary of the probe against [min_delta]. *)
Lemma build_tree_loops_terminate_core (mcodes : list Z) (i : Z) :
  is_sorted mcodes = true ->
  all_uint32 mcodes = true ->
  2 <= alen mcodes <= 2 ^ 30 ->
  0 <= i < alen mcodes - 1 ->
  forall fuel : nat, (32 <= fuel)%nat ->
  let inner_size := alen mcodes - 1 in
  let d := direction mcodes i in
  let min_delta := dval mcodes i (i - d) in
  exists (m : nat) (l : Z),
    doubling_loop fuel i d min_delta inner_size mcodes 2
      = Ok (2 ^ Z.of_nat m) /\
    range_loop fuel i d min_delta inner_size mcodes 0
      (Z.quot (2 ^ Z.of_nat m) 2) = Ok l /\
    1 <= l /\
    probe mcodes i d min_delta l = true /\
    probe mcodes i d min_delta (l + 1) = false.
Proof.
  intros Hs Hu Hn Hi fuel Hfuel inner_size d min_delta.
  assert (Hi' : 0 <= i < alen mcodes) by lia.
  assert (Hstrict : min_delta < dval mcodes i (i + d))
    by (apply direction_strict; auto; lia).
  assert (Hmd : -1 <= min_delta) by apply dval_ge_m1.
  assert (Hd : d = 1 \/ d = -1) by apply direction_cases.
  destruct (doubling_loop_ok mcodes i Hi' d min_delta 30 1 fuel)
    as (m & Hm & Hdl & Hpm & Hall); [lia| |].
  { apply probe_outside; [exact Hmd|]. change (2 ^ Z.of_nat (1 + 30)) with (2 ^ 31).
    destruct Hd as [-> | ->]; lia. }
  change (2 ^ Z.of_nat 1) with 2 in Hdl.
  destruct m as [|m]; [lia|].
  assert (Hp0 : probe mcodes i d min_delta 0 = true).
  { unfold probe. replace (i + 0 * d) with i by lia.
    rewrite dval_self by exact Hi'.
    assert (dval mcodes i (i - d) <= 63).
    { destruct (Z.lt_ge_cases (i - d) 0) as [L|G].
      - rewrite dval_outside by lia. lia.
      - apply dval_bounds; auto; destruct Hd as [Hd|Hd]; rewrite Hd in *; lia. }
    apply Z.ltb_lt. fold min_delta in H. lia. }
  destruct (range_loop_ok mcodes i Hi' d min_delta m 0 fuel)
    as (l & Hrl & Hlb & Hpl & Hpl1); [lia|exact Hp0| |].
  { rewrite Z.add_0_l. exact Hpm. }
  assert (Hq : Z.quot (2 ^ Z.of_nat (S m)) 2 = 2 ^ Z.of_nat m).
  { rewrite pow2_succ, Z.quot_mul by lia. reflexivity. }
  assert (Hl1 : 1 <= l).
  { destruct (Z.eq_dec l 0) as [->|Hl0]; [|lia].
    exfalso. unfold probe in Hpl1. replace (i + (0 + 1) * d) with (i + d) in Hpl1 by lia.
    apply Z.ltb_ge in Hpl1. lia. }
  exists (S m), l. split; [exact Hdl|].
  rewrite Hq. split; [exact Hrl|]. split; [exact Hl1|]. split; assumption.
Qed.

(** C4.  For a sorted code array of n >= 2 entries (duplicates allowed) and
    an internal node i, the three loops of the body of [build_tree]
    terminate: [delta] returns the sentinel -1 for every probe outside
    [0, n-1], which stops the doubling loop; the range length l found by the
    halving loop is at least 1, because delta(i, i+d) is strictly greater
    than delta(i, i-d); and the split loop then reaches t == 1.  The sizes
    are those whose node ids 0 .. 2n-2 are [int32] values, n <= 2^30: there
    [lmax] ends at 2^30 at most and every probed position lies strictly
    between -2^31 and 2^31, so that no [int32] operation of the loops
    overflows. *)
Theorem build_tree_loops_terminate (mcodes : list Z) (i : Z) :
  is_sorted mcodes = true ->
  all_uint32 mcodes = true ->
  2 <= alen mcodes <= 2 ^ 30 ->
  0 <= i < alen mcodes - 1 ->
  let inner_size := alen mcodes - 1 in
  let d := direction mcodes i in
  let min_delta := dval mcodes i (i - d) in
  min_delta < dval mcodes i (i + d) /\
  (forall x, ~ (0 <= i + x * d <= inner_size) ->
             delta i (i + x * d) inner_size mcodes = Ok (-1)) /\
  forall fuel : nat, (32 <= fuel)%nat ->
    exists lmax l s : Z,
      doubling_loop fuel i d min_delta inner_size mcodes 2 = Ok lmax /\
      2 <= lmax <= 2 ^ 30 /\
      - 2 ^ 31 < i + lmax * d < 2 ^ 31 /\
      dval mcodes i (i + lmax * d) <= min_delta /\
      range_loop fuel i d min_delta inner_size mcodes 0 (Z.quot lmax 2)
        = Ok l /\
      1 <= l < lmax /\
      split_loop fuel i d (dval mcodes i (i + l * d)) inner_size mcodes l 0 2
        = Ok s /\
      node_search fuel inner_size mcodes i
        = Ok (i + l * d, i + s * d + Z.min d 0).
Proof.
  intros Hs Hu Hn Hi inner_size d min_delta.
  assert (Hi' : 0 <= i < alen mcodes) by lia.
  assert (Hstrict : min_delta < dval mcodes i (i + d))
    by (apply direction_strict; auto; lia).
  assert (Hmd : -1 <= min_delta) by apply dval_ge_m1.
  assert (Hd : d = 1 \/ d = -1) by apply direction_cases.
  split; [exact Hstrict|]. split.
  { intros x Hx. unfold inner_size. rewrite delta_dval by exact Hi'.
    rewrite dval_outside by (unfold inner_size in Hx; lia). reflexivity. }
  intros fuel Hfuel.
  (* doubling *)
  destruct (doubling_loop_ok mcodes i Hi' d min_delta 29 1 fuel)
    as (m & Hm & Hdl & Hpm & Hall); [lia| |].
  { apply probe_outside; [exact Hmd|].
    change (2 ^ Z.of_nat (1 + 29)) with (2 ^ 30).
    destruct Hd as [-> | ->]; lia. }
  change (2 ^ Z.of_nat 1) with 2 in Hdl.
  (* halving *)
  destruct m as [|m]; [lia|].
  assert (Hp0 : probe mcodes i d min_delta 0 = true).
  { unfold probe. replace (i + 0 * d) with i by lia.
    rewrite dval_self by exact Hi'.
    assert (dval mcodes i (i - d) <= 63).
    { destruct (Z.eq_dec i 0) as [E0|E0].
      - pose proof (dval_ge_m1 mcodes i (i - d)).
        destruct (Z.lt_ge_cases (i - d) 0) as [L|G].
        + rewrite dval_outside by lia. lia.
        + apply dval_bounds; auto; destruct Hd as [Hd|Hd]; rewrite Hd in *; lia.
      - apply dval_bounds; auto; destruct Hd as [Hd|Hd]; rewrite Hd in *; lia. }
    apply Z.ltb_lt. fold min_delta in H. lia. }
  destruct (range_loop_ok mcodes i Hi' d min_delta m 0 fuel)
    as (l & Hrl & Hlb & Hpl & Hpl1); [lia|exact Hp0| |].
  { rewrite Z.add_0_l. exact Hpm. }
  assert (Hq : Z.quot (2 ^ Z.of_nat (S m)) 2 = 2 ^ Z.of_nat m).
  { rewrite pow2_succ, Z.quot_mul by lia. reflexivity. }
  assert (Hl1 : 1 <= l).
  { destruct (Z.eq_dec l 0) as [->|Hl0]; [|lia].
    exfalso. unfold probe in Hpl1. replace (i + (0 + 1) * d) with (i + d) in Hpl1 by lia.
    apply Z.ltb_ge in Hpl1. lia. }
  assert (Hlin : 0 <= i + l * d < alen mcodes)
    by (apply (probe_true_inside mcodes i d min_delta l Hmd Hpl)).
  assert (Hl31 : l < 2 ^ 31) by (destruct Hd as [Hd|Hd]; rewrite Hd in Hlin; lia).
  assert (Hlmax : 2 <= 2 ^ Z.of_nat (S m) <= 2 ^ 30).
  { split.
    - change 2 with (2 ^ 1) at 1. apply Z.pow_le_mono_r; lia.
    - apply Z.pow_le_mono_r; lia. }
  (* split *)
  pose proof (float32_of_int_bounds l ltac:(lia)) as HL.
  destruct (split_loop_terminates mcodes i Hi' d (dval mcodes i (i + l * d))
              l 30 1 fuel 0) as (s & Hsl); [lia| |].
  { change (2 ^ Z.of_nat (1 + 30)) with (2 ^ 31). lia. }
  change (2 ^ Z.of_nat 1) with 2 in Hsl.
  exists (2 ^ Z.of_nat (S m)), l, s.
  split; [exact Hdl|]. split; [exact Hlmax|]. split.
  { destruct Hd as [Hd|Hd]; rewrite Hd; lia. }
  split.
  { unfold probe in Hpm. apply Z.ltb_ge in Hpm. exact Hpm. }
  rewrite Hq. split; [exact Hrl|]. split; [lia|]. split; [exact Hsl|].
  apply (node_search_unfold mcodes i fuel (2 ^ Z.of_nat (S m)) l s Hi').
  - exact Hdl.
  - rewrite Hq. exact Hrl.
  - exact Hsl.
Qed.

Lemma build_tree_loops_terminate_witness :
  let mcodes := [1; 1; 5; 7] in
  let i := 1 in
  let inner_size := alen mcodes - 1 in
  let d := direction mcodes i in
  let min_delta := dval mcodes i (i - d) in
  min_delta < dval mcodes i (i + d) /\
  (forall x, ~ (0 <= i + x * d <= inner_size) ->
             delta i (i + x * d) inner_size mcodes = Ok (-1)) /\
  forall fuel : nat, (32 <= fuel)%nat ->
    exists lmax l s : Z,
      doubling_loop fuel i d min_delta inner_size mcodes 2 = Ok lmax /\
      2 <= lmax <= 2 ^ 30 /\
      - 2 ^ 31 < i + lmax * d < 2 ^ 31 /\
      dval mcodes i (i + lmax * d) <= min_delta /\
      range_loop fuel i d min_delta inner_size mcodes 0 (Z.quot lmax 2)
        = Ok l /\
      1 <= l < lmax /\
      split_loop fuel i d (dval mcodes i (i + l * d)) inner_size mcodes l 0 2
        = Ok s /\
      node_search fuel inner_size mcodes i
        = Ok (i + l * d, i + s * d + Z.min d 0).
Proof.
  apply (build_tree_loops_terminate [1; 1; 5; 7] 1);
    [reflexivity | reflexivity | unfold alen; simpl; lia
    | unfold alen; simpl; lia].
Defined.

(* ================================================================== *)
(** ** for_all *)

Lemma for_all_from_inv {St : Type} (Inv : Z -> St -> Prop)
  (body : Z -> St -> result St) (count : nat) :
  forall (start : Z) (s : St),
    Inv start s ->
    (forall i s0, start <= i < start + Z.of_nat count -> Inv i s0 ->
                  exists s1, body i s0 = Ok s1 /\ Inv (i + 1) s1) ->
    exists s', for_all_from start count body s = Ok s' /\
               Inv (start + Z.of_nat count) s'.
Proof.
  induction count as [|c IH]; intros start s H0 Hstep.
  - exists s. split; [reflexivity|]. now rewrite Z.add_0_r.
  - cbn [for_all_from].
    destruct (Hstep start s) as (s1 & E1 & I1); [lia|exact H0|].
    rewrite E1. cbn [bind].
    destruct (IH (start + 1) s1 I1) as (s' & E' & I').
    + intros i s0 Hi. apply Hstep. lia.
    + exists s'. split; [exact E'|].
      replace (start + Z.of_nat (S c)) with (start + 1 + Z.of_nat c) by lia.
      exact I'.
Qed.

Lemma for_all_inv {St : Type} (Inv : Z -> St -> Prop)
  (body : Z -> St -> result St) (size : Z) (s : St) :
  0 <= size ->
  Inv 0 s ->
  (forall i s0, 0 <= i < size -> Inv i s0 ->
                exists s1, body i s0 = Ok s1 /\ Inv (i + 1) s1) ->
  exists s', for_all size body s = Ok s' /\ Inv size s'.
Proof.
  intros Hsz H0 Hstep. unfold for_all.
  destruct (for_all_from_inv Inv body (Z.to_nat size) 0 s H0) as (s' & E & I).
  - intros i s0 Hi. apply Hstep. lia.
  - exists s'. split; [exact E|]. now rewrite Z2Nat.id in I by lia.
Qed.

Lemma iota_length (n : nat) : length (iota n) = n.
Proof. unfold iota. now rewrite length_map, length_seq. Qed.

Lemma iota_nth (n k : nat) : (k < n)%nat -> nth k (iota n) 0 = Z.of_nat k.
Proof.
  intros Hk. unfold iota. change 0 with (Z.of_nat 0).
  rewrite map_nth, seq_nth by lia. reflexivity.
Qed.

(** Filling an array slot by slot. *)
Lemma for_all_fill {A : Type} (f : Z -> A) (a : list A) :
  for_all (alen a) (fun i it => aset it i (f i)) a
    = Ok (map f (iota (length a))).
Proof.
  destruct (for_all_inv
              (fun i it => length it = length a /\
                           forall k d, (Z.of_nat k < i)%Z ->
                                       nth k it d = f (Z.of_nat k))
              (fun i it => aset it i (f i)) (alen a) a)
    as (s' & E & Hlen & Hnth).
  - apply alen_nonneg.
  - split; [reflexivity|]. intros; lia.
  - intros i s0 Hi [Hl Hn]. rewrite aset_ok by (unfold alen in *; lia).
    eexists. split; [reflexivity|]. split.
    + now rewrite upd_length.
    + intros k d Hk. destruct (Nat.eq_dec k (Z.to_nat i)) as [->|Hne].
      * rewrite upd_nth_same by (unfold alen in *; lia).
        f_equal. lia.
      * rewrite upd_nth_other by lia. apply Hn. lia.
  - rewrite E. f_equal.
    apply (nth_ext _ _ (f 0) (f 0)).
    + now rewrite length_map, iota_length.
    + intros k Hk. rewrite Hnth by (unfold alen; lia).
      rewrite (map_nth f (iota (length a)) 0 k), iota_nth by lia.
      reflexivity.
Qed.

Lemma iota_In (n : nat) (x : Z) : In x (iota n) <-> 0 <= x < Z.of_nat n.
Proof.
  unfold iota. rewrite in_map_iff. split.
  - intros (k & <- & Hk). apply in_seq in Hk. lia.
  - intros Hx. exists (Z.to_nat x). split; [lia|]. apply in_seq. lia.
Qed.

Lemma iota_NoDup (n : nat) : NoDup (iota n).
Proof.
  unfold iota. apply Injective_map_NoDup.
  - intros x y. lia.
  - apply seq_NoDup.
Qed.

Lemma array_counting_iota (iter : list Z) :
  array_counting iter (alen iter) 0 1 = Ok (iota (length iter)).
Proof.
  unfold array_counting.
  rewrite (for_all_fill (fun i => 0 + i * 1) iter). f_equal.
  rewrite <- (map_id (iota (length iter))) at 2.
  apply map_ext. intros; lia.
Qed.

(* ================================================================== *)
(** ** reorder *)

Lemma gather_ok {T : Type} (indices : list Z) (array : list T) (count : nat) :
  forall start : nat,
    (start + count <= length indices)%nat ->
    Forall (fun ix => 0 <= ix < alen array) indices ->
    exists out,
      gather indices array (Z.of_nat start) count = Ok out /\
      length out = count /\
      forall p, (p < count)%nat ->
                nth_error out p
                  = nth_error array (Z.to_nat (nth (start + p) indices 0)).
Proof.
  induction count as [|c IH]; intros start Hlen Hall.
  - exists []. split; [reflexivity|]. split; [reflexivity|]. intros; lia.
  - cbn [gather].
    rewrite (aget_ok indices (Z.of_nat start) 0) by (unfold alen; lia).
    cbn [bind]. rewrite Nat2Z.id.
    assert (Hin : 0 <= nth start indices 0 < alen array).
    { rewrite Forall_forall in Hall. apply Hall. apply nth_In. lia. }
    destruct (nth_error array (Z.to_nat (nth start indices 0))) as [x|] eqn:Ex;
      [|apply nth_error_None in Ex; unfold alen in Hin; lia].
    assert (Hg : aget array (nth start indices 0) = Ok x).
    { unfold aget. replace (nth start indices 0 <? 0) with false
        by (symmetry; apply Z.ltb_ge; lia). now rewrite Ex. }
    rewrite Hg. cbn [bind].
    destruct (IH (S start)) as (out & E & Hl & Hn); [lia|exact Hall|].
    replace (Z.of_nat start + 1) with (Z.of_nat (S start)) by lia.
    rewrite E. cbn [bind]. exists (x :: out).
    split; [reflexivity|]. split; [simpl; lia|].
    intros [|p] Hp.
    + rewrite Nat.add_0_r. simpl. now rewrite Ex.
    + simpl. rewrite Hn by lia. do 3 f_equal. lia.
Qed.

Lemma reorder_ok {T : Type} (indices : list Z) (array : list T) :
  Forall (fun ix => 0 <= ix < alen array) indices ->
  exists out,
    reorder indices array (alen indices) = Ok out /\
    alen out = alen indices /\
    forall p, 0 <= p < alen indices ->
              aget out p = aget array (code_at indices p).
Proof.
  intros Hall. unfold reorder, alen. rewrite Nat2Z.id.
  destruct (gather_ok indices array (length indices) 0) as (out & E & Hl & Hn);
    [lia|exact Hall|].
  exists out. split; [exact E|]. split; [now rewrite Hl|].
  intros p Hp. unfold aget, code_at.
  replace (p <? 0) with false by (symmetry; apply Z.ltb_ge; lia).
  assert (Hin : 0 <= nth (Z.to_nat p) indices 0 < alen array).
  { rewrite Forall_forall in Hall. apply Hall. apply nth_In. lia. }
  replace (nth (Z.to_nat p) indices 0 <? 0) with false
    by (symmetry; apply Z.ltb_ge; lia).
  rewrite Hn by lia. reflexivity.
Qed.

(* ================================================================== *)
(** ** The stable sort *)

Lemma stable_insert_perm {T : Type} (less : T -> T -> bool) (x : T)
  (l : list T) : Permutation (stable_insert less x l) (x :: l).
Proof.
  induction l as [|y l IH]; cbn [stable_insert]; [reflexivity|].
  destruct (less y x); [|reflexivity].
  rewrite IH. apply perm_swap.
Qed.

Lemma stable_sort_perm {T : Type} (less : T -> T -> bool) (l : list T) :
  Permutation (stable_sort less l) l.
Proof.
  induction l as [|x l IH]; cbn [stable_sort]; [reflexivity|].
  rewrite stable_insert_perm. now constructor.
Qed.

Section SortByCode.
Variable mcodes : list Z.

Let less (i1 i2 : Z) : bool := code_at mcodes i1 <? code_at mcodes i2.
Let before := code_then_position mcodes.

Lemma before_trans (x y z : Z) : before x y -> before y z -> before x z.
Proof. unfold before, code_then_position. intros; lia. Qed.

Lemma stable_insert_sorted (x : Z) (l : list Z) :
  StronglySorted before l ->
  Forall (fun y => x < y) l ->
  StronglySorted before (stable_insert less x l).
Proof.
  induction l as [|y l IH]; intros Hs Hx; cbn [stable_insert].
  - constructor; constructor.
  - inversion Hs as [|? ? Hs' Hy]; subst. inversion Hx as [|? ? Hxy Hx']; subst.
    unfold less at 1. destruct (code_at mcodes y <? code_at mcodes x) eqn:E.
    + apply Z.ltb_lt in E. constructor; [apply IH; auto|].
      rewrite Forall_forall. intros z Hz.
      apply (Permutation_in _ (stable_insert_perm less x l)) in Hz.
      destruct Hz as [<-|Hz].
      * left. exact E.
      * rewrite Forall_forall in Hy. apply Hy. exact Hz.
    + apply Z.ltb_ge in E. constructor; [exact Hs|].
      assert (Hxy' : before x y)
        by (unfold before, code_then_position; lia).
      constructor; [exact Hxy'|].
      rewrite Forall_forall in Hy |- *. intros z Hz.
      apply (before_trans x y z); auto.
Qed.

Lemma stable_sort_sorted (l : list Z) :
  StronglySorted Z.lt l -> StronglySorted before (stable_sort less l).
Proof.
  induction l as [|x l IH]; intros Hs; cbn [stable_sort]; [constructor|].
  inversion Hs as [|? ? Hs' Hx]; subst.
  apply stable_insert_sorted; [apply IH; exact Hs'|].
  rewrite Forall_forall in Hx |- *. intros y Hy. apply Hx.
  apply (Permutation_in _ (stable_sort_perm less l)). exact Hy.
Qed.

End SortByCode.

Lemma StronglySorted_nth {A : Type} (R : A -> A -> Prop) (l : list A) (d : A) :
  StronglySorted R l ->
  forall p q, (p < q < length l)%nat -> R (nth p l d) (nth q l d).
Proof.
  induction 1 as [|x l Hs IH Hx]; intros p q Hpq; [simpl in Hpq; lia|].
  destruct q as [|q]; [lia|]. destruct p as [|p]; simpl in *.
  - rewrite Forall_forall in Hx. apply Hx. apply nth_In. lia.
  - apply IH. lia.
Qed.

Lemma iota_sorted (n : nat) : StronglySorted Z.lt (iota n).
Proof.
  unfold iota. generalize 0%nat as s.
  induction n as [|n IH]; intros s; simpl; constructor; [apply IH|].
  rewrite Forall_forall. intros x Hx. apply in_map_iff in Hx.
  destruct Hx as (k & <- & Hk). apply in_seq in Hk. lia.
Qed.

(** What [sort_mcodes] returns on a code array and an index array of the
    same size. *)
Lemma sort_mcodes_ok (mcodes iter : list Z) :
  alen iter = alen mcodes ->
  exists mcodes' iter',
    sort_mcodes mcodes (alen mcodes) iter = Ok (mcodes', iter') /\
    Permutation iter' (iota (length mcodes)) /\
    StronglySorted (code_then_position mcodes) iter' /\
    alen mcodes' = alen mcodes /\
    (forall p, 0 <= p < alen mcodes ->
               aget mcodes' p = aget mcodes (code_at iter' p)).
Proof.
  intros Hlen.
  assert (Hac : array_counting iter (alen mcodes) 0 1
                = Ok (iota (length iter)))
    by (rewrite <- Hlen; apply array_counting_iota).
  unfold sort_mcodes. rewrite Hac. cbn [bind].
  assert (Hn : length iter = length mcodes) by (unfold alen in Hlen; lia).
  assert (Hz : Z.to_nat (alen mcodes) = length (iota (length iter))).
  { rewrite iota_length. unfold alen. lia. }
  rewrite Hz, firstn_all, skipn_all, app_nil_r.
  set (less := fun i1 i2 => code_at mcodes i1 <? code_at mcodes i2).
  pose proof (stable_sort_perm less (iota (length iter))) as Hperm.
  assert (Hsz : alen (stable_sort less (iota (length iter))) = alen mcodes).
  { unfold alen. rewrite (Permutation_length Hperm), iota_length. lia. }
  destruct (reorder_ok (stable_sort less (iota (length iter))) mcodes)
    as (out & E & Hl & Hget).
  { rewrite Forall_forall. intros x Hx.
    apply (Permutation_in _ Hperm) in Hx. apply iota_In in Hx.
    unfold alen. lia. }
  rewrite Hsz in E, Hl, Hget. rewrite E. cbn [bind].
  exists out, (stable_sort less (iota (length iter))).
  split; [reflexivity|]. split; [now rewrite <- Hn|].
  split; [apply stable_sort_sorted; apply iota_sorted|].
  split; [exact Hl|exact Hget].
Qed.

(** C7.  For every code array of length n, [sort_mcodes] produces an index
    permutation [iter] of [0, n) through which the codes are read in
    non-decreasing order, equal codes in ascending original position, and
    the code array is reordered consistently: its i-th entry is the original
    code at [iter[i]]. *)
Theorem sort_mcodes_spec (mcodes iter : list Z) :
  alen iter = alen mcodes ->
  exists mcodes' iter',
    sort_mcodes mcodes (alen mcodes) iter = Ok (mcodes', iter') /\
    Permutation iter' (iota (length mcodes)) /\
    (forall p q, 0 <= p < q -> q < alen mcodes ->
       code_at mcodes (code_at iter' p) <= code_at mcodes (code_at iter' q) /\
       (code_at mcodes (code_at iter' p) = code_at mcodes (code_at iter' q) ->
        code_at iter' p < code_at iter' q)) /\
    alen mcodes' = alen mcodes /\
    (forall i, 0 <= i < alen mcodes ->
               code_at mcodes' i = code_at mcodes (code_at iter' i)).
Proof.
  intros Hlen.
  destruct (sort_mcodes_ok mcodes iter Hlen)
    as (mcodes' & iter' & E & Hperm & Hsorted & Hl & Hget).
  exists mcodes', iter'. split; [exact E|]. split; [exact Hperm|].
  assert (Hil : length iter' = length mcodes)
    by (rewrite (Permutation_length Hperm); apply iota_length).
  split; [|split; [exact Hl|]].
  - intros p q Hpq Hq.
    assert (H : code_then_position mcodes (code_at iter' p) (code_at iter' q)).
    { unfold code_at.
      apply (StronglySorted_nth _ iter' 0 Hsorted). unfold alen in Hq. lia. }
    unfold code_then_position in H. lia.
  - intros i Hi. specialize (Hget i Hi).
    assert (Hin : 0 <= code_at iter' i < alen mcodes).
    { assert (In (code_at iter' i) iter')
        by (unfold code_at; apply nth_In; unfold alen in Hi; lia).
      apply (Permutation_in _ Hperm) in H. apply iota_In in H.
      unfold alen. lia. }
    rewrite (aget_ok mcodes' i 0) in Hget by lia.
    rewrite (aget_ok mcodes _ 0) in Hget by lia.
    inversion Hget as [H0]. unfold code_at at 1 2. exact H0.
Qed.

Lemma sort_mcodes_spec_witness :
  exists mcodes' iter',
    sort_mcodes [7; 3; 7; 1; 3] (alen [7; 3; 7; 1; 3]) [0; 0; 0; 0; 0]
      = Ok (mcodes', iter') /\
    Permutation iter' (iota (length [7; 3; 7; 1; 3])) /\
    (forall p q, 0 <= p < q -> q < alen [7; 3; 7; 1; 3] ->
       code_at [7; 3; 7; 1; 3] (code_at iter' p)
         <= code_at [7; 3; 7; 1; 3] (code_at iter' q) /\
       (code_at [7; 3; 7; 1; 3] (code_at iter' p)
          = code_at [7; 3; 7; 1; 3] (code_at iter' q) ->
        code_at iter' p < code_at iter' q)) /\
    alen mcodes' = alen [7; 3; 7; 1; 3] /\
    (forall i, 0 <= i < alen [7; 3; 7; 1; 3] ->
               code_at mcodes' i = code_at [7; 3; 7; 1; 3] (code_at iter' i)).
Proof. apply (sort_mcodes_spec [7; 3; 7; 1; 3] [0; 0; 0; 0; 0]). reflexivity. Defined.

(** C8.  Reading the pre-sort box array through the [leafs] permutation
    gives the sorted leaf box array, element for element: the sorted box at
    position p is the pre-sort box at index [leafs[p]], [leafs] is a
    permutation of [0, n), and so every pre-sort box is found at exactly
    the position [leafs] records for it. *)
Theorem reorder_round_trip {Box : Type} (aabbs : list Box)
  (mcodes leafs0 : list Z) :
  alen leafs0 = alen mcodes ->
  alen aabbs = alen mcodes ->
  exists mcodes' leafs sorted,
    sort_mcodes mcodes (alen mcodes) leafs0 = Ok (mcodes', leafs) /\
    reorder leafs aabbs (alen mcodes) = Ok sorted /\
    Permutation leafs (iota (length aabbs)) /\
    alen sorted = alen aabbs /\
    (forall p, 0 <= p < alen aabbs ->
               aget sorted p = aget aabbs (code_at leafs p)) /\
    (forall k, 0 <= k < alen aabbs ->
               exists p, 0 <= p < alen aabbs /\ code_at leafs p = k /\
                         aget sorted p = aget aabbs k).
Proof.
  intros Hlen Hb.
  destruct (sort_mcodes_ok mcodes leafs0 Hlen)
    as (mcodes' & leafs & E & Hperm & _ & _ & _).
  assert (Hn : length aabbs = length mcodes) by (unfold alen in Hb; lia).
  assert (Hll : alen leafs = alen mcodes).
  { unfold alen. rewrite (Permutation_length Hperm), iota_length. lia. }
  destruct (reorder_ok leafs aabbs) as (sorted & Er & Hl & Hget).
  { rewrite Forall_forall. intros x Hx.
    apply (Permutation_in _ Hperm) in Hx. apply iota_In in Hx.
    unfold alen. lia. }
  rewrite Hll in Er, Hl, Hget.
  exists mcodes', leafs, sorted.
  split; [exact E|]. split; [exact Er|]. split; [now rewrite Hn|].
  split; [lia|]. split.
  - intros p Hp. apply Hget. lia.
  - intros k Hk.
    assert (Hin : In k leafs).
    { apply (Permutation_in _ (Permutation_sym Hperm)). apply iota_In.
      unfold alen in *. lia. }
    destruct (In_nth leafs k 0 Hin) as (p & Hp & Hnth).
    exists (Z.of_nat p). unfold alen in *.
    assert (Ec : code_at leafs (Z.of_nat p) = k)
      by (unfold code_at; now rewrite Nat2Z.id).
    split; [lia|]. split; [exact Ec|].
    rewrite Hget by lia. now rewrite Ec.
Qed.

Lemma reorder_round_trip_witness :
  exists mcodes' leafs sorted,
    sort_mcodes [9; 2; 9; 4] (alen [9; 2; 9; 4]) [0; 0; 0; 0]
      = Ok (mcodes', leafs) /\
    reorder leafs [true; false; false; true] (alen [9; 2; 9; 4]) = Ok sorted /\
    Permutation leafs (iota (length [true; false; false; true])) /\
    alen sorted = alen [true; false; false; true] /\
    (forall p, 0 <= p < alen [true; false; false; true] ->
               aget sorted p = aget [true; false; false; true] (code_at leafs p)) /\
    (forall k, 0 <= k < alen [true; false; false; true] ->
               exists p, 0 <= p < alen [true; false; false; true] /\
                         code_at leafs p = k /\
                         aget sorted p = aget [true; false; false; true] k).
Proof.
  apply (reorder_round_trip [true; false; false; true] [9; 2; 9; 4] [0; 0; 0; 0]);
    reflexivity.
Defined.

(* ================================================================== *)
(** ** get_mcodes *)

Lemma isNearlyEqual_zero (e : Q) : (e == 0)%Q -> isNearlyEqual e 0 = true.
Proof.
  intros He. unfold isNearlyEqual. apply Qle_bool_iff.
  assert (E : (Qabs (e - 0) == 0)%Q).
  { rewrite He. reflexivity. }
  rewrite E. unfold Qle. simpl. lia.
Qed.

Lemma fdiv_guarded (e : Q) :
  isNearlyEqual e 0 = false -> fdiv 1 e = Ok (1 / e)%Q.
Proof.
  intros Hn. unfold fdiv. destruct (Qeq_bool e 0) eqn:E; [|reflexivity].
  apply Qeq_bool_iff in E. rewrite isNearlyEqual_zero in Hn by exact E.
  discriminate.
Qed.

(** The inverse extent is always computed: the division is guarded. *)
Lemma inverse_extent_ok (extent : list Q) :
  exists inv,
    inverse_extent extent = Ok inv /\
    length inv = length extent /\
    forall k, (k < length extent)%nat -> (nth k extent 0 == 0)%Q ->
              nth k inv 1%Q = 0%Q.
Proof.
  induction extent as [|e rest IH].
  - exists []. split; [reflexivity|]. split; [reflexivity|].
    intros k Hk. simpl in Hk. lia.
  - destruct IH as (invs & E & Hl & Hz). cbn [inverse_extent].
    destruct (isNearlyEqual e 0) eqn:Ee.
    + cbn [bind]. rewrite E. cbn [bind]. exists (0%Q :: invs).
      split; [reflexivity|]. split; [simpl; lia|].
      intros [|k] Hk H0; [reflexivity|]. simpl in *. apply Hz; [lia|exact H0].
    + rewrite fdiv_guarded by exact Ee. cbn [bind]. rewrite E. cbn [bind].
      exists ((1 / e)%Q :: invs).
      split; [reflexivity|]. split; [simpl; lia|].
      intros [|k] Hk H0.
      * simpl in H0. rewrite isNearlyEqual_zero in Ee by exact H0.
        discriminate.
      * simpl in *. apply Hz; [lia|exact H0].
Qed.

Lemma map2_length {A B C : Type} (f : A -> B -> C) (u : list A) (v : list B) :
  length (map2 f u v) = Nat.min (length u) (length v).
Proof.
  revert v. induction u as [|x u IH]; intros [|y v]; simpl; auto.
Qed.

Lemma map2_nth {A B C : Type} (f : A -> B -> C) (u : list A) (v : list B)
  (k : nat) (da : A) (db : B) (dc : C) :
  (k < length (map2 f u v))%nat ->
  nth k (map2 f u v) dc = f (nth k u da) (nth k v db).
Proof.
  revert v k. induction u as [|x u IH]; intros [|y v] k Hk; simpl in Hk;
    try lia.
  destruct k as [|k]; simpl; [reflexivity|]. apply IH. lia.
Qed.

Lemma float_to_int_zero (q : Q) : (q == 0)%Q -> float_to_int q = 0.
Proof.
  intros Hq. unfold float_to_int. unfold Qeq in Hq. simpl in Hq.
  replace (Qnum q) with 0 by lia. apply Z.quot_0_l. lia.
Qed.

Lemma int_coord_zero (p to_int ceiling : Q) :
  (p == 0)%Q -> (0 <= ceiling)%Q ->
  float_to_int (Qmin (Qmax (p * to_int)%Q 0%Q) ceiling) = 0.
Proof.
  intros Hp Hc. apply float_to_int_zero.
  assert (E1 : (Qmax (p * to_int) 0 == 0)%Q).
  { apply Q.max_r. rewrite Hp. unfold Qle. simpl. lia. }
  rewrite Q.min_l; [exact E1|]. rewrite E1. exact Hc.
Qed.

Lemma int_coords_zero (point : list Q) (k : nat) :
  (k < length point)%nat -> (nth k point 1 == 0)%Q ->
  nth k (int_coords point) 1 = 0.
Proof.
  intros Hk Hz. unfold int_coords.
  set (F := inject_Z (Z.shiftl 1 (Z.quot 32 (alen point)))).
  set (g := fun p : Q => float_to_int (Qmin (Qmax (p * F)%Q 0%Q) (F - 1)%Q)).
  rewrite (nth_indep _ 1 (g 1%Q)) by (rewrite length_map; lia).
  rewrite map_nth. unfold g. apply int_coord_zero; [exact Hz|].
  assert (Hs : 1 <= Z.shiftl 1 (Z.quot 32 (alen point))).
  { assert (0 <= Z.quot 32 (alen point))
      by (apply Z.quot_pos; unfold alen; lia).
    rewrite Z.shiftl_mul_pow2, Z.mul_1_l by lia.
    assert (0 < 2 ^ Z.quot 32 (alen point)) by (apply Z.pow_pos_nonneg; lia).
    lia. }
  unfold F, Qle, Qminus, Qplus, Qopp, inject_Z. simpl. lia.
Qed.

Lemma for_all_from_not_div {St : Type} (body : Z -> St -> result St)
  (count : nat) :
  (forall i s, body i s <> DivByZero) ->
  forall start s, for_all_from start count body s <> DivByZero.
Proof.
  intros Hb. induction count as [|c IH]; intros start s; cbn [for_all_from];
    [discriminate|].
  destruct (body start s) eqn:E; cbn [bind]; try discriminate.
  - apply IH.
  - exfalso. exact (Hb _ _ E).
Qed.

(** C9.  In [get_mcodes] the inverse extent is always computed without a
    division by zero; in every dimension in which the global bounding box
    has zero extent it is zero, so the normalised centroid of every box is
    zero along that axis and encodes to the integer coordinate 0. *)
Theorem get_mcodes_zero_extent {Box : Type} `{BoundingBox Box}
  (convertPointToMorton : list Z -> Z) (aabbs : list Box) (bnds : Box)
  (mcodes0 : list Z) :
  alen mcodes0 = alen aabbs ->
  let extent := vsub (getMax bnds) (getMin bnds) in
  (forall size mcodes,
      get_mcodes convertPointToMorton aabbs size bnds mcodes <> DivByZero) /\
  exists inv_extent codes,
    inverse_extent extent = Ok inv_extent /\
    get_mcodes convertPointToMorton aabbs (alen aabbs) bnds mcodes0
      = Ok codes /\
    forall k, (k < length extent)%nat -> (nth k extent 0 == 0)%Q ->
      nth k inv_extent 1%Q = 0%Q /\
      forall i aabb, aget aabbs i = Ok aabb ->
        let c := normalized_centroid (getMin bnds) inv_extent aabb in
        code_at codes i = uint32 (convertPointToMorton (int_coords c)) /\
        ((k < length c)%nat ->
         (nth k c 1 == 0)%Q /\ nth k (int_coords c) 1 = 0).
Proof.
  intros Hlen extent.
  destruct (inverse_extent_ok extent) as (inv & Einv & Hil & Hz).
  split.
  { intros size mcodes. unfold get_mcodes. fold extent. rewrite Einv.
    cbn [bind]. unfold for_all. apply for_all_from_not_div.
    intros i s. cbv beta. unfold aget.
    destruct (i <? 0); cbn [bind]; [discriminate|].
    destruct (nth_error aabbs (Z.to_nat i)); cbn [bind]; [|discriminate].
    unfold aset. destruct ((0 <=? i) && (i <? alen s)); discriminate. }
  exists inv.
  destruct (for_all_inv
    (fun i mc => length mc = length aabbs /\
       forall k, (Z.of_nat k < i) -> forall aabb,
         nth_error aabbs k = Some aabb ->
         nth k mc 0 = uint32 (morton32_encode convertPointToMorton
                        (normalized_centroid (getMin bnds) inv aabb)))
    (fun i mcodes =>
       aabb <- aget aabbs i ;;
       aset mcodes i
         (uint32 (morton32_encode convertPointToMorton
                    (normalized_centroid (getMin bnds) inv aabb))))
    (alen aabbs) mcodes0) as (codes & Ec & Hcl & Hcn).
  - apply alen_nonneg.
  - split; [unfold alen in Hlen; lia|]. intros; lia.
  - intros i s0 Hi [Hl Hn].
    destruct (nth_error aabbs (Z.to_nat i)) as [b|] eqn:Eb;
      [|apply nth_error_None in Eb; unfold alen in Hi; lia].
    assert (Hg : aget aabbs i = Ok b).
    { unfold aget. replace (i <? 0) with false
        by (symmetry; apply Z.ltb_ge; lia). now rewrite Eb. }
    rewrite Hg. cbn [bind]. rewrite aset_ok by (unfold alen in *; lia).
    eexists. split; [reflexivity|]. split; [now rewrite upd_length|].
    intros k Hk aabb Hka.
    destruct (Nat.eq_dec k (Z.to_nat i)) as [->|Hne].
    + rewrite upd_nth_same by (unfold alen in *; lia). congruence.
    + rewrite upd_nth_other by lia. apply Hn; [lia|exact Hka].
  - exists codes. split; [exact Einv|]. split.
    { unfold get_mcodes. fold extent. rewrite Einv. cbn [bind]. exact Ec. }
    intros k Hk Hext. split; [apply Hz; assumption|].
    intros i aabb Hget c. apply aget_inv in Hget. destruct Hget as [Hi Hnth].
    split.
    + unfold code_at. apply Hcn; [lia|exact Hnth].
    + intros Hkc.
      assert (Hc0 : (nth k c 1 == 0)%Q).
      { unfold c, normalized_centroid, vmul in *.
        rewrite (map2_nth Qmult _ _ k 1%Q 1%Q 1%Q) by exact Hkc.
        rewrite (Hz k Hk Hext). ring. }
      split; [exact Hc0|]. apply int_coords_zero; assumption.
Qed.

Lemma get_mcodes_zero_extent_witness :
  let aabbs := [mkQBox [0; 0; 3] [1; 2; 3]; mkQBox [1; 5; 3] [2; 7; 3]]%Q in
  let bnds := (mkQBox [0; 0; 3] [2; 7; 3])%Q in
  let extent := vsub (getMax bnds) (getMin bnds) in
  (forall size mcodes,
      get_mcodes interleave aabbs size bnds mcodes <> DivByZero) /\
  exists inv_extent codes,
    inverse_extent extent = Ok inv_extent /\
    get_mcodes interleave aabbs (alen aabbs) bnds [0; 0] = Ok codes /\
    forall k, (k < length extent)%nat -> (nth k extent 0 == 0)%Q ->
      nth k inv_extent 1%Q = 0%Q /\
      forall i aabb, aget aabbs i = Ok aabb ->
        let c := normalized_centroid (getMin bnds) inv_extent aabb in
        code_at codes i = uint32 (interleave (int_coords c)) /\
        ((k < length c)%nat ->
         (nth k c 1 == 0)%Q /\ nth k (int_coords c) 1 = 0).
Proof.
  apply (get_mcodes_zero_extent interleave
           [mkQBox [0; 0; 3] [1; 2; 3]; mkQBox [1; 5; 3] [2; 7; 3]]%Q
           (mkQBox [0; 0; 3] [2; 7; 3])%Q [0; 0]).
  reflexivity.
Defined.

(* ================================================================== *)
(** ** The range and the split found by one node *)

Lemma antitone_le (P : Z -> bool) :
  (forall x, 0 <= x -> P (x + 1) = true -> P x = true) ->
  forall a b, 0 <= a <= b -> P b = true -> P a = true.
Proof.
  intros Hanti a b Hab Hb.
  replace b with (a + Z.of_nat (Z.to_nat (b - a))) in Hb by lia.
  induction (Z.to_nat (b - a)) as [|k IH]; [now rewrite Z.add_0_r in Hb|].
  apply IH. apply Hanti; [lia|].
  replace (a + Z.of_nat k + 1) with (a + Z.of_nat (S k)) by lia. exact Hb.
Qed.

Lemma boundary_unique (P : Z -> bool) (a b : Z) :
  (forall x, 0 <= x -> P (x + 1) = true -> P x = true) ->
  0 <= a -> 0 <= b ->
  P a = true -> P (a + 1) = false -> P b = true -> P (b + 1) = false ->
  a = b.
Proof.
  intros Hanti Ha Hb Pa Pa1 Pb Pb1.
  destruct (Z.lt_trichotomy a b) as [L|[E|G]]; [|exact E|]; exfalso.
  - rewrite (antitone_le P Hanti (a + 1) b) in Pa1 by (auto; lia).
    discriminate.
  - rewrite (antitone_le P Hanti (b + 1) a) in Pb1 by (auto; lia).
    discriminate.
Qed.

Section SplitExact.
Variable mcodes : list Z.
Variable i : Z.
Hypothesis Hi : 0 <= i < alen mcodes.
Variables d dn l : Z.
Hypothesis Hl : l <= 2 ^ 24.
Hypothesis Hanti :
  forall x, 0 <= x -> probe mcodes i d dn (x + 1) = true ->
            probe mcodes i d dn x = true.

(** With an exactly represented [l] the split loop is a binary search: it
    ends on the last position whose probe holds. *)
Lemma split_loop_exact (gap : nat) :
  forall (fuel : nat) (s div T : Z),
    (gap < fuel)%nat ->
    0 < div -> T = ceil_div l div -> 1 <= T <= 2 ^ Z.of_nat (S gap) ->
    0 <= s ->
    probe mcodes i d dn s = true ->
    probe mcodes i d dn (s + T) = false ->
    exists s',
      split_loop fuel i d dn (alen mcodes - 1) mcodes l s (div * 2) = Ok s' /\
      s <= s' /\
      probe mcodes i d dn s' = true /\
      probe mcodes i d dn (s' + 1) = false.
Proof.
  induction gap as [|gap IH]; intros fuel s div T Hf Hdiv HT HTb Hs Ps PsT;
    (destruct fuel as [|fuel]; [lia|]);
    rewrite (split_loop_step mcodes i Hi); cbv zeta;
    rewrite (float32_of_int_exact l Hl);
    rewrite (ceil_div_double l div Hdiv), <- HT;
    pose proof (ceil_div_bounds T 2 ltac:(lia)) as Hb;
    set (t := ceil_div T 2) in *.
  - change (2 ^ Z.of_nat 1) with 2 in HTb.
    assert (Ht : t = 1) by lia. rewrite Ht. change (1 =? 1) with true.
    cbv iota.
    destruct (probe mcodes i d dn (s + 1)) eqn:E.
    + exists (s + 1). split; [reflexivity|]. split; [lia|].
      split; [exact E|].
      assert (T = 2) by (destruct (Z.eq_dec T 1) as [E1|E1];
                          [rewrite E1, E in PsT; discriminate|lia]).
      replace (s + 1 + 1) with (s + T) by lia. exact PsT.
    + exists s. split; [reflexivity|]. split; [lia|]. split; assumption.
  - rewrite pow2_succ in HTb. pose proof (pow2_pos (S gap)) as Pp.
    destruct (t =? 1) eqn:Et.
    + apply Z.eqb_eq in Et.
      destruct (probe mcodes i d dn (s + t)) eqn:E; rewrite Et in E.
      * exists (s + t). rewrite Et. split; [reflexivity|]. split; [lia|].
        split; [exact E|].
        assert (T = 2) by (destruct (Z.eq_dec T 1) as [E1|E1];
                            [rewrite E1, E in PsT; discriminate|lia]).
        replace (s + 1 + 1) with (s + T) by lia. exact PsT.
      * exists s. split; [reflexivity|]. split; [lia|]. split; assumption.
    + apply Z.eqb_neq in Et.
      assert (Hnext : probe mcodes i d dn (s + t + t) = false).
      { destruct (Z.eq_dec (t * 2) T) as [E2|E2].
        - replace (s + t + t) with (s + T) by lia. exact PsT.
        - destruct (probe mcodes i d dn (s + t + t)) eqn:E3; [|reflexivity].
          replace (s + t + t) with (s + T + 1) in E3 by lia.
          apply Hanti in E3; [|lia]. congruence. }
      destruct (probe mcodes i d dn (s + t)) eqn:E.
      * destruct (IH fuel (s + t) (div * 2) t) as (s' & Hr & Hle & P1 & P2);
          try lia; try assumption.
        { unfold t. rewrite HT. symmetry. apply ceil_div_double. exact Hdiv. }
        exists s'. split; [exact Hr|]. split; [lia|]. split; assumption.
      * destruct (IH fuel s (div * 2) t) as (s' & Hr & Hle & P1 & P2);
          try lia; try assumption.
        { unfold t. rewrite HT. symmetry. apply ceil_div_double. exact Hdiv. }
        exists s'. split; [exact Hr|]. split; [lia|]. split; assumption.
Qed.

End SplitExact.

Section NodeSearch.
Variable mcodes : list Z.
Hypothesis Hsorted : is_sorted mcodes = true.
Hypothesis Huint : all_uint32 mcodes = true.
Hypothesis Hsize : 2 <= alen mcodes <= 2 ^ 30.

Lemma Hsize32 : alen mcodes <= 2 ^ 32.
Proof. lia. Qed.

Lemma probe_antitone (i d bound : Z) :
  d = 1 \/ d = -1 -> 0 <= i < alen mcodes -> -1 <= bound ->
  forall x, 0 <= x -> probe mcodes i d bound (x + 1) = true ->
            probe mcodes i d bound x = true.
Proof.
  intros Hd Hi Hb x Hx Hp.
  pose proof (probe_true_inside mcodes i d bound (x + 1) Hb Hp) as Hin.
  unfold probe in *. apply Z.ltb_lt in Hp. apply Z.ltb_lt.
  assert (dval mcodes i (i + (x + 1) * d) <= dval mcodes i (i + x * d));
    [|lia].
  destruct Hd as [-> | ->].
  - apply (dval_mono_r mcodes Hsorted Huint Hsize32); lia.
  - rewrite (dval_sym mcodes i (i + (x + 1) * -1)) by lia.
    rewrite (dval_sym mcodes i (i + x * -1)) by lia.
    apply (dval_mono_l mcodes Hsorted Huint Hsize32); lia.
Qed.

(** What the loops of node [i] find: a range length [l] at the boundary of
    the probe against [min_delta] and, when [l] is exactly representable, a
    split offset [s] at the boundary of the probe against [delta_node]. *)
Lemma node_search_boundaries (i : Z) (fuel : nat) :
  0 <= i < alen mcodes - 1 -> (32 <= fuel)%nat ->
  let d := direction mcodes i in
  let min_delta := dval mcodes i (i - d) in
  exists l s : Z,
    node_search fuel (alen mcodes - 1) mcodes i
      = Ok (i + l * d, i + s * d + Z.min d 0) /\
    1 <= l /\
    probe mcodes i d min_delta l = true /\
    probe mcodes i d min_delta (l + 1) = false /\
    (l <= 2 ^ 24 ->
     0 <= s /\
     probe mcodes i d (dval mcodes i (i + l * d)) s = true /\
     probe mcodes i d (dval mcodes i (i + l * d)) (s + 1) = false).
Proof.
  intros Hi Hfuel d min_delta.
  assert (Hi' : 0 <= i < alen mcodes) by lia.
  destruct (build_tree_loops_terminate_core mcodes i Hsorted Huint Hsize Hi fuel Hfuel)
    as (m & l & Hdl & Hrl & Hl1 & Hpl & Hpl1).
  fold d in Hdl, Hrl, Hpl, Hpl1. fold min_delta in Hdl, Hrl, Hpl, Hpl1.
  assert (Hmd : -1 <= min_delta) by apply dval_ge_m1.
  assert (Hd : d = 1 \/ d = -1) by apply direction_cases.
  assert (Hlin : 0 <= i + l * d < alen mcodes)
    by (apply (probe_true_inside mcodes i d min_delta l Hmd Hpl)).
  assert (Hl31 : l < 2 ^ 31) by (destruct Hd as [Hd|Hd]; rewrite Hd in Hlin; lia).
  set (dn := dval mcodes i (i + l * d)).
  destruct (Z.le_gt_cases l (2 ^ 24)) as [Hsmall|Hbig].
  - assert (Hdn : 0 <= dn <= 63).
    { apply dval_bounds; auto using Hsize32.
      destruct Hd as [Hd|Hd]; rewrite Hd; lia. }
    destruct (split_loop_exact mcodes i Hi' d dn l Hsmall
                (probe_antitone i d dn Hd Hi' ltac:(lia)) 30 fuel 0 1 l)
      as (s & Hsl & Hs0 & Ps & Ps1); try lia.
    + unfold ceil_div. rewrite Z.div_1_r. lia.
    + unfold probe. replace (i + 0 * d) with i by lia.
      rewrite dval_self by exact Hi'. apply Z.ltb_lt. lia.
    + unfold probe. rewrite Z.add_0_l. fold dn. apply Z.ltb_irrefl.
    + exists l, s. split.
      { apply (node_search_unfold mcodes i fuel (2 ^ Z.of_nat m) l s Hi');
          assumption. }
      split; [exact Hl1|]. split; [exact Hpl|]. split; [exact Hpl1|].
      intros _. split; [lia|]. split; assumption.
  - pose proof (float32_of_int_bounds l ltac:(lia)) as HL.
    destruct (split_loop_terminates mcodes i Hi' d dn l 30 1 fuel 0)
      as (s & Hsl); [lia| |].
    { change (2 ^ Z.of_nat (1 + 30)) with (2 ^ 31). lia. }
    change (2 ^ Z.of_nat 1) with 2 in Hsl.
    exists l, s. split.
    { apply (node_search_unfold mcodes i fuel (2 ^ Z.of_nat m) l s Hi');
        assumption. }
    split; [exact Hl1|]. split; [exact Hpl|]. split; [exact Hpl1|].
    intros; lia.
Qed.

End NodeSearch.

(* ================================================================== *)
(** ** Ranges of internal nodes *)

Section Blocks.
Variable mcodes : list Z.
Hypothesis Hsorted : is_sorted mcodes = true.
Hypothesis Huint : all_uint32 mcodes = true.
Hypothesis Hsize : 2 <= alen mcodes <= 2 ^ 30.

Let H32 : alen mcodes <= 2 ^ 32 := Hsize32 mcodes Hsize.
Let dv := dval mcodes.

Ltac side := first [assumption | lia].

(** Where the common prefix of a range is attained between neighbours, both
    sides share strictly more. *)
Lemma block_split_point (lo hi g : Z) :
  0 <= lo -> hi < alen mcodes -> lo <= g < hi ->
  dv g (g + 1) = dv lo hi ->
  dv lo hi < dv lo g /\ dv lo hi < dv (g + 1) hi.
Proof.
  unfold dv. intros Hlo Hhi Hg Hd.
  assert (Hb : 0 <= dval mcodes g (g + 1) <= 63)
    by (apply dval_bounds; side).
  split.
  - destruct (Z.eq_dec lo g) as [->|Hne].
    + rewrite (dval_self mcodes g) by lia. lia.
    + destruct (dval_chain_strict mcodes Hsorted Huint H32 lo g (g + 1))
        as [Hn _]; try lia.
      assert (dval mcodes lo hi <= dval mcodes lo g)
        by (apply dval_mono_r; side).
      lia.
  - destruct (Z.eq_dec (g + 1) hi) as [<-|Hne].
    + rewrite (dval_self mcodes (g + 1)) by lia. lia.
    + destruct (dval_chain_strict mcodes Hsorted Huint H32 g (g + 1) hi)
        as [Hn _]; try lia.
      assert (dval mcodes lo hi <= dval mcodes (g + 1) hi)
        by (apply dval_mono_l; side).
      lia.
Qed.

(** The node at the left end of a range whose right neighbour is the
    farther one finds that range and its split. *)
Lemma node_search_right (lo hi : Z) (fuel : nat) :
  is_block mcodes lo hi ->
  dv hi (hi + 1) <= dv lo (lo - 1) ->
  hi - lo <= 2 ^ 24 -> (32 <= fuel)%nat ->
  exists g,
    node_search fuel (alen mcodes - 1) mcodes lo = Ok (hi, g) /\
    lo <= g < hi /\ dv g (g + 1) = dv lo hi.
Proof.
  unfold dv. intros (Hlo & Hlh & Hhi & HL & HR) Hty Hlen Hfuel.
  assert (Hdir : direction mcodes lo = 1).
  { unfold direction.
    assert (dval mcodes lo hi <= dval mcodes lo (lo + 1))
      by (apply dval_mono_r; side).
    replace (dval mcodes lo (lo + 1) - dval mcodes lo (lo - 1) <? 0)
      with false by (symmetry; apply Z.ltb_ge; lia).
    reflexivity. }
  assert (Hlo' : 0 <= lo < alen mcodes - 1) by lia.
  destruct (node_search_boundaries mcodes Hsorted Huint Hsize lo fuel
              Hlo' Hfuel) as (l & s & Hns & Hl1 & Pl & Pl1 & Hs).
  rewrite Hdir in Hns, Pl, Pl1, Hs.
  set (md := dval mcodes lo (lo - 1)) in *.
  assert (Hmd : -1 <= md) by apply dval_ge_m1.
  assert (El : l = hi - lo).
  { apply (boundary_unique (probe mcodes lo 1 md) l (hi - lo));
      [ | lia | lia | exact Pl | exact Pl1 | | ].
    - apply probe_antitone; [exact Hsorted|exact Huint|exact Hsize|left; reflexivity|lia|exact Hmd].
    - unfold probe. apply Z.ltb_lt. replace (lo + (hi - lo) * 1) with hi by lia.
      exact HL.
    - unfold probe. apply Z.ltb_ge.
      replace (lo + (hi - lo + 1) * 1) with (hi + 1) by lia.
      destruct (Z.eq_dec (hi + 1) (alen mcodes)) as [E|E].
      + rewrite dval_outside by lia. lia.
      + rewrite (dval_chain mcodes Hsorted Huint H32 lo hi (hi + 1)) by lia.
        lia. }
  subst l. specialize (Hs Hlen). destruct Hs as (Hs0 & Ps & Ps1).
  replace (lo + (hi - lo) * 1) with hi in * by lia.
  set (D := dval mcodes lo hi) in *.
  assert (HD : -1 <= D) by apply dval_ge_m1.
  assert (Hsl : s < hi - lo).
  { destruct (Z.lt_ge_cases s (hi - lo)) as [L|G]; [exact L|]. exfalso.
    assert (Hc : probe mcodes lo 1 D (hi - lo) = true).
    { apply (antitone_le (probe mcodes lo 1 D)) with (b := s);
        [ | lia | exact Ps].
      apply probe_antitone; [exact Hsorted|exact Huint|exact Hsize|left; reflexivity|lia|exact HD]. }
    unfold probe in Hc. replace (lo + (hi - lo) * 1) with hi in Hc by lia.
    fold D in Hc. rewrite Z.ltb_irrefl in Hc. discriminate. }
  exists (lo + s). split.
  { rewrite Hns. do 2 f_equal. lia. }
  split; [lia|].
  unfold probe in Ps, Ps1. apply Z.ltb_lt in Ps. apply Z.ltb_ge in Ps1.
  replace (lo + s * 1) with (lo + s) in Ps by lia.
  replace (lo + (s + 1) * 1) with (lo + s + 1) in Ps1 by lia.
  assert (Hm : D <= dval mcodes lo (lo + s + 1))
    by (apply dval_mono_r; side).
  assert (Hc : dval mcodes lo (lo + s + 1)
               = Z.min (dval mcodes lo (lo + s))
                       (dval mcodes (lo + s) (lo + s + 1)))
    by (apply dval_chain; side).
  lia.
Qed.

(** Symmetrically for the node at the right end. *)
Lemma node_search_left (lo hi : Z) (fuel : nat) :
  is_block mcodes lo hi ->
  dv lo (lo - 1) < dv hi (hi + 1) ->
  hi - lo <= 2 ^ 24 -> (32 <= fuel)%nat ->
  hi < alen mcodes - 1 /\
  exists g,
    node_search fuel (alen mcodes - 1) mcodes hi = Ok (lo, g) /\
    lo <= g < hi /\ dv g (g + 1) = dv lo hi.
Proof.
  unfold dv. intros (Hlo & Hlh & Hhi & HL & HR) Hty Hlen Hfuel.
  assert (Hhi' : hi < alen mcodes - 1).
  { destruct (Z.lt_ge_cases hi (alen mcodes - 1)) as [L|G]; [exact L|].
    rewrite (dval_outside mcodes hi (hi + 1)) in Hty by lia.
    pose proof (dval_ge_m1 mcodes lo (lo - 1)). lia. }
  split; [exact Hhi'|].
  assert (Hdir : direction mcodes hi = -1).
  { unfold direction.
    assert (Hm : dval mcodes lo hi <= dval mcodes (hi - 1) hi)
      by (apply dval_mono_l; side).
    rewrite (dval_sym mcodes (hi - 1) hi) in Hm by lia.
    replace (dval mcodes hi (hi + 1) - dval mcodes hi (hi - 1) <? 0)
      with true by (symmetry; apply Z.ltb_lt; lia).
    reflexivity. }
  assert (Hhi'' : 0 <= hi < alen mcodes - 1) by lia.
  destruct (node_search_boundaries mcodes Hsorted Huint Hsize hi fuel
              Hhi'' Hfuel) as (l & s & Hns & Hl1 & Pl & Pl1 & Hs).
  rewrite Hdir in Hns, Pl, Pl1, Hs.
  replace (hi - -1) with (hi + 1) in * by lia.
  set (md := dval mcodes hi (hi + 1)) in *.
  assert (Hmd : -1 <= md) by apply dval_ge_m1.
  assert (Esym : dval mcodes hi lo = dval mcodes lo hi)
    by (apply dval_sym; lia).
  assert (El : l = hi - lo).
  { apply (boundary_unique (probe mcodes hi (-1) md) l (hi - lo));
      [ | lia | lia | exact Pl | exact Pl1 | | ].
    - apply probe_antitone; [exact Hsorted|exact Huint|exact Hsize|right; reflexivity|lia|exact Hmd].
    - unfold probe. apply Z.ltb_lt.
      replace (hi + (hi - lo) * -1) with lo by lia. rewrite Esym. exact HR.
    - unfold probe. apply Z.ltb_ge.
      replace (hi + (hi - lo + 1) * -1) with (lo - 1) by lia.
      destruct (Z.eq_dec lo 0) as [E|E].
      + rewrite dval_outside by lia. lia.
      + rewrite (dval_sym mcodes hi (lo - 1)) by lia.
        rewrite (dval_chain mcodes Hsorted Huint H32 (lo - 1) lo hi) by lia.
        rewrite (dval_sym mcodes (lo - 1) lo) by lia. lia. }
  subst l. specialize (Hs Hlen). destruct Hs as (Hs0 & Ps & Ps1).
  replace (hi + (hi - lo) * -1) with lo in * by lia.
  rewrite Esym in Ps, Ps1.
  set (D := dval mcodes lo hi) in *.
  assert (HD : -1 <= D) by apply dval_ge_m1.
  assert (Hsl : s < hi - lo).
  { destruct (Z.lt_ge_cases s (hi - lo)) as [L|G]; [exact L|]. exfalso.
    assert (Hc : probe mcodes hi (-1) D (hi - lo) = true).
    { apply (antitone_le (probe mcodes hi (-1) D)) with (b := s);
        [ | lia | exact Ps].
      apply probe_antitone; [exact Hsorted|exact Huint|exact Hsize|right; reflexivity|lia|exact HD]. }
    unfold probe in Hc. replace (hi + (hi - lo) * -1) with lo in Hc by lia.
    rewrite Esym in Hc. fold D in Hc. rewrite Z.ltb_irrefl in Hc.
    discriminate. }
  exists (hi - s - 1). split.
  { rewrite Hns. do 2 f_equal. lia. }
  split; [lia|].
  unfold probe in Ps, Ps1. apply Z.ltb_lt in Ps. apply Z.ltb_ge in Ps1.
  replace (hi + s * -1) with (hi - s - 1 + 1) in Ps by lia.
  replace (hi + (s + 1) * -1) with (hi - s - 1) in Ps1 by lia.
  set (g := hi - s - 1) in *.
  rewrite (dval_sym mcodes hi (g + 1)) in Ps by lia.
  rewrite (dval_sym mcodes hi g) in Ps1 by lia.
  assert (Hm : D <= dval mcodes g hi)
    by (apply dval_mono_l; side).
  assert (Hc : dval mcodes g hi
               = Z.min (dval mcodes g (g + 1)) (dval mcodes (g + 1) hi))
    by (apply dval_chain; side).
  lia.
Qed.

(** The two sides of the split are leaves or ranges again: the left one
    has its farther neighbour on the left, the right one on the right. *)
Lemma block_left_child (lo hi g : Z) :
  is_block mcodes lo hi -> lo < g < hi -> dv g (g + 1) = dv lo hi ->
  is_block mcodes lo g /\ dv lo (lo - 1) < dv g (g + 1).
Proof.
  unfold dv. intros (Hlo & Hlh & Hhi & HL & HR) Hg Hd.
  destruct (block_split_point lo hi g) as [H1 H2]; unfold dv; try lia.
  unfold dv in H1, H2. unfold is_block. repeat split; lia.
Qed.

Lemma block_right_child (lo hi g : Z) :
  is_block mcodes lo hi -> lo <= g -> g + 1 < hi ->
  dv g (g + 1) = dv lo hi ->
  is_block mcodes (g + 1) hi /\ dv hi (hi + 1) <= dv (g + 1) (g + 1 - 1).
Proof.
  unfold dv. intros (Hlo & Hlh & Hhi & HL & HR) Hg Hg' Hd.
  destruct (block_split_point lo hi g) as [H1 H2]; unfold dv; try lia.
  unfold dv in H1, H2. replace (g + 1 - 1) with g by lia.
  rewrite (dval_sym mcodes (g + 1) g) by lia.
  unfold is_block. replace (g + 1 - 1) with g by lia.
  rewrite (dval_sym mcodes (g + 1) g) by lia. repeat split; lia.
Qed.

Lemma root_block :
  is_block mcodes 0 (alen mcodes - 1) /\
  dv (alen mcodes - 1) (alen mcodes - 1 + 1) <= dv 0 (0 - 1).
Proof.
  unfold dv, is_block.
  rewrite (dval_outside mcodes 0 (0 - 1)) by lia.
  rewrite (dval_outside mcodes (alen mcodes - 1) (alen mcodes - 1 + 1)) by lia.
  assert (0 <= dval mcodes 0 (alen mcodes - 1) <= 63)
    by (apply dval_bounds; side).
  repeat split; lia.
Qed.

End Blocks.

(* ================================================================== *)
(** ** The tree of the computed children *)

Lemma zseq_length (s : Z) (n : nat) : length (zseq s n) = n.
Proof. revert s; induction n as [|n IH]; intros s; simpl; auto. Qed.

Lemma zseq_In (s : Z) (n : nat) (x : Z) :
  In x (zseq s n) <-> s <= x < s + Z.of_nat n.
Proof.
  revert s; induction n as [|n IH]; intros s; cbn [zseq In].
  - lia.
  - rewrite IH. lia.
Qed.

Lemma zseq_app (s : Z) (m k : nat) :
  zseq s (m + k) = zseq s m ++ zseq (s + Z.of_nat m) k.
Proof.
  revert s; induction m as [|m IH]; intros s.
  - simpl. now rewrite Z.add_0_r.
  - cbn [zseq Nat.add app]. rewrite IH. do 3 f_equal. lia.
Qed.

Lemma zseq_NoDup (s : Z) (n : nat) : NoDup (zseq s n).
Proof.
  revert s; induction n as [|n IH]; intros s; cbn [zseq]; constructor.
  - rewrite zseq_In. lia.
  - apply IH.
Qed.

Lemma zseq_map (s : Z) (n : nat) :
  zseq s n = map (fun k => s + Z.of_nat k) (seq 0 n).
Proof.
  revert s; induction n as [|n IH]; intros s; [reflexivity|].
  cbn [zseq seq map]. rewrite <- seq_shift, map_map, IH. f_equal; [lia|].
  apply map_ext. intros; lia.
Qed.

Lemma zseq_0_iota (n : nat) : zseq 0 n = iota n.
Proof. rewrite zseq_map. unfold iota. apply map_ext. intros; lia. Qed.

Lemma zrange_app (a b c : Z) :
  a <= b + 1 -> b <= c -> zrange a b ++ zrange (b + 1) c = zrange a c.
Proof.
  intros Hab Hbc. unfold zrange.
  replace (Z.to_nat (c - a + 1))
    with (Z.to_nat (b - a + 1) + Z.to_nat (c - (b + 1) + 1))%nat by lia.
  rewrite zseq_app. do 2 f_equal. lia.
Qed.

Lemma zrange_cons (a b : Z) : a <= b -> zrange a b = a :: zrange (a + 1) b.
Proof.
  intros Hab. unfold zrange.
  replace (Z.to_nat (b - a + 1)) with (S (Z.to_nat (b - (a + 1) + 1))) by lia.
  reflexivity.
Qed.

Lemma zrange_snoc (a b : Z) : a <= b -> zrange a b = zrange a (b - 1) ++ [b].
Proof.
  intros Hab. rewrite <- (zrange_app a (b - 1) b) by lia.
  f_equal. replace (b - 1 + 1) with b by lia.
  unfold zrange. replace (Z.to_nat (b - b + 1)) with 1%nat by lia.
  reflexivity.
Qed.

Lemma zrange_single (a : Z) : zrange a a = [a].
Proof.
  unfold zrange. replace (Z.to_nat (a - a + 1)) with 1%nat by lia.
  reflexivity.
Qed.

Lemma zrange_empty (a b : Z) : b < a -> zrange a b = [].
Proof.
  intros H. unfold zrange. replace (Z.to_nat (b - a + 1)) with 0%nat by lia.
  reflexivity.
Qed.

Lemma zrange_In (a b x : Z) : In x (zrange a b) <-> a <= x <= b.
Proof. unfold zrange. rewrite zseq_In. lia. Qed.

Lemma zrange_iota (n : nat) : zrange 0 (Z.of_nat n - 1) = iota n.
Proof.
  unfold zrange. replace (Z.to_nat (Z.of_nat n - 1 - 0 + 1)) with n by lia.
  apply zseq_0_iota.
Qed.

Section Tree.
Variable mcodes : list Z.
Hypothesis Hsorted : is_sorted mcodes = true.
Hypothesis Huint : all_uint32 mcodes = true.
Hypothesis Hsize : 2 <= alen mcodes <= 2 ^ 30.
Variable fuel : nat.
Hypothesis Hfuel : (32 <= fuel)%nat.

Let inner_size := alen mcodes - 1.
Let dv := dval mcodes.

(** Every range, with the side of its farther neighbour, is the set of
    leaves of a tree of computed children rooted at the matching index and
    using the internal indices of the range. *)
Lemma computed_tree_exists (sz : nat) :
  forall (right : bool) (lo hi : Z),
    0 <= lo <= hi -> hi < alen mcodes ->
    hi - lo <= Z.of_nat sz -> hi - lo <= 2 ^ 24 ->
    (lo < hi ->
     is_block mcodes lo hi /\
     if right then dv hi (hi + 1) <= dv lo (lo - 1)
     else dv lo (lo - 1) < dv hi (hi + 1)) ->
    exists t,
      computed_tree fuel mcodes t /\
      node_index inner_size t = child_index inner_size right lo hi /\
      leaves t = zrange lo hi /\
      Permutation (internals t) (child_internals right lo hi).
Proof.
  induction sz as [|sz IH]; intros right lo hi Hlh Hhi Hsz H24 Hblk.
  - assert (lo = hi) by lia. subst hi. exists (Leaf lo).
    split; [simpl; lia|]. split.
    { unfold child_index. now rewrite Z.eqb_refl. }
    split; [now rewrite zrange_single|].
    unfold child_internals. destruct right; rewrite zrange_empty by lia;
      constructor.
  - destruct (Z.eq_dec lo hi) as [E|E].
    { apply (IH right lo hi); lia. }
    destruct Hblk as [Hb Hty]; [lia|].
    assert (Hg : exists g, lo <= g < hi /\ dv g (g + 1) = dv lo hi /\
               0 <= (if right then lo else hi) < alen mcodes - 1 /\
               node_children fuel inner_size mcodes (if right then lo else hi)
               = Ok (child_index inner_size false lo g,
                     child_index inner_size true (g + 1) hi)).
    { destruct right.
      - destruct (node_search_right mcodes Hsorted Huint Hsize lo hi fuel
                    Hb Hty H24 Hfuel) as (g & Hns & Hg & Hd).
        exists g. split; [exact Hg|]. split; [exact Hd|]. split; [lia|].
        unfold node_children. fold inner_size in Hns. rewrite Hns.
        cbn [bind fst snd]. unfold left_child, right_child, child_index.
        rewrite Z.min_l, Z.max_r by lia. rewrite (Z.eqb_sym (g + 1) hi).
        do 2 f_equal.
        + destruct (lo =? g) eqn:E1; [apply Z.eqb_eq in E1|]; lia.
        + destruct (hi =? g + 1); lia.
      - destruct (node_search_left mcodes Hsorted Huint Hsize lo hi fuel
                    Hb Hty H24 Hfuel) as (Hhi' & g & Hns & Hg & Hd).
        exists g. split; [exact Hg|]. split; [exact Hd|]. split; [lia|].
        unfold node_children. fold inner_size in Hns. rewrite Hns.
        cbn [bind fst snd]. unfold left_child, right_child, child_index.
        rewrite Z.min_r, Z.max_l by lia. rewrite (Z.eqb_sym (g + 1) hi).
        do 2 f_equal.
        + destruct (lo =? g) eqn:E1; [apply Z.eqb_eq in E1|]; lia.
        + destruct (hi =? g + 1); lia. }
    destruct Hg as (g & Hg & Hd & Hv & Hch).
    destruct (IH false lo g) as (tl & Ctl & Itl & Ltl & Ptl); try lia.
    { intros Hlg. apply (block_left_child mcodes Hsorted Huint Hsize lo hi g);
        auto; lia. }
    destruct (IH true (g + 1) hi) as (tr & Ctr & Itr & Ltr & Ptr); try lia.
    { intros Hgh.
      destruct (block_right_child mcodes Hsorted Huint Hsize lo hi g)
        as [B1 B2]; auto; try lia. }
    exists (Node (if right then lo else hi) tl tr).
    split.
    { cbn [computed_tree]. split; [exact Hv|]. fold inner_size.
      rewrite Itl, Itr. split; [exact Hch|]. split; assumption. }
    split.
    { cbn [node_index]. unfold child_index.
      replace (lo =? hi) with false by (symmetry; apply Z.eqb_neq; lia).
      reflexivity. }
    split.
    { cbn [leaves]. rewrite Ltl, Ltr. apply zrange_app; lia. }
    cbn [internals]. unfold child_internals in *.
    destruct right.
    + rewrite (zrange_cons lo (hi - 1)) by lia. constructor.
      rewrite <- (zrange_app (lo + 1) g (hi - 1)) by lia.
      apply Permutation_app; assumption.
    + rewrite (zrange_snoc (lo + 1) hi) by lia.
      rewrite <- (zrange_app (lo + 1) g (hi - 1)) by lia.
      apply Permutation_cons_app. rewrite app_nil_r.
      apply Permutation_app; assumption.
Qed.

(** The tree of the whole array. *)
Lemma computed_tree_root :
  alen mcodes <= 2 ^ 24 + 1 ->
  exists t,
    computed_tree fuel mcodes t /\
    node_index inner_size t = 0 /\
    leaves t = iota (length mcodes) /\
    Permutation (internals t) (iota (length mcodes - 1)).
Proof.
  intros H24.
  destruct (root_block mcodes Hsorted Huint Hsize) as [Hb Hty].
  destruct (computed_tree_exists (length mcodes) true 0 (alen mcodes - 1))
    as (t & Ct & It & Lt & Pt); try (unfold alen in *; lia).
  { intros _. split; assumption. }
  exists t. split; [exact Ct|]. split.
  { rewrite It. unfold child_index.
    replace (0 =? alen mcodes - 1) with false
      by (symmetry; apply Z.eqb_neq; lia). reflexivity. }
  split.
  { rewrite Lt. unfold alen. apply zrange_iota. }
  unfold child_internals in Pt.
  replace (alen mcodes - 1 - 1) with (Z.of_nat (length mcodes - 1) - 1) in Pt
    by (unfold alen in *; lia).
  now rewrite zrange_iota in Pt.
Qed.

End Tree.

(* ================================================================== *)
(** ** Nodes and edges of a tree *)

Lemma tree_nodes_perm (inner_size : Z) (t : shape) :
  Permutation (tree_nodes inner_size t)
              (internals t ++ map (Z.add inner_size) (leaves t)).
Proof.
  induction t as [p|v l IHl r IHr]; cbn [tree_nodes internals leaves];
    [reflexivity|].
  rewrite map_app. cbn [app]. constructor. rewrite IHl, IHr.
  rewrite <- !app_assoc. apply Permutation_app_head.
  rewrite !app_assoc. apply Permutation_app_tail. apply Permutation_app_comm.
Qed.

Lemma edges_tree_nodes (inner_size : Z) (t : shape) :
  Permutation (node_index inner_size t :: map snd (edges inner_size t))
              (tree_nodes inner_size t).
Proof.
  induction t as [p|v l IHl r IHr]; cbn [tree_nodes edges node_index map snd];
    [reflexivity|].
  constructor. rewrite map_app. rewrite <- IHl, <- IHr. cbn [app].
  constructor. apply Permutation_middle.
Qed.

Lemma height_le_internals (t : shape) : (height t <= length (internals t))%nat.
Proof.
  induction t as [p|v l IHl r IHr]; cbn [height internals length]; [lia|].
  rewrite length_app. lia.
Qed.

Lemma map_add_zseq (a s : Z) (n : nat) :
  map (Z.add a) (zseq s n) = zseq (a + s) n.
Proof.
  revert s; induction n as [|n IH]; intros s; cbn [zseq map]; [reflexivity|].
  rewrite IH. do 2 f_equal. lia.
Qed.

Lemma NoDup_map_In_inj {A B : Type} (f : A -> B) (l : list A) (x y : A) :
  NoDup (map f l) -> In x l -> In y l -> f x = f y -> x = y.
Proof.
  induction l as [|a l IH]; intros Hnd Hx Hy Hf; [destruct Hx|].
  cbn [map] in Hnd. inversion Hnd as [|? ? Hnin Hnd']; subst.
  destruct Hx as [->|Hx], Hy as [->|Hy]; auto.
  - exfalso. apply Hnin. rewrite Hf. now apply in_map.
  - exfalso. apply Hnin. rewrite <- Hf. now apply in_map.
Qed.

Section Edges.
Variable mcodes : list Z.
Variable fuel : nat.

Let inner_size := alen mcodes - 1.
Let ch := node_children fuel inner_size mcodes.

Lemma edges_children (t : shape) (v c : Z) :
  computed_tree fuel mcodes t -> In (v, c) (edges inner_size t) ->
  0 <= v < inner_size /\
  exists c1 c2, ch v = Ok (c1, c2) /\ (c = c1 \/ c = c2).
Proof.
  induction t as [p|v0 l IHl r IHr]; cbn [computed_tree edges];
    intros Ct Hin; [destruct Hin|].
  destruct Ct as (Hv & Hch & Cl & Cr). fold inner_size in Hv, Hch.
  destruct Hin as [E|[E|Hin]].
  - inversion E; subst. split; [exact Hv|]. eauto.
  - inversion E; subst. split; [exact Hv|]. eauto.
  - apply in_app_or in Hin. destruct Hin as [Hin|Hin]; auto.
Qed.

Lemma internals_edges (t : shape) (v : Z) :
  computed_tree fuel mcodes t -> In v (internals t) ->
  exists c1 c2, ch v = Ok (c1, c2) /\
                In (v, c1) (edges inner_size t) /\
                In (v, c2) (edges inner_size t).
Proof.
  induction t as [p|v0 l IHl r IHr]; cbn [computed_tree internals edges];
    intros Ct Hin; [destruct Hin|].
  destruct Ct as (Hv & Hch & Cl & Cr). fold inner_size in Hv, Hch.
  destruct Hin as [<-|Hin].
  - exists (node_index inner_size l), (node_index inner_size r).
    split; [exact Hch|]. split; [left; reflexivity|right; left; reflexivity].
  - apply in_app_or in Hin. destruct Hin as [Hin|Hin].
    + destruct (IHl Cl Hin) as (c1 & c2 & E & I1 & I2).
      exists c1, c2. split; [exact E|].
      split; right; right; apply in_or_app; left; assumption.
    + destruct (IHr Cr Hin) as (c1 & c2 & E & I1 & I2).
      exists c1, c2. split; [exact E|].
      split; right; right; apply in_or_app; right; assumption.
Qed.

Lemma children_differ (t : shape) (v c1 c2 : Z) :
  computed_tree fuel mcodes t -> NoDup (map snd (edges inner_size t)) ->
  In v (internals t) -> ch v = Ok (c1, c2) -> c1 <> c2.
Proof.
  induction t as [p|v0 l IHl r IHr]; cbn [computed_tree internals edges];
    intros Ct Hnd Hin Hch; [destruct Hin|].
  destruct Ct as (Hv & Hch0 & Cl & Cr). fold inner_size in Hv, Hch0.
  cbn [map snd] in Hnd. rewrite map_app in Hnd.
  inversion Hnd as [|? ? Hn1 Hnd1]; subst.
  inversion Hnd1 as [|? ? Hn2 Hnd2]; subst.
  destruct Hin as [<-|Hin].
  - unfold ch in Hch. rewrite Hch0 in Hch. inversion Hch; subst.
    intros E. apply Hn1. left. auto.
  - apply in_app_or in Hin. destruct Hin as [Hin|Hin].
    + apply (IHl Cl); auto. eapply NoDup_app_remove_r. exact Hnd2.
    + apply (IHr Cr); auto. eapply NoDup_app_remove_l. exact Hnd2.
Qed.

End Edges.

(* ================================================================== *)
(** ** The link arrays after [build_tree] *)

Lemma code_at_upd_same (a : list Z) (k v : Z) :
  0 <= k < alen a -> code_at (upd (Z.to_nat k) v a) k = v.
Proof. intros Hk. unfold code_at. apply upd_nth_same. unfold alen in Hk. lia. Qed.

Lemma code_at_upd_other (a : list Z) (k m v : Z) :
  0 <= k -> 0 <= m -> k <> m ->
  code_at (upd (Z.to_nat k) v a) m = code_at a m.
Proof. intros Hk Hm Hne. unfold code_at. apply upd_nth_other. lia. Qed.

Lemma aget_code_at (a : list Z) (i : Z) :
  0 <= i < alen a -> aget a i = Ok (code_at a i).
Proof. intros Hi. unfold code_at. now apply aget_ok. Qed.

(** The assignments of one node. *)
Lemma node_assign_ok (inner_size i j split : Z) (k : Links) :
  0 <= i < alen (lchildren k) -> 0 <= i < alen (rchildren k) ->
  0 <= left_child inner_size i j split < alen (parents k) ->
  0 <= right_child inner_size i j split < alen (parents k) ->
  node_assign inner_size i j split k =
    Ok (mkLinks
          (upd (Z.to_nat i) (left_child inner_size i j split) (lchildren k))
          (upd (Z.to_nat i) (right_child inner_size i j split) (rchildren k))
          (let p2 := upd (Z.to_nat (right_child inner_size i j split)) i
                       (upd (Z.to_nat (left_child inner_size i j split)) i
                            (parents k)) in
           if i =? 0 then upd 0 (-1) p2 else p2)).
Proof.
  intros Hl Hr Hc1 Hc2. unfold node_assign. cbv zeta.
  rewrite (aset_ok (parents k)) by exact Hc1. cbn [bind].
  rewrite (aset_ok (lchildren k)) by exact Hl. cbn [bind].
  rewrite aset_ok by (rewrite alen_upd; exact Hc2). cbn [bind].
  rewrite (aset_ok (rchildren k)) by exact Hr. cbn [bind].
  destruct (i =? 0) eqn:E.
  - rewrite aset_ok by (rewrite !alen_upd; lia). reflexivity.
  - reflexivity.
Qed.

(** Following the children of a realized tree visits its nodes. *)
Lemma visit_realized (inner_size : Z) (k : Links) (t : shape) :
  forall (parent : Z) (fuel : nat),
    realizes inner_size k parent t -> (height t < fuel)%nat ->
    visit fuel inner_size (lchildren k) (rchildren k)
          (node_index inner_size t)
      = Ok (tree_nodes inner_size t).
Proof.
  induction t as [p|v l IHl r IHr]; intros parent fuel Hr Hf;
    (destruct fuel as [|fuel]; [lia|]); cbn [visit node_index tree_nodes].
  - destruct Hr as [Hp _].
    replace (inner_size <=? inner_size + p) with true
      by (symmetry; apply Z.leb_le; lia).
    reflexivity.
  - destruct Hr as (Hv & Hl & Hrr & _ & Rl & Rr). cbn [height] in Hf.
    replace (inner_size <=? v) with false by (symmetry; apply Z.leb_gt; lia).
    rewrite Hl, Hrr. cbn [bind].
    rewrite (IHl v fuel Rl) by lia. cbn [bind].
    rewrite (IHr v fuel Rr) by lia. reflexivity.
Qed.

Section Build.
Variable mcodes : list Z.
Hypothesis Hsorted : is_sorted mcodes = true.
Hypothesis Huint : all_uint32 mcodes = true.
Hypothesis Hsize : 2 <= alen mcodes <= 2 ^ 24 + 1.
Variable fuel : nat.
Hypothesis Hfuel : (32 <= fuel)%nat.

Let inner_size := alen mcodes - 1.
Let ch := node_children fuel inner_size mcodes.
Let n := length mcodes.

Variable t0 : shape.
Hypothesis Ht0 : computed_tree fuel mcodes t0.
Hypothesis Hroot : node_index inner_size t0 = 0.
Hypothesis Hleaves : leaves t0 = iota n.
Hypothesis Hinternals : Permutation (internals t0) (iota (n - 1)).

Lemma tree_nodes_all :
  Permutation (tree_nodes inner_size t0) (iota (n + n - 1)).
Proof.
  rewrite tree_nodes_perm, Hleaves, Hinternals.
  rewrite <- !zseq_0_iota, map_add_zseq.
  replace (n + n - 1)%nat with ((n - 1) + n)%nat
    by (unfold n, alen in *; lia).
  rewrite zseq_app.
  replace (inner_size + 0) with (0 + Z.of_nat (n - 1))
    by (unfold inner_size, n, alen in *; lia).
  reflexivity.
Qed.

Lemma tree_nodes_NoDup : NoDup (tree_nodes inner_size t0).
Proof.
  apply (Permutation_NoDup (Permutation_sym tree_nodes_all)).
  apply iota_NoDup.
Qed.

Lemma edges_NoDup : NoDup (0 :: map snd (edges inner_size t0)).
Proof.
  rewrite <- Hroot.
  apply (Permutation_NoDup (Permutation_sym (edges_tree_nodes inner_size t0))).
  apply tree_nodes_NoDup.
Qed.

Lemma ch_total (i : Z) :
  0 <= i < inner_size ->
  exists c1 c2, ch i = Ok (c1, c2) /\
                In (i, c1) (edges inner_size t0) /\
                In (i, c2) (edges inner_size t0) /\ c1 <> c2.
Proof.
  intros Hi.
  assert (Hin : In i (internals t0)).
  { apply (Permutation_in _ (Permutation_sym Hinternals)). apply iota_In.
    unfold inner_size, n, alen in *. lia. }
  destruct (internals_edges mcodes fuel t0 i Ht0 Hin)
    as (c1 & c2 & E & I1 & I2).
  exists c1, c2. split; [exact E|]. split; [exact I1|]. split; [exact I2|].
  apply (children_differ mcodes fuel t0 i c1 c2 Ht0); auto.
  pose proof edges_NoDup as Hnd. inversion Hnd; assumption.
Qed.

Lemma child_range (v c : Z) :
  In (v, c) (edges inner_size t0) -> 0 < c < Z.of_nat n + inner_size.
Proof.
  intros Hin.
  assert (Hs : In c (map snd (edges inner_size t0)))
    by (change c with (snd (v, c)); now apply in_map).
  pose proof edges_NoDup as Hnd. inversion Hnd as [|? ? Hn0 _]; subst.
  assert (c <> 0) by (intros ->; contradiction).
  assert (Ht : In c (tree_nodes inner_size t0)).
  { apply (Permutation_in _ (edges_tree_nodes inner_size t0)).
    right. exact Hs. }
  apply (Permutation_in _ tree_nodes_all) in Ht. apply iota_In in Ht.
  unfold inner_size, n, alen in *. lia.
Qed.

Lemma child_one_parent (v v' c : Z) :
  In (v, c) (edges inner_size t0) -> In (v', c) (edges inner_size t0) ->
  v = v'.
Proof.
  intros H1 H2. pose proof edges_NoDup as Hnd.
  inversion Hnd as [|? ? _ Hnd']; subst.
  assert (E : (v, c) = (v', c))
    by (apply (NoDup_map_In_inj snd (edges inner_size t0)); auto).
  now inversion E.
Qed.

Lemma non_root_is_child (c : Z) :
  0 < c < Z.of_nat n + inner_size ->
  exists v, In (v, c) (edges inner_size t0).
Proof.
  intros Hc.
  assert (Ht : In c (tree_nodes inner_size t0)).
  { apply (Permutation_in _ (Permutation_sym tree_nodes_all)).
    apply iota_In. unfold inner_size, n, alen in *. lia. }
  apply (Permutation_in _ (Permutation_sym (edges_tree_nodes inner_size t0)))
    in Ht.
  rewrite Hroot in Ht. destruct Ht as [E|Ht]; [lia|].
  apply in_map_iff in Ht. destruct Ht as ([v c'] & E & Hin).
  cbn [snd] in E. subst c'. exists v. exact Hin.
Qed.

Lemma build_tree_body_links (k : Z) (st : Links) :
  0 <= k < inner_size -> links_upto mcodes fuel k st ->
  exists st', build_tree_body fuel inner_size mcodes k st = Ok st' /\
              links_upto mcodes fuel (k + 1) st'.
Proof.
  unfold links_upto.
  intros Hk (Hll & Hlr & Hlp & Hprev & H0).
  fold inner_size in Hll, Hlr, Hlp. fold ch in Hprev.
  destruct (ch_total k Hk) as (c1 & c2 & Ech & I1 & I2 & Hne).
  pose proof (child_range k c1 I1) as R1.
  pose proof (child_range k c2 I2) as R2.
  unfold ch, node_children in Ech.
  destruct (node_search fuel inner_size mcodes k) as [[j g]| | | |] eqn:Ens;
    cbn [bind fst snd] in Ech; try discriminate.
  inversion Ech as [[E1 E2]].
  unfold build_tree_body. rewrite Ens. cbn [bind fst snd].
  rewrite node_assign_ok by lia. rewrite E1, E2.
  eexists. split; [reflexivity|].
  set (p2 := upd (Z.to_nat c2) k (upd (Z.to_nat c1) k (parents st))).
  assert (Hp2 : alen p2 = alen (parents st))
    by (unfold p2; now rewrite !alen_upd).
  assert (Hp2c1 : code_at p2 c1 = k).
  { unfold p2. rewrite code_at_upd_other by lia.
    apply code_at_upd_same. lia. }
  assert (Hp2c2 : code_at p2 c2 = k).
  { unfold p2. apply code_at_upd_same. rewrite alen_upd. lia. }
  assert (Hp2o : forall m, 0 <= m -> m <> c1 -> m <> c2 ->
                           code_at p2 m = code_at (parents st) m).
  { intros m Hm M1 M2. unfold p2. rewrite !code_at_upd_other by lia.
    reflexivity. }
  set (p3 := if k =? 0 then upd 0 (-1) p2 else p2).
  assert (Hp3 : alen p3 = alen (parents st))
    by (unfold p3; destruct (k =? 0); rewrite ?alen_upd; exact Hp2).
  assert (Hp3o : forall m, 0 < m -> code_at p3 m = code_at p2 m).
  { intros m Hm. unfold p3. destruct (k =? 0); [|reflexivity].
    change 0%nat with (Z.to_nat 0). apply code_at_upd_other; lia. }
  assert (Hp30 : code_at p3 0 = -1).
  { unfold p3. destruct (k =? 0) eqn:E0.
    - change 0%nat with (Z.to_nat 0). apply code_at_upd_same. lia.
    - apply Z.eqb_neq in E0. rewrite Hp2o by lia. apply H0. lia. }
  unfold links_upto. cbn [lchildren rchildren parents].
  rewrite !alen_upd. split; [exact Hll|]. split; [exact Hlr|].
  split; [lia|]. split; [|intros _; exact Hp30].
  intros i a1 a2 Hi Ea. change (ch i = Ok (a1, a2)) in Ea.
  destruct (Z.eq_dec i k) as [->|Hik].
  - assert (Ech' : ch k = Ok (c1, c2)).
    { unfold ch, node_children. rewrite Ens. cbn [bind fst snd].
      now rewrite E1, E2. }
    rewrite Ech' in Ea. inversion Ea; subst a1 a2.
    rewrite !code_at_upd_same by lia. rewrite !Hp3o by lia.
    repeat split; auto.
  - destruct (ch_total i ltac:(lia)) as (b1 & b2 & Eb & J1 & J2 & _).
    rewrite Eb in Ea. inversion Ea; subst b1 b2.
    pose proof (child_range i a1 J1) as Ra1.
    pose proof (child_range i a2 J2) as Ra2.
    assert (a1 <> c1)
      by (intros E; apply Hik; apply (child_one_parent i k c1);
          [rewrite <- E; exact J1|exact I1]).
    assert (a1 <> c2)
      by (intros E; apply Hik; apply (child_one_parent i k c2);
          [rewrite <- E; exact J1|exact I2]).
    assert (a2 <> c1)
      by (intros E; apply Hik; apply (child_one_parent i k c1);
          [rewrite <- E; exact J2|exact I1]).
    assert (a2 <> c2)
      by (intros E; apply Hik; apply (child_one_parent i k c2);
          [rewrite <- E; exact J2|exact I2]).
    rewrite !code_at_upd_other by lia. rewrite !Hp3o by lia.
    rewrite !Hp2o by lia. apply Hprev; [lia|exact Eb].
Qed.

Lemma build_links_ok (k0 : Links) :
  alen (lchildren k0) = inner_size ->
  alen (rchildren k0) = inner_size ->
  alen (parents k0) = Z.of_nat n + inner_size ->
  exists k, build_links fuel inner_size mcodes k0 = Ok k /\
            links_upto mcodes fuel inner_size k.
Proof.
  intros Hl Hr Hp. unfold build_links.
  apply (for_all_inv (links_upto mcodes fuel)).
  - unfold inner_size. lia.
  - unfold links_upto. repeat split; auto; intros; lia.
  - intros i s0 Hi Hinv. apply build_tree_body_links; assumption.
Qed.

Lemma links_realize (k : Links) :
  links_upto mcodes fuel inner_size k ->
  forall (t : shape) (parent : Z),
    computed_tree fuel mcodes t ->
    (forall v c, In (v, c) (edges inner_size t) ->
                 In (v, c) (edges inner_size t0)) ->
    aget (parents k) (node_index inner_size t) = Ok parent ->
    realizes inner_size k parent t.
Proof.
  intros (Hll & Hlr & Hlp & Hall & H0).
  induction t as [p|v l IHl r IHr]; intros parent Ct Hsub Hpar;
    cbn [realizes computed_tree node_index edges] in *.
  - split; [lia|exact Hpar].
  - destruct Ct as (Hv & Hch & Cl & Cr). fold inner_size in Hv, Hch.
    destruct (Hall v _ _ Hv Hch) as (A1 & A2 & A3 & A4).
    pose proof (child_range v _ (Hsub _ _ (or_introl eq_refl))) as R1.
    pose proof (child_range v _ (Hsub _ _ (or_intror (or_introl eq_refl))))
      as R2.
    split; [exact Hv|].
    split; [rewrite aget_code_at by lia; now rewrite A1|].
    split; [rewrite aget_code_at by lia; now rewrite A2|].
    split; [exact Hpar|]. split.
    + apply IHl; auto.
      * intros v' c Hin. apply Hsub. right; right. apply in_or_app. now left.
      * rewrite aget_code_at by lia. now rewrite A3.
    + apply IHr; auto.
      * intros v' c Hin. apply Hsub. right; right. apply in_or_app. now right.
      * rewrite aget_code_at by lia. now rewrite A4.
Qed.

(** The arrays after the loop hold the tree [t0]: every node but the root
    has one parent, which records it as one of its children. *)
Lemma build_links_tree (k0 : Links) :
  alen (lchildren k0) = inner_size ->
  alen (rchildren k0) = inner_size ->
  alen (parents k0) = Z.of_nat n + inner_size ->
  exists k,
    build_links fuel inner_size mcodes k0 = Ok k /\
    alen (lchildren k) = inner_size /\
    alen (rchildren k) = inner_size /\
    alen (parents k) = Z.of_nat n + inner_size /\
    realizes inner_size k (-1) t0 /\
    (forall c, 0 <= c < Z.of_nat n + inner_size ->
               (code_at (parents k) c = -1 <-> c = 0)) /\
    (forall c, 0 < c < Z.of_nat n + inner_size ->
       exists i, 0 <= i < inner_size /\ code_at (parents k) c = i /\
                 (code_at (lchildren k) i = c \/ code_at (rchildren k) i = c) /\
                 forall i', 0 <= i' < inner_size ->
                            code_at (lchildren k) i' = c \/
                            code_at (rchildren k) i' = c -> i' = i).
Proof.
  intros Hl Hr Hp.
  destruct (build_links_ok k0 Hl Hr Hp) as (k & Ek & Hk).
  pose proof Hk as (Hll & Hlr & Hlp & Hall & H0).
  fold inner_size in Hll, Hlr, Hlp. fold ch in Hall.
  assert (Hchild : forall c, 0 < c < Z.of_nat n + inner_size ->
            exists i, 0 <= i < inner_size /\ code_at (parents k) c = i /\
                      (code_at (lchildren k) i = c \/
                       code_at (rchildren k) i = c)).
  { intros c Hc. destruct (non_root_is_child c Hc) as (v & Hin).
    destruct (edges_children mcodes fuel t0 v c Ht0 Hin)
      as (Hv & c1 & c2 & Ech & Hcc).
    destruct (Hall v c1 c2 Hv Ech) as (A1 & A2 & A3 & A4).
    exists v. split; [exact Hv|].
    destruct Hcc as [-> | ->]; auto. }
  exists k. split; [exact Ek|]. split; [exact Hll|]. split; [exact Hlr|].
  split; [exact Hlp|]. split; [|split].
  - apply (links_realize k Hk t0 (-1) Ht0); [auto|].
    rewrite Hroot. rewrite aget_code_at by (unfold inner_size in *; lia).
    rewrite H0 by (unfold inner_size; lia). reflexivity.
  - intros c Hc. split.
    + intros Hm. destruct (Z.eq_dec c 0) as [E|E]; [exact E|].
      destruct (Hchild c ltac:(lia)) as (i & Hi & Hpar & _). lia.
    + intros ->. apply H0. unfold inner_size. lia.
  - intros c Hc. destruct (Hchild c Hc) as (i & Hi & Hpar & Hlr').
    exists i. split; [exact Hi|]. split; [exact Hpar|]. split; [exact Hlr'|].
    intros i' Hi' Hc'.
    destruct (ch_total i' Hi') as (b1 & b2 & Eb & _).
    destruct (Hall i' b1 b2 Hi' Eb) as (A1 & A2 & A3 & A4).
    destruct Hc' as [E|E]; rewrite E in *; subst; lia.
Qed.

End Build.

(** X14.  For sorted codes of 2 <= n <= 2^24 + 1 primitives the arrays
    [build_tree] leaves hold a binary tree: n - 1 internal nodes with one
    left and one right child each, n leaves, every node but node 0 with
    exactly one parent, node 0 alone with the sentinel -1, and every node
    visited exactly once from the root. *)
Theorem build_tree_binary_tree (mcodes : list Z) (k0 : Links) (fuel : nat) :
  is_sorted mcodes = true ->
  all_uint32 mcodes = true ->
  2 <= alen mcodes <= 2 ^ 24 + 1 ->
  (32 <= fuel)%nat ->
  alen (lchildren k0) = alen mcodes - 1 ->
  alen (rchildren k0) = alen mcodes - 1 ->
  alen (parents k0) = 2 * alen mcodes - 1 ->
  let inner_size := alen mcodes - 1 in
  exists (k : Links) (t : shape),
    build_links fuel inner_size mcodes k0 = Ok k /\
    alen (lchildren k) = inner_size /\
    alen (rchildren k) = inner_size /\
    alen (parents k) = 2 * alen mcodes - 1 /\
    realizes inner_size k (-1) t /\
    node_index inner_size t = 0 /\
    leaves t = iota (length mcodes) /\
    Permutation (internals t) (iota (length mcodes - 1)) /\
    Permutation (tree_nodes inner_size t)
                (iota (length mcodes + length mcodes - 1)) /\
    (forall vfuel, (length mcodes <= vfuel)%nat ->
       visit vfuel inner_size (lchildren k) (rchildren k) 0
         = Ok (tree_nodes inner_size t)) /\
    (forall c, 0 <= c < 2 * alen mcodes - 1 ->
               (code_at (parents k) c = -1 <-> c = 0)) /\
    (forall c, 0 < c < 2 * alen mcodes - 1 ->
       exists i, 0 <= i < inner_size /\ code_at (parents k) c = i /\
                 (code_at (lchildren k) i = c \/ code_at (rchildren k) i = c) /\
                 forall i', 0 <= i' < inner_size ->
                            code_at (lchildren k) i' = c \/
                            code_at (rchildren k) i' = c -> i' = i).
Proof.
  intros Hs Hu Hn Hf Hl Hr Hp inner_size.
  assert (Hn31 : 2 <= alen mcodes <= 2 ^ 30) by lia.
  destruct (computed_tree_root mcodes Hs Hu Hn31 fuel Hf ltac:(lia))
    as (t & Ct & It & Lt & Pt).
  assert (E2 : 2 * alen mcodes - 1
               = Z.of_nat (length mcodes) + (alen mcodes - 1))
    by (unfold alen; lia).
  destruct (build_links_tree mcodes Hn fuel Hf t Ct It Lt Pt k0)
    as (k & Ek & Hll & Hlr & Hlp & Hreal & Hsent & Hpar); try assumption.
  { rewrite <- E2. exact Hp. }
  exists k, t. split; [exact Ek|]. split; [exact Hll|]. split; [exact Hlr|].
  split; [rewrite E2; exact Hlp|]. split; [exact Hreal|].
  split; [exact It|]. split; [exact Lt|]. split; [exact Pt|].
  split; [apply (tree_nodes_all mcodes Hn fuel Hf t Lt Pt)|].
  split.
  { intros vfuel Hv. rewrite <- It.
    apply (visit_realized (alen mcodes - 1) k t (-1)); [exact Hreal|].
    pose proof (height_le_internals t).
    rewrite (Permutation_length Pt), iota_length in H.
    unfold alen in Hn. lia. }
  rewrite E2. split; assumption.
Qed.

Lemma build_tree_binary_tree_witness :
  let mcodes := [0; 0; 1; 4; 4; 4; 9] in
  let k0 := mkLinks (repeat 0 6) (repeat 0 6) (repeat 0 13) in
  let inner_size := alen mcodes - 1 in
  exists (k : Links) (t : shape),
    build_links 32 inner_size mcodes k0 = Ok k /\
    alen (lchildren k) = inner_size /\
    alen (rchildren k) = inner_size /\
    alen (parents k) = 2 * alen mcodes - 1 /\
    realizes inner_size k (-1) t /\
    node_index inner_size t = 0 /\
    leaves t = iota (length mcodes) /\
    Permutation (internals t) (iota (length mcodes - 1)) /\
    Permutation (tree_nodes inner_size t)
                (iota (length mcodes + length mcodes - 1)) /\
    (forall vfuel, (length mcodes <= vfuel)%nat ->
       visit vfuel inner_size (lchildren k) (rchildren k) 0
         = Ok (tree_nodes inner_size t)) /\
    (forall c, 0 <= c < 2 * alen mcodes - 1 ->
               (code_at (parents k) c = -1 <-> c = 0)) /\
    (forall c, 0 < c < 2 * alen mcodes - 1 ->
       exists i, 0 <= i < inner_size /\ code_at (parents k) c = i /\
                 (code_at (lchildren k) i = c \/ code_at (rchildren k) i = c) /\
                 forall i', 0 <= i' < inner_size ->
                            code_at (lchildren k) i' = c \/
                            code_at (rchildren k) i' = c -> i' = i).
Proof.
  apply (build_tree_binary_tree [0; 0; 1; 4; 4; 4; 9]
           (mkLinks (repeat 0 6) (repeat 0 6) (repeat 0 13)) 32);
    try reflexivity; try (unfold alen; simpl; lia).
Defined.

(* ================================================================== *)
(** ** The split search beyond 2^24 leaves

    [float32(l)] is exact only up to 2^24.  For a range of 2^24 + 2 leaves
    the split loop of the root starts from [float32(2^24 + 1) = 2^24] and
    cannot reach the offset 2^24. *)

Section SplitPow2.
Variable mcodes : list Z.
Variable i : Z.
Hypothesis Hi : 0 <= i < alen mcodes.
Variables d dn l : Z.

(** When [float32(l)] is a power of two and every probe holds, the split
    loop adds up all the powers of two below it. *)
Lemma split_loop_pow2 (j : nat) :
  forall (fuel : nat) (s div : Z),
    (j < fuel)%nat -> 0 < div ->
    float32_of_int l = div * 2 ^ Z.of_nat j ->
    (forall x, s < x <= s + 2 ^ Z.of_nat (S j) - 1 ->
               probe mcodes i d dn x = true) ->
    split_loop fuel i d dn (alen mcodes - 1) mcodes l s div
      = Ok (s + 2 ^ Z.of_nat (S j) - 1).
Proof.
  induction j as [|j IH]; intros fuel s div Hf Hdiv HL Hall;
    (destruct fuel as [|fuel]; [lia|]);
    rewrite (split_loop_step mcodes i Hi); cbv zeta; rewrite HL.
  - change (2 ^ Z.of_nat 0) with 1. rewrite Z.mul_1_r.
    assert (Et : ceil_div div div = 1) by (apply ceil_div_one; lia).
    rewrite Et. change (1 =? 1) with true. cbv iota.
    change (2 ^ Z.of_nat 1) with 2 in *.
    rewrite Hall by lia. f_equal. lia.
  - pose proof (pow2_pos j) as Pj. pose proof (pow2_succ j) as Sj.
    assert (Et : ceil_div (div * 2 ^ Z.of_nat (S j)) div = 2 ^ Z.of_nat (S j)).
    { unfold ceil_div. rewrite <- Z.mul_opp_r, Z.mul_comm, Z.div_mul by lia.
      lia. }
    rewrite Et.
    replace (2 ^ Z.of_nat (S j) =? 1) with false
      by (symmetry; apply Z.eqb_neq; lia).
    pose proof (pow2_succ (S j)) as SSj.
    rewrite Hall by lia.
    rewrite (IH fuel (s + 2 ^ Z.of_nat (S j)) (div * 2)); try lia.
    + f_equal. lia.
    + intros x Hx. apply Hall. lia.
Qed.

End SplitPow2.

Lemma float32_of_int_rounds : float32_of_int (2 ^ 24 + 1) = 2 ^ 24.
Proof. reflexivity. Qed.

Lemma leadingZeros_pow24 : leadingZeros (2 ^ 24) = 7.
Proof. reflexivity. Qed.

Lemma visit_head (fuel : nat) (inner_size : Z) (lch rch : list Z) (v : Z)
  (nodes : list Z) :
  visit fuel inner_size lch rch v = Ok nodes -> In v nodes.
Proof.
  destruct fuel as [|fuel]; cbn [visit]; [discriminate|].
  destruct (inner_size <=? v).
  - intros H; inversion H. now left.
  - destruct (aget lch v); cbn [bind]; try discriminate.
    destruct (aget rch v); cbn [bind]; try discriminate.
    destruct (visit fuel inner_size lch rch a); cbn [bind]; try discriminate.
    destruct (visit fuel inner_size lch rch a0); cbn [bind]; try discriminate.
    intros H; inversion H. now left.
Qed.

(** The children arrays after the loop, whatever becomes of the parents. *)
Lemma build_links_children (mcodes : list Z) (fuel : nat) (k0 : Links) :
  let inner_size := alen mcodes - 1 in
  0 <= inner_size ->
  alen (lchildren k0) = inner_size ->
  alen (rchildren k0) = inner_size ->
  (forall i, 0 <= i < inner_size ->
     exists c1 c2,
       node_children fuel inner_size mcodes i = Ok (c1, c2) /\
       0 <= c1 < alen (parents k0) /\ 0 <= c2 < alen (parents k0)) ->
  0 < alen (parents k0) ->
  exists k,
    build_links fuel inner_size mcodes k0 = Ok k /\
    forall i c1 c2, 0 <= i < inner_size ->
      node_children fuel inner_size mcodes i = Ok (c1, c2) ->
      code_at (lchildren k) i = c1 /\ code_at (rchildren k) i = c2.
Proof.
  intros inner_size Hin Hl Hr Hall Hp. unfold build_links.
  destruct (for_all_inv
    (fun k st =>
       alen (lchildren st) = inner_size /\
       alen (rchildren st) = inner_size /\
       alen (parents st) = alen (parents k0) /\
       forall i c1 c2, 0 <= i < k ->
         node_children fuel inner_size mcodes i = Ok (c1, c2) ->
         code_at (lchildren st) i = c1 /\ code_at (rchildren st) i = c2)
    (build_tree_body fuel inner_size mcodes) inner_size k0)
    as (k & Ek & _ & _ & _ & Hk).
  - exact Hin.
  - split; [exact Hl|]. split; [exact Hr|]. split; [reflexivity|].
    intros; lia.
  - intros i st Hi (Hll & Hlr & Hlp & Hprev).
    destruct (Hall i Hi) as (c1 & c2 & Ech & R1 & R2).
    pose proof Ech as Ech0. unfold node_children in Ech.
    destruct (node_search fuel inner_size mcodes i) as [[j g]| | | |] eqn:Ens;
      cbn [bind fst snd] in Ech; try discriminate.
    inversion Ech as [[E1 E2]].
    unfold build_tree_body. rewrite Ens. cbn [bind fst snd].
    rewrite node_assign_ok by (rewrite ?E1, ?E2; lia). rewrite E1, E2.
    eexists. split; [reflexivity|]. cbn [lchildren rchildren parents].
    rewrite !alen_upd. split; [exact Hll|]. split; [exact Hlr|]. split.
    { destruct (i =? 0); rewrite ?alen_upd; exact Hlp. }
    intros i' a1 a2 Hi' Ea. destruct (Z.eq_dec i' i) as [->|Hne].
    + rewrite Ech0 in Ea. inversion Ea; subst a1 a2.
      rewrite !code_at_upd_same by lia. split; reflexivity.
    + rewrite !code_at_upd_other by lia. apply Hprev; [lia|exact Ea].
  - exists k. split; [exact Ek|]. intros i c1 c2 Hi. apply Hk. exact Hi.
Qed.

Lemma NoDup_app_disjoint {A : Type} (l1 l2 : list A) (a : A) :
  NoDup (l1 ++ l2) -> In a l1 -> In a l2 -> False.
Proof.
  induction l1 as [|x l1 IH]; intros Hnd H1 H2; [destruct H1|].
  cbn [app] in Hnd. inversion Hnd as [|? ? Hn Hnd']; subst.
  destruct H1 as [->|H1].
  - apply Hn. apply in_or_app. now right.
  - now apply IH.
Qed.

Lemma aget_code_at_inv (a : list Z) (i x : Z) :
  aget a i = Ok x -> code_at a i = x.
Proof.
  intros H. apply aget_inv in H. destruct H as [Hi Hn]. unfold code_at.
  now apply nth_error_nth.
Qed.

(** If node 0 and its right child have the same left child, that child is
    reached twice from the root. *)
Lemma visit_shared_child (inner_size : Z) (lch rch : list Z) (a b : Z)
  (vfuel : nat) (nodes : list Z) :
  0 < inner_size -> b < inner_size ->
  code_at lch 0 = a -> code_at rch 0 = b -> code_at lch b = a ->
  visit vfuel inner_size lch rch 0 = Ok nodes -> ~ NoDup nodes.
Proof.
  intros Hin Hb L0 R0 Lb Hv Hnd.
  destruct vfuel as [|f]; cbn [visit] in Hv; [discriminate|].
  replace (inner_size <=? 0) with false in Hv
    by (symmetry; apply Z.leb_gt; lia).
  destruct (aget lch 0) as [l| | | |] eqn:El; cbn [bind] in Hv;
    try discriminate.
  destruct (aget rch 0) as [r| | | |] eqn:Er; cbn [bind] in Hv;
    try discriminate.
  apply aget_code_at_inv in El, Er. rewrite L0 in El. rewrite R0 in Er.
  subst l r.
  destruct (visit f inner_size lch rch a) as [vl| | | |] eqn:Evl;
    cbn [bind] in Hv; try discriminate.
  destruct (visit f inner_size lch rch b) as [vr| | | |] eqn:Evr;
    cbn [bind] in Hv; try discriminate.
  inversion Hv; subst nodes. clear Hv.
  assert (Ia : In a vl) by (eapply visit_head; exact Evl).
  assert (Ib : In a vr).
  { destruct f as [|f']; cbn [visit] in Evr; [discriminate|].
    replace (inner_size <=? b) with false in Evr
      by (symmetry; apply Z.leb_gt; lia).
    destruct (aget lch b) as [l| | | |] eqn:El; cbn [bind] in Evr;
      try discriminate.
    apply aget_code_at_inv in El. rewrite Lb in El. subst l.
    destruct (aget rch b) as [r| | | |] eqn:Er; cbn [bind] in Evr;
      try discriminate.
    destruct (visit f' inner_size lch rch a) as [vl'| | | |] eqn:Evl';
      cbn [bind] in Evr; try discriminate.
    destruct (visit f' inner_size lch rch r) as [vr'| | | |] eqn:Evr';
      cbn [bind] in Evr; try discriminate.
    inversion Evr; subst vr. right. apply in_or_app. left.
    eapply visit_head; exact Evl'. }
  apply NoDup_cons_iff in Hnd. destruct Hnd as [_ Hnd'].
  exact (NoDup_app_disjoint vl vr a Hnd' Ia Ib).
Qed.

Lemma child_internals_left (lo hi : Z) :
  child_internals false lo hi = zrange (lo + 1) hi.
Proof. reflexivity. Qed.

Section Defect.
Variable mcodes : list Z.
Hypothesis Hlen : alen mcodes = 2 ^ 24 + 2.
Hypothesis Hsorted : is_sorted mcodes = true.
Hypothesis Huint : all_uint32 mcodes = true.
Hypothesis Hzero : forall a, 0 <= a <= 2 ^ 24 -> code_at mcodes a = 0.
Hypothesis Hlast : code_at mcodes (2 ^ 24 + 1) <> 0.
Variable fuel : nat.
Hypothesis Hfuel : (32 <= fuel)%nat.

Let inner_size := alen mcodes - 1.

Lemma Hsize_defect : 2 <= alen mcodes <= 2 ^ 30.
Proof. rewrite Hlen. lia. Qed.

Lemma dval_tie (a b : Z) :
  0 <= a <= 2 ^ 24 -> 0 <= b <= 2 ^ 24 ->
  dval mcodes a b = 32 + leadingZeros (Z.lxor a b).
Proof.
  intros Ha Hb. unfold dval.
  replace (b <? 0) with false by (symmetry; apply Z.ltb_ge; lia).
  replace (alen mcodes - 1 <? b) with false
    by (symmetry; apply Z.ltb_ge; lia).
  cbn [orb]. rewrite (Hzero a Ha), (Hzero b Hb). reflexivity.
Qed.

Lemma dval_last (a : Z) :
  0 <= a <= 2 ^ 24 -> 0 <= dval mcodes a (2 ^ 24 + 1) <= 31.
Proof.
  intros Ha. unfold dval.
  replace (2 ^ 24 + 1 <? 0) with false by reflexivity.
  replace (alen mcodes - 1 <? 2 ^ 24 + 1) with false
    by (symmetry; apply Z.ltb_ge; lia).
  cbn [orb]. rewrite (Hzero a Ha).
  replace (0 =? code_at mcodes (2 ^ 24 + 1)) with false
    by (symmetry; apply Z.eqb_neq; auto).
  rewrite Z.lxor_0_l.
  pose proof (code_at_range mcodes (2 ^ 24 + 1) Huint) as Hc.
  rewrite leadingZeros_log2 by lia.
  assert (Z.log2 (code_at mcodes (2 ^ 24 + 1)) < 32)
    by (apply Z.log2_lt_pow2; lia).
  pose proof (Z.log2_nonneg (code_at mcodes (2 ^ 24 + 1))). lia.
Qed.

(** Node 0: the range is the whole array, the split stops at 2^24 - 1. *)
Lemma root_children :
  node_children fuel inner_size mcodes 0 = Ok (2 ^ 24 - 1, 2 ^ 24).
Proof.
  assert (H0 : 0 <= 0 < alen mcodes) by lia.
  assert (Hdir : direction mcodes 0 = 1).
  { unfold direction. rewrite (dval_outside mcodes 0 (0 - 1)) by lia.
    rewrite dval_tie by lia.
    pose proof (leadingZeros_range (Z.lxor 0 (0 + 1))).
    replace (32 + leadingZeros (Z.lxor 0 (0 + 1)) - -1 <? 0) with false
      by (symmetry; apply Z.ltb_ge; lia).
    reflexivity. }
  destruct (build_tree_loops_terminate_core mcodes 0 Hsorted Huint
              Hsize_defect ltac:(lia) fuel Hfuel)
    as (m & l & Hdl & Hrl & Hl1 & Pl & Pl1).
  rewrite Hdir in Hdl, Hrl, Pl, Pl1.
  rewrite (dval_outside mcodes 0 (0 - 1)) in Hdl, Hrl, Pl, Pl1 by lia.
  assert (El : l = 2 ^ 24 + 1).
  { apply (boundary_unique (probe mcodes 0 1 (-1)) l (2 ^ 24 + 1));
      [ | lia | lia | exact Pl | exact Pl1 | | ].
    - apply probe_antitone;
        [exact Hsorted|exact Huint|exact Hsize_defect|left; reflexivity
        |lia|lia].
    - unfold probe. apply Z.ltb_lt.
      replace (0 + (2 ^ 24 + 1) * 1) with (2 ^ 24 + 1) by lia.
      pose proof (dval_last 0). lia.
    - apply probe_outside; lia. }
  subst l.
  set (dn := dval mcodes 0 (0 + (2 ^ 24 + 1) * 1)).
  assert (Hdn : dn <= 31).
  { unfold dn. replace (0 + (2 ^ 24 + 1) * 1) with (2 ^ 24 + 1) by lia.
    pose proof (dval_last 0). lia. }
  assert (Hsl : split_loop fuel 0 1 dn (alen mcodes - 1) mcodes
                  (2 ^ 24 + 1) 0 2 = Ok (2 ^ 24 - 1)).
  { rewrite (split_loop_pow2 mcodes 0 H0 1 dn (2 ^ 24 + 1) 23 fuel 0 2);
      try lia.
    - reflexivity.
    - rewrite float32_of_int_rounds. reflexivity.
    - change (2 ^ Z.of_nat 24) with (2 ^ 24). intros x Hx.
      unfold probe. apply Z.ltb_lt. replace (0 + x * 1) with x by lia.
      rewrite dval_tie by lia.
      pose proof (leadingZeros_range (Z.lxor 0 x)). lia. }
  pose proof (node_search_unfold mcodes 0 fuel (2 ^ Z.of_nat m)
                (2 ^ 24 + 1) (2 ^ 24 - 1) H0) as Hns.
  cbv zeta in Hns. rewrite Hdir in Hns.
  rewrite (dval_outside mcodes 0 (0 - 1)) in Hns by lia.
  specialize (Hns Hdl Hrl Hsl).
  unfold node_children, inner_size. rewrite Hns. cbn [bind fst snd].
  unfold left_child, right_child. reflexivity.
Qed.

(** Node 2^24: its range is [0, 2^24], split after 2^24 - 1. *)
Lemma last_node_children :
  node_children fuel inner_size mcodes (2 ^ 24)
    = Ok (2 ^ 24 - 1, 2 ^ 24 + inner_size).
Proof.
  assert (Hd0 : dval mcodes 0 (2 ^ 24) = 39).
  { rewrite dval_tie by lia. rewrite Z.lxor_0_l, leadingZeros_pow24.
    reflexivity. }
  assert (Hb : is_block mcodes 0 (2 ^ 24)).
  { unfold is_block. rewrite Hd0.
    rewrite (dval_outside mcodes 0 (0 - 1)) by lia.
    pose proof (dval_last (2 ^ 24)). lia. }
  destruct (node_search_left mcodes Hsorted Huint Hsize_defect 0 (2 ^ 24) fuel
              Hb) as (_ & g & Hns & Hg & Hdg); try lia.
  { rewrite (dval_outside mcodes 0 (0 - 1)) by lia.
    pose proof (dval_last (2 ^ 24)). lia. }
  assert (Eg : g = 2 ^ 24 - 1).
  { destruct (Z.eq_dec g (2 ^ 24 - 1)) as [E|E]; [exact E|]. exfalso.
    rewrite Hd0, dval_tie in Hdg by lia.
    assert (Hx : 0 <= Z.lxor g (g + 1) < 2 ^ 24)
      by (apply lxor_bound; lia).
    assert (Hx0 : Z.lxor g (g + 1) <> 0)
      by (intros E0; apply Z.lxor_eq in E0; lia).
    rewrite leadingZeros_log2 in Hdg by lia.
    assert (Z.log2 (Z.lxor g (g + 1)) < 24)
      by (apply Z.log2_lt_pow2; lia).
    lia. }
  subst g. unfold node_children. fold inner_size in Hns. rewrite Hns.
  cbn [bind fst snd]. unfold left_child, right_child.
  change (Z.min (2 ^ 24) 0 =? 2 ^ 24 - 1) with false.
  change (Z.max (2 ^ 24) 0 =? 2 ^ 24 - 1 + 1) with true.
  cbv iota. do 2 f_equal. lia.
Qed.

(** Every node assigns children inside the parent array. *)
Lemma defect_children_in_range (i : Z) :
  0 <= i < inner_size ->
  exists c1 c2,
    node_children fuel inner_size mcodes i = Ok (c1, c2) /\
    0 <= c1 < 2 * alen mcodes - 1 /\ 0 <= c2 < 2 * alen mcodes - 1.
Proof.
  intros Hi. destruct (Z.eq_dec i 0) as [->|Hi0].
  { exists (2 ^ 24 - 1), (2 ^ 24). split; [exact root_children|]. lia. }
  assert (Hb : is_block mcodes 0 (2 ^ 24) /\
               dval mcodes 0 (0 - 1) < dval mcodes (2 ^ 24) (2 ^ 24 + 1)).
  { unfold is_block. rewrite (dval_tie 0 (2 ^ 24)) by lia.
    rewrite Z.lxor_0_l, leadingZeros_pow24.
    rewrite (dval_outside mcodes 0 (0 - 1)) by lia.
    pose proof (dval_last (2 ^ 24)). lia. }
  assert (Hsz : exists sz : nat, 2 ^ 24 - 0 <= Z.of_nat sz)
    by (exists (Z.to_nat (2 ^ 24)); lia).
  destruct Hsz as [sz Hsz].
  destruct (computed_tree_exists mcodes Hsorted Huint Hsize_defect fuel Hfuel
              sz false 0 (2 ^ 24))
    as (t & Ct & It & Lt & Pt); try lia.
  { intros _. exact Hb. }
  rewrite child_internals_left in Pt.
  assert (Hint : In i (internals t)).
  { apply (Permutation_in _ (Permutation_sym Pt)).
    apply (proj2 (zrange_In (0 + 1) (2 ^ 24) i)).
    unfold inner_size in Hi. lia. }
  destruct (internals_edges mcodes fuel t i Ct Hint)
    as (c1 & c2 & Ech & I1 & I2).
  assert (Hrange : forall v c, In (v, c) (edges (alen mcodes - 1) t) ->
                               0 <= c < 2 * alen mcodes - 1).
  { intros v c Hin.
    assert (Hs : In c (map snd (edges (alen mcodes - 1) t)))
      by (change c with (snd (v, c)); now apply in_map).
    assert (Ht : In c (tree_nodes (alen mcodes - 1) t)).
    { apply (Permutation_in _ (edges_tree_nodes (alen mcodes - 1) t)).
      right. exact Hs. }
    apply (Permutation_in _ (tree_nodes_perm (alen mcodes - 1) t)) in Ht.
    apply in_app_or in Ht. destruct Ht as [Ht|Ht].
    - pose proof (proj1 (zrange_In (0 + 1) (2 ^ 24) c)
                    (Permutation_in c Pt Ht)). lia.
    - apply in_map_iff in Ht. destruct Ht as (p & <- & Hp).
      rewrite Lt in Hp.
      pose proof (proj1 (zrange_In 0 (2 ^ 24) p) Hp). lia. }
  exists c1, c2. split; [exact Ech|].
  split; [exact (Hrange i c1 I1)|exact (Hrange i c2 I2)].
Qed.

(** On such an array [build_tree] completes, and node 2^24 - 1 is the left
    child both of node 0 and of node 2^24, the right child of node 0: it is
    visited twice from the root. *)
Lemma defect_build (k0 : Links) :
  alen (lchildren k0) = inner_size ->
  alen (rchildren k0) = inner_size ->
  alen (parents k0) = 2 * alen mcodes - 1 ->
  exists k,
    build_links fuel inner_size mcodes k0 = Ok k /\
    code_at (lchildren k) 0 = 2 ^ 24 - 1 /\
    code_at (rchildren k) 0 = 2 ^ 24 /\
    code_at (lchildren k) (2 ^ 24) = 2 ^ 24 - 1 /\
    forall vfuel nodes,
      visit vfuel inner_size (lchildren k) (rchildren k) 0 = Ok nodes ->
      ~ NoDup nodes.
Proof.
  intros Hl Hr Hp.
  destruct (build_links_children mcodes fuel k0) as (k & Ek & Hk);
    try assumption; try (unfold inner_size in *; lia).
  { intros i Hi. rewrite Hp. apply defect_children_in_range. exact Hi. }
  assert (Hin : 0 <= 0 < inner_size /\ 0 <= 2 ^ 24 < inner_size)
    by (unfold inner_size; lia).
  destruct (Hk 0 _ _ (proj1 Hin) root_children) as [L0 R0].
  destruct (Hk (2 ^ 24) _ _ (proj2 Hin) last_node_children) as [L1 _].
  exists k. split; [exact Ek|]. split; [exact L0|]. split; [exact R0|].
  split; [exact L1|].
  intros vfuel nodes Hv.
  apply (visit_shared_child inner_size (lchildren k) (rchildren k)
           (2 ^ 24 - 1) (2 ^ 24) vfuel nodes); auto;
    unfold inner_size; lia.
Qed.

End Defect.

Lemma is_sorted_repeat_app (k : nat) (c : Z) :
  0 <= c -> is_sorted (repeat 0 k ++ [c]) = true.
Proof.
  intros Hc. induction k as [|k IH]; [reflexivity|].
  cbn [repeat app]. cbn [is_sorted]. fold (is_sorted (repeat 0 k ++ [c])).
  rewrite IH. destruct k; cbn [repeat app]; rewrite andb_true_r;
    apply Z.leb_le; lia.
Qed.

Lemma all_uint32_repeat_app (k : nat) (c : Z) :
  0 <= c < 2 ^ 32 -> all_uint32 (repeat 0 k ++ [c]) = true.
Proof.
  intros Hc. unfold all_uint32. rewrite forallb_app. apply andb_true_iff.
  split.
  - apply forallb_forall. intros x Hx. apply repeat_spec in Hx. subst x.
    reflexivity.
  - cbn [forallb]. rewrite andb_true_r. apply andb_true_iff.
    split; [apply Z.leb_le|apply Z.ltb_lt]; lia.
Qed.

Lemma alen_repeat_app (k : nat) (c : Z) :
  alen (repeat 0 k ++ [c]) = Z.of_nat k + 1.
Proof.
  unfold alen. rewrite length_app, repeat_length.
  change (length [c]) with 1%nat. lia.
Qed.

Lemma code_at_repeat_app_low (k : nat) (c a : Z) :
  0 <= a < Z.of_nat k -> code_at (repeat 0 k ++ [c]) a = 0.
Proof.
  intros Ha. unfold code_at.
  rewrite app_nth1 by (rewrite repeat_length; lia). apply nth_repeat.
Qed.

Lemma code_at_repeat_app_last (k : nat) (c : Z) :
  code_at (repeat 0 k ++ [c]) (Z.of_nat k) = c.
Proof.
  unfold code_at. rewrite Nat2Z.id.
  rewrite app_nth2 by (rewrite repeat_length; lia).
  rewrite repeat_length, Nat.sub_diag. reflexivity.
Qed.

Lemma defect_general (K : nat) (fuel : nat) :
  Z.of_nat K = 2 ^ 24 + 1 -> (32 <= fuel)%nat ->
  is_sorted (repeat 0 K ++ [1]) = true /\
  all_uint32 (repeat 0 K ++ [1]) = true /\
  alen (repeat 0 K ++ [1]) = 2 ^ 24 + 2 /\
  exists k,
    build_links fuel (Z.of_nat K) (repeat 0 K ++ [1])
      (mkLinks (repeat 0 K) (repeat 0 K) (repeat 0 (K + K + 1))) = Ok k /\
    code_at (lchildren k) 0 = 2 ^ 24 - 1 /\
    code_at (rchildren k) 0 = 2 ^ 24 /\
    code_at (lchildren k) (2 ^ 24) = 2 ^ 24 - 1 /\
    forall vfuel nodes,
      visit vfuel (Z.of_nat K) (lchildren k) (rchildren k) 0 = Ok nodes ->
      ~ NoDup nodes.
Proof.
  intros HK Hfuel.
  assert (Hs : is_sorted (repeat 0 K ++ [1]) = true)
    by (apply is_sorted_repeat_app; lia).
  assert (Hu : all_uint32 (repeat 0 K ++ [1]) = true)
    by (apply all_uint32_repeat_app; lia).
  assert (Hlen : alen (repeat 0 K ++ [1]) = 2 ^ 24 + 2)
    by (rewrite alen_repeat_app; lia).
  split; [exact Hs|]. split; [exact Hu|]. split; [exact Hlen|].
  assert (Hin : Z.of_nat K = alen (repeat 0 K ++ [1]) - 1) by lia.
  rewrite Hin.
  apply (defect_build (repeat 0 K ++ [1]) Hlen Hs Hu).
  - intros a Ha. apply code_at_repeat_app_low. lia.
  - rewrite <- HK, code_at_repeat_app_last. discriminate.
  - exact Hfuel.
  - cbn [lchildren]. unfold alen at 1. rewrite repeat_length. lia.
  - cbn [rchildren]. unfold alen at 1. rewrite repeat_length. lia.
  - cbn [parents]. unfold alen at 1. rewrite repeat_length. lia.
Qed.

(** C1, failing input.  On 2^24 + 1 equal codes followed by a larger one
    [build_tree] completes, but the split search of node 0, started from
    [float32(2^24 + 1) = 2^24], stops at 2^24 - 1: node 0 takes the internal
    nodes 2^24 - 1 and 2^24 as children, node 2^24 takes 2^24 - 1 as left
    child as well, and following the children from the root reaches node
    2^24 - 1 twice. *)
Theorem build_tree_float32_split_defect :
  is_sorted defect_codes = true /\
  all_uint32 defect_codes = true /\
  alen defect_codes = 2 ^ 24 + 2 /\
  exists k,
    build_links 32 (Z.of_nat defect_size) defect_codes defect_links0 = Ok k /\
    code_at (lchildren k) 0 = 2 ^ 24 - 1 /\
    code_at (rchildren k) 0 = 2 ^ 24 /\
    code_at (lchildren k) (2 ^ 24) = 2 ^ 24 - 1 /\
    forall vfuel nodes,
      visit vfuel (Z.of_nat defect_size) (lchildren k) (rchildren k) 0
        = Ok nodes ->
      ~ NoDup nodes.
Proof.
  apply (defect_general defect_size 32).
  - unfold defect_size. lia.
  - lia.
Qed.

(* ================================================================== *)
(** ** propagate_aabbs *)

Lemma aget_upd_same {A : Type} (a : list A) (k : Z) (v : A) :
  0 <= k < alen a -> aget (upd (Z.to_nat k) v a) k = Ok v.
Proof.
  intros Hk. rewrite (aget_ok _ k v) by (rewrite alen_upd; exact Hk).
  f_equal. apply upd_nth_same. unfold alen in Hk. lia.
Qed.

Lemma upd_nth_error_other {A : Type} (k m : nat) (v : A) (a : list A) :
  k <> m -> nth_error (upd k v a) m = nth_error a m.
Proof.
  revert k m; induction a as [|x t IH]; intros [|k] [|m] Hkm; simpl;
    auto; try lia.
Qed.

Lemma aget_upd_other {A : Type} (a : list A) (k m : Z) (v : A) :
  0 <= k -> k <> m -> aget (upd (Z.to_nat k) v a) m = aget a m.
Proof.
  intros Hk Hne. unfold aget. destruct (m <? 0) eqn:E; [reflexivity|].
  apply Z.ltb_ge in E. rewrite upd_nth_error_other by lia. reflexivity.
Qed.

Lemma bind_ok_r {A : Type} (m : result A) : bind m (fun x => Ok x) = m.
Proof. destruct m; reflexivity. Qed.

Lemma bind_assoc {A B C : Type} (m : result A) (f : A -> result B)
  (g : B -> result C) :
  bind (bind m f) g = bind m (fun x => bind (f x) g).
Proof. destruct m; reflexivity. Qed.

Lemma for_all_from_app {St : Type} (body : Z -> St -> result St) (a b : nat) :
  forall (start : Z) (s : St),
    for_all_from start (a + b) body s =
      bind (for_all_from start a body s)
           (for_all_from (start + Z.of_nat a) b body).
Proof.
  induction a as [|a IH]; intros start s.
  - cbn [for_all_from Nat.add bind]. now rewrite Z.add_0_r.
  - cbn [for_all_from Nat.add]. rewrite bind_assoc.
    destruct (body start s) as [s'| | | |]; cbn [bind]; try reflexivity.
    rewrite IH. do 2 f_equal. lia.
Qed.

Lemma app_inv_length {A : Type} (a a' b b' : list A) :
  length a = length a' -> a ++ b = a' ++ b' -> a = a' /\ b = b'.
Proof.
  revert a'. induction a as [|x a IH]; intros [|y a'] Hl He;
    simpl in *; try lia; auto.
  inversion He; subst. destruct (IH a') as [-> ->]; auto.
Qed.

Section Walk.
Context {Box : Type} `{BoundingBox Box}.
Variable inner_size : Z.
Variables lch rch par : list Z.
Variable leaf_aabbs : list Box.

(** The first walk to arrive at a node stops there: it only counts. *)
Lemma walk_first (f : nat) (aabb : Box) (last_node current_node : Z)
  (st : Propagation Box) :
  0 <= current_node < alen (counters st) ->
  code_at (counters st) current_node = 0 ->
  walk (S f) inner_size lch rch par leaf_aabbs aabb last_node current_node st
    = Ok (incr_counter current_node st).
Proof.
  intros Hc H0. cbn [walk].
  replace (current_node =? -1) with false by (symmetry; apply Z.eqb_neq; lia).
  unfold atomic_increment. rewrite aget_code_at by exact Hc. cbn [bind].
  rewrite aset_ok by exact Hc. cbn [bind fst snd]. rewrite H0.
  change (0 =? 0) with true. cbv iota. unfold incr_counter. rewrite H0.
  reflexivity.
Qed.

(** The second walk to arrive adds the box of the other child to its own,
    stores the result as the box of the node and goes on to the parent. *)
Lemma walk_second (f : nat) (aabb other_aabb : Box)
  (last_node current_node lchild rchild parent : Z) (st : Propagation Box) :
  0 <= current_node < alen (counters st) ->
  0 <= current_node < alen (inner_aabbs st) ->
  code_at (counters st) current_node <> 0 ->
  aget lch current_node = Ok lchild ->
  aget rch current_node = Ok rchild ->
  box_of inner_size leaf_aabbs (inner_aabbs st)
         (if lchild =? last_node then rchild else lchild) = Ok other_aabb ->
  aget par current_node = Ok parent ->
  walk (S f) inner_size lch rch par leaf_aabbs aabb last_node current_node st
    = walk f inner_size lch rch par leaf_aabbs (addBox aabb other_aabb)
        current_node parent
        (store_box current_node (addBox aabb other_aabb)
                   (incr_counter current_node st)).
Proof.
  intros Hc Hb Hn Hl Hr Ho Hp. cbn [walk].
  replace (current_node =? -1) with false by (symmetry; apply Z.eqb_neq; lia).
  unfold atomic_increment. rewrite aget_code_at by exact Hc. cbn [bind].
  rewrite aset_ok by exact Hc. cbn [bind fst snd].
  replace (code_at (counters st) current_node =? 0) with false
    by (symmetry; apply Z.eqb_neq; exact Hn).
  rewrite Hl, Hr. cbn [bind inner_aabbs].
  unfold box_of, sync_load in *. rewrite Ho. cbn [bind].
  unfold sync_store. cbn [inner_aabbs counters increments stores].
  rewrite aset_ok by exact Hb. cbn [bind]. rewrite Hp. cbn [bind].
  reflexivity.
Qed.

Lemma walk_root (f : nat) (aabb : Box) (last_node : Z) (st : Propagation Box) :
  walk (S f) inner_size lch rch par leaf_aabbs aabb last_node (-1) st = Ok st.
Proof. reflexivity. Qed.

End Walk.

Lemma rdepth_le_height (t : shape) : (rdepth t <= height t)%nat.
Proof.
  induction t as [p|v l IHl r IHr]; cbn [rdepth height]; lia.
Qed.



Section Effects.
Context {Box : Type}.

Lemma incr_counter_boxes (v : Z) (st : Propagation Box) :
  inner_aabbs (incr_counter v st) = inner_aabbs st.
Proof. reflexivity. Qed.




Lemma incr_counter_alen (v : Z) (st : Propagation Box) :
  alen (counters (incr_counter v st)) = alen (counters st).
Proof. unfold incr_counter. cbn [counters]. apply alen_upd. Qed.

Lemma incr_counter_other (v u : Z) (st : Propagation Box) :
  0 <= v -> 0 <= u -> v <> u ->
  code_at (counters (incr_counter v st)) u = code_at (counters st) u.
Proof.
  intros. unfold incr_counter. cbn [counters].
  now apply code_at_upd_other.
Qed.

Lemma incr_counter_same (v : Z) (st : Propagation Box) :
  0 <= v < alen (counters st) ->
  code_at (counters (incr_counter v st)) v = code_at (counters st) v + 1.
Proof.
  intros. unfold incr_counter. cbn [counters]. now apply code_at_upd_same.
Qed.

Lemma store_box_counters (v : Z) (b : Box) (st : Propagation Box) :
  counters (store_box v b st) = counters st.
Proof. reflexivity. Qed.

Lemma store_box_alen (v : Z) (b : Box) (st : Propagation Box) :
  alen (inner_aabbs (store_box v b st)) = alen (inner_aabbs st).
Proof. unfold store_box. cbn [inner_aabbs]. apply alen_upd. Qed.

Lemma store_box_other (v u : Z) (b : Box) (st : Propagation Box) :
  0 <= v -> v <> u ->
  aget (inner_aabbs (store_box v b st)) u = aget (inner_aabbs st) u.
Proof.
  intros. unfold store_box. cbn [inner_aabbs]. now apply aget_upd_other.
Qed.

Lemma store_box_same (v : Z) (b : Box) (st : Propagation Box) :
  0 <= v < alen (inner_aabbs st) ->
  aget (inner_aabbs (store_box v b st)) v = Ok b.
Proof.
  intros. unfold store_box. cbn [inner_aabbs]. now apply aget_upd_same.
Qed.

End Effects.

Section Finish.
Context {Box : Type} `{BoundingBox Box}.
Variable leaf_aabbs : list Box.

Lemma finish_lengths (t : shape) :
  forall st : Propagation Box,
    alen (counters (finish leaf_aabbs t st)) = alen (counters st) /\
    alen (inner_aabbs (finish leaf_aabbs t st)) = alen (inner_aabbs st).
Proof.
  induction t as [p|v l IHl r IHr]; intros st; cbn [finish]; [auto|].
  rewrite store_box_counters, store_box_alen, incr_counter_alen,
    incr_counter_boxes.
  destruct (IHr (incr_counter v (finish leaf_aabbs l st))) as [C B].
  rewrite C, B, incr_counter_alen, incr_counter_boxes. apply IHl.
Qed.

(** [finish] touches only the internal nodes of the tree. *)
Lemma finish_frame (t : shape) :
  forall (st : Propagation Box) (u : Z),
    0 <= u -> (forall w, In w (internals t) -> 0 <= w) ->
    ~ In u (internals t) ->
    aget (inner_aabbs (finish leaf_aabbs t st)) u = aget (inner_aabbs st) u /\
    code_at (counters (finish leaf_aabbs t st)) u = code_at (counters st) u.
Proof.
  induction t as [p|v l IHl r IHr]; intros st u Hu Hpos Hnin;
    cbn [finish]; [auto|].
  cbn [internals] in Hnin, Hpos.
  assert (Hv : 0 <= v) by (apply Hpos; now left).
  assert (Huv : v <> u) by (intros ->; apply Hnin; now left).
  assert (Hl : ~ In u (internals l))
    by (intros Hi; apply Hnin; right; apply in_or_app; now left).
  assert (Hr : ~ In u (internals r))
    by (intros Hi; apply Hnin; right; apply in_or_app; now right).
  assert (Hpl : forall w, In w (internals l) -> 0 <= w)
    by (intros w Hw; apply Hpos; right; apply in_or_app; now left).
  assert (Hpr : forall w, In w (internals r) -> 0 <= w)
    by (intros w Hw; apply Hpos; right; apply in_or_app; now right).
  rewrite store_box_other, store_box_counters by assumption.
  rewrite incr_counter_boxes, incr_counter_other by assumption.
  destruct (IHr (incr_counter v (finish leaf_aabbs l st)) u Hu Hpr Hr)
    as [B C].
  rewrite B, C, incr_counter_boxes, incr_counter_other by assumption.
  apply IHl; assumption.
Qed.



Lemma boxes_done_frame (t : shape) (st st' : Propagation Box) :
  (forall u, In u (internals t) ->
     aget (inner_aabbs st') u = aget (inner_aabbs st) u /\
     code_at (counters st') u = code_at (counters st) u) ->
  boxes_done leaf_aabbs st t -> boxes_done leaf_aabbs st' t.
Proof.
  induction t as [p|v l IHl r IHr]; intros Hag Hd; cbn [boxes_done] in *;
    [exact I|].
  destruct Hd as (Hb & Hc & Dl & Dr). cbn [internals] in Hag.
  destruct (Hag v (or_introl eq_refl)) as [B C].
  split; [now rewrite B|]. split; [now rewrite C|]. split.
  - apply IHl; auto. intros u Hu. apply Hag. right. apply in_or_app.
    now left.
  - apply IHr; auto. intros u Hu. apply Hag. right. apply in_or_app.
    now right.
Qed.

(** After [finish] every internal node has been counted twice and holds
    the box of its subtree. *)
Lemma finish_done (t : shape) :
  forall st : Propagation Box,
    NoDup (internals t) ->
    (forall w, In w (internals t) -> 0 <= w < alen (inner_aabbs st)) ->
    (forall w, In w (internals t) -> code_at (counters st) w = 0) ->
    alen (counters st) = alen (inner_aabbs st) ->
    boxes_done leaf_aabbs (finish leaf_aabbs t st) t.
Proof.
  induction t as [p|v l IHl r IHr]; intros st Hnd Hrange Hzero Hlen;
    [exact I|].
  cbn [internals] in Hnd, Hrange, Hzero.
  inversion Hnd as [|? ? Hvn Hnd']; subst.
  assert (Hv : 0 <= v < alen (inner_aabbs st)) by (apply Hrange; now left).
  assert (Hvl : ~ In v (internals l))
    by (intros Hi; apply Hvn; apply in_or_app; now left).
  assert (Hvr : ~ In v (internals r))
    by (intros Hi; apply Hvn; apply in_or_app; now right).
  assert (Hrl : forall w, In w (internals l) -> 0 <= w < alen (inner_aabbs st))
    by (intros w Hw; apply Hrange; right; apply in_or_app; now left).
  assert (Hrr : forall w, In w (internals r) -> 0 <= w < alen (inner_aabbs st))
    by (intros w Hw; apply Hrange; right; apply in_or_app; now right).
  assert (Hpl : forall w, In w (internals l) -> 0 <= w)
    by (intros w Hw; apply Hrl in Hw; lia).
  assert (Hpr : forall w, In w (internals r) -> 0 <= w)
    by (intros w Hw; apply Hrr in Hw; lia).
  set (s1 := finish leaf_aabbs l st).
  set (s2 := incr_counter v s1).
  set (s3 := finish leaf_aabbs r s2).
  set (s4 := incr_counter v s3).
  destruct (finish_lengths l st) as [Lc1 Lb1]. fold s1 in Lc1, Lb1.
  assert (Lc2 : alen (counters s2) = alen (counters st))
    by (unfold s2; now rewrite incr_counter_alen).
  assert (Lb2 : alen (inner_aabbs s2) = alen (inner_aabbs st)) by exact Lb1.
  destruct (finish_lengths r s2) as [Lc3 Lb3]. fold s3 in Lc3, Lb3.
  destruct (finish_frame l st v (proj1 Hv) Hpl Hvl) as [_ C1]. fold s1 in C1.
  assert (C2 : code_at (counters s2) v = 1).
  { unfold s2. rewrite incr_counter_same by lia.
    rewrite C1, Hzero; [reflexivity|now left]. }
  destruct (finish_frame r s2 v (proj1 Hv) Hpr Hvr) as [_ C3]. fold s3 in C3.
  assert (C4 : code_at (counters s4) v = 2).
  { unfold s4. rewrite incr_counter_same by lia.
    rewrite C3, C2. reflexivity. }
  assert (Dl : boxes_done leaf_aabbs s1 l).
  { apply IHl; auto.
    - eapply NoDup_app_remove_r; exact Hnd'.
    - intros w Hw. apply Hzero. right. apply in_or_app. now left. }
  assert (Dr : boxes_done leaf_aabbs s3 r).
  { apply IHr.
    - eapply NoDup_app_remove_l; exact Hnd'.
    - intros w Hw. rewrite Lb2. apply Hrr. exact Hw.
    - intros w Hw.
      assert (w <> v) by (intros ->; contradiction).
      assert (~ In w (internals l))
        by (intros Hi; exact (NoDup_app_disjoint _ _ w Hnd' Hi Hw)).
      pose proof (Hpr w Hw) as Hw0.
      unfold s2. rewrite incr_counter_other by lia.
      destruct (finish_frame l st w Hw0 Hpl H1) as [_ Cw].
      fold s1 in Cw. rewrite Cw. apply Hzero. right. apply in_or_app. now right.
    - lia. }
  cbn [finish boxes_done]. fold s1 s2 s3 s4.
  split; [|split; [|split]].
  - apply store_box_same. unfold s4. rewrite incr_counter_boxes. lia.
  - rewrite store_box_counters. exact C4.
  - apply (boxes_done_frame l s1); [|exact Dl].
    intros u Hu.
    assert (u <> v) by (intros ->; contradiction).
    assert (Hur : ~ In u (internals r))
      by (intros Hi; exact (NoDup_app_disjoint _ _ u Hnd' Hu Hi)).
    pose proof (Hpl u Hu) as Hu0.
    destruct (finish_frame r s2 u Hu0 Hpr Hur) as [B3 C3']. fold s3 in B3, C3'.
    rewrite store_box_other, store_box_counters by lia.
    unfold s4. rewrite incr_counter_boxes, incr_counter_other by lia.
    rewrite B3, C3'. unfold s2.
    rewrite incr_counter_boxes, incr_counter_other by lia.
    split; reflexivity.
  - apply (boxes_done_frame r s3); [|exact Dr].
    intros u Hu.
    assert (u <> v) by (intros ->; contradiction).
    pose proof (Hpr u Hu) as Hu0.
    rewrite store_box_other, store_box_counters by lia.
    unfold s4. rewrite incr_counter_boxes, incr_counter_other by lia.
    split; reflexivity.
Qed.

End Finish.

Lemma node_index_internal (inner_size : Z) (t : shape) (k : Links)
  (parent : Z) :
  realizes inner_size k parent t ->
  (In (node_index inner_size t) (internals t) /\
   node_index inner_size t < inner_size) \/
  (exists p, t = Leaf p /\ 0 <= p /\ In p (leaves t)).
Proof.
  destruct t as [p|v l r]; cbn [realizes node_index internals leaves].
  - intros [Hp _]. right. exists p. split; [reflexivity|].
    split; [exact Hp|now left].
  - intros (Hv & _). left. split; [now left|lia].
Qed.

Lemma internals_range (inner_size : Z) (k : Links) (t : shape) :
  forall parent, realizes inner_size k parent t ->
                 forall w, In w (internals t) -> 0 <= w < inner_size.
Proof.
  induction t as [p|v l IHl r IHr]; intros parent Hr w Hw;
    cbn [realizes internals] in *; [destruct Hw|].
  destruct Hr as (Hv & _ & _ & _ & Rl & Rr).
  destruct Hw as [<-|Hw]; [exact Hv|].
  apply in_app_or in Hw. destruct Hw as [Hw|Hw]; eauto.
Qed.

Section Run.
Context {Box : Type} `{BoundingBox Box}.
Variable inner_size : Z.
Variable k : Links.
Variable leaf_aabbs : list Box.

Let body (fuel : nat) :=
  propagate_leaf fuel inner_size (lchildren k) (rchildren k) (parents k)
    leaf_aabbs.
Let run (fuel : nat) :=
  walk fuel inner_size (lchildren k) (rchildren k) (parents k) leaf_aabbs.

(** The walks of the leaves of a subtree, run in order, leave the subtree
    finished, and the last of them arrives at the parent of its root
    carrying the box of the subtree. *)
Lemma run_subtree (t : shape) :
  forall (parent lo : Z) (st : Propagation Box) (fuel : nat),
    realizes inner_size k parent t ->
    leaves t = zseq lo (length (leaves t)) ->
    0 <= lo -> lo + Z.of_nat (length (leaves t)) <= alen leaf_aabbs ->
    NoDup (internals t) ->
    alen (counters st) = inner_size ->
    alen (inner_aabbs st) = inner_size ->
    (forall u, In u (internals t) -> code_at (counters st) u = 0) ->
    (height t < fuel)%nat ->
    for_all_from lo (length (leaves t)) (body fuel) st
      = run (fuel - rdepth t) (subtree_box leaf_aabbs t)
            (node_index inner_size t) parent (finish leaf_aabbs t st).
Proof.
  induction t as [p|v l IHl r IHr];
    intros parent lo st fuel Hreal Hleaves Hlo Hhi Hnd Hlc Hlb Hzero Hfuel.
  - cbn [leaves length zseq] in Hleaves, Hhi. inversion Hleaves; subst p.
    destruct Hreal as [_ Hpar].
    cbn [leaves length for_all_from rdepth subtree_box node_index finish].
    rewrite bind_ok_r, Nat.sub_0_r. unfold body, propagate_leaf.
    rewrite (aget_ok leaf_aabbs lo emptyBox) by lia. cbn [bind].
    rewrite Hpar. reflexivity.
  - pose proof (internals_range inner_size k _ parent Hreal) as Hrange.
    destruct Hreal as (Hv & Hlch & Hrch & Hpar & Rl & Rr).
    cbn [leaves] in Hleaves, Hhi. rewrite length_app in Hleaves, Hhi.
    rewrite zseq_app in Hleaves.
    apply app_inv_length in Hleaves; [|now rewrite zseq_length].
    destruct Hleaves as [Ll Lr].
    cbn [internals] in Hnd, Hzero, Hrange.
    apply NoDup_cons_iff in Hnd. destruct Hnd as [Hvn Hnd'].
    assert (Hvl : ~ In v (internals l))
      by (intros Hi; apply Hvn; apply in_or_app; now left).
    assert (Hvr : ~ In v (internals r))
      by (intros Hi; apply Hvn; apply in_or_app; now right).
    assert (Hpl : forall w, In w (internals l) -> 0 <= w).
    { intros w Hw.
      assert (0 <= w < inner_size)
        by (apply Hrange; right; apply in_or_app; now left). lia. }
    assert (Hpr : forall w, In w (internals r) -> 0 <= w).
    { intros w Hw.
      assert (0 <= w < inner_size)
        by (apply Hrange; right; apply in_or_app; now right). lia. }
    cbn [height] in Hfuel.
    pose proof (rdepth_le_height l). pose proof (rdepth_le_height r).
    cbn [leaves]. rewrite length_app, for_all_from_app.
    (* the leaves of the left subtree *)
    rewrite (IHl v lo st fuel Rl Ll Hlo); try lia; try assumption.
    2:{ eapply NoDup_app_remove_r; exact Hnd'. }
    2:{ intros u Hu. apply Hzero. right. apply in_or_app. now left. }
    set (s1 := finish leaf_aabbs l st).
    destruct (finish_lengths leaf_aabbs l st) as [Lc1 Lb1].
    fold s1 in Lc1, Lb1.
    destruct (finish_frame leaf_aabbs l st v (proj1 Hv) Hpl Hvl) as [_ C1].
    fold s1 in C1.
    replace (fuel - rdepth l)%nat with (S (fuel - rdepth l - 1)) by lia.
    unfold run at 1. rewrite walk_first; [|lia|].
    2:{ rewrite C1. apply Hzero. now left. }
    cbn [bind]. set (s2 := incr_counter v s1).
    assert (C2 : code_at (counters s2) v = 1).
    { unfold s2. rewrite incr_counter_same by lia. rewrite C1, Hzero;
        [reflexivity|now left]. }
    (* the leaves of the right subtree *)
    rewrite (IHr v (lo + Z.of_nat (length (leaves l))) s2 fuel Rr Lr);
      try lia.
    2:{ eapply NoDup_app_remove_l; exact Hnd'. }
    2:{ unfold s2. rewrite incr_counter_alen. lia. }
    2:{ unfold s2. rewrite incr_counter_boxes. lia. }
    2:{ intros u Hu.
        assert (u <> v) by (intros ->; contradiction).
        assert (Hul : ~ In u (internals l))
          by (intros Hi; exact (NoDup_app_disjoint _ _ u Hnd' Hi Hu)).
        pose proof (Hpr u Hu) as Hu0.
        unfold s2. rewrite incr_counter_other by lia.
        destruct (finish_frame leaf_aabbs l st u Hu0 Hpl Hul) as [_ Cu].
        fold s1 in Cu. rewrite Cu. apply Hzero. right. apply in_or_app.
        now right. }
    set (s3 := finish leaf_aabbs r s2).
    destruct (finish_lengths leaf_aabbs r s2) as [Lc3 Lb3].
    fold s3 in Lc3, Lb3.
    assert (Lc2 : alen (counters s2) = inner_size)
      by (unfold s2; rewrite incr_counter_alen; lia).
    destruct (finish_frame leaf_aabbs r s2 v (proj1 Hv) Hpr Hvr) as [_ C3].
    fold s3 in C3.
    replace (fuel - rdepth r)%nat with (S (fuel - rdepth (Node v l r)))
      by (cbn [rdepth]; lia).
    unfold run at 1.
    assert (Hsib : node_index inner_size l <> node_index inner_size r).
    { destruct (node_index_internal inner_size l k v Rl)
        as [[Il Hl]|(p & -> & Hp & Ip)];
      destruct (node_index_internal inner_size r k v Rr)
        as [[Ir Hr]|(q & -> & Hq & Iq)]; cbn [node_index] in *.
      - intros E. rewrite E in Il.
        exact (NoDup_app_disjoint _ _ _ Hnd' Il Ir).
      - lia.
      - lia.
      - rewrite Ll in Ip. rewrite Lr in Iq.
        apply zseq_In in Ip. apply zseq_In in Iq. lia. }
    assert (Hother : box_of inner_size leaf_aabbs (inner_aabbs s3)
                       (node_index inner_size l)
                     = Ok (subtree_box leaf_aabbs l)).
    { unfold box_of.
      destruct (node_index_internal inner_size l k v Rl)
        as [[Il Hl]|(p & -> & Hp & Ip)].
      - replace (inner_size <=? node_index inner_size l) with false
          by (symmetry; apply Z.leb_gt; lia).
        assert (Hil : 0 <= node_index inner_size l) by (apply Hpl; exact Il).
        assert (Hnr : ~ In (node_index inner_size l) (internals r))
          by (intros Hi; exact (NoDup_app_disjoint _ _ _ Hnd' Il Hi)).
        destruct (finish_frame leaf_aabbs r s2 _ Hil Hpr Hnr) as [B3 _].
        fold s3 in B3. rewrite B3. unfold s2.
        rewrite incr_counter_boxes. unfold s1.
        destruct l as [p|vl ll rl]; [destruct Il|].
        cbn [node_index finish] in *. apply store_box_same.
        rewrite incr_counter_boxes.
        destruct (finish_lengths leaf_aabbs rl
                    (incr_counter vl (finish leaf_aabbs ll st))) as [_ Bx].
        rewrite Bx, incr_counter_boxes.
        destruct (finish_lengths leaf_aabbs ll st) as [_ By].
        rewrite By. lia.
      - cbn [node_index subtree_box].
        replace (inner_size <=? inner_size + p) with true
          by (symmetry; apply Z.leb_le; lia).
        replace (inner_size + p - inner_size) with p by lia.
        rewrite Ll in Ip. apply zseq_In in Ip.
        apply aget_ok. lia. }
    rewrite (walk_second inner_size (lchildren k) (rchildren k) (parents k)
               leaf_aabbs _ _ (subtree_box leaf_aabbs l)
               (node_index inner_size r) v (node_index inner_size l)
               (node_index inner_size r) parent s3); try lia; try assumption.
    + reflexivity.
    + rewrite Lb3. unfold s2. rewrite incr_counter_boxes. lia.
    + replace (node_index inner_size l =? node_index inner_size r) with false
        by (symmetry; apply Z.eqb_neq; exact Hsib).
      exact Hother.
Qed.

End Run.
(* ================================================================== *)
(** * propagate_aabbs: every inner box is the union of its children *)

Lemma leaves_internals_length (t : shape) :
  length (leaves t) = S (length (internals t)).
Proof.
  induction t as [p|v l IHl r IHr]; cbn [leaves internals length];
    [reflexivity|].
  rewrite !length_app. lia.
Qed.

Lemma code_at_repeat (c : Z) (n : nat) (u : Z) :
  0 <= u < Z.of_nat n -> code_at (repeat c n) u = c.
Proof.
  intros Hu. unfold code_at.
  rewrite (nth_indep _ 0 c) by (rewrite repeat_length; lia).
  apply nth_repeat.
Qed.

Section Done.
Context {Box : Type} `{BoundingBox Box}.
Variable inner_size : Z.
Variable k : Links.
Variable leaf_aabbs : list Box.
Variable st : Propagation Box.

Lemma box_of_subtree (t : shape) (parent : Z) :
  realizes inner_size k parent t ->
  boxes_done leaf_aabbs st t ->
  (forall p, In p (leaves t) -> 0 <= p < alen leaf_aabbs) ->
  box_of inner_size leaf_aabbs (inner_aabbs st) (node_index inner_size t)
    = Ok (subtree_box leaf_aabbs t).
Proof.
  destruct t as [p|v l r]; intros Hreal Hdone Hleaf; unfold box_of;
    cbn [node_index].
  - destruct Hreal as [Hp _].
    replace (inner_size <=? inner_size + p) with true
      by (symmetry; apply Z.leb_le; lia).
    replace (inner_size + p - inner_size) with p by lia.
    cbn [subtree_box]. apply aget_ok. apply Hleaf. now left.
  - destruct Hreal as (Hv & _). destruct Hdone as (Hb & _).
    replace (inner_size <=? v) with false by (symmetry; apply Z.leb_gt; lia).
    exact Hb.
Qed.

Lemma boxes_done_union (t : shape) :
  forall parent,
    realizes inner_size k parent t ->
    boxes_done leaf_aabbs st t ->
    (forall p, In p (leaves t) -> 0 <= p < alen leaf_aabbs) ->
    forall v, In v (internals t) ->
      exists lchild rchild lbox rbox,
        aget (lchildren k) v = Ok lchild /\
        aget (rchildren k) v = Ok rchild /\
        box_of inner_size leaf_aabbs (inner_aabbs st) lchild = Ok lbox /\
        box_of inner_size leaf_aabbs (inner_aabbs st) rchild = Ok rbox /\
        aget (inner_aabbs st) v = Ok (addBox rbox lbox) /\
        code_at (counters st) v = 2.
Proof.
  induction t as [p|u l IHl r IHr]; intros parent Hreal Hdone Hleaf v Hv;
    cbn [internals] in Hv; [destruct Hv|].
  destruct Hreal as (Hu & Hl & Hr & Hp & Rl & Rr).
  destruct Hdone as (Hb & Hc & Dl & Dr).
  assert (Ll : forall p, In p (leaves l) -> 0 <= p < alen leaf_aabbs)
    by (intros p Hp'; apply Hleaf; cbn [leaves]; apply in_or_app; now left).
  assert (Lr : forall p, In p (leaves r) -> 0 <= p < alen leaf_aabbs)
    by (intros p Hp'; apply Hleaf; cbn [leaves]; apply in_or_app; now right).
  destruct Hv as [<-|Hv].
  - exists (node_index inner_size l), (node_index inner_size r),
      (subtree_box leaf_aabbs l), (subtree_box leaf_aabbs r).
    split; [exact Hl|]. split; [exact Hr|].
    split; [exact (box_of_subtree l u Rl Dl Ll)|].
    split; [exact (box_of_subtree r u Rr Dr Lr)|].
    split; [exact Hb|exact Hc].
  - apply in_app_or in Hv. destruct Hv as [Hv|Hv].
    + exact (IHl u Rl Dl Ll v Hv).
    + exact (IHr u Rr Dr Lr v Hv).
Qed.

End Done.

Section Propagate.
Context {Box : Type} `{BoundingBox Box}.
Variable data : RadixTree Box.
Variable t : shape.

Let inner_size := m_inner_size data.
Let k := mkLinks (m_left_children data) (m_right_children data)
           (m_parents data).
Let leaf_aabbs := m_leaf_aabbs data.

Hypothesis Hreal : realizes inner_size k (-1) t.
Hypothesis Hleaves : leaves t = iota (Z.to_nat (inner_size + 1)).
Hypothesis Hnodup : NoDup (internals t).
Hypothesis Hinner : alen (m_inner_aabbs data) = inner_size.
Hypothesis Hleaf : alen leaf_aabbs = inner_size + 1.
Let st0 : Propagation Box :=
  mkPropagation
    (map (fun _ : Z => emptyBox) (iota (length (m_inner_aabbs data))))
    (repeat 0 (Z.to_nat inner_size)) [] [].

Lemma internals_cover (v : Z) : 0 <= v < inner_size <-> In v (internals t).
Proof.
  split.
  - intros Hv.
    assert (Hincl : incl (iota (Z.to_nat inner_size)) (internals t)).
    { apply NoDup_length_incl; [exact Hnodup| |].
      - pose proof (leaves_internals_length t) as E.
        rewrite Hleaves, iota_length in E. rewrite iota_length. lia.
      - intros w Hw. apply iota_In.
        pose proof (internals_range inner_size k t (-1) Hreal w Hw). lia. }
    apply Hincl. apply iota_In. lia.
  - apply (internals_range inner_size k t (-1) Hreal).
Qed.

Lemma propagate_done : boxes_done leaf_aabbs (finish leaf_aabbs t st0) t.
Proof.
  assert (Hb0 : alen (inner_aabbs st0) = inner_size).
  { unfold st0. cbn [inner_aabbs]. unfold alen.
    rewrite length_map, iota_length. exact Hinner. }
  apply finish_done.
  - exact Hnodup.
  - intros w Hw. apply internals_cover in Hw. rewrite Hb0. exact Hw.
  - intros w Hw. apply internals_cover in Hw. unfold st0. cbn [counters].
    apply code_at_repeat. lia.
  - rewrite Hb0. unfold st0. cbn [counters]. unfold alen.
    rewrite repeat_length.
    pose proof (alen_nonneg (m_inner_aabbs data)) as Hnn. lia.
Qed.

Variable fuel : nat.
Hypothesis Hfuel : (height t < fuel)%nat.
Hypothesis Hsize : m_size data = inner_size + 1.

Lemma propagate_trace_finish :
  propagate_trace fuel data = Ok (finish leaf_aabbs t st0).
Proof.
  pose proof (alen_nonneg (m_inner_aabbs data)) as Hnn. rewrite Hinner in Hnn.
  unfold propagate_trace. fold inner_size. rewrite Hsize, Z.eqb_refl.
  cbn [negb].
  pose proof (for_all_fill (fun _ : Z => emptyBox) (m_inner_aabbs data)) as E0.
  rewrite Hinner in E0. fold inner_size. rewrite E0. cbn [bind].
  fold st0. unfold for_all.
  assert (Hlen : length (leaves t) = Z.to_nat (inner_size + 1))
    by (rewrite Hleaves; apply iota_length).
  rewrite <- Hlen.
  change (m_left_children data) with (lchildren k).
  change (m_right_children data) with (rchildren k).
  change (m_parents data) with (parents k).
  fold leaf_aabbs.
  rewrite (run_subtree inner_size k leaf_aabbs t (-1) 0 st0 fuel Hreal).
  - pose proof (rdepth_le_height t).
    replace (fuel - rdepth t)%nat with (S (fuel - rdepth t - 1)) by lia.
    apply walk_root.
  - rewrite zseq_0_iota, Hlen. exact Hleaves.
  - lia.
  - rewrite Hlen, Hleaf. lia.
  - exact Hnodup.
  - unfold st0. cbn [counters]. unfold alen. rewrite repeat_length. lia.
  - unfold st0. cbn [inner_aabbs]. unfold alen.
    rewrite length_map, iota_length. exact Hinner.
  - intros u Hu. apply internals_cover in Hu. unfold st0. cbn [counters].
    apply code_at_repeat. lia.
  - exact Hfuel.
Qed.

End Propagate.


(* ================================================================== *)
(** * build_radix_tree on a single box *)

Section Single.
Context {Box : Type} `{BoundingBox Box}.
Variable convertPointToMorton : list Z -> Z.
Variable fill : Z.
Variable junk : Box.
Variable scale_factor : Q.
Variable mem : Memory Box.
Variable box : Box.
Hypothesis Hbox : aget (boxes mem) 0 = Ok box.

Let leaf := scale scale_factor box.
Let bnds := addBox emptyBox leaf.

Lemma transform_boxes_single :
  transform_boxes (boxes mem) [junk] 1 scale_factor = Ok [leaf].
Proof.
  unfold transform_boxes, for_all. change (Z.to_nat 1) with 1%nat.
  cbn [for_all_from]. rewrite Hbox. reflexivity.
Qed.

Lemma reduce_single : reduce [leaf] 1 = Ok bnds.
Proof. reflexivity. Qed.

Lemma get_mcodes_single :
  exists code, get_mcodes convertPointToMorton [leaf] 1 bnds [fill] = Ok [code].
Proof.
  unfold get_mcodes.
  destruct (inverse_extent_ok (vsub (getMax bnds) (getMin bnds)))
    as (inv & E & _).
  rewrite E. cbn [bind]. eexists. reflexivity.
Qed.

Lemma sort_mcodes_single (code : Z) :
  sort_mcodes [code] 1 [fill] = Ok ([code], [0]).
Proof. reflexivity. Qed.

Lemma reorder_single : reorder [0] [leaf] 1 = Ok [leaf].
Proof. reflexivity. Qed.

Lemma sort_stage_single :
  exists code,
    sort_stage convertPointToMorton fill junk 1 scale_factor mem
      = Ok (mkMemory (boxes mem) bnds
              (mkRadixTree 1 0 [] [] [fill] [] [0] [code] [leaf])).
Proof.
  destruct get_mcodes_single as (code & Ecode). exists code.
  unfold sort_stage. change (1 <=? 0) with false. cbv iota.
  change (allocate fill junk 1)
    with (mkRadixTree 1 0 [] [] [fill] [] [fill] [fill] [junk]).
  cbn [m_leaf_aabbs]. rewrite transform_boxes_single. cbn [bind].
  unfold with_leaf_aabbs at 1 2 3.
  cbn [m_leaf_aabbs m_mcodes m_size m_inner_size m_left_children
       m_right_children m_parents m_inner_aabbs m_leafs].
  rewrite reduce_single. cbn [bind]. rewrite Ecode. cbn [bind].
  unfold with_mcodes at 1 2.
  cbn [m_leaf_aabbs m_mcodes m_size m_inner_size m_left_children
       m_right_children m_parents m_inner_aabbs m_leafs].
  rewrite sort_mcodes_single. cbn [bind fst snd].
  unfold with_leafs, with_mcodes, with_leaf_aabbs.
  cbn [m_leaf_aabbs m_mcodes m_size m_inner_size m_left_children
       m_right_children m_parents m_inner_aabbs m_leafs].
  rewrite reorder_single. reflexivity.
Qed.

End Single.

Lemma build_tree_no_inner {Box : Type} (fuel : nat) (size : Z)
  (par leafs mcodes : list Z) (leaf_aabbs : list Box) :
  build_tree fuel (mkRadixTree size 0 [] [] par [] leafs mcodes leaf_aabbs)
    = Ok (mkRadixTree size 0 [] [] par [] leafs mcodes leaf_aabbs).
Proof. reflexivity. Qed.

Lemma propagate_single {Box : Type} `{BoundingBox Box} (f : nat)
  (fill : Z) (leafs mcodes : list Z) (leaf : Box) :
  propagate_aabbs (S f)
    (mkRadixTree 1 0 [] [] [fill] [] leafs mcodes [leaf])
  = if fill =? -1
    then Ok (mkRadixTree 1 0 [] [] [fill] [] leafs mcodes [leaf])
    else OutOfBounds.
Proof.
  unfold propagate_aabbs, propagate_trace, for_all.
  cbn [m_inner_size m_inner_aabbs m_left_children m_right_children m_parents
       m_leaf_aabbs m_size m_leafs m_mcodes].
  change (negb (0 + 1 =? 1)) with false. cbv iota.
  change (Z.to_nat 0) with 0%nat. change (Z.to_nat (0 + 1)) with 1%nat.
  cbn [for_all_from bind repeat]. unfold propagate_leaf.
  change (aget [leaf] 0) with (Ok leaf).
  change (aget [fill] (0 + 0)) with (Ok fill).
  cbn [bind walk].
  destruct (fill =? -1) eqn:E; [reflexivity|].
  unfold atomic_increment. cbn [counters].
  assert (Eg : aget (@nil Z) fill = OutOfBounds).
  { unfold aget. destruct (fill <? 0); [reflexivity|].
    destruct (Z.to_nat fill); reflexivity. }
  rewrite Eg. reflexivity.
Qed.

(** The build on a single box whose parent slot was not handed out holding
    the sentinel: the walk of the leaf increments a counter that does not
    exist. *)
Lemma build_radix_tree_single_unset {Box : Type} `{BoundingBox Box}
  (convertPointToMorton : list Z -> Z) (fill : Z) (junk : Box) (f : nat)
  (scale_factor : Q) (mem : Memory Box) (box : Box) :
  aget (boxes mem) 0 = Ok box ->
  fill <> -1 ->
  build_radix_tree convertPointToMorton fill junk (S f) 1 scale_factor mem
    = OutOfBounds.
Proof.
  intros Hbox Hfill.
  destruct (sort_stage_single convertPointToMorton fill junk scale_factor mem
              box Hbox) as (code & E).
  unfold build_radix_tree. rewrite E. cbn [bind radix_tree].
  rewrite build_tree_no_inner. cbn [bind]. rewrite propagate_single.
  apply Z.eqb_neq in Hfill. rewrite Hfill. reflexivity.
Qed.

(** C6.  The build has no special case for a single box.  The stages up to
    the reordering complete and leave a tree with one leaf and no inner
    node; [build_tree] runs its loop zero times, so the assignment of the
    sentinel -1 to the parent of the root, which sits in that loop, is never
    reached and the parent slot of the leaf stays as allocated;
    [propagate_aabbs] then reads that slot and, unless it happens to hold
    -1, increments a counter of the counter array, which has no entry: the
    build does not complete. *)
Theorem build_radix_tree_single_box_defect {Box : Type} `{BoundingBox Box}
  (convertPointToMorton : list Z -> Z) (fill : Z) (junk : Box) (fuel : nat)
  (scale_factor : Q) (mem : Memory Box) (box : Box) :
  aget (boxes mem) 0 = Ok box ->
  fill <> -1 ->
  (0 < fuel)%nat ->
  exists code,
    let tree :=
      mkRadixTree 1 0 [] [] [fill] [] [0] [code] [scale scale_factor box] in
    let mem' :=
      mkMemory (boxes mem) (addBox emptyBox (scale scale_factor box)) tree in
    sort_stage convertPointToMorton fill junk 1 scale_factor mem = Ok mem' /\
    m_size tree = 1 /\ m_inner_size tree = 0 /\
    alen (m_leaf_aabbs tree) = 1 /\ alen (m_inner_aabbs tree) = 0 /\
    build_tree fuel tree = Ok tree /\
    aget (m_parents tree) 0 = Ok fill /\
    propagate_aabbs fuel tree = OutOfBounds /\
    build_radix_tree convertPointToMorton fill junk fuel 1 scale_factor mem
      = OutOfBounds.
Proof.
  intros Hbox Hfill Hfuel.
  destruct (sort_stage_single convertPointToMorton fill junk scale_factor mem
              box Hbox) as (code & E).
  exists code. intros tree mem'.
  destruct fuel as [|f]; [lia|].
  assert (Hprop : propagate_aabbs (S f) tree = OutOfBounds).
  { unfold tree. rewrite propagate_single.
    apply Z.eqb_neq in Hfill. rewrite Hfill. reflexivity. }
  split; [exact E|].
  split; [reflexivity|]. split; [reflexivity|].
  split; [reflexivity|]. split; [reflexivity|].
  split; [apply build_tree_no_inner|].
  split; [reflexivity|].
  split; [exact Hprop|].
  apply (build_radix_tree_single_unset convertPointToMorton fill junk f
           scale_factor mem box Hbox Hfill).
Qed.

Lemma build_radix_tree_single_box_defect_witness :
  let box := mkQBox [0 # 1; 0 # 1; 0 # 1] [1 # 1; 2 # 1; 3 # 1] in
  let mem := mkMemory [box] box (allocate 0 box 1) in
  exists code,
    let tree :=
      mkRadixTree 1 0 [] [] [0] [] [0] [code] [scale (1 # 1) box] in
    let mem' :=
      mkMemory (boxes mem) (addBox emptyBox (scale (1 # 1) box)) tree in
    sort_stage interleave 0 box 1 (1 # 1) mem = Ok mem' /\
    m_size tree = 1 /\ m_inner_size tree = 0 /\
    alen (m_leaf_aabbs tree) = 1 /\ alen (m_inner_aabbs tree) = 0 /\
    build_tree 32 tree = Ok tree /\
    aget (m_parents tree) 0 = Ok 0 /\
    propagate_aabbs 32 tree = OutOfBounds /\
    build_radix_tree interleave 0 box 32 1 (1 # 1) mem = OutOfBounds.
Proof.
  intros box mem.
  apply (build_radix_tree_single_box_defect interleave 0 box 32 (1 # 1) mem
           box); [reflexivity|lia|lia].
Defined.
(* ================================================================== *)
(** * build_radix_tree leaves the caller's boxes alone *)

Lemma bind_ok_inv {A B : Type} (m : result A) (f : A -> result B) (y : B) :
  bind m f = Ok y -> exists x, m = Ok x /\ f x = Ok y.
Proof.
  destruct m as [x| | | |]; cbn [bind]; try discriminate.
  intros E. exists x. split; [reflexivity|exact E].
Qed.

(** What a completed [for_all] establishes, from what each completed
    iteration preserves. *)
Lemma for_all_from_post {St : Type} (Inv : Z -> St -> Prop)
  (body : Z -> St -> result St) (count : nat) :
  forall (start : Z) (s s' : St),
    Inv start s ->
    (forall i s0 s1, start <= i < start + Z.of_nat count -> Inv i s0 ->
                     body i s0 = Ok s1 -> Inv (i + 1) s1) ->
    for_all_from start count body s = Ok s' ->
    Inv (start + Z.of_nat count) s'.
Proof.
  induction count as [|c IH]; intros start s s' H0 Hstep E;
    cbn [for_all_from] in E.
  - inversion E; subst. now rewrite Z.add_0_r.
  - apply bind_ok_inv in E. destruct E as (s1 & E1 & E2).
    replace (start + Z.of_nat (S c)) with (start + 1 + Z.of_nat c) by lia.
    apply (IH (start + 1) s1 s').
    + apply (Hstep start s s1); [lia|exact H0|exact E1].
    + intros i s0 s2 Hi. apply Hstep. lia.
    + exact E2.
Qed.

Lemma transform_boxes_post {Box : Type} `{BoundingBox Box}
  (boxes aabbs aabbs' : list Box) (size : Z) (scale_factor : Q) :
  0 <= size ->
  transform_boxes boxes aabbs size scale_factor = Ok aabbs' ->
  alen aabbs' = alen aabbs /\
  forall i, 0 <= i < size ->
    exists b, aget boxes i = Ok b /\
              aget aabbs' i = Ok (scale scale_factor b).
Proof.
  intros Hsize E. unfold transform_boxes, for_all in E.
  pose proof (for_all_from_post
    (fun i s => alen s = alen aabbs /\
                forall j, 0 <= j < i ->
                  exists b, aget boxes j = Ok b /\
                            aget s j = Ok (scale scale_factor b))
    (fun i s => aabb <- aget boxes i ;; aset s i (scale scale_factor aabb))
    (Z.to_nat size) 0 aabbs aabbs') as P.
  cbv beta in P. rewrite Z2Nat.id in P by lia. apply P; [| |exact E].
  - split; [reflexivity|]. intros j Hj. lia.
  - intros i s0 s1 Hi [Hl Hprev] Ebody.
    apply bind_ok_inv in Ebody. destruct Ebody as (b & Eb & Es).
    apply aset_inv in Es. destruct Es as [Hin ->].
    split; [rewrite alen_upd; exact Hl|].
    intros j Hj. destruct (Z.eq_dec j i) as [->|Hne].
    + exists b. split; [exact Eb|]. apply aget_upd_same. exact Hin.
    + destruct (Hprev j) as (b' & Eb' & Es'); [lia|].
      exists b'. split; [exact Eb'|].
      rewrite aget_upd_other by lia. exact Es'.
Qed.

Lemma gather_post {T : Type} (indices : list Z) (array : list T)
  (count : nat) :
  forall (start : Z) (out : list T),
    gather indices array start count = Ok out ->
    length out = count /\
    forall p, (p < count)%nat ->
      exists ix x, aget indices (start + Z.of_nat p) = Ok ix /\
                   aget array ix = Ok x /\ nth_error out p = Some x.
Proof.
  induction count as [|c IH]; intros start out E; cbn [gather] in E.
  - inversion E; subst. split; [reflexivity|]. intros p Hp. lia.
  - apply bind_ok_inv in E. destruct E as (ix & Eix & E).
    apply bind_ok_inv in E. destruct E as (x & Ex & E).
    apply bind_ok_inv in E. destruct E as (rest & Erest & E).
    inversion E; subst out. destruct (IH _ _ Erest) as [Hl Hget].
    split; [cbn [length]; now rewrite Hl|].
    intros [|p] Hp.
    + exists ix, x. rewrite Z.add_0_r. split; [exact Eix|].
      split; [exact Ex|reflexivity].
    + destruct (Hget p) as (ix' & x' & E1 & E2 & E3); [lia|].
      exists ix', x'.
      replace (start + Z.of_nat (S p)) with (start + 1 + Z.of_nat p) by lia.
      split; [exact E1|]. split; [exact E2|exact E3].
Qed.

Lemma reorder_post {T : Type} (indices : list Z) (array out : list T)
  (size : Z) :
  0 <= size ->
  reorder indices array size = Ok out ->
  alen out = size /\
  forall p, 0 <= p < size ->
    exists ix x, aget indices p = Ok ix /\ aget array ix = Ok x /\
                 aget out p = Ok x.
Proof.
  intros Hsize E. unfold reorder in E.
  destruct (gather_post indices array _ _ _ E) as [Hl Hget].
  split; [unfold alen; lia|].
  intros p Hp. destruct (Hget (Z.to_nat p)) as (ix & x & E1 & E2 & E3); [lia|].
  rewrite Z2Nat.id in E1 by lia. exists ix, x.
  split; [exact E1|]. split; [exact E2|].
  unfold aget. replace (p <? 0) with false by (symmetry; apply Z.ltb_ge; lia).
  rewrite E3. reflexivity.
Qed.

Lemma build_tree_fields {Box : Type} (fuel : nat) (t t' : RadixTree Box) :
  build_tree fuel t = Ok t' ->
  m_leafs t' = m_leafs t /\ m_leaf_aabbs t' = m_leaf_aabbs t.
Proof.
  unfold build_tree. intros E. apply bind_ok_inv in E.
  destruct E as (k & _ & E). inversion E; subst. split; reflexivity.
Qed.

Lemma propagate_aabbs_fields {Box : Type} `{BoundingBox Box} (fuel : nat)
  (t t' : RadixTree Box) :
  propagate_aabbs fuel t = Ok t' ->
  m_leafs t' = m_leafs t /\ m_leaf_aabbs t' = m_leaf_aabbs t.
Proof.
  unfold propagate_aabbs. intros E. apply bind_ok_inv in E.
  destruct E as (st & _ & E). inversion E; subst. split; reflexivity.
Qed.

Lemma sort_stage_post {Box : Type} `{BoundingBox Box}
  (convertPointToMorton : list Z -> Z) (fill : Z) (junk : Box) (size : Z)
  (scale_factor : Q) (mem mem1 : Memory Box) :
  sort_stage convertPointToMorton fill junk size scale_factor mem = Ok mem1 ->
  0 < size /\ boxes mem1 = boxes mem /\
  exists aabbs,
    transform_boxes (boxes mem) (m_leaf_aabbs (allocate fill junk size)) size
                    scale_factor = Ok aabbs /\
    reorder (m_leafs (radix_tree mem1)) aabbs size
      = Ok (m_leaf_aabbs (radix_tree mem1)).
Proof.
  unfold sort_stage. destruct (size <=? 0) eqn:Hs; [discriminate|].
  apply Z.leb_gt in Hs. intros E.
  apply bind_ok_inv in E. destruct E as (aabbs & Et & E).
  apply bind_ok_inv in E. destruct E as (bnds & _ & E).
  apply bind_ok_inv in E. destruct E as (codes & _ & E).
  apply bind_ok_inv in E. destruct E as (sorted & _ & E).
  apply bind_ok_inv in E. destruct E as (aabbs' & Er & E).
  inversion E; subst mem1. cbn [boxes radix_tree].
  split; [exact Hs|]. split; [reflexivity|].
  exists aabbs. split; [exact Et|exact Er].
Qed.

(** C10.  When [build_radix_tree] returns, the caller's box array is what it
    was: the first stage [transform_boxes] reads it and writes the scaled
    copy of every box into the leaf boxes of the tree, the later stages work
    on the arrays of the tree only, and the leaf box the tree ends with at
    sorted position p is the scaled copy of the caller's box at index
    [leafs[p]]. *)
Theorem build_radix_tree_frame {Box : Type} `{BoundingBox Box}
  (convertPointToMorton : list Z -> Z) (fill : Z) (junk : Box) (fuel : nat)
  (size : Z) (scale_factor : Q) (mem mem' : Memory Box) :
  build_radix_tree convertPointToMorton fill junk fuel size scale_factor mem
    = Ok mem' ->
  boxes mem' = boxes mem /\
  (exists aabbs mem1 tree1,
     transform_boxes (boxes mem) (m_leaf_aabbs (allocate fill junk size)) size
                     scale_factor = Ok aabbs /\
     (forall i, 0 <= i < size ->
        exists b, aget (boxes mem) i = Ok b /\
                  aget aabbs i = Ok (scale scale_factor b)) /\
     sort_stage convertPointToMorton fill junk size scale_factor mem
       = Ok mem1 /\
     boxes mem1 = boxes mem /\
     build_tree fuel (radix_tree mem1) = Ok tree1 /\
     propagate_aabbs fuel tree1 = Ok (radix_tree mem')) /\
  (forall p, 0 <= p < size ->
     exists ix b,
       aget (m_leafs (radix_tree mem')) p = Ok ix /\
       aget (boxes mem) ix = Ok b /\
       aget (m_leaf_aabbs (radix_tree mem')) p = Ok (scale scale_factor b)).
Proof.
  unfold build_radix_tree. intros E.
  apply bind_ok_inv in E. destruct E as (mem1 & Es & E).
  apply bind_ok_inv in E. destruct E as (tree1 & Eb & E).
  apply bind_ok_inv in E. destruct E as (tree2 & Ep & E).
  inversion E; subst mem'. cbn [boxes radix_tree].
  destruct (sort_stage_post _ _ _ _ _ _ _ Es)
    as (Hsize & Hboxes & aabbs & Et & Er).
  assert (Hsize0 : 0 <= size) by lia.
  destruct (transform_boxes_post _ _ _ _ _ Hsize0 Et) as [Hlen Hcopy].
  destruct (reorder_post _ _ _ _ Hsize0 Er) as [_ Hgather].
  destruct (build_tree_fields _ _ _ Eb) as [L1 A1].
  destruct (propagate_aabbs_fields _ _ _ Ep) as [L2 A2].
  split; [exact Hboxes|]. split.
  - exists aabbs, mem1, tree1.
    split; [exact Et|]. split; [exact Hcopy|]. split; [exact Es|].
    split; [exact Hboxes|]. split; [exact Eb|exact Ep].
  - intros p Hp. destruct (Hgather p Hp) as (ix & x & E1 & E2 & E3).
    assert (Hix : 0 <= ix < size).
    { apply aget_inv in E2. destruct E2 as [Hr _]. rewrite Hlen in Hr.
      unfold allocate in Hr. cbn [m_leaf_aabbs] in Hr. unfold alen in Hr.
      rewrite repeat_length in Hr. lia. }
    destruct (Hcopy ix Hix) as (b & Eb1 & Eb2).
    exists ix, b. rewrite L2, L1, A2, A1.
    split; [exact E1|]. split; [exact Eb1|].
    rewrite E3. rewrite E2 in Eb2. exact Eb2.
Qed.

Lemma build_radix_tree_frame_witness :
  let b0 := mkQBox [5 # 1; 0 # 1] [6 # 1; 1 # 1] in
  let b1 := mkQBox [0 # 1; 0 # 1] [1 # 1; 1 # 1] in
  let b2 := mkQBox [2 # 1; 3 # 1] [3 # 1; 4 # 1] in
  let mem := mkMemory [b0; b1; b2] b0 (allocate 0 b0 0) in
  exists mem',
    build_radix_tree interleave 0 b0 32 3 (1 # 1) mem = Ok mem' /\
    boxes mem' = boxes mem /\
    (exists aabbs mem1 tree1,
       transform_boxes (boxes mem) (m_leaf_aabbs (allocate 0 b0 3)) 3 (1 # 1)
         = Ok aabbs /\
       (forall i, 0 <= i < 3 ->
          exists b, aget (boxes mem) i = Ok b /\
                    aget aabbs i = Ok (scale (1 # 1) b)) /\
       sort_stage interleave 0 b0 3 (1 # 1) mem = Ok mem1 /\
       boxes mem1 = boxes mem /\
       build_tree 32 (radix_tree mem1) = Ok tree1 /\
       propagate_aabbs 32 tree1 = Ok (radix_tree mem')) /\
    (forall p, 0 <= p < 3 ->
       exists ix b,
         aget (m_leafs (radix_tree mem')) p = Ok ix /\
         aget (boxes mem) ix = Ok b /\
         aget (m_leaf_aabbs (radix_tree mem')) p = Ok (scale (1 # 1) b)).
Proof.
  intros b0 b1 b2 mem.
  eexists. split; [vm_compute; reflexivity|].
  apply (build_radix_tree_frame interleave 0 b0 32 3 (1 # 1) mem).
  vm_compute. reflexivity.
Defined.
(* ================================================================== *)
(** * The stages of build_radix_tree complete *)

Lemma transform_boxes_ok {Box : Type} `{BoundingBox Box}
  (boxes aabbs : list Box) (size : Z) (scale_factor : Q) :
  0 <= size -> size <= alen boxes -> size <= alen aabbs ->
  exists aabbs',
    transform_boxes boxes aabbs size scale_factor = Ok aabbs' /\
    alen aabbs' = alen aabbs.
Proof.
  intros H0 Hb Ha. unfold transform_boxes.
  apply (for_all_inv (fun _ s => alen s = alen aabbs)); [exact H0|reflexivity|].
  intros i s0 Hi Hl. cbv beta.
  rewrite (aget_ok boxes i emptyBox) by lia.
  cbn [bind]. rewrite aset_ok by lia. eexists. split; [reflexivity|].
  rewrite alen_upd. exact Hl.
Qed.

Lemma reduce_ok {Box : Type} `{BoundingBox Box} (aabbs : list Box)
  (size : Z) :
  0 <= size -> size <= alen aabbs -> exists b, reduce aabbs size = Ok b.
Proof.
  intros H0 Ha. unfold reduce.
  destruct (for_all_inv (fun _ (_ : Box) => True)
              (fun i global_bounds =>
                 aabb <- aget aabbs i ;; Ok (addBox global_bounds aabb))
              size emptyBox H0 I) as (b & E & _).
  - intros i s0 Hi _. rewrite (aget_ok aabbs i emptyBox) by lia.
    cbn [bind]. eexists. split; [reflexivity|exact I].
  - exists b. exact E.
Qed.

Lemma get_mcodes_ok {Box : Type} `{BoundingBox Box}
  (convertPointToMorton : list Z -> Z) (aabbs : list Box) (bnds : Box)
  (mcodes0 : list Z) :
  alen mcodes0 = alen aabbs ->
  exists codes,
    get_mcodes convertPointToMorton aabbs (alen aabbs) bnds mcodes0
      = Ok codes /\
    alen codes = alen aabbs /\ all_uint32 codes = true.
Proof.
  intros Hlen. unfold get_mcodes.
  destruct (inverse_extent_ok (vsub (getMax bnds) (getMin bnds)))
    as (inv & Einv & _).
  rewrite Einv. cbn [bind].
  destruct (for_all_inv
    (fun i mc => alen mc = alen aabbs /\
                 forall j, (Z.of_nat j < i) -> 0 <= nth j mc 0 < 2 ^ 32)
    (fun i mcodes =>
       aabb <- aget aabbs i ;;
       aset mcodes i
         (uint32 (morton32_encode convertPointToMorton
                    (normalized_centroid (getMin bnds) inv aabb))))
    (alen aabbs) mcodes0) as (codes & E & Hl & Hr).
  - apply alen_nonneg.
  - split; [exact Hlen|]. intros j Hj. lia.
  - intros i s0 Hi [Hl Hr]. rewrite (aget_ok aabbs i emptyBox) by lia.
    cbn [bind]. rewrite aset_ok by lia. eexists. split; [reflexivity|].
    split; [rewrite alen_upd; exact Hl|].
    intros j Hj. destruct (Nat.eq_dec j (Z.to_nat i)) as [->|Hne].
    + rewrite upd_nth_same by (unfold alen in *; lia).
      unfold uint32. apply Z.mod_pos_bound. lia.
    + rewrite upd_nth_other by lia. apply Hr. lia.
  - exists codes. split; [exact E|]. split; [exact Hl|].
    unfold all_uint32. apply forallb_forall. intros c Hc.
    destruct (In_nth _ _ 0 Hc) as (j & Hj & <-).
    assert (0 <= nth j codes 0 < 2 ^ 32)
      by (apply Hr; unfold alen in *; lia).
    apply andb_true_iff. split; [apply Z.leb_le|apply Z.ltb_lt]; lia.
Qed.

Lemma is_sorted_of_nth (l : list Z) :
  (forall p, (S p < length l)%nat -> nth p l 0 <= nth (S p) l 0) ->
  is_sorted l = true.
Proof.
  induction l as [|x l IH]; intros Hn; [reflexivity|].
  destruct l as [|y l]; [reflexivity|].
  change (is_sorted (x :: y :: l)) with ((x <=? y) && is_sorted (y :: l)).
  apply andb_true_iff. split.
  - apply Z.leb_le. apply (Hn 0%nat). cbn [length]. lia.
  - apply IH. intros p Hp. apply (Hn (S p)). cbn [length] in *. lia.
Qed.

(** The codes [sort_mcodes] returns are sorted 32-bit codes. *)
Lemma sort_mcodes_sorted (mcodes iter : list Z) :
  alen iter = alen mcodes ->
  all_uint32 mcodes = true ->
  exists mcodes' iter',
    sort_mcodes mcodes (alen mcodes) iter = Ok (mcodes', iter') /\
    Permutation iter' (iota (length mcodes)) /\
    alen mcodes' = alen mcodes /\
    is_sorted mcodes' = true /\ all_uint32 mcodes' = true.
Proof.
  intros Hlen Hu.
  destruct (sort_mcodes_ok mcodes iter Hlen)
    as (mcodes' & iter' & E & Hperm & Hsorted & Hl & Hget).
  exists mcodes', iter'. split; [exact E|]. split; [exact Hperm|].
  split; [exact Hl|].
  assert (Hil : length iter' = length mcodes)
    by (rewrite (Permutation_length Hperm); apply iota_length).
  assert (Hin : forall i, 0 <= i < alen mcodes ->
                          0 <= code_at iter' i < alen mcodes).
  { intros i Hi.
    assert (Hm : In (code_at iter' i) iter')
      by (unfold code_at; apply nth_In; unfold alen in Hi; lia).
    apply (Permutation_in _ Hperm) in Hm. apply iota_In in Hm.
    unfold alen. lia. }
  assert (Hcode : forall i, 0 <= i < alen mcodes ->
                            code_at mcodes' i
                            = code_at mcodes (code_at iter' i)).
  { intros i Hi. specialize (Hget i Hi). specialize (Hin i Hi).
    rewrite (aget_ok mcodes' i 0) in Hget by lia.
    rewrite (aget_ok mcodes _ 0) in Hget by lia.
    inversion Hget as [H0]. unfold code_at at 1 2. exact H0. }
  split.
  - apply is_sorted_of_nth. intros p Hp.
    assert (Hp' : (S p < length mcodes)%nat) by (unfold alen in Hl; lia).
    assert (R1 : 0 <= Z.of_nat p < alen mcodes) by (unfold alen; lia).
    assert (R2 : 0 <= Z.of_nat (S p) < alen mcodes) by (unfold alen; lia).
    pose proof (Hcode _ R1) as E1. pose proof (Hcode _ R2) as E2.
    unfold code_at at 1 in E1. unfold code_at at 1 in E2.
    rewrite Nat2Z.id in E1, E2. rewrite E1, E2.
    assert (Hc : code_then_position mcodes (nth p iter' 0)
                                    (nth (S p) iter' 0))
      by (apply (StronglySorted_nth _ iter' 0 Hsorted); lia).
    unfold code_then_position in Hc. unfold code_at in *.
    rewrite !Nat2Z.id. lia.
  - unfold all_uint32. apply forallb_forall. intros c Hc.
    destruct (In_nth _ _ 0 Hc) as (j & Hj & <-).
    assert (Hj' : 0 <= Z.of_nat j < alen mcodes) by (unfold alen in *; lia).
    pose proof (Hcode _ Hj') as E1. unfold code_at at 1 in E1.
    rewrite Nat2Z.id in E1. rewrite E1.
    pose proof (code_at_range mcodes _ Hu (Hin _ Hj')) as Hr.
    apply andb_true_iff. split; [apply Z.leb_le|apply Z.ltb_lt]; lia.
Qed.
(* ================================================================== *)
(** * Morton encoding: the integer coordinates *)

Lemma float_to_int_clamped (q hi : Q) (m : Z) :
  0 <= m -> hi = inject_Z m ->
  0 <= float_to_int (Qmin (Qmax q 0%Q) hi) <= m.
Proof.
  intros Hm ->. set (c := Qmin (Qmax q 0%Q) (inject_Z m)).
  assert (Hlo : (0 <= c)%Q).
  { unfold c. apply Q.min_glb; [apply Q.le_max_r|].
    unfold Qle, inject_Z. cbn. lia. }
  assert (Hhi : (c <= inject_Z m)%Q) by (unfold c; apply Q.le_min_r).
  unfold float_to_int. destruct c as [num den].
  unfold Qle, inject_Z in Hlo, Hhi. cbn in Hlo, Hhi. cbn [Qnum Qden].
  rewrite Z.mul_1_r in Hlo, Hhi.
  assert (0 <= num) by lia.
  rewrite Z.quot_div_nonneg by lia. split.
  - apply Z.div_pos; lia.
  - apply Z.div_le_upper_bound; lia.
Qed.

Lemma float_to_int_inject (m : Z) : float_to_int (inject_Z m) = m.
Proof. unfold float_to_int, inject_Z. cbn [Qnum Qden]. apply Z.quot_1_r. Qed.

Lemma Qminus_inject_one (m : Z) : (inject_Z m - 1)%Q = inject_Z (m - 1).
Proof.
  unfold Qminus, Qplus, Qopp, inject_Z. cbn [Qnum Qden]. f_equal. lia.
Qed.

Lemma clamp_low (q hi : Q) :
  (q <= 0)%Q -> (0 <= hi)%Q -> float_to_int (Qmin (Qmax q 0%Q) hi) = 0.
Proof.
  intros Hq Hhi.
  assert (E : (Qmin (Qmax q 0%Q) hi == 0)%Q).
  { rewrite Q.max_r by exact Hq. apply Q.min_l. exact Hhi. }
  unfold float_to_int. destruct (Qmin (Qmax q 0%Q) hi) as [num den].
  unfold Qeq in E. cbn in E. cbn [Qnum Qden].
  assert (num = 0) by lia. subst num. reflexivity.
Qed.

Lemma clamp_high (q : Q) (m : Z) :
  0 <= m -> (inject_Z m <= q)%Q ->
  float_to_int (Qmin (Qmax q 0%Q) (inject_Z m)) = m.
Proof.
  intros Hm Hq.
  assert (E : (Qmin (Qmax q 0%Q) (inject_Z m) == inject_Z m)%Q).
  { apply Q.min_r. apply Qle_trans with q; [exact Hq|apply Q.le_max_l]. }
  unfold float_to_int. destruct (Qmin (Qmax q 0%Q) (inject_Z m)) as [num den].
  unfold Qeq, inject_Z in E. cbn in E. cbn [Qnum Qden].
  rewrite Z.mul_1_r in E. rewrite E. apply Z.quot_mul. lia.
Qed.

(** X1.  [morton32_encode] hands [convertPointToMorton] one integer per
    coordinate of the point, each in [0, 2^(32 / Dims) - 1] whatever the
    point is, so that the Dims coordinates fit 32 bits together; a
    coordinate at or below 0 becomes 0 and a coordinate at or above 1
    becomes the largest value. *)
Theorem morton32_encode_coords (point : list Q) :
  2 <= alen point ->
  let bits := Z.quot 32 (alen point) in
  exists coords,
    (forall convertPointToMorton : list Z -> Z,
       morton32_encode convertPointToMorton point
         = convertPointToMorton coords) /\
    length coords = length point /\
    0 <= bits <= 16 /\ alen point * bits <= 32 /\
    forall k, (k < length point)%nat ->
      0 <= nth k coords 0 <= 2 ^ bits - 1 /\
      ((nth k point 0 <= 0)%Q -> nth k coords 0 = 0) /\
      ((1 <= nth k point 0)%Q -> nth k coords 0 = 2 ^ bits - 1).
Proof.
  intros Hd bits. exists (int_coords point).
  split; [intros conv; reflexivity|]. unfold int_coords.
  split; [apply length_map|].
  assert (Hb : 0 <= bits <= 16).
  { unfold bits. split.
    - apply Z.quot_pos; lia.
    - apply Z.quot_le_upper_bound; lia. }
  split; [exact Hb|]. split.
  { unfold bits. pose proof (Z.mul_quot_le 32 (alen point)). lia. }
  intros k Hk. fold bits.
  rewrite Z.shiftl_1_l, Qminus_inject_one.
  assert (Hp : 0 < 2 ^ bits) by (apply Z.pow_pos_nonneg; lia).
  set (f := fun p : Q =>
              float_to_int
                (Qmin (Qmax (p * inject_Z (2 ^ bits)) 0%Q)
                      (inject_Z (2 ^ bits - 1)))).
  rewrite (nth_indep (map f point) 0 (f 0%Q)) by (rewrite length_map; lia).
  rewrite (map_nth f point 0%Q k). unfold f.
  split; [apply (float_to_int_clamped _ _ (2 ^ bits - 1)); [lia|reflexivity]|].
  split.
  - intros Hle. apply clamp_low.
    + apply Qle_trans with (0 * inject_Z (2 ^ bits))%Q.
      * apply Qmult_le_compat_r; [exact Hle|].
        unfold Qle, inject_Z. cbn. lia.
      * rewrite Qmult_0_l. apply Qle_refl.
    + unfold Qle, inject_Z. cbn. lia.
  - intros Hge. apply clamp_high; [lia|].
    apply Qle_trans with (inject_Z (2 ^ bits)).
    + unfold Qle, inject_Z. cbn. lia.
    + apply Qle_trans with (1 * inject_Z (2 ^ bits))%Q.
      * rewrite Qmult_1_l. apply Qle_refl.
      * apply Qmult_le_compat_r; [exact Hge|].
        unfold Qle, inject_Z. cbn. lia.
Qed.

Lemma morton32_encode_coords_witness :
  let point := [1 # 2; 3 # 4; 2 # 1]%Q in
  let bits := Z.quot 32 (alen point) in
  exists coords,
    (forall convertPointToMorton : list Z -> Z,
       morton32_encode convertPointToMorton point
         = convertPointToMorton coords) /\
    length coords = length point /\
    0 <= bits <= 16 /\ alen point * bits <= 32 /\
    forall k, (k < length point)%nat ->
      0 <= nth k coords 0 <= 2 ^ bits - 1 /\
      ((nth k point 0 <= 0)%Q -> nth k coords 0 = 0) /\
      ((1 <= nth k point 0)%Q -> nth k coords 0 = 2 ^ bits - 1).
Proof.
  intros point.
  apply (morton32_encode_coords point).
  unfold alen; simpl; lia.
Defined.

Lemma clamp21_range (x : Q) :
  0 <= clamp21 x <= 2 ^ 21 - 1 /\
  ((x <= 0)%Q -> clamp21 x = 0) /\
  ((1 <= x)%Q -> clamp21 x = 2 ^ 21 - 1).
Proof.
  unfold clamp21. change (2 ^ 21 - 1) with 2097151.
  split; [apply (float_to_int_clamped _ _ 2097151); [lia|reflexivity]|].
  split.
  - intros Hle. apply clamp_low; [|unfold Qle; cbn; lia].
    apply Qle_trans with (0 * inject_Z 2097152)%Q.
    + apply Qmult_le_compat_r; [exact Hle|]. unfold Qle; cbn; lia.
    + rewrite Qmult_0_l. apply Qle_refl.
  - intros Hge. apply clamp_high; [lia|].
    apply Qle_trans with (inject_Z 2097152); [unfold Qle; cbn; lia|].
    apply Qle_trans with (1 * inject_Z 2097152)%Q.
    + rewrite Qmult_1_l. apply Qle_refl.
    + apply Qmult_le_compat_r; [exact Hge|]. unfold Qle; cbn; lia.
Qed.

(** X2.  [morton64_encode] hands [convertPointToMorton] three integers in
    [0, 2^21 - 1] whatever x, y and z are (63 bits together); a coordinate at
    or below 0 becomes 0, one at or above 1 becomes 2^21 - 1, and with the
    default z = 0 the third integer is 0. *)
Theorem morton64_encode_coords (x y z : Q) :
  exists cx cy cz,
    (forall convertPointToMorton : list Z -> Z,
       morton64_encode convertPointToMorton x y z
         = convertPointToMorton [cx; cy; cz] /\
       morton64_encode convertPointToMorton x y 0
         = convertPointToMorton [cx; cy; 0]) /\
    (forall (w : Q) (c : Z), In (w, c) [(x, cx); (y, cy); (z, cz)] ->
       0 <= c <= 2 ^ 21 - 1 /\
       ((w <= 0)%Q -> c = 0) /\ ((1 <= w)%Q -> c = 2 ^ 21 - 1)).
Proof.
  exists (clamp21 x), (clamp21 y), (clamp21 z).
  split; [intros conv; split; reflexivity|].
  intros w c [E|[E|[E|[]]]]; inversion E; subst; apply clamp21_range.
Qed.
(* ================================================================== *)
(** * The loops of the first stages: what they write and when they fail *)

(** A loop whose body fails at index [m], having completed before. *)
Lemma for_all_from_fails {St : Type} (Inv : Z -> St -> Prop)
  (body : Z -> St -> result St) (m : Z) (count : nat) :
  forall (start : Z) (s : St),
    Inv start s ->
    (forall i s0, start <= i < m -> Inv i s0 ->
                  exists s1, body i s0 = Ok s1 /\ Inv (i + 1) s1) ->
    (forall s0, Inv m s0 -> body m s0 = OutOfBounds) ->
    start <= m < start + Z.of_nat count ->
    for_all_from start count body s = OutOfBounds.
Proof.
  induction count as [|c IH]; intros start s H0 Hstep Hfail Hm; [lia|].
  cbn [for_all_from]. destruct (Z.eq_dec start m) as [->|Hne].
  - rewrite (Hfail s H0). reflexivity.
  - destruct (Hstep start s) as (s1 & E1 & I1); [lia|exact H0|].
    rewrite E1. cbn [bind]. apply IH; [exact I1| |exact Hfail|lia].
    intros i s0 Hi. apply Hstep. lia.
Qed.

(** X3.  [array_counting] on [int32] values: when neither i * step nor
    start + i * step leaves the [int32] range for the positions i below
    [size], it writes the progression start + i * step into the first [size]
    entries and leaves the others alone; when [size] exceeds the array it
    runs into a write outside the array. *)
Theorem array_counting_spec (iterator : list Z) (size start step : Z) :
  0 <= size < 2 ^ 31 ->
  - (2 ^ 31) <= start < 2 ^ 31 ->
  - (2 ^ 31) <= step < 2 ^ 31 ->
  (forall i, 0 <= i < size ->
     - (2 ^ 31) <= i * step < 2 ^ 31 /\
     - (2 ^ 31) <= start + i * step < 2 ^ 31) ->
  (size <= alen iterator ->
   exists out,
     array_counting iterator size start step = Ok out /\
     alen out = alen iterator /\
     (forall i, 0 <= i < size ->
        aget out i = Ok (start + i * step) /\
        - (2 ^ 31) <= start + i * step < 2 ^ 31) /\
     (forall i, size <= i -> aget out i = aget iterator i)) /\
  (alen iterator < size ->
   array_counting iterator size start step = OutOfBounds).
Proof.
  intros [Hsize _] _ _ Hfit. unfold array_counting. split.
  - intros Hle.
    destruct (for_all_inv
      (fun i it => alen it = alen iterator /\
                   (forall j, 0 <= j < i -> aget it j = Ok (start + j * step)) /\
                   (forall j, i <= j -> aget it j = aget iterator j))
      (fun i it => aset it i (start + i * step)) size iterator Hsize)
      as (out & E & Hl & Hw & Hr).
    + split; [reflexivity|]. split; [intros j Hj; lia|reflexivity].
    + intros i s0 Hi (Hl & Hw & Hr). rewrite aset_ok by lia.
      eexists. split; [reflexivity|]. split; [rewrite alen_upd; exact Hl|].
      split.
      * intros j Hj. destruct (Z.eq_dec j i) as [->|Hne].
        -- apply aget_upd_same. lia.
        -- rewrite aget_upd_other by lia. apply Hw. lia.
      * intros j Hj. rewrite aget_upd_other by lia. apply Hr. lia.
    + exists out. split; [exact E|]. split; [exact Hl|].
      split; [|exact Hr].
      intros i Hi. split; [apply Hw; exact Hi|apply Hfit; exact Hi].
  - intros Hgt. unfold for_all.
    apply (for_all_from_fails (fun _ it => alen it = alen iterator)
             _ (alen iterator)).
    + reflexivity.
    + intros i s0 Hi Hl. rewrite aset_ok by lia. eexists.
      split; [reflexivity|]. rewrite alen_upd. exact Hl.
    + intros s0 Hl. apply aset_oob. lia.
    + pose proof (alen_nonneg iterator). lia.
Qed.

Lemma array_counting_spec_witness :
  (3 <= alen [9; 9; 9; 9] ->
   exists out,
     array_counting [9; 9; 9; 9] 3 10 2 = Ok out /\
     alen out = alen [9; 9; 9; 9] /\
     (forall i, 0 <= i < 3 ->
        aget out i = Ok (10 + i * 2) /\
        - (2 ^ 31) <= 10 + i * 2 < 2 ^ 31) /\
     (forall i, 3 <= i -> aget out i = aget [9; 9; 9; 9] i)) /\
  (alen [9; 9; 9; 9] < 3 ->
   array_counting [9; 9; 9; 9] 3 10 2 = OutOfBounds).
Proof.
  apply (array_counting_spec [9; 9; 9; 9] 3 10 2); try lia.
Defined.

Lemma transform_boxes_oob {Box : Type} `{BoundingBox Box}
  (boxes aabbs : list Box) (size : Z) (scale_factor : Q) :
  size <= alen aabbs -> alen boxes < size ->
  transform_boxes boxes aabbs size scale_factor = OutOfBounds.
Proof.
  intros Ha Hgt. unfold transform_boxes, for_all.
  apply (for_all_from_fails (fun _ s => alen s = alen aabbs)
           _ (alen boxes)).
  - reflexivity.
  - intros i s0 Hi Hl. rewrite (aget_ok boxes i emptyBox) by lia.
    cbn [bind]. rewrite aset_ok by lia. eexists.
    split; [reflexivity|]. rewrite alen_upd. exact Hl.
  - intros s0 Hl. rewrite aget_oob by lia. reflexivity.
  - pose proof (alen_nonneg boxes). lia.
Qed.

(** X4.  [transform_boxes] stores the scaled copy of box i at entry i of the
    leaf boxes for every i below [size] and leaves the other entries and the
    input alone; when [size] exceeds the input boxes it runs into a read
    outside the input. *)
Theorem transform_boxes_spec {Box : Type} `{BoundingBox Box}
  (boxes aabbs : list Box) (size : Z) (scale_factor : Q) :
  0 <= size -> size <= alen aabbs ->
  (size <= alen boxes ->
   transform_boxes boxes aabbs size scale_factor
     = Ok (map (scale scale_factor) (firstn (Z.to_nat size) boxes)
             ++ skipn (Z.to_nat size) aabbs)) /\
  (alen boxes < size ->
   transform_boxes boxes aabbs size scale_factor = OutOfBounds).
Proof.
  intros Hsize Ha. unfold transform_boxes. split.
  - intros Hb.
    destruct (for_all_inv
      (fun i s => s = map (scale scale_factor) (firstn (Z.to_nat i) boxes)
                        ++ skipn (Z.to_nat i) aabbs)
      (fun i s => aabb <- aget boxes i ;; aset s i (scale scale_factor aabb))
      size aabbs Hsize) as (out & E & Hout).
    + reflexivity.
    + intros i s0 Hi ->.
      rewrite (aget_ok boxes i emptyBox) by lia. cbn [bind].
      assert (Hlen : length (map (scale scale_factor)
                               (firstn (Z.to_nat i) boxes)) = Z.to_nat i).
      { rewrite length_map, length_firstn. unfold alen in *. lia. }
      rewrite aset_ok.
      2:{ unfold alen. rewrite length_app, Hlen, length_skipn.
          unfold alen in *. lia. }
      eexists. split; [reflexivity|].
      replace (Z.to_nat (i + 1)) with (S (Z.to_nat i)) by lia.
      apply (nth_ext _ _ emptyBox emptyBox).
      * rewrite upd_length, !length_app, !length_map, !length_firstn,
          !length_skipn. unfold alen in *. lia.
      * intros k Hk. rewrite upd_length in Hk.
        destruct (Nat.eq_dec k (Z.to_nat i)) as [->|Hne].
        -- rewrite upd_nth_same by exact Hk.
           rewrite app_nth1
             by (rewrite length_map, length_firstn; unfold alen in *; lia).
           rewrite (nth_indep (map _ _) emptyBox (scale scale_factor emptyBox))
             by (rewrite length_map, length_firstn; unfold alen in *; lia).
           rewrite map_nth. f_equal.
           rewrite nth_firstn.
           replace (Z.to_nat i <? S (Z.to_nat i))%nat with true
             by (symmetry; apply Nat.ltb_lt; lia).
           reflexivity.
        -- rewrite upd_nth_other by lia.
           destruct (Nat.lt_ge_cases k (Z.to_nat i)) as [Hlt|Hge].
           ++ rewrite !app_nth1
                by (rewrite length_map, length_firstn; unfold alen in *; lia).
              rewrite !(nth_indep (map _ _) emptyBox
                          (scale scale_factor emptyBox))
                by (rewrite length_map, length_firstn; unfold alen in *; lia).
              rewrite !map_nth. f_equal. rewrite !nth_firstn.
              replace (k <? Z.to_nat i)%nat with true
                by (symmetry; apply Nat.ltb_lt; lia).
              replace (k <? S (Z.to_nat i))%nat with true
                by (symmetry; apply Nat.ltb_lt; lia).
              reflexivity.
           ++ rewrite !app_nth2
                by (rewrite length_map, length_firstn; unfold alen in *; lia).
              rewrite !length_map, !length_firstn, !nth_skipn.
              f_equal. unfold alen in *. lia.
    + rewrite E, Hout. reflexivity.
  - intros Hgt. fold (transform_boxes boxes aabbs size scale_factor).
    apply transform_boxes_oob; assumption.
Qed.

Lemma transform_boxes_spec_witness :
  let b0 := mkQBox [0 # 1] [2 # 1] in
  let b1 := mkQBox [4 # 1] [8 # 1] in
  let j := mkQBox [] [] in
  (2 <= alen [b0; b1] ->
   transform_boxes [b0; b1] [j; j; j] 2 (1 # 2)
     = Ok (map (scale (1 # 2)) (firstn (Z.to_nat 2) [b0; b1])
             ++ skipn (Z.to_nat 2) [j; j; j])) /\
  (alen [b0; b1] < 2 ->
   transform_boxes [b0; b1] [j; j; j] 2 (1 # 2) = OutOfBounds).
Proof.
  intros b0 b1 j.
  apply (transform_boxes_spec [b0; b1] [j; j; j] 2 (1 # 2)).
  - lia.
  - unfold alen; simpl; lia.
Defined.

(** Containment of rational boxes is kept by unions. *)
Lemma qbox_encloses_refl (a : QBox) : qbox_encloses a a.
Proof.
  unfold qbox_encloses. destruct (qbox_is_empty a) eqn:E; [now left|].
  right. split; [reflexivity|]. intros k _ _. split; apply Qle_refl.
Qed.

Lemma qbox_encloses_add_l (a b c : QBox) :
  qbox_encloses a c -> qbox_encloses (addBox a b) c.
Proof.
  intros [Hc|[Ha Hk]]; [now left|]. right.
  cbn [addBox QBox_BoundingBox]. unfold qbox_add. rewrite Ha.
  destruct (qbox_is_empty b) eqn:Eb; [split; [exact Ha|exact Hk]|].
  unfold qbox_is_empty in *. cbn [qmin qmax].
  destruct (qmin a) as [|xa ra] eqn:Ea; [discriminate|].
  destruct (qmin b) as [|xb rb] eqn:Eqb; [discriminate|].
  split; [reflexivity|].
  intros k K1 K2. rewrite <- Ea, <- Eqb in *.
  rewrite (map2_nth Qmin _ _ k 0%Q 0%Q 0%Q) by exact K1.
  rewrite (map2_nth Qmax _ _ k 0%Q 0%Q 0%Q) by exact K2.
  rewrite map2_length in K1, K2.
  destruct (Hk k) as [H1 H2]; [lia|lia|]. split.
  - apply Qle_trans with (nth k (qmin a) 0%Q); [apply Q.le_min_l|exact H1].
  - apply Qle_trans with (nth k (qmax a) 0%Q); [exact H2|apply Q.le_max_l].
Qed.

Lemma qbox_encloses_add_r (a b c : QBox) :
  qbox_encloses b c -> qbox_encloses (addBox a b) c.
Proof.
  intros [Hc|[Hb Hk]]; [now left|]. right.
  cbn [addBox QBox_BoundingBox]. unfold qbox_add.
  destruct (qbox_is_empty a) eqn:Ea; [split; [exact Hb|exact Hk]|].
  rewrite Hb. unfold qbox_is_empty in *. cbn [qmin qmax].
  destruct (qmin a) as [|xa ra] eqn:Eqa; [discriminate|].
  destruct (qmin b) as [|xb rb] eqn:Eqb; [discriminate|].
  split; [reflexivity|].
  intros k K1 K2. rewrite <- Eqa, <- Eqb in *.
  rewrite (map2_nth Qmin _ _ k 0%Q 0%Q 0%Q) by exact K1.
  rewrite (map2_nth Qmax _ _ k 0%Q 0%Q 0%Q) by exact K2.
  rewrite map2_length in K1, K2.
  destruct (Hk k) as [H1 H2]; [lia|lia|]. split.
  - apply Qle_trans with (nth k (qmin b) 0%Q); [apply Q.le_min_r|exact H1].
  - apply Qle_trans with (nth k (qmax b) 0%Q); [exact H2|apply Q.le_max_r].
Qed.

Lemma firstn_succ_nth {A : Type} (l : list A) (k : nat) (d : A) :
  (k < length l)%nat -> firstn (S k) l = firstn k l ++ [nth k l d].
Proof.
  revert k. induction l as [|x l IH]; intros k Hk; [simpl in Hk; lia|].
  destruct k as [|k]; [reflexivity|].
  cbn [firstn nth app]. f_equal. apply IH. simpl in Hk. lia.
Qed.

Lemma reduce_fold {Box : Type} `{BoundingBox Box} (aabbs : list Box)
  (size : Z) :
  0 <= size -> size <= alen aabbs ->
  reduce aabbs size
    = Ok (fold_left addBox (firstn (Z.to_nat size) aabbs) emptyBox).
Proof.
  intros Hsize Hle. unfold reduce.
  destruct (for_all_inv
    (fun i s => s = fold_left addBox (firstn (Z.to_nat i) aabbs) emptyBox)
    (fun i global_bounds =>
       aabb <- aget aabbs i ;; Ok (addBox global_bounds aabb))
    size emptyBox Hsize) as (bnds & E & Hb).
  - reflexivity.
  - intros i s0 Hi ->. rewrite (aget_ok aabbs i emptyBox) by lia.
    cbn [bind]. eexists. split; [reflexivity|].
    replace (Z.to_nat (i + 1)) with (S (Z.to_nat i)) by lia.
    rewrite (firstn_succ_nth aabbs _ emptyBox) by (unfold alen in *; lia).
    rewrite fold_left_app. reflexivity.
  - rewrite E, Hb. reflexivity.
Qed.

Section Enclosure.
Context {Box : Type} `{BoundingBox Box}.
Variable encloses : Box -> Box -> Prop.
Hypothesis encloses_refl : forall a, encloses a a.
Hypothesis encloses_add_l :
  forall a b c, encloses a c -> encloses (addBox a b) c.
Hypothesis encloses_add_r :
  forall a b c, encloses b c -> encloses (addBox a b) c.

Lemma fold_addBox_encloses (l : list Box) :
  forall acc c,
    encloses acc c \/ In c l -> encloses (fold_left addBox l acc) c.
Proof.
  induction l as [|x l IH]; intros acc c Hc; cbn [fold_left].
  - destruct Hc as [Hc|[]]. exact Hc.
  - apply IH. destruct Hc as [Hc|[<-|Hc]].
    + left. apply encloses_add_l. exact Hc.
    + left. apply encloses_add_r. apply encloses_refl.
    + right. exact Hc.
Qed.

(** X5.  [reduce] returns the union of the first [size] boxes, added to the
    empty box in index order; for every containment relation that unions
    keep, the result contains each of these boxes.  When [size] exceeds the
    array it runs into a read outside the array. *)
Theorem reduce_spec (aabbs : list Box) (size : Z) :
  0 <= size ->
  (size <= alen aabbs ->
   exists bnds,
     reduce aabbs size = Ok bnds /\
     bnds = fold_left addBox (firstn (Z.to_nat size) aabbs) emptyBox /\
     forall i b, 0 <= i < size -> aget aabbs i = Ok b -> encloses bnds b) /\
  (alen aabbs < size -> reduce aabbs size = OutOfBounds).
Proof.
  intros Hsize. split.
  - intros Hle. eexists. split; [apply reduce_fold; assumption|].
    split; [reflexivity|].
    intros i b Hi Eb. apply fold_addBox_encloses. right.
    apply aget_inv in Eb. destruct Eb as [_ Eb].
    apply nth_error_In with (n := Z.to_nat i).
    rewrite nth_error_firstn.
    replace (Z.to_nat i <? Z.to_nat size)%nat with true
      by (symmetry; apply Nat.ltb_lt; lia).
    exact Eb.
  - intros Hgt. unfold reduce, for_all.
    apply (for_all_from_fails (fun _ (_ : Box) => True) _ (alen aabbs)).
    + exact I.
    + intros i s0 Hi _. rewrite (aget_ok aabbs i emptyBox) by lia.
      cbn [bind]. eexists. split; [reflexivity|exact I].
    + intros s0 _. rewrite aget_oob by lia. reflexivity.
    + pose proof (alen_nonneg aabbs). lia.
Qed.

End Enclosure.

Lemma reduce_spec_witness :
  let b0 := mkQBox [0 # 1] [2 # 1] in
  let b1 := mkQBox [4 # 1] [8 # 1] in
  (2 <= alen [b0; b1] ->
   exists bnds,
     reduce [b0; b1] 2 = Ok bnds /\
     bnds = fold_left addBox (firstn (Z.to_nat 2) [b0; b1]) emptyBox /\
     forall i b, 0 <= i < 2 -> aget [b0; b1] i = Ok b ->
                 qbox_encloses bnds b) /\
  (alen [b0; b1] < 2 -> reduce [b0; b1] 2 = OutOfBounds).
Proof.
  intros b0 b1.
  apply (reduce_spec qbox_encloses qbox_encloses_refl qbox_encloses_add_l
           qbox_encloses_add_r [b0; b1] 2).
  lia.
Defined.

(** A loop that stores [f] of entry i of one array at entry i of another
    overwrites the first [size] entries and leaves the rest. *)
Lemma for_all_map_prefix {A B : Type} (f : A -> B) (d : A) (src : list A)
  (dst : list B) (size : Z) :
  0 <= size -> size <= alen src -> size <= alen dst ->
  for_all size (fun i s => x <- aget src i ;; aset s i (f x)) dst
    = Ok (map f (firstn (Z.to_nat size) src) ++ skipn (Z.to_nat size) dst).
Proof.
  intros Hsize Hs Hd.
  destruct (for_all_inv
    (fun i s => s = map f (firstn (Z.to_nat i) src)
                      ++ skipn (Z.to_nat i) dst)
    (fun i s => x <- aget src i ;; aset s i (f x))
    size dst Hsize) as (out & E & Hout).
  - reflexivity.
  - intros i s0 Hi ->.
    rewrite (aget_ok src i d) by lia. cbn [bind].
    assert (Hlen : length (map f (firstn (Z.to_nat i) src)) = Z.to_nat i).
    { rewrite length_map, length_firstn. unfold alen in *. lia. }
    rewrite aset_ok.
    2:{ unfold alen. rewrite length_app, Hlen, length_skipn.
        unfold alen in *. lia. }
    eexists. split; [reflexivity|].
    replace (Z.to_nat (i + 1)) with (S (Z.to_nat i)) by lia.
    apply (nth_ext _ _ (f d) (f d)).
    + rewrite upd_length, !length_app, !length_map, !length_firstn,
        !length_skipn. unfold alen in *. lia.
    + intros k Hk. rewrite upd_length in Hk.
      destruct (Nat.eq_dec k (Z.to_nat i)) as [->|Hne].
      * rewrite upd_nth_same by exact Hk.
        rewrite app_nth1
          by (rewrite length_map, length_firstn; unfold alen in *; lia).
        rewrite map_nth. f_equal. rewrite nth_firstn.
        replace (Z.to_nat i <? S (Z.to_nat i))%nat with true
          by (symmetry; apply Nat.ltb_lt; lia).
        reflexivity.
      * rewrite upd_nth_other by lia.
        destruct (Nat.lt_ge_cases k (Z.to_nat i)) as [Hlt|Hge].
        -- rewrite !app_nth1
             by (rewrite length_map, length_firstn; unfold alen in *; lia).
           rewrite !map_nth. f_equal. rewrite !nth_firstn.
           replace (k <? Z.to_nat i)%nat with true
             by (symmetry; apply Nat.ltb_lt; lia).
           replace (k <? S (Z.to_nat i))%nat with true
             by (symmetry; apply Nat.ltb_lt; lia).
           reflexivity.
        -- rewrite !app_nth2
             by (rewrite length_map, length_firstn; unfold alen in *; lia).
           rewrite !length_map, !length_firstn, !nth_skipn.
           f_equal. unfold alen in *. lia.
  - rewrite E, Hout. reflexivity.
Qed.

(** The integer coordinates of a point are clamped, whatever the point. *)
Lemma int_coords_range (point : list Q) (c : Z) :
  In c (int_coords point) ->
  0 <= c <= 2 ^ (Z.quot 32 (alen (int_coords point))) - 1.
Proof.
  intros Hc.
  assert (Hlen : alen (int_coords point) = alen point)
    by (unfold int_coords, alen; now rewrite length_map).
  rewrite Hlen. unfold int_coords in Hc. apply in_map_iff in Hc.
  destruct Hc as (p & <- & Hp).
  assert (Hpos : 0 < alen point).
  { unfold alen. destruct point; [destruct Hp|cbn [length]; lia]. }
  assert (Hb : 0 <= Z.quot 32 (alen point)) by (apply Z.quot_pos; lia).
  rewrite Z.shiftl_1_l, Qminus_inject_one.
  assert (Hp2 : 0 < 2 ^ Z.quot 32 (alen point))
    by (apply Z.pow_pos_nonneg; lia).
  apply (float_to_int_clamped _ _ (2 ^ Z.quot 32 (alen point) - 1));
    [lia|reflexivity].
Qed.

(** X6.  [get_mcodes] never divides by zero.  With [size] within the boxes
    it overwrites the first [size] entries of the code array with the 32-bit
    values of the codes of integer points, one per box, whose coordinates
    all lie in [0, 2^(32 / Dims) - 1] and which depend neither on the encoder
    nor on what the code array held, and it leaves the entries from [size]
    on alone; when [size] exceeds the boxes it runs into a read outside the
    array. *)
Theorem get_mcodes_spec {Box : Type} `{BoundingBox Box}
  (aabbs : list Box) (size : Z) (bnds : Box) :
  0 <= size ->
  (size <= alen aabbs ->
   exists points : list (list Z),
     alen points = size /\
     (forall coords c, In coords points -> In c coords ->
        0 <= c <= 2 ^ (Z.quot 32 (alen coords)) - 1) /\
     forall (convertPointToMorton : list Z -> Z) (mcodes : list Z),
       size <= alen mcodes ->
       get_mcodes convertPointToMorton aabbs size bnds mcodes
         = Ok (map (fun coords => uint32 (convertPointToMorton coords)) points
                 ++ skipn (Z.to_nat size) mcodes)) /\
  (alen aabbs < size ->
   forall (convertPointToMorton : list Z -> Z) (mcodes : list Z),
     size <= alen mcodes ->
     get_mcodes convertPointToMorton aabbs size bnds mcodes = OutOfBounds).
Proof.
  intros Hsize.
  destruct (inverse_extent_ok (vsub (getMax bnds) (getMin bnds)))
    as (inv & Einv & _).
  set (point := fun b : Box =>
                  int_coords (normalized_centroid (getMin bnds) inv b)).
  split.
  - intros Hle. exists (map point (firstn (Z.to_nat size) aabbs)).
    split.
    { unfold alen in *. rewrite length_map, length_firstn. lia. }
    split.
    { intros coords c Hin Hc. apply in_map_iff in Hin.
      destruct Hin as (b & <- & _). apply int_coords_range. exact Hc. }
    intros conv mcodes Hm. unfold get_mcodes. rewrite Einv. cbn [bind].
    rewrite map_map.
    apply (for_all_map_prefix
             (fun b => uint32 (morton32_encode conv
                                 (normalized_centroid (getMin bnds) inv b)))
             emptyBox aabbs mcodes size Hsize Hle Hm).
  - intros Hgt conv mcodes Hm. unfold get_mcodes. rewrite Einv. cbn [bind].
    unfold for_all.
    apply (for_all_from_fails (fun _ mc => alen mc = alen mcodes)
             _ (alen aabbs)).
    + reflexivity.
    + intros i s0 Hi Hl. rewrite (aget_ok aabbs i emptyBox) by lia.
      cbn [bind]. rewrite aset_ok by lia. eexists.
      split; [reflexivity|]. rewrite alen_upd. exact Hl.
    + intros s0 Hl. rewrite aget_oob by lia. reflexivity.
    + pose proof (alen_nonneg aabbs). lia.
Qed.

Lemma get_mcodes_spec_witness :
  let b0 := mkQBox [0 # 1; 0 # 1] [2 # 1; 2 # 1] in
  let b1 := mkQBox [4 # 1; 6 # 1] [8 # 1; 8 # 1] in
  let bnds := mkQBox [0 # 1; 0 # 1] [8 # 1; 8 # 1] in
  (2 <= alen [b0; b1] ->
   exists points : list (list Z),
     alen points = 2 /\
     (forall coords c, In coords points -> In c coords ->
        0 <= c <= 2 ^ (Z.quot 32 (alen coords)) - 1) /\
     forall (convertPointToMorton : list Z -> Z) (mcodes : list Z),
       2 <= alen mcodes ->
       get_mcodes convertPointToMorton [b0; b1] 2 bnds mcodes
         = Ok (map (fun coords => uint32 (convertPointToMorton coords)) points
                 ++ skipn (Z.to_nat 2) mcodes)) /\
  (alen [b0; b1] < 2 ->
   forall (convertPointToMorton : list Z -> Z) (mcodes : list Z),
     2 <= alen mcodes ->
     get_mcodes convertPointToMorton [b0; b1] 2 bnds mcodes = OutOfBounds).
Proof.
  intros b0 b1 bnds.
  apply (get_mcodes_spec [b0; b1] 2 bnds). lia.
Defined.
(* ================================================================== *)
(** * reorder and sort_mcodes: permutations, composition, sorted input *)

Lemma map_code_at_iota (a : list Z) : map (code_at a) (iota (length a)) = a.
Proof.
  apply (nth_ext _ _ 0 0).
  - now rewrite length_map, iota_length.
  - intros k Hk. rewrite length_map, iota_length in Hk.
    rewrite (nth_indep _ 0 (code_at a 0))
      by (rewrite length_map, iota_length; exact Hk).
    rewrite (map_nth (code_at a) (iota (length a)) 0 k), iota_nth by exact Hk.
    unfold code_at. now rewrite Nat2Z.id.
Qed.

Lemma map_nth_iota {T : Type} (a : list T) (d : T) :
  map (fun ix => nth (Z.to_nat ix) a d) (iota (length a)) = a.
Proof.
  apply (nth_ext _ _ d d).
  - now rewrite length_map, iota_length.
  - intros k Hk. rewrite length_map, iota_length in Hk.
    rewrite (nth_indep _ d (nth (Z.to_nat 0) a d))
      by (rewrite length_map, iota_length; exact Hk).
    rewrite (map_nth (fun ix => nth (Z.to_nat ix) a d) (iota (length a)) 0 k).
    rewrite iota_nth by exact Hk. now rewrite Nat2Z.id.
Qed.

(** What a completed [reorder] returns, as a list. *)
Lemma reorder_map {T : Type} (indices : list Z) (array : list T) (d : T) :
  Forall (fun ix => 0 <= ix < alen array) indices ->
  reorder indices array (alen indices)
    = Ok (map (fun ix => nth (Z.to_nat ix) array d) indices).
Proof.
  intros Hall. destruct (reorder_ok indices array Hall) as (out & E & Hl & Hg).
  rewrite E. f_equal. apply (nth_ext _ _ d d).
  - rewrite length_map. unfold alen in Hl. lia.
  - intros k Hk.
    assert (Hk' : 0 <= Z.of_nat k < alen indices) by (unfold alen in *; lia).
    specialize (Hg _ Hk').
    assert (Hin : 0 <= code_at indices (Z.of_nat k) < alen array).
    { rewrite Forall_forall in Hall. apply Hall. unfold code_at.
      apply nth_In. unfold alen in Hk'. lia. }
    rewrite (aget_ok out _ d) in Hg by lia.
    rewrite (aget_ok array _ d) in Hg by lia.
    inversion Hg as [Hv]. rewrite Nat2Z.id in Hv. rewrite Hv.
    rewrite (nth_indep (map _ _) d (nth (Z.to_nat 0) array d))
      by (rewrite length_map; unfold alen in *; lia).
    rewrite (map_nth (fun ix => nth (Z.to_nat ix) array d) indices 0 k).
    unfold code_at. now rewrite Nat2Z.id.
Qed.

(** X7.  Reordering an array by a permutation of its positions loses and
    duplicates nothing: the result is a permutation of the array; by the
    identity permutation it is the array itself. *)
Theorem reorder_permutation {T : Type} (indices : list Z) (array : list T) :
  Permutation indices (iota (length array)) ->
  (exists out,
     reorder indices array (alen array) = Ok out /\ Permutation out array) /\
  reorder (iota (length array)) array (alen array) = Ok array.
Proof.
  intros Hperm.
  assert (Hli : alen indices = alen array).
  { unfold alen. rewrite (Permutation_length Hperm), iota_length.
    reflexivity. }
  destruct array as [|d array'] eqn:Earr.
  { apply Permutation_sym, Permutation_nil in Hperm. subst indices.
    split; [|reflexivity]. exists []. split; [reflexivity|constructor]. }
  rewrite <- Earr in *. clear Earr array'.
  assert (Hall : forall l, Permutation l (iota (length array)) ->
                           Forall (fun ix => 0 <= ix < alen array) l).
  { intros l Hl. rewrite Forall_forall. intros x Hx.
    apply (Permutation_in _ Hl) in Hx. apply iota_In in Hx.
    unfold alen. lia. }
  split.
  - rewrite <- Hli, (reorder_map indices array d (Hall _ Hperm)).
    eexists. split; [reflexivity|].
    apply (Permutation_trans
             (l' := map (fun ix => nth (Z.to_nat ix) array d)
                        (iota (length array)))).
    + apply Permutation_map. exact Hperm.
    + rewrite map_nth_iota. apply Permutation_refl.
  - replace (alen array) with (alen (iota (length array)))
      by (unfold alen; now rewrite iota_length).
    rewrite (reorder_map _ array d (Hall _ (Permutation_refl _))).
    now rewrite map_nth_iota.
Qed.

Lemma reorder_permutation_witness :
  (exists out,
     reorder [2; 0; 1] [10; 20; 30] (alen [10; 20; 30]) = Ok out /\
     Permutation out [10; 20; 30]) /\
  reorder (iota (length [10; 20; 30])) [10; 20; 30] (alen [10; 20; 30])
    = Ok [10; 20; 30].
Proof.
  apply (reorder_permutation [2; 0; 1] [10; 20; 30]).
  change (iota (length [10; 20; 30])) with [0; 1; 2].
  apply Permutation_sym.
  apply (perm_trans (l' := [0; 2; 1])); [|apply perm_swap].
  apply perm_skip. apply perm_swap.
Defined.

(** X8.  Gathers compose: reordering by [p] what was reordered by [q] is
    reordering by the positions [q] holds at [p], that is by [q] reordered
    by [p]. *)
Theorem reorder_compose {T : Type} (p q : list Z) (array aq : list T)
  (pq : list Z) :
  reorder q array (alen q) = Ok aq ->
  reorder p q (alen p) = Ok pq ->
  reorder p aq (alen p) = reorder pq array (alen pq) /\
  exists out, reorder pq array (alen pq) = Ok out /\ alen out = alen p.
Proof.
  intros Eq Ep.
  destruct (reorder_post _ _ _ _ (alen_nonneg q) Eq) as [Hlq Hq].
  destruct (reorder_post _ _ _ _ (alen_nonneg p) Ep) as [Hlp Hp].
  assert (Hallp : Forall (fun ix => 0 <= ix < alen aq) p).
  { rewrite Forall_forall. intros x Hx.
    destruct (In_nth _ _ 0 Hx) as (k & Hk & <-).
    destruct (Hp (Z.of_nat k)) as (ix & x' & E1 & E2 & _);
      [unfold alen; lia|].
    rewrite (aget_ok p _ 0) in E1 by (unfold alen; lia).
    inversion E1 as [E1']. rewrite Nat2Z.id in E1'. rewrite E1'.
    apply aget_inv in E2. lia. }
  assert (Hallpq : Forall (fun ix => 0 <= ix < alen array) pq).
  { rewrite Forall_forall. intros x Hx.
    destruct (In_nth _ _ 0 Hx) as (k & Hk & <-).
    destruct (Hp (Z.of_nat k)) as (ix & x' & E1 & E2 & E3);
      [unfold alen in *; lia|].
    rewrite (aget_ok pq _ 0) in E3 by (unfold alen in *; lia).
    inversion E3 as [E3']. rewrite Nat2Z.id in E3'. rewrite E3'.
    pose proof E2 as E2c. apply aget_inv in E2c. destruct E2c as [Hix _].
    destruct (Hq ix Hix) as (iy & y & F1 & F2 & _).
    rewrite E2 in F1. inversion F1; subst iy.
    apply aget_inv in F2. lia. }
  destruct (reorder_ok p aq Hallp) as (o1 & G1 & L1 & N1).
  destruct (reorder_ok pq array Hallpq) as (o2 & G2 & L2 & N2).
  rewrite G1, G2. split.
  - f_equal. apply nth_error_ext. intros k.
    destruct (Nat.lt_ge_cases k (length p)) as [Hk|Hk].
    + assert (Hk1 : 0 <= Z.of_nat k < alen p) by (unfold alen; lia).
      assert (Hk2 : 0 <= Z.of_nat k < alen pq) by lia.
      pose proof (N1 _ Hk1) as A1. pose proof (N2 _ Hk2) as A2.
      destruct (Hp _ Hk1) as (ix & x' & E1 & E2 & E3).
      apply aget_code_at_inv in E1. apply aget_code_at_inv in E3.
      rewrite E1 in A1. rewrite E3 in A2.
      pose proof E2 as E2'. apply aget_inv in E2'. destruct E2' as [Hix _].
      destruct (Hq ix Hix) as (iy & y & F1 & F2 & F3).
      rewrite E2 in F1. inversion F1; subst iy.
      rewrite F3 in A1. rewrite F2 in A2.
      apply aget_inv in A1, A2. rewrite Nat2Z.id in A1, A2.
      destruct A1 as [_ A1], A2 as [_ A2]. congruence.
    + rewrite (proj2 (nth_error_None o1 k)) by (unfold alen in *; lia).
      rewrite (proj2 (nth_error_None o2 k)) by (unfold alen in *; lia).
      reflexivity.
  - exists o2. split; [reflexivity|lia].
Qed.

Lemma reorder_compose_witness :
  reorder [1; 1; 0] [30; 10; 20] (alen [1; 1; 0])
    = reorder [0; 0; 2] [10; 20; 30] (alen [0; 0; 2]) /\
  exists out, reorder [0; 0; 2] [10; 20; 30] (alen [0; 0; 2]) = Ok out /\
              alen out = alen [1; 1; 0].
Proof.
  apply (reorder_compose [1; 1; 0] [2; 0; 1] [10; 20; 30] [30; 10; 20]
           [0; 0; 2]); reflexivity.
Defined.

(** X9.  The code array [sort_mcodes] returns is a permutation of the code
    array it was given and is in non-decreasing order; the contents of
    [iter] before the call do not matter. *)
Theorem sort_mcodes_sorts (mcodes iter : list Z) :
  alen iter = alen mcodes ->
  exists mcodes' iter',
    sort_mcodes mcodes (alen mcodes) iter = Ok (mcodes', iter') /\
    Permutation mcodes' mcodes /\
    is_sorted mcodes' = true /\
    mcodes' = map (code_at mcodes) iter' /\
    forall iter0, alen iter0 = alen mcodes ->
      sort_mcodes mcodes (alen mcodes) iter0 = Ok (mcodes', iter').
Proof.
  intros Hlen.
  destruct (sort_mcodes_ok mcodes iter Hlen)
    as (mcodes' & iter' & E & Hperm & Hsorted & Hl & Hget).
  exists mcodes', iter'. split; [exact E|].
  assert (Hil : length iter' = length mcodes)
    by (rewrite (Permutation_length Hperm); apply iota_length).
  assert (Hmap : mcodes' = map (code_at mcodes) iter').
  { apply (nth_ext _ _ 0 0).
    - rewrite length_map. unfold alen in Hl. lia.
    - intros k Hk.
      assert (Hk' : 0 <= Z.of_nat k < alen mcodes) by (unfold alen in *; lia).
      specialize (Hget _ Hk').
      assert (Hin : 0 <= code_at iter' (Z.of_nat k) < alen mcodes).
      { assert (Hm : In (code_at iter' (Z.of_nat k)) iter')
          by (unfold code_at; apply nth_In; unfold alen in *; lia).
        apply (Permutation_in _ Hperm) in Hm. apply iota_In in Hm.
        unfold alen. lia. }
      rewrite (aget_ok mcodes' _ 0) in Hget by lia.
      rewrite (aget_ok mcodes _ 0) in Hget by lia.
      inversion Hget as [Hv]. rewrite Nat2Z.id in Hv. rewrite Hv.
      rewrite (nth_indep (map _ _) 0 (code_at mcodes 0))
        by (rewrite length_map; unfold alen in *; lia).
      rewrite (map_nth (code_at mcodes) iter' 0 k).
      unfold code_at. now rewrite Nat2Z.id. }
  split.
  { rewrite Hmap.
    apply (Permutation_trans
             (l' := map (code_at mcodes) (iota (length mcodes)))).
    - apply Permutation_map. exact Hperm.
    - rewrite map_code_at_iota. apply Permutation_refl. }
  split.
  { apply is_sorted_of_nth. intros p Hp.
    assert (Hp' : (S p < length iter')%nat).
    { rewrite Hmap, length_map in Hp. exact Hp. }
    rewrite Hmap.
    rewrite !(nth_indep (map _ _) 0 (code_at mcodes 0))
      by (rewrite length_map; lia).
    rewrite !(map_nth (code_at mcodes) iter' 0).
    assert (Hc : code_then_position mcodes (nth p iter' 0)
                                    (nth (S p) iter' 0))
      by (apply (StronglySorted_nth _ iter' 0 Hsorted); lia).
    unfold code_then_position in Hc. lia. }
  split; [exact Hmap|].
  intros iter0 Hlen0.
  destruct (sort_mcodes_ok mcodes iter0 Hlen0)
    as (m2 & i2 & E2 & _).
  assert (Hsame : sort_mcodes mcodes (alen mcodes) iter0
                  = sort_mcodes mcodes (alen mcodes) iter).
  { unfold sort_mcodes.
    replace (array_counting iter0 (alen mcodes) 0 1)
      with (array_counting iter (alen mcodes) 0 1); [reflexivity|].
    rewrite <- Hlen at 1. rewrite <- Hlen0. rewrite !array_counting_iota.
    do 2 f_equal. unfold alen in *. lia. }
  rewrite Hsame. exact E.
Qed.

Lemma sort_mcodes_sorts_witness :
  exists mcodes' iter',
    sort_mcodes [7; 3; 7; 1; 3] (alen [7; 3; 7; 1; 3]) [9; 9; 9; 9; 9]
      = Ok (mcodes', iter') /\
    Permutation mcodes' [7; 3; 7; 1; 3] /\
    is_sorted mcodes' = true /\
    mcodes' = map (code_at [7; 3; 7; 1; 3]) iter' /\
    forall iter0, alen iter0 = alen [7; 3; 7; 1; 3] ->
      sort_mcodes [7; 3; 7; 1; 3] (alen [7; 3; 7; 1; 3]) iter0
        = Ok (mcodes', iter').
Proof.
  apply (sort_mcodes_sorts [7; 3; 7; 1; 3] [9; 9; 9; 9; 9]). reflexivity.
Defined.

Lemma stable_sort_sorted_input (mcodes : list Z) (k : nat) :
  is_sorted mcodes = true ->
  forall s : Z,
    0 <= s -> (Z.to_nat s + k <= length mcodes)%nat ->
    stable_sort (fun i1 i2 => code_at mcodes i1 <? code_at mcodes i2)
                (zseq s k) = zseq s k.
Proof.
  intros Hs. induction k as [|k IH]; intros s H0 Hk; [reflexivity|].
  cbn [zseq stable_sort]. rewrite IH by lia.
  destruct k as [|k]; [reflexivity|].
  cbn [zseq stable_insert].
  replace (code_at mcodes (s + 1) <? code_at mcodes s) with false;
    [reflexivity|].
  symmetry. apply Z.ltb_ge. unfold code_at.
  apply is_sorted_nth; [exact Hs|lia].
Qed.

(** X10.  On a code array that is already in non-decreasing order
    [sort_mcodes] returns the identity permutation and the codes as they
    were, equal codes included. *)
Theorem sort_mcodes_sorted_input (mcodes iter : list Z) :
  alen iter = alen mcodes ->
  is_sorted mcodes = true ->
  sort_mcodes mcodes (alen mcodes) iter = Ok (mcodes, iota (length mcodes)).
Proof.
  intros Hlen Hs.
  assert (Hn : length iter = length mcodes) by (unfold alen in Hlen; lia).
  assert (E : reorder (iota (length mcodes)) mcodes (alen mcodes)
              = Ok mcodes).
  { replace (alen mcodes) with (alen (iota (length mcodes)))
      by (unfold alen; now rewrite iota_length).
    rewrite (reorder_map _ mcodes 0).
    - now rewrite map_nth_iota.
    - rewrite Forall_forall. intros x Hx. apply iota_In in Hx.
      unfold alen. lia. }
  unfold sort_mcodes. rewrite <- Hlen at 1. rewrite array_counting_iota.
  cbn [bind]. rewrite Hn.
  replace (Z.to_nat (alen mcodes)) with (length (iota (length mcodes)))
    by (rewrite iota_length; unfold alen; lia).
  rewrite firstn_all, skipn_all, app_nil_r.
  rewrite <- zseq_0_iota.
  rewrite (stable_sort_sorted_input mcodes (length mcodes) Hs 0)
    by (simpl; lia).
  rewrite zseq_0_iota, E. reflexivity.
Qed.

Lemma sort_mcodes_sorted_input_witness :
  sort_mcodes [1; 3; 3; 7] (alen [1; 3; 3; 7]) [9; 9; 9; 9]
    = Ok ([1; 3; 3; 7], iota (length [1; 3; 3; 7])).
Proof.
  apply (sort_mcodes_sorted_input [1; 3; 3; 7] [9; 9; 9; 9]); reflexivity.
Defined.

Lemma stable_insert_map {A B : Type} (g : A -> B) (lessA : A -> A -> bool)
  (lessB : B -> B -> bool) (x : A) (l : list A) :
  (forall a b, lessB (g a) (g b) = lessA a b) ->
  stable_insert lessB (g x) (map g l) = map g (stable_insert lessA x l).
Proof.
  intros Hg. induction l as [|y l IH]; [reflexivity|].
  cbn [map stable_insert]. rewrite Hg.
  destruct (lessA y x); [cbn [map]; now rewrite IH|reflexivity].
Qed.

Lemma stable_sort_map {A B : Type} (g : A -> B) (lessA : A -> A -> bool)
  (lessB : B -> B -> bool) (l : list A) :
  (forall a b, lessB (g a) (g b) = lessA a b) ->
  stable_sort lessB (map g l) = map g (stable_sort lessA l).
Proof.
  intros Hg. induction l as [|x l IH]; [reflexivity|].
  cbn [map stable_sort]. rewrite IH. now apply stable_insert_map.
Qed.

Lemma combine_codes_iota (mcodes : list Z) :
  combine mcodes (iota (length mcodes))
    = map (fun i => (code_at mcodes i, i)) (iota (length mcodes)).
Proof.
  apply (nth_ext _ _ (0, 0) (code_at mcodes 0, 0)).
  - rewrite length_combine, length_map, iota_length. lia.
  - intros k Hk. rewrite length_combine, iota_length in Hk.
    rewrite combine_nth by now rewrite iota_length.
    rewrite (map_nth (fun i => (code_at mcodes i, i)) (iota (length mcodes))
               0 k).
    rewrite iota_nth by lia. unfold code_at. now rewrite Nat2Z.id.
Qed.

(** X11.  The two branches of [sort_mcodes] agree: sorting the (code,
    position) pairs stably by code, as the branch on RAJA does, returns the
    code array and the permutation that the branch on [std::stable_sort]
    followed by [reorder] returns. *)
Theorem sort_mcodes_branches_agree (mcodes iter : list Z) :
  alen iter = alen mcodes ->
  sort_mcodes_pairs mcodes (alen mcodes) iter
    = sort_mcodes mcodes (alen mcodes) iter.
Proof.
  intros Hlen.
  destruct (sort_mcodes_ok mcodes iter Hlen)
    as (mcodes' & iter' & E & Hperm & _ & Hl & Hget).
  assert (Hn : length iter = length mcodes) by (unfold alen in Hlen; lia).
  pose proof E as E0. unfold sort_mcodes in E0.
  unfold sort_mcodes_pairs.
  rewrite <- Hlen in E0 at 1. rewrite <- Hlen at 1.
  rewrite array_counting_iota in *. cbn [bind] in *. rewrite Hn in *.
  assert (Hz : Z.to_nat (alen mcodes) = length mcodes)
    by (unfold alen; lia).
  rewrite Hz in *.
  assert (H1 : firstn (length mcodes) (iota (length mcodes))
               = iota (length mcodes))
    by (apply firstn_all2; rewrite iota_length; lia).
  assert (H2 : skipn (length mcodes) (iota (length mcodes)) = [])
    by (apply skipn_all2; rewrite iota_length; lia).
  rewrite H1, H2, app_nil_r in E0.
  rewrite H1, H2, firstn_all, skipn_all, !app_nil_r.
  set (less := fun i1 i2 => code_at mcodes i1 <? code_at mcodes i2) in *.
  rewrite combine_codes_iota.
  rewrite (stable_sort_map (fun i => (code_at mcodes i, i)) less)
    by reflexivity.
  rewrite !map_map. cbn [fst snd]. rewrite map_id.
  change (fun x : Z => code_at mcodes x) with (code_at mcodes).
  apply bind_ok_inv in E0. destruct E0 as (out & Eo & E0).
  inversion E0; subst mcodes' iter'. rewrite E. do 2 f_equal.
  symmetry. apply (nth_ext _ _ 0 (code_at mcodes 0)).
  - rewrite length_map. unfold alen in Hl.
    rewrite (Permutation_length Hperm), iota_length. lia.
  - intros k Hk.
    assert (Hk' : 0 <= Z.of_nat k < alen mcodes) by (unfold alen in *; lia).
    specialize (Hget _ Hk').
    assert (Hin : 0 <= code_at (stable_sort less (iota (length mcodes)))
                         (Z.of_nat k) < alen mcodes).
    { assert (Hm : In (code_at (stable_sort less (iota (length mcodes)))
                         (Z.of_nat k))
                      (stable_sort less (iota (length mcodes)))).
      { unfold code_at. apply nth_In.
        rewrite (Permutation_length Hperm), iota_length.
        unfold alen in *. lia. }
      apply (Permutation_in _ Hperm) in Hm. apply iota_In in Hm.
      unfold alen. lia. }
    rewrite (aget_ok out _ 0) in Hget by lia.
    rewrite (aget_ok mcodes _ 0) in Hget by lia.
    inversion Hget as [Hv]. rewrite Nat2Z.id in Hv. rewrite Hv.
    rewrite (map_nth (code_at mcodes)
               (stable_sort less (iota (length mcodes))) 0 k).
    unfold code_at. now rewrite Nat2Z.id.
Qed.

Lemma sort_mcodes_branches_agree_witness :
  sort_mcodes_pairs [7; 3; 7; 1; 3] (alen [7; 3; 7; 1; 3]) [9; 9; 9; 9; 9]
    = sort_mcodes [7; 3; 7; 1; 3] (alen [7; 3; 7; 1; 3]) [9; 9; 9; 9; 9].
Proof.
  apply (sort_mcodes_branches_agree [7; 3; 7; 1; 3] [9; 9; 9; 9; 9]).
  reflexivity.
Defined.
(* ================================================================== *)
(** * delta as a similarity of sorted positions *)

Lemma leadingZeros_nonzero (x : Z) :
  0 < x < 2 ^ 32 -> 0 <= leadingZeros x <= 31.
Proof.
  intros Hx. rewrite leadingZeros_log2 by exact Hx.
  pose proof (Z.log2_nonneg x).
  assert (Z.log2 x < 32) by (apply Z.log2_lt_pow2; lia). lia.
Qed.

(** X12.  On codes of 32 bits, [delta] is symmetric in two positions of the
    array, it is 64 for a position and itself, and for two different
    positions it lies in [0, 63] ([0, 31] when the codes differ, [32, 63]
    when they tie): the tie-break keeps different positions apart. *)
Theorem delta_symmetric_bounded (mcodes : list Z) (a b : Z) :
  all_uint32 mcodes = true ->
  alen mcodes <= 2 ^ 32 ->
  0 <= a < alen mcodes -> 0 <= b < alen mcodes ->
  exists r,
    delta a b (alen mcodes - 1) mcodes = Ok r /\
    delta b a (alen mcodes - 1) mcodes = Ok r /\
    (a = b -> r = 64) /\
    (a <> b -> code_at mcodes a <> code_at mcodes b -> 0 <= r <= 31) /\
    (a <> b -> code_at mcodes a = code_at mcodes b -> 32 <= r <= 63).
Proof.
  intros Hu Hn Ha Hb.
  rewrite (delta_dval mcodes a b Ha), (delta_dval mcodes b a Hb).
  exists (dval mcodes a b).
  split; [reflexivity|].
  split; [f_equal; symmetry; apply dval_sym; assumption|].
  pose proof (code_at_range mcodes a Hu Ha) as Ra.
  pose proof (code_at_range mcodes b Hu Hb) as Rb.
  unfold dval.
  replace (b <? 0) with false by (symmetry; apply Z.ltb_ge; lia).
  replace (alen mcodes - 1 <? b) with false by (symmetry; apply Z.ltb_ge; lia).
  cbn [orb]. split; [|split].
  - intros ->. rewrite Z.eqb_refl, Z.lxor_nilpotent. reflexivity.
  - intros Hne Hc.
    replace (code_at mcodes a =? code_at mcodes b) with false
      by (symmetry; apply Z.eqb_neq; exact Hc).
    apply leadingZeros_nonzero.
    pose proof (lxor_bound _ _ 32 ltac:(lia) Ra Rb) as Hx.
    assert (Z.lxor (code_at mcodes a) (code_at mcodes b) <> 0)
      by (intros E; apply Z.lxor_eq in E; contradiction).
    lia.
  - intros Hne Hc. rewrite Hc, Z.eqb_refl.
    assert (Ra' : 0 <= a < 2 ^ 32) by lia.
    assert (Rb' : 0 <= b < 2 ^ 32) by lia.
    pose proof (lxor_bound _ _ 32 ltac:(lia) Ra' Rb') as Hx.
    assert (Z.lxor a b <> 0)
      by (intros E; apply Z.lxor_eq in E; contradiction).
    assert (0 <= leadingZeros (Z.lxor a b) <= 31)
      by (apply leadingZeros_nonzero; lia).
    lia.
Qed.

Lemma delta_symmetric_bounded_witness :
  exists r,
    delta 1 3 (alen [2; 5; 5; 5; 9] - 1) [2; 5; 5; 5; 9] = Ok r /\
    delta 3 1 (alen [2; 5; 5; 5; 9] - 1) [2; 5; 5; 5; 9] = Ok r /\
    (1 = 3 -> r = 64) /\
    (1 <> 3 -> code_at [2; 5; 5; 5; 9] 1 <> code_at [2; 5; 5; 5; 9] 3 ->
     0 <= r <= 31) /\
    (1 <> 3 -> code_at [2; 5; 5; 5; 9] 1 = code_at [2; 5; 5; 5; 9] 3 ->
     32 <= r <= 63).
Proof.
  apply (delta_symmetric_bounded [2; 5; 5; 5; 9] 1 3).
  - reflexivity.
  - unfold alen; simpl; lia.
  - unfold alen; simpl; lia.
  - unfold alen; simpl; lia.
Defined.

(** X13.  On a sorted array of 32-bit codes, for positions a <= b <= c the
    value [delta] gives for (a, c) is the smaller of the values it gives for
    (a, b) and (b, c): the common prefix can only shrink as a range of
    sorted positions grows, which is what the searches of [build_tree]
    rely on. *)
Theorem delta_range_min (mcodes : list Z) (a b c : Z) :
  is_sorted mcodes = true ->
  all_uint32 mcodes = true ->
  alen mcodes <= 2 ^ 32 ->
  0 <= a -> a <= b <= c -> c < alen mcodes ->
  exists rab rbc,
    delta a b (alen mcodes - 1) mcodes = Ok rab /\
    delta b c (alen mcodes - 1) mcodes = Ok rbc /\
    delta a c (alen mcodes - 1) mcodes = Ok (Z.min rab rbc).
Proof.
  intros Hs Hu Hn Ha Hab Hc.
  rewrite !delta_dval by lia.
  exists (dval mcodes a b), (dval mcodes b c).
  split; [reflexivity|]. split; [reflexivity|]. f_equal.
  apply dval_chain; try assumption; lia.
Qed.

Lemma delta_range_min_witness :
  exists rab rbc,
    delta 0 2 (alen [2; 5; 5; 5; 9] - 1) [2; 5; 5; 5; 9] = Ok rab /\
    delta 2 4 (alen [2; 5; 5; 5; 9] - 1) [2; 5; 5; 5; 9] = Ok rbc /\
    delta 0 4 (alen [2; 5; 5; 5; 9] - 1) [2; 5; 5; 5; 9]
      = Ok (Z.min rab rbc).
Proof.
  apply (delta_range_min [2; 5; 5; 5; 9] 0 2 4);
    try reflexivity; try (unfold alen; simpl; lia).
Defined.
(* ================================================================== *)
(** * build_tree: the link arrays it leaves *)

Section LinkArrays.
Variable mcodes : list Z.
Hypothesis Hsorted : is_sorted mcodes = true.
Hypothesis Huint : all_uint32 mcodes = true.
Hypothesis Hsize : 2 <= alen mcodes <= 2 ^ 24 + 1.
Variable fuel : nat.
Hypothesis Hfuel : (32 <= fuel)%nat.

Let inner_size := alen mcodes - 1.

(** The arrays are determined by the codes: two states in which every node
    has recorded its children, and every child its parent, are equal. *)
Lemma links_upto_unique (k k' : Links) :
  links_upto mcodes fuel inner_size k ->
  links_upto mcodes fuel inner_size k' ->
  k = k'.
Proof.
  intros (Hl & Hr & Hp & Hall & H0) (Hl' & Hr' & Hp' & Hall' & H0').
  assert (Hn31 : 2 <= alen mcodes <= 2 ^ 30) by lia.
  assert (H24 : alen mcodes <= 2 ^ 24 + 1) by lia.
  destruct (computed_tree_root mcodes Hsorted Huint Hn31 fuel Hfuel H24)
    as (t & Ct & It & Lt & Pt).
  destruct k as [lch rch par], k' as [lch' rch' par'].
  cbn [lchildren rchildren parents] in *.
  assert (Hch : forall i, 0 <= i < inner_size ->
            code_at lch i = code_at lch' i /\ code_at rch i = code_at rch' i).
  { intros i Hi.
    destruct (ch_total mcodes Hsize fuel Hfuel t Ct It Lt Pt i Hi)
      as (c1 & c2 & E & _).
    destruct (Hall i c1 c2 Hi E) as (A1 & A2 & _).
    destruct (Hall' i c1 c2 Hi E) as (B1 & B2 & _).
    split; congruence. }
  assert (Hpar : forall c, 0 <= c < Z.of_nat (length mcodes) + inner_size ->
            code_at par c = code_at par' c).
  { intros c Hc. destruct (Z.eq_dec c 0) as [->|Hne].
    - rewrite H0, H0' by (unfold inner_size; lia). reflexivity.
    - destruct (non_root_is_child mcodes Hsize fuel Hfuel t It Lt Pt c)
        as (v & Hin); [lia|].
      destruct (edges_children mcodes fuel t v c Ct Hin)
        as (Hv & c1 & c2 & E & Hc12).
      destruct (Hall v c1 c2 Hv E) as (_ & _ & A3 & A4).
      destruct (Hall' v c1 c2 Hv E) as (_ & _ & B3 & B4).
      destruct Hc12 as [-> | ->]; congruence. }
  f_equal.
  - apply (nth_ext _ _ 0 0); [unfold alen in *; lia|].
    intros j Hj. destruct (Hch (Z.of_nat j)) as [E _];
      [unfold inner_size, alen in *; lia|].
    unfold code_at in E. now rewrite Nat2Z.id in E.
  - apply (nth_ext _ _ 0 0); [unfold alen in *; lia|].
    intros j Hj. destruct (Hch (Z.of_nat j)) as [_ E];
      [unfold inner_size, alen in *; lia|].
    unfold code_at in E. now rewrite Nat2Z.id in E.
  - apply (nth_ext _ _ 0 0); [unfold alen in *; lia|].
    intros j Hj.
    assert (E : code_at par (Z.of_nat j) = code_at par' (Z.of_nat j))
      by (apply Hpar; unfold inner_size, alen in *; lia).
    unfold code_at in E. now rewrite Nat2Z.id in E.
Qed.

(** The link arrays [build_tree] leaves, whatever they held before. *)
Lemma build_links_canonical :
  exists (k : Links) (t : shape),
    (forall k0,
       alen (lchildren k0) = inner_size ->
       alen (rchildren k0) = inner_size ->
       alen (parents k0) = 2 * alen mcodes - 1 ->
       build_links fuel inner_size mcodes k0 = Ok k) /\
    links_upto mcodes fuel inner_size k /\
    computed_tree fuel mcodes t /\
    realizes inner_size k (-1) t /\
    node_index inner_size t = 0 /\
    leaves t = iota (length mcodes) /\
    Permutation (internals t) (iota (length mcodes - 1)).
Proof.
  assert (Hn31 : 2 <= alen mcodes <= 2 ^ 30) by lia.
  assert (H24 : alen mcodes <= 2 ^ 24 + 1) by lia.
  destruct (computed_tree_root mcodes Hsorted Huint Hn31 fuel Hfuel H24)
    as (t & Ct & It & Lt & Pt).
  assert (E2 : 2 * alen mcodes - 1
               = Z.of_nat (length mcodes) + (alen mcodes - 1))
    by (unfold alen; lia).
  set (z := mkLinks (repeat 0 (Z.to_nat inner_size))
                    (repeat 0 (Z.to_nat inner_size))
                    (repeat 0 (Z.to_nat (2 * alen mcodes - 1)))).
  assert (Hz : forall m, 0 <= m -> alen (repeat 0 (Z.to_nat m)) = m)
    by (intros m Hm; unfold alen; rewrite repeat_length; lia).
  destruct (build_links_tree mcodes Hsize fuel Hfuel t Ct It Lt Pt z)
    as (k & Ek & _ & _ & _ & Hreal & _);
    try (unfold z; cbn [lchildren rchildren parents]; rewrite Hz;
         unfold inner_size; lia).
  destruct (build_links_ok mcodes Hsize fuel Hfuel t Ct It Lt Pt z)
    as (kz & Ekz & Hup);
    try (unfold z; cbn [lchildren rchildren parents]; rewrite Hz;
         unfold inner_size; lia).
  fold inner_size in Ek, Ekz. rewrite Ek in Ekz. inversion Ekz; subst kz.
  exists k, t. split.
  { intros k0 L1 L2 L3.
    destruct (build_links_ok mcodes Hsize fuel Hfuel t Ct It Lt Pt k0)
      as (k' & Ek' & Hup'); try (unfold inner_size in *; lia).
    fold inner_size in Ek'. rewrite Ek'. f_equal.
    apply links_upto_unique; assumption. }
  split; [exact Hup|]. split; [exact Ct|]. split; [exact Hreal|].
  split; [exact It|]. split; [exact Lt|exact Pt].
Qed.

End LinkArrays.

(** X15.  For sorted 32-bit codes of 2 <= n <= 2^24 + 1 primitives
    [build_tree] completes, changes nothing but the three link arrays, and in
    them parent and child entries invert each other: the two children of
    every internal node i are two different nodes other than the root,
    inside the arrays, and each has i as its parent. *)
Theorem build_tree_links_consistent {Box : Type} (fuel : nat)
  (data : RadixTree Box) :
  let mcodes := m_mcodes data in
  is_sorted mcodes = true ->
  all_uint32 mcodes = true ->
  2 <= alen mcodes <= 2 ^ 24 + 1 ->
  (32 <= fuel)%nat ->
  m_inner_size data = alen mcodes - 1 ->
  alen (m_left_children data) = alen mcodes - 1 ->
  alen (m_right_children data) = alen mcodes - 1 ->
  alen (m_parents data) = 2 * alen mcodes - 1 ->
  exists lch rch par,
    build_tree fuel data
      = Ok (mkRadixTree (m_size data) (m_inner_size data) lch rch par
              (m_inner_aabbs data) (m_leafs data) mcodes
              (m_leaf_aabbs data)) /\
    alen lch = alen mcodes - 1 /\ alen rch = alen mcodes - 1 /\
    alen par = 2 * alen mcodes - 1 /\
    forall i, 0 <= i < alen mcodes - 1 ->
      exists l r,
        aget lch i = Ok l /\ aget rch i = Ok r /\
        0 < l < 2 * alen mcodes - 1 /\ 0 < r < 2 * alen mcodes - 1 /\
        l <> r /\
        aget par l = Ok i /\ aget par r = Ok i.
Proof.
  intros mcodes Hs Hu Hn Hf Hin Hl Hr Hp.
  destruct (build_links_canonical mcodes Hs Hu Hn fuel Hf)
    as (k & t & Ek & Hup & Ct & Hreal & It & Lt & Pt).
  destruct Hup as (Ll & Lr & Lp & Hall & H0).
  assert (E2 : 2 * alen mcodes - 1
               = Z.of_nat (length mcodes) + (alen mcodes - 1))
    by (unfold alen; lia).
  exists (lchildren k), (rchildren k), (parents k).
  split.
  { unfold build_tree. fold mcodes. rewrite Hin.
    rewrite (Ek (mkLinks (m_left_children data) (m_right_children data)
                         (m_parents data))) by assumption.
    reflexivity. }
  split; [exact Ll|]. split; [exact Lr|]. split; [lia|].
  intros i Hi.
  destruct (ch_total mcodes Hn fuel Hf t Ct It Lt Pt i Hi)
    as (c1 & c2 & E & I1 & I2 & Hne).
  destruct (Hall i c1 c2 Hi E) as (A1 & A2 & A3 & A4).
  pose proof (child_range mcodes Hn fuel Hf t It Lt Pt i c1 I1) as R1.
  pose proof (child_range mcodes Hn fuel Hf t It Lt Pt i c2 I2) as R2.
  exists c1, c2.
  split; [rewrite aget_code_at by lia; now rewrite A1|].
  split; [rewrite aget_code_at by lia; now rewrite A2|].
  split; [lia|]. split; [lia|]. split; [exact Hne|].
  split; rewrite aget_code_at by lia; [now rewrite A3|now rewrite A4].
Qed.

Lemma build_tree_links_consistent_witness :
  let data :=
    mkRadixTree 4 3 [0; 0; 0] [0; 0; 0] [0; 0; 0; 0; 0; 0; 0]
      (@nil QBox) [0; 1; 2; 3] [1; 1; 5; 7] (@nil QBox) in
  let mcodes := m_mcodes data in
  exists lch rch par,
    build_tree 32 data
      = Ok (mkRadixTree (m_size data) (m_inner_size data) lch rch par
              (m_inner_aabbs data) (m_leafs data) mcodes
              (m_leaf_aabbs data)) /\
    alen lch = alen mcodes - 1 /\ alen rch = alen mcodes - 1 /\
    alen par = 2 * alen mcodes - 1 /\
    forall i, 0 <= i < alen mcodes - 1 ->
      exists l r,
        aget lch i = Ok l /\ aget rch i = Ok r /\
        0 < l < 2 * alen mcodes - 1 /\ 0 < r < 2 * alen mcodes - 1 /\
        l <> r /\
        aget par l = Ok i /\ aget par r = Ok i.
Proof.
  intros data.
  apply (build_tree_links_consistent 32 data);
    try reflexivity; try (unfold alen; simpl; lia).
Defined.

(** X16.  For sorted 32-bit codes of 2 <= n <= 2^24 + 1 primitives
    [build_tree] writes every entry of the three link arrays: the tree it
    returns does not depend on what the arrays held before. *)
Theorem build_tree_overwrites_links {Box : Type} (fuel : nat) (size : Z)
  (lch rch par lch' rch' par' : list Z) (inner_aabbs0 leaf_aabbs0 : list Box)
  (leafs mcodes : list Z) :
  is_sorted mcodes = true ->
  all_uint32 mcodes = true ->
  2 <= alen mcodes <= 2 ^ 24 + 1 ->
  (32 <= fuel)%nat ->
  alen lch = alen mcodes - 1 -> alen lch' = alen mcodes - 1 ->
  alen rch = alen mcodes - 1 -> alen rch' = alen mcodes - 1 ->
  alen par = 2 * alen mcodes - 1 -> alen par' = 2 * alen mcodes - 1 ->
  exists tree,
    build_tree fuel
      (mkRadixTree size (alen mcodes - 1) lch rch par inner_aabbs0 leafs
         mcodes leaf_aabbs0) = Ok tree /\
    build_tree fuel
      (mkRadixTree size (alen mcodes - 1) lch' rch' par' inner_aabbs0 leafs
         mcodes leaf_aabbs0) = Ok tree.
Proof.
  intros Hs Hu Hn Hf L1 L1' L2 L2' L3 L3'.
  destruct (build_links_canonical mcodes Hs Hu Hn fuel Hf)
    as (k & t & Ek & _).
  exists (mkRadixTree size (alen mcodes - 1) (lchildren k) (rchildren k)
            (parents k) inner_aabbs0 leafs mcodes leaf_aabbs0).
  unfold build_tree.
  cbn [m_inner_size m_mcodes m_left_children m_right_children m_parents
       m_size m_inner_aabbs m_leafs m_leaf_aabbs].
  rewrite (Ek (mkLinks lch rch par)), (Ek (mkLinks lch' rch' par'))
    by assumption.
  split; reflexivity.
Qed.

Lemma build_tree_overwrites_links_witness :
  exists tree,
    build_tree 32
      (mkRadixTree 4 (alen [1; 1; 5; 7] - 1) [0; 0; 0] [0; 0; 0]
         [0; 0; 0; 0; 0; 0; 0] (@nil QBox) [0; 1; 2; 3] [1; 1; 5; 7]
         (@nil QBox)) = Ok tree /\
    build_tree 32
      (mkRadixTree 4 (alen [1; 1; 5; 7] - 1) [9; 8; 7] [6; 5; 4]
         [3; 2; 1; 0; -1; -2; -3] (@nil QBox) [0; 1; 2; 3] [1; 1; 5; 7]
         (@nil QBox)) = Ok tree.
Proof.
  apply (build_tree_overwrites_links 32 4 [0; 0; 0] [0; 0; 0]
           [0; 0; 0; 0; 0; 0; 0] [9; 8; 7] [6; 5; 4]
           [3; 2; 1; 0; -1; -2; -3] (@nil QBox) (@nil QBox) [0; 1; 2; 3]
           [1; 1; 5; 7]);
    try reflexivity; try (unfold alen; simpl; lia).
Defined.
(* ================================================================== *)
(** * build_tree: the range and the split every node finds *)

Ltac solve_side := first [assumption | lia].

Section NodeRange.
Variable mcodes : list Z.
Hypothesis Hsorted : is_sorted mcodes = true.
Hypothesis Huint : all_uint32 mcodes = true.
Hypothesis Hsize : 2 <= alen mcodes <= 2 ^ 30.

Let H32 : alen mcodes <= 2 ^ 32 := Hsize32 mcodes Hsize.
Let dv := dval mcodes.

Lemma dv_sym (a b : Z) :
  0 <= a < alen mcodes -> 0 <= b < alen mcodes -> dv a b = dv b a.
Proof. intros. unfold dv. apply dval_sym; assumption. Qed.

Lemma dv_min (a b c : Z) :
  0 <= a -> a <= b <= c -> c < alen mcodes ->
  dv a c = Z.min (dv a b) (dv b c).
Proof. intros. unfold dv. apply dval_chain; solve_side. Qed.

Lemma dv_pos (a b : Z) :
  0 <= a < alen mcodes -> 0 <= b < alen mcodes -> a <> b -> 0 <= dv a b.
Proof.
  intros Ha Hb Hne. unfold dv.
  pose proof (dval_bounds mcodes Hsorted Huint H32 a b Ha Hb Hne). lia.
Qed.

(** The split of a range, from the two probes around it. *)
Lemma split_of_range (lo hi g : Z) :
  0 <= lo -> lo <= g < hi -> hi < alen mcodes ->
  dv g (g + 1) <= dv lo hi ->
  dv g (g + 1) = dv lo hi /\ dv lo hi < dv lo g /\ dv lo hi < dv (g + 1) hi.
Proof.
  intros Hlo Hg Hhi Hle.
  assert (E : dv g (g + 1) = dv lo hi).
  { pose proof (dv_min lo g hi). pose proof (dv_min g (g + 1) hi). lia. }
  split; [exact E|].
  apply (block_split_point mcodes Hsorted Huint Hsize lo hi g); solve_side.
Qed.

Lemma node_range_right (i l s : Z) :
  0 <= i < alen mcodes - 1 -> 1 <= l ->
  direction mcodes i = 1 ->
  probe mcodes i 1 (dv i (i - 1)) l = true ->
  probe mcodes i 1 (dv i (i - 1)) (l + 1) = false ->
  is_block mcodes i (i + l) /\
  (0 <= s ->
   probe mcodes i 1 (dv i (i + l)) s = true ->
   probe mcodes i 1 (dv i (i + l)) (s + 1) = false ->
   i <= i + s < i + l /\ dv (i + s) (i + s + 1) <= dv i (i + l)).
Proof.
  intros Hi Hl Hd P1 P2.
  assert (Hm1 : -1 <= dv i (i - 1)) by apply dval_ge_m1.
  pose proof (probe_true_inside mcodes i 1 _ l Hm1 P1) as Hin.
  unfold probe in P1, P2. apply Z.ltb_lt in P1. apply Z.ltb_ge in P2.
  replace (i + l * 1) with (i + l) in * by lia.
  replace (i + (l + 1) * 1) with (i + l + 1) in P2 by lia.
  fold dv in P1, P2.
  assert (Hpos : 0 <= dv i (i + l)) by (apply dv_pos; lia).
  split.
  - unfold is_block. fold dv.
    split; [lia|]. split; [lia|]. split; [lia|]. split; [exact P1|].
    destruct (Z.lt_ge_cases (i + l + 1) (alen mcodes)) as [In|Out].
    + pose proof (dv_min i (i + l) (i + l + 1)). lia.
    + unfold dv at 1. rewrite dval_outside by lia. lia.
  - intros Hs Q1 Q2.
    assert (Hm2 : -1 <= dv i (i + l)) by lia.
    pose proof (probe_true_inside mcodes i 1 _ s Hm2 Q1) as Hsin.
    unfold probe in Q1, Q2. apply Z.ltb_lt in Q1. apply Z.ltb_ge in Q2.
    replace (i + s * 1) with (i + s) in * by lia.
    replace (i + (s + 1) * 1) with (i + s + 1) in Q2 by lia.
    fold dv in Q1, Q2.
    assert (Hsl : s < l).
    { destruct (Z.lt_ge_cases s l) as [L|G]; [exact L|].
      pose proof (dv_min i (i + l) (i + s)). lia. }
    split; [lia|].
    pose proof (dv_min i (i + s) (i + s + 1)). lia.
Qed.

Lemma node_range_left (i l s : Z) :
  0 <= i < alen mcodes - 1 -> 1 <= l ->
  direction mcodes i = -1 ->
  probe mcodes i (-1) (dv i (i + 1)) l = true ->
  probe mcodes i (-1) (dv i (i + 1)) (l + 1) = false ->
  is_block mcodes (i - l) i /\
  (0 <= s ->
   probe mcodes i (-1) (dv i (i - l)) s = true ->
   probe mcodes i (-1) (dv i (i - l)) (s + 1) = false ->
   i - l <= i - s - 1 < i /\ dv (i - s - 1) (i - s - 1 + 1) <= dv (i - l) i).
Proof.
  intros Hi Hl Hd P1 P2.
  assert (Hm1 : -1 <= dv i (i + 1)) by apply dval_ge_m1.
  pose proof (probe_true_inside mcodes i (-1) _ l Hm1 P1) as Hin.
  unfold probe in P1, P2. apply Z.ltb_lt in P1. apply Z.ltb_ge in P2.
  replace (i + l * -1) with (i - l) in * by lia.
  replace (i + (l + 1) * -1) with (i - l - 1) in P2 by lia.
  fold dv in P1, P2.
  assert (Hsym : dv i (i - l) = dv (i - l) i) by (apply dv_sym; lia).
  assert (Hpos : 0 <= dv i (i - l)) by (apply dv_pos; lia).
  split.
  - unfold is_block. fold dv.
    split; [lia|]. split; [lia|]. split; [lia|]. split; [|lia].
    destruct (Z.le_gt_cases 0 (i - l - 1)) as [In|Out].
    + pose proof (dv_min (i - l - 1) (i - l) i).
      pose proof (dv_sym i (i - l - 1)).
      pose proof (dv_sym (i - l) (i - l - 1)). lia.
    + unfold dv at 1. rewrite dval_outside by lia. lia.
  - intros Hs Q1 Q2.
    assert (Hm2 : -1 <= dv i (i - l)) by lia.
    pose proof (probe_true_inside mcodes i (-1) _ s Hm2 Q1) as Hsin.
    unfold probe in Q1, Q2. apply Z.ltb_lt in Q1. apply Z.ltb_ge in Q2.
    replace (i + s * -1) with (i - s) in * by lia.
    replace (i + (s + 1) * -1) with (i - s - 1) in Q2 by lia.
    fold dv in Q1, Q2.
    assert (Hsl : s < l).
    { destruct (Z.lt_ge_cases s l) as [L|G]; [exact L|].
      pose proof (dv_min (i - s) (i - l) i).
      pose proof (dv_sym i (i - s)). lia. }
    split; [lia|].
    replace (i - s - 1 + 1) with (i - s) by lia.
    pose proof (dv_min (i - s - 1) (i - s) i).
    pose proof (dv_sym i (i - s - 1)).
    pose proof (dv_sym i (i - s)). lia.
Qed.

End NodeRange.

(** X17.  For sorted 32-bit codes of 2 <= n <= 2^30 entries (the sizes
    whose node ids are [int32] values, on which no [int32] operation of the
    searches overflows), every internal node i finds a range with
    i at one end and another position j at the other, inside the array,
    such that the codes of the range share a strictly longer prefix with
    each other than with either neighbour outside the range; when the range
    spans at most 2^24 positions the split lies inside the range, at the
    place where neighbouring codes share exactly the prefix of the range,
    and both sides of it share strictly more. *)
Theorem node_search_range (mcodes : list Z) (i : Z) (fuel : nat) :
  is_sorted mcodes = true ->
  all_uint32 mcodes = true ->
  2 <= alen mcodes <= 2 ^ 30 ->
  0 <= i < alen mcodes - 1 ->
  (32 <= fuel)%nat ->
  exists j split,
    node_search fuel (alen mcodes - 1) mcodes i = Ok (j, split) /\
    j <> i /\
    let lo := Z.min i j in
    let hi := Z.max i j in
    is_block mcodes lo hi /\
    (hi - lo <= 2 ^ 24 ->
     lo <= split < hi /\
     dval mcodes split (split + 1) = dval mcodes lo hi /\
     dval mcodes lo hi < dval mcodes lo split /\
     dval mcodes lo hi < dval mcodes (split + 1) hi).
Proof.
  intros Hs Hu Hn Hi Hf.
  destruct (node_search_boundaries mcodes Hs Hu Hn i fuel Hi Hf)
    as (l & s & E & Hl & P1 & P2 & Hsplit).
  destruct (direction_cases mcodes i) as [Hd|Hd]; rewrite Hd in *.
  - replace (i + l * 1) with (i + l) in * by lia.
    replace (i + s * 1 + Z.min 1 0) with (i + s) in E by lia.
    destruct (node_range_right mcodes Hs Hu Hn i l s Hi Hl Hd P1 P2)
      as [Hb Hg].
    exists (i + l), (i + s). split; [exact E|]. split; [lia|].
    replace (Z.min i (i + l)) with i by lia.
    replace (Z.max i (i + l)) with (i + l) by lia.
    cbv zeta. split; [exact Hb|]. intros Hlen.
    destruct Hsplit as (Hs0 & Q1 & Q2); [lia|].
    destruct (Hg Hs0 Q1 Q2) as [Hr Hle].
    split; [exact Hr|].
    destruct Hb as (B1 & B2 & B3 & _).
    apply (split_of_range mcodes Hs Hu Hn i (i + l) (i + s)); solve_side.
  - replace (i + l * -1) with (i - l) in * by lia.
    replace (i - -1) with (i + 1) in * by lia.
    replace (i + s * -1 + Z.min (-1) 0) with (i - s - 1) in E by lia.
    destruct (node_range_left mcodes Hs Hu Hn i l s Hi Hl Hd P1 P2)
      as [Hb Hg].
    exists (i - l), (i - s - 1). split; [exact E|]. split; [lia|].
    replace (Z.min i (i - l)) with (i - l) by lia.
    replace (Z.max i (i - l)) with i by lia.
    cbv zeta. split; [exact Hb|]. intros Hlen.
    destruct Hsplit as (Hs0 & Q1 & Q2); [lia|].
    destruct (Hg Hs0 Q1 Q2) as [Hr Hle].
    split; [exact Hr|].
    destruct Hb as (B1 & B2 & B3 & _).
    apply (split_of_range mcodes Hs Hu Hn (i - l) i (i - s - 1)); solve_side.
Qed.

Lemma node_search_range_witness :
  exists j split,
    node_search 32 (alen [0; 0; 1; 4; 4; 4; 9] - 1) [0; 0; 1; 4; 4; 4; 9] 3
      = Ok (j, split) /\
    j <> 3 /\
    let lo := Z.min 3 j in
    let hi := Z.max 3 j in
    is_block [0; 0; 1; 4; 4; 4; 9] lo hi /\
    (hi - lo <= 2 ^ 24 ->
     lo <= split < hi /\
     dval [0; 0; 1; 4; 4; 4; 9] split (split + 1)
       = dval [0; 0; 1; 4; 4; 4; 9] lo hi /\
     dval [0; 0; 1; 4; 4; 4; 9] lo hi < dval [0; 0; 1; 4; 4; 4; 9] lo split /\
     dval [0; 0; 1; 4; 4; 4; 9] lo hi
       < dval [0; 0; 1; 4; 4; 4; 9] (split + 1) hi).
Proof.
  apply (node_search_range [0; 0; 1; 4; 4; 4; 9] 3 32);
    try reflexivity; try (unfold alen; simpl; lia).
Defined.
(* ================================================================== *)
(** * build_radix_tree as a whole *)

Lemma list_eq_aget {A : Type} (u v : list A) :
  alen u = alen v ->
  (forall i, 0 <= i < alen u -> aget u i = aget v i) ->
  u = v.
Proof.
  intros Hl Hg. apply nth_error_ext. intros k.
  destruct (Nat.lt_ge_cases k (length u)) as [Hk|Hk].
  - assert (Hk' : 0 <= Z.of_nat k < alen u) by (unfold alen; lia).
    specialize (Hg _ Hk'). unfold aget in Hg.
    replace (Z.of_nat k <? 0) with false in Hg
      by (symmetry; apply Z.ltb_ge; lia).
    rewrite Nat2Z.id in Hg.
    destruct (nth_error u k) eqn:Eu, (nth_error v k) eqn:Ev;
      try discriminate; [inversion Hg; reflexivity|reflexivity].
  - rewrite (proj2 (nth_error_None u k)) by lia.
    rewrite (proj2 (nth_error_None v k)) by (unfold alen in Hl; lia).
    reflexivity.
Qed.

Lemma aget_map_firstn {A B : Type} (f : A -> B) (l : list A) (n : nat)
  (i : Z) (x : A) :
  0 <= i < Z.of_nat n -> aget l i = Ok x ->
  aget (map f (firstn n l)) i = Ok (f x).
Proof.
  intros Hi E. apply aget_inv in E. destruct E as [Hr E].
  unfold aget. replace (i <? 0) with false by (symmetry; apply Z.ltb_ge; lia).
  rewrite nth_error_map, nth_error_firstn.
  replace (Z.to_nat i <? n)%nat with true
    by (symmetry; apply Nat.ltb_lt; lia).
  rewrite E. reflexivity.
Qed.

(** With as many boxes as entries, [transform_boxes] overwrites every
    entry. *)
Lemma transform_boxes_full {Box : Type} `{BoundingBox Box}
  (boxes aabbs : list Box) (scale_factor : Q) :
  alen aabbs <= alen boxes ->
  transform_boxes boxes aabbs (alen aabbs) scale_factor
    = Ok (map (scale scale_factor) (firstn (length aabbs) boxes)).
Proof.
  intros Hb.
  destruct (transform_boxes_ok boxes aabbs (alen aabbs) scale_factor)
    as (out & E & Hl); [apply alen_nonneg|exact Hb|lia|].
  destruct (transform_boxes_post _ _ _ _ _ (alen_nonneg aabbs) E)
    as [_ Hcopy].
  rewrite E. f_equal. apply list_eq_aget.
  - unfold alen in *. rewrite length_map, length_firstn. lia.
  - intros i Hi. destruct (Hcopy i) as (b & E1 & E2); [lia|].
    rewrite E2. symmetry. apply aget_map_firstn; [unfold alen in *; lia|].
    exact E1.
Qed.

(** With as many boxes as entries, [get_mcodes] overwrites every entry. *)
Lemma get_mcodes_full {Box : Type} `{BoundingBox Box}
  (convertPointToMorton : list Z -> Z) (aabbs : list Box) (bnds : Box) :
  exists codes,
    alen codes = alen aabbs /\ all_uint32 codes = true /\
    forall mcodes0, alen mcodes0 = alen aabbs ->
      get_mcodes convertPointToMorton aabbs (alen aabbs) bnds mcodes0
        = Ok codes.
Proof.
  destruct (inverse_extent_ok (vsub (getMax bnds) (getMin bnds)))
    as (inv & Einv & _).
  set (code := fun b : Box =>
                 uint32 (morton32_encode convertPointToMorton
                           (normalized_centroid (getMin bnds) inv b))).
  exists (map code aabbs).
  split; [unfold alen; now rewrite length_map|]. split.
  { unfold all_uint32. apply forallb_forall. intros c Hc.
    apply in_map_iff in Hc. destruct Hc as (b & <- & _).
    assert (0 <= code b < 2 ^ 32)
      by (unfold code, uint32; apply Z.mod_pos_bound; lia).
    apply andb_true_iff. split; [apply Z.leb_le|apply Z.ltb_lt]; lia. }
  intros mcodes0 Hlen.
  destruct (get_mcodes_ok convertPointToMorton aabbs bnds mcodes0 Hlen)
    as (codes & E & Hl & _).
  rewrite E. f_equal.
  unfold get_mcodes in E. rewrite Einv in E. cbn [bind] in E.
  unfold for_all in E.
  pose proof (for_all_from_post
    (fun i mc => alen mc = alen aabbs /\
                 forall j b, 0 <= j < i -> aget aabbs j = Ok b ->
                             aget mc j = Ok (code b))
    (fun i mc => aabb <- aget aabbs i ;; aset mc i (code aabb))
    (Z.to_nat (alen aabbs)) 0 mcodes0 codes) as P.
  cbv beta in P. rewrite Z2Nat.id in P by apply alen_nonneg.
  destruct P as [_ Hw].
  - split; [exact Hlen|]. intros j b Hj. lia.
  - intros i s0 s1 Hi [Hl0 Hw] Ebody.
    apply bind_ok_inv in Ebody. destruct Ebody as (b & Eb & Es).
    apply aset_inv in Es. destruct Es as [Hin ->].
    split; [rewrite alen_upd; exact Hl0|].
    intros j b' Hj Eb'. destruct (Z.eq_dec j i) as [->|Hne].
    + rewrite Eb in Eb'. inversion Eb'; subst b'.
      apply aget_upd_same. exact Hin.
    + rewrite aget_upd_other by lia. apply Hw; [lia|exact Eb'].
  - exact E.
  - apply list_eq_aget; [unfold alen in *; rewrite length_map; lia|].
    intros i Hi. rewrite Hl in Hi.
    rewrite (Hw i (nth (Z.to_nat i) aabbs emptyBox) Hi)
      by (apply aget_ok; exact Hi).
    symmetry. unfold aget.
    replace (i <? 0) with false by (symmetry; apply Z.ltb_ge; lia).
    rewrite nth_error_map.
    rewrite (nth_error_nth' aabbs emptyBox) by (unfold alen in Hi; lia).
    reflexivity.
Qed.

Lemma sort_mcodes_iter_indep (mcodes iter iter' : list Z) :
  alen iter = alen mcodes -> alen iter' = alen mcodes ->
  sort_mcodes mcodes (alen mcodes) iter
    = sort_mcodes mcodes (alen mcodes) iter'.
Proof.
  intros H1 H2. unfold sort_mcodes.
  replace (array_counting iter (alen mcodes) 0 1)
    with (array_counting iter' (alen mcodes) 0 1); [reflexivity|].
  rewrite <- H2 at 1. rewrite <- H1. rewrite !array_counting_iota.
  do 2 f_equal. unfold alen in *. lia.
Qed.

(** The record of [allocate] has the sizes the build relies on. *)
Lemma allocate_allocated {Box : Type} (fill : Z) (junk : Box) (size : Z) :
  0 < size -> allocated size (allocate fill junk size).
Proof.
  intros Hsize. unfold allocated, allocate, alen.
  cbn [m_size m_inner_size m_left_children m_right_children m_parents
       m_inner_aabbs m_leafs m_mcodes m_leaf_aabbs].
  rewrite !repeat_length. lia.
Qed.

Section Stages.
Context {Box : Type} `{BoundingBox Box}.
Variable convertPointToMorton : list Z -> Z.
Variable size : Z.
Variable scale_factor : Q.
Variable mem : Memory Box.
Hypothesis Hsize : 0 < size <= alen (boxes mem).

Let aabbs := map (scale scale_factor) (firstn (Z.to_nat size) (boxes mem)).
Let bnds := fold_left addBox aabbs emptyBox.

Lemma aabbs_alen : alen aabbs = size.
Proof.
  unfold aabbs, alen. rewrite length_map, length_firstn.
  unfold alen in Hsize. lia.
Qed.

(** The stages up to the reordering, whatever the allocated arrays held. *)
Lemma sort_stage_on_canonical :
  exists leafs mcodes leaf_aabbs,
    (forall t0 : RadixTree Box, allocated size t0 ->
       sort_stage_on convertPointToMorton t0 size scale_factor mem
         = Ok (mkMemory (boxes mem) bnds
                 (mkRadixTree size (size - 1)
                    (m_left_children t0) (m_right_children t0)
                    (m_parents t0) (m_inner_aabbs t0)
                    leafs mcodes leaf_aabbs))) /\
    alen mcodes = size /\ is_sorted mcodes = true /\
    all_uint32 mcodes = true /\
    Permutation leafs (iota (Z.to_nat size)) /\
    alen leaf_aabbs = size /\
    (forall p, 0 <= p < size ->
               aget leaf_aabbs p = aget aabbs (code_at leafs p)).
Proof.
  pose proof aabbs_alen as Hla.
  destruct (get_mcodes_full convertPointToMorton aabbs bnds)
    as (codes & Hlc & Huc & Ec).
  rewrite Hla in Hlc.
  destruct (sort_mcodes_sorted codes (repeat 0 (Z.to_nat size)))
    as (mcodes & leafs & Es & Hperm & Hlm & Hsm & Hum);
    [unfold alen; rewrite repeat_length; unfold alen in Hlc; lia|exact Huc|].
  rewrite Hlc in Es, Hlm.
  assert (Hll : alen leafs = size).
  { unfold alen. rewrite (Permutation_length Hperm), iota_length.
    unfold alen in Hlc. lia. }
  destruct (reorder_ok leafs aabbs) as (sorted & Eo & Hlo & Hget).
  { rewrite Forall_forall. intros x Hx.
    apply (Permutation_in _ Hperm) in Hx. apply iota_In in Hx.
    unfold alen in *. lia. }
  rewrite Hll in Eo, Hlo, Hget.
  exists leafs, mcodes, sorted.
  split.
  - intros [sz isz lch rch par inner lf mc la]
           (Hsz & Hisz & _ & _ & _ & _ & Hlf & Hmc & Hl0).
    cbn [m_size m_inner_size m_leafs m_mcodes m_leaf_aabbs m_left_children
         m_right_children m_parents m_inner_aabbs] in *.
    unfold sort_stage_on.
    replace (size <=? 0) with false by (symmetry; apply Z.leb_gt; lia).
    cbn [m_leaf_aabbs m_mcodes m_leafs with_leaf_aabbs with_mcodes with_leafs
         m_size m_inner_size m_left_children m_right_children m_parents
         m_inner_aabbs].
    assert (Et : transform_boxes (boxes mem) la size scale_factor = Ok aabbs).
    { rewrite <- Hl0 at 1.
      rewrite transform_boxes_full by (rewrite Hl0; lia).
      unfold aabbs. do 3 f_equal. unfold alen in Hl0. lia. }
    rewrite Et. cbn [bind].
    rewrite reduce_fold by lia.
    replace (firstn (Z.to_nat size) aabbs) with aabbs
      by (symmetry; apply firstn_all2; unfold alen in Hla; lia).
    cbn [bind]. fold bnds.
    rewrite <- Hla at 1. rewrite (Ec mc) by lia.
    cbn [bind].
    rewrite <- Hlc at 1.
    rewrite (sort_mcodes_iter_indep codes lf (repeat 0 (Z.to_nat size)))
      by (try lia; unfold alen; rewrite repeat_length; unfold alen in Hlc;
          lia).
    rewrite Hlc, Es. cbn [bind fst snd]. rewrite Eo.
    rewrite Hsz, Hisz. reflexivity.
  - split; [exact Hlm|]. split; [exact Hsm|]. split; [exact Hum|].
    split.
    { replace (Z.to_nat size) with (length codes)
        by (unfold alen in Hlc; lia). exact Hperm. }
    split; [exact Hlo|]. intros p Hp. apply Hget. exact Hp.
Qed.

Lemma sort_stage_canonical :
  exists leafs mcodes leaf_aabbs,
    (forall (fill : Z) (junk : Box),
       sort_stage convertPointToMorton fill junk size scale_factor mem
         = Ok (mkMemory (boxes mem) bnds
                 (mkRadixTree size (size - 1)
                    (repeat fill (Z.to_nat (size - 1)))
                    (repeat fill (Z.to_nat (size - 1)))
                    (repeat fill (Z.to_nat (size + (size - 1))))
                    (repeat junk (Z.to_nat (size - 1)))
                    leafs mcodes leaf_aabbs))) /\
    alen mcodes = size /\ is_sorted mcodes = true /\
    all_uint32 mcodes = true /\
    Permutation leafs (iota (Z.to_nat size)) /\
    alen leaf_aabbs = size /\
    (forall p, 0 <= p < size ->
               aget leaf_aabbs p = aget aabbs (code_at leafs p)).
Proof.
  destruct sort_stage_on_canonical
    as (leafs & mcodes & leaf_aabbs & Eon & Hrest).
  exists leafs, mcodes, leaf_aabbs. split; [|exact Hrest].
  intros fill junk.
  change (sort_stage convertPointToMorton fill junk size scale_factor mem)
    with (sort_stage_on convertPointToMorton (allocate fill junk size) size
            scale_factor mem).
  rewrite (Eon _ (allocate_allocated fill junk size (proj1 Hsize))).
  reflexivity.
Qed.

End Stages.

(** The whole build on 2 to 2^24 + 1 boxes, whatever the allocated arrays
    held: the memory it returns and the tree the links form. *)
Lemma pipeline_on_core {Box : Type} `{BoundingBox Box}
  (convertPointToMorton : list Z -> Z) (fuel : nat) (size : Z)
  (scale_factor : Q) (mem : Memory Box) :
  2 <= size <= 2 ^ 24 + 1 ->
  size <= alen (boxes mem) ->
  (32 <= fuel)%nat -> (Z.to_nat size <= fuel)%nat ->
  let aabbs := map (scale scale_factor) (firstn (Z.to_nat size) (boxes mem)) in
  let bnds := fold_left addBox aabbs emptyBox in
  exists leafs mcodes leaf_aabbs k t st,
    (forall t0 : RadixTree Box, allocated size t0 ->
       build_radix_tree_on convertPointToMorton t0 fuel size scale_factor mem
         = Ok (mkMemory (boxes mem) bnds
                 (mkRadixTree size (size - 1) (lchildren k) (rchildren k)
                    (parents k) (inner_aabbs st) leafs mcodes leaf_aabbs))) /\
    alen mcodes = size /\ is_sorted mcodes = true /\
    all_uint32 mcodes = true /\
    Permutation leafs (iota (Z.to_nat size)) /\
    alen leaf_aabbs = size /\
    (forall p, 0 <= p < size ->
               aget leaf_aabbs p = aget aabbs (code_at leafs p)) /\
    realizes (size - 1) k (-1) t /\
    node_index (size - 1) t = 0 /\
    leaves t = iota (Z.to_nat size) /\
    Permutation (internals t) (iota (Z.to_nat (size - 1))) /\
    boxes_done leaf_aabbs st t /\
    alen (inner_aabbs st) = size - 1.
Proof.
  intros Hsize Hboxes Hf32 Hfn aabbs bnds.
  assert (Hs0 : 0 < size <= alen (boxes mem)) by lia.
  destruct (sort_stage_on_canonical convertPointToMorton size scale_factor mem
              Hs0)
    as (leafs & mcodes & leaf_aabbs & Es & Hlm & Hsm & Hum & Hperm & Hla
        & Hgather).
  fold aabbs in Es, Hgather. fold bnds in Es.
  assert (Hn : 2 <= alen mcodes <= 2 ^ 24 + 1) by lia.
  destruct (build_links_canonical mcodes Hsm Hum Hn fuel Hf32)
    as (k & t & Ek & _ & _ & Hreal & Hroot & Hleaves & Hint).
  rewrite Hlm in Ek, Hreal, Hroot.
  assert (Hlen : length mcodes = Z.to_nat size) by (unfold alen in Hlm; lia).
  rewrite Hlen in Hleaves.
  replace (length mcodes - 1)%nat with (Z.to_nat (size - 1)) in Hint by lia.
  destruct k as [lch rch par]. cbn [lchildren rchildren parents] in *.
  assert (Hnodup : NoDup (internals t)).
  { apply (Permutation_NoDup (Permutation_sym Hint)). apply iota_NoDup. }
  assert (Hheight : (height t < fuel)%nat).
  { pose proof (height_le_internals t) as Hh.
    rewrite (Permutation_length Hint), iota_length in Hh. lia. }
  set (st := finish leaf_aabbs t
               (mkPropagation
                  (map (fun _ : Z => emptyBox) (iota (Z.to_nat (size - 1))))
                  (repeat 0 (Z.to_nat (size - 1))) [] [])).
  assert (Hprop : forall inner0 : list Box,
            alen inner0 = size - 1 ->
            let tree2 := mkRadixTree size (size - 1) lch rch par inner0
                           leafs mcodes leaf_aabbs in
            propagate_trace fuel tree2 = Ok st /\
            boxes_done leaf_aabbs st t).
  { intros inner0 Hi0 tree2.
    assert (Hleaves2 : leaves t = iota (Z.to_nat (m_inner_size tree2 + 1))).
    { cbn [tree2 m_inner_size]. replace (size - 1 + 1) with size by lia.
      exact Hleaves. }
    assert (Hinner2 : alen (m_inner_aabbs tree2) = m_inner_size tree2).
    { cbn [tree2 m_inner_aabbs m_inner_size]. exact Hi0. }
    assert (Hleaf2 : alen (m_leaf_aabbs tree2) = m_inner_size tree2 + 1).
    { cbn [tree2 m_leaf_aabbs m_inner_size]. lia. }
    assert (Hsize2 : m_size tree2 = m_inner_size tree2 + 1)
      by (cbn [tree2 m_size m_inner_size]; lia).
    pose proof (propagate_trace_finish tree2 t Hreal Hleaves2 Hnodup Hinner2
                  Hleaf2 fuel Hheight Hsize2) as Etrace.
    pose proof (propagate_done tree2 t Hreal Hleaves2 Hnodup Hinner2)
      as Hdone.
    cbn [tree2 m_inner_aabbs m_inner_size m_leaf_aabbs] in Etrace, Hdone.
    assert (Hl0 : length inner0 = Z.to_nat (size - 1))
      by (unfold alen in Hi0; lia).
    rewrite Hl0 in Etrace, Hdone.
    split; [exact Etrace|exact Hdone]. }
  exists leafs, mcodes, leaf_aabbs, (mkLinks lch rch par), t, st.
  cbn [lchildren rchildren parents].
  split.
  { intros t0 Ht0. unfold build_radix_tree_on. rewrite (Es t0 Ht0).
    destruct Ht0 as (_ & _ & Hl1 & Hl2 & Hl3 & Hl4 & _).
    cbn [bind radix_tree boxes bounds]. unfold build_tree.
    cbn [m_inner_size m_mcodes m_left_children m_right_children m_parents
         m_size m_inner_aabbs m_leafs m_leaf_aabbs].
    rewrite (Ek (mkLinks (m_left_children t0) (m_right_children t0)
                         (m_parents t0)))
      by (cbn [lchildren rchildren parents]; lia).
    cbn [bind lchildren rchildren parents].
    unfold propagate_aabbs.
    destruct (Hprop (m_inner_aabbs t0) Hl4) as [Etrace _].
    cbv zeta in Etrace.
    rewrite Etrace. reflexivity. }
  split; [exact Hlm|]. split; [exact Hsm|]. split; [exact Hum|].
  split; [exact Hperm|]. split; [exact Hla|]. split; [exact Hgather|].
  split; [exact Hreal|]. split; [exact Hroot|]. split; [exact Hleaves|].
  split; [exact Hint|].
  split.
  { apply (Hprop (repeat emptyBox (Z.to_nat (size - 1)))).
    unfold alen. rewrite repeat_length. lia. }
  unfold st.
  destruct (finish_lengths leaf_aabbs t
              (mkPropagation
                 (map (fun _ : Z => emptyBox) (iota (Z.to_nat (size - 1))))
                 (repeat 0 (Z.to_nat (size - 1))) [] [])) as [_ Hb].
  rewrite Hb. cbn [inner_aabbs]. unfold alen.
  rewrite length_map, iota_length. lia.
Qed.

Lemma pipeline_core {Box : Type} `{BoundingBox Box}
  (convertPointToMorton : list Z -> Z) (fuel : nat) (size : Z)
  (scale_factor : Q) (mem : Memory Box) :
  2 <= size <= 2 ^ 24 + 1 ->
  size <= alen (boxes mem) ->
  (32 <= fuel)%nat -> (Z.to_nat size <= fuel)%nat ->
  let aabbs := map (scale scale_factor) (firstn (Z.to_nat size) (boxes mem)) in
  let bnds := fold_left addBox aabbs emptyBox in
  exists leafs mcodes leaf_aabbs k t st,
    (forall (fill : Z) (junk : Box),
       build_radix_tree convertPointToMorton fill junk fuel size scale_factor
                        mem
         = Ok (mkMemory (boxes mem) bnds
                 (mkRadixTree size (size - 1) (lchildren k) (rchildren k)
                    (parents k) (inner_aabbs st) leafs mcodes leaf_aabbs))) /\
    alen mcodes = size /\ is_sorted mcodes = true /\
    all_uint32 mcodes = true /\
    Permutation leafs (iota (Z.to_nat size)) /\
    alen leaf_aabbs = size /\
    (forall p, 0 <= p < size ->
               aget leaf_aabbs p = aget aabbs (code_at leafs p)) /\
    realizes (size - 1) k (-1) t /\
    node_index (size - 1) t = 0 /\
    leaves t = iota (Z.to_nat size) /\
    Permutation (internals t) (iota (Z.to_nat (size - 1))) /\
    boxes_done leaf_aabbs st t /\
    alen (inner_aabbs st) = size - 1.
Proof.
  intros Hsize Hboxes Hf32 Hfn aabbs bnds.
  destruct (pipeline_on_core convertPointToMorton fuel size scale_factor mem
              Hsize Hboxes Hf32 Hfn)
    as (leafs & mcodes & leaf_aabbs & k & t & st & Eon & Hrest).
  exists leafs, mcodes, leaf_aabbs, k, t, st. split; [|exact Hrest].
  intros fill junk.
  change (build_radix_tree convertPointToMorton fill junk fuel size
            scale_factor mem)
    with (build_radix_tree_on convertPointToMorton (allocate fill junk size)
            fuel size scale_factor mem).
  apply Eon. apply allocate_allocated. lia.
Qed.

(** X18.  On 2 to 2^24 + 1 boxes, with fuel for the loops, every stage of
    [build_radix_tree] completes: the caller's boxes are untouched, the
    codes are sorted, [leafs] is a permutation of the positions, the links
    form a binary tree over the sorted leaves, and every inner box is the
    union of the boxes of its two children. *)
Theorem build_radix_tree_completes {Box : Type} `{BoundingBox Box}
  (convertPointToMorton : list Z -> Z) (fill : Z) (junk : Box) (fuel : nat)
  (size : Z) (scale_factor : Q) (mem : Memory Box) :
  2 <= size <= 2 ^ 24 + 1 ->
  size <= alen (boxes mem) ->
  (32 <= fuel)%nat -> (Z.to_nat size <= fuel)%nat ->
  exists (mem' : Memory Box) (t : shape),
    build_radix_tree convertPointToMorton fill junk fuel size scale_factor mem
      = Ok mem' /\
    boxes mem' = boxes mem /\
    let tree := radix_tree mem' in
    let k := mkLinks (m_left_children tree) (m_right_children tree)
               (m_parents tree) in
    m_size tree = size /\ m_inner_size tree = size - 1 /\
    is_sorted (m_mcodes tree) = true /\
    Permutation (m_leafs tree) (iota (Z.to_nat size)) /\
    realizes (size - 1) k (-1) t /\
    leaves t = iota (Z.to_nat size) /\
    Permutation (internals t) (iota (Z.to_nat (size - 1))) /\
    forall v, 0 <= v < size - 1 ->
      exists lchild rchild lbox rbox,
        aget (m_left_children tree) v = Ok lchild /\
        aget (m_right_children tree) v = Ok rchild /\
        box_of (size - 1) (m_leaf_aabbs tree) (m_inner_aabbs tree) lchild
          = Ok lbox /\
        box_of (size - 1) (m_leaf_aabbs tree) (m_inner_aabbs tree) rchild
          = Ok rbox /\
        aget (m_inner_aabbs tree) v = Ok (addBox rbox lbox).
Proof.
  intros Hsize Hboxes Hf32 Hfn.
  destruct (pipeline_core convertPointToMorton fuel size scale_factor mem
              Hsize Hboxes Hf32 Hfn)
    as (leafs & mcodes & leaf_aabbs & k & t & st & E & Hlm & Hsm & Hum
        & Hperm & Hla & Hgather & Hreal & Hroot & Hleaves & Hint & Hdone
        & Hlb).
  eexists. exists t. split; [apply E|].
  cbn [boxes radix_tree m_size m_inner_size m_mcodes m_leafs m_left_children
       m_right_children m_parents m_leaf_aabbs m_inner_aabbs].
  split; [reflexivity|]. split; [reflexivity|]. split; [reflexivity|].
  split; [exact Hsm|]. split; [exact Hperm|].
  destruct k as [lch rch par]. cbn [lchildren rchildren parents] in *.
  split; [exact Hreal|]. split; [exact Hleaves|]. split; [exact Hint|].
  intros v Hv.
  assert (Hin : In v (internals t)).
  { apply (Permutation_in v (Permutation_sym Hint)). apply iota_In. lia. }
  assert (Hrange : forall p, In p (leaves t) -> 0 <= p < alen leaf_aabbs).
  { intros p Hp. rewrite Hleaves in Hp. apply iota_In in Hp. lia. }
  destruct (boxes_done_union (size - 1) (mkLinks lch rch par) leaf_aabbs st
              t (-1) Hreal Hdone Hrange v Hin)
    as (lc & rc & bl & br & E1 & E2 & E3 & E4 & E5 & _).
  exists lc, rc, bl, br.
  split; [exact E1|]. split; [exact E2|]. split; [exact E3|].
  split; [exact E4|exact E5].
Qed.

Lemma build_radix_tree_completes_witness :
  let b0 := mkQBox [5 # 1; 0 # 1] [6 # 1; 1 # 1] in
  let b1 := mkQBox [0 # 1; 0 # 1] [1 # 1; 1 # 1] in
  let b2 := mkQBox [2 # 1; 3 # 1] [3 # 1; 4 # 1] in
  let mem := mkMemory [b0; b1; b2] b0 (allocate 0 b0 0) in
  exists (mem' : Memory QBox) (t : shape),
    build_radix_tree interleave 0 b0 32 3 (1 # 1) mem = Ok mem' /\
    boxes mem' = boxes mem /\
    let tree := radix_tree mem' in
    let k := mkLinks (m_left_children tree) (m_right_children tree)
               (m_parents tree) in
    m_size tree = 3 /\ m_inner_size tree = 3 - 1 /\
    is_sorted (m_mcodes tree) = true /\
    Permutation (m_leafs tree) (iota (Z.to_nat 3)) /\
    realizes (3 - 1) k (-1) t /\
    leaves t = iota (Z.to_nat 3) /\
    Permutation (internals t) (iota (Z.to_nat (3 - 1))) /\
    forall v, 0 <= v < 3 - 1 ->
      exists lchild rchild lbox rbox,
        aget (m_left_children tree) v = Ok lchild /\
        aget (m_right_children tree) v = Ok rchild /\
        box_of (3 - 1) (m_leaf_aabbs tree) (m_inner_aabbs tree) lchild
          = Ok lbox /\
        box_of (3 - 1) (m_leaf_aabbs tree) (m_inner_aabbs tree) rchild
          = Ok rbox /\
        aget (m_inner_aabbs tree) v = Ok (addBox rbox lbox).
Proof.
  intros b0 b1 b2 mem.
  apply (build_radix_tree_completes interleave 0 b0 32 3 (1 # 1) mem).
  - lia.
  - unfold alen; simpl; lia.
  - lia.
  - simpl; lia.
Defined.

(** X19.  On 2 to 2^24 + 1 boxes [build_radix_tree] writes every entry it
    later reads or returns: run on any record whose arrays have the sizes
    [allocate] gives them, whatever the arrays hold, the stages after
    [allocate] return one and the same memory, and that memory is what
    [build_radix_tree] returns. *)
Theorem build_radix_tree_ignores_allocation {Box : Type} `{BoundingBox Box}
  (convertPointToMorton : list Z -> Z) (fuel : nat) (size : Z)
  (scale_factor : Q) (mem : Memory Box) :
  2 <= size <= 2 ^ 24 + 1 ->
  size <= alen (boxes mem) ->
  (32 <= fuel)%nat -> (Z.to_nat size <= fuel)%nat ->
  exists mem' : Memory Box,
    (forall t0 : RadixTree Box, allocated size t0 ->
       build_radix_tree_on convertPointToMorton t0 fuel size scale_factor mem
         = Ok mem') /\
    (forall (fill : Z) (junk : Box),
       allocated size (allocate fill junk size) /\
       build_radix_tree convertPointToMorton fill junk fuel size scale_factor
                        mem
         = build_radix_tree_on convertPointToMorton (allocate fill junk size)
             fuel size scale_factor mem /\
       build_radix_tree convertPointToMorton fill junk fuel size scale_factor
                        mem = Ok mem').
Proof.
  intros Hsize Hboxes Hf32 Hfn.
  destruct (pipeline_on_core convertPointToMorton fuel size scale_factor mem
              Hsize Hboxes Hf32 Hfn)
    as (leafs & mcodes & leaf_aabbs & k & t & st & E & _).
  eexists. split; [exact E|].
  intros fill junk.
  assert (Ha : allocated size (allocate fill junk size))
    by (apply allocate_allocated; lia).
  split; [exact Ha|]. split; [reflexivity|].
  change (build_radix_tree convertPointToMorton fill junk fuel size
            scale_factor mem)
    with (build_radix_tree_on convertPointToMorton (allocate fill junk size)
            fuel size scale_factor mem).
  apply E. exact Ha.
Qed.

Lemma build_radix_tree_ignores_allocation_witness :
  let b0 := mkQBox [5 # 1; 0 # 1] [6 # 1; 1 # 1] in
  let b1 := mkQBox [0 # 1; 0 # 1] [1 # 1; 1 # 1] in
  let b2 := mkQBox [2 # 1; 3 # 1] [3 # 1; 4 # 1] in
  let mem := mkMemory [b0; b1; b2] b0 (allocate 0 b0 0) in
  exists mem' : Memory QBox,
    (forall t0 : RadixTree QBox, allocated 3 t0 ->
       build_radix_tree_on interleave t0 32 3 (1 # 1) mem = Ok mem') /\
    (forall (fill : Z) (junk : QBox),
       allocated 3 (allocate fill junk 3) /\
       build_radix_tree interleave fill junk 32 3 (1 # 1) mem
         = build_radix_tree_on interleave (allocate fill junk 3) 32 3 (1 # 1)
             mem /\
       build_radix_tree interleave fill junk 32 3 (1 # 1) mem = Ok mem').
Proof.
  intros b0 b1 b2 mem.
  apply (build_radix_tree_ignores_allocation interleave 32 3 (1 # 1) mem).
  - lia.
  - unfold alen; simpl; lia.
  - lia.
  - simpl; lia.
Defined.

Section Enclosed.
Context {Box : Type} `{BoundingBox Box}.
Variable encloses : Box -> Box -> Prop.
Hypothesis encloses_refl : forall a, encloses a a.
Hypothesis encloses_add_l :
  forall a b c, encloses a c -> encloses (addBox a b) c.
Hypothesis encloses_add_r :
  forall a b c, encloses b c -> encloses (addBox a b) c.

Lemma subtree_box_encloses (leaf_aabbs : list Box) (t : shape) (p : Z) :
  In p (leaves t) ->
  encloses (subtree_box leaf_aabbs t) (nth (Z.to_nat p) leaf_aabbs emptyBox).
Proof.
  induction t as [q|v l IHl r IHr]; cbn [leaves subtree_box]; intros Hp.
  - destruct Hp as [->|[]]. apply encloses_refl.
  - apply in_app_or in Hp. destruct Hp as [Hp|Hp].
    + apply encloses_add_r. apply IHl. exact Hp.
    + apply encloses_add_l. apply IHr. exact Hp.
Qed.

(** X20.  The tree [build_radix_tree] returns bounds what it was built
    from: for every containment relation that unions keep, the box of the
    root and the returned global bounds contain the scaled copy of every
    input box, and the box of every inner node contains the boxes of its
    two children. *)
Theorem build_radix_tree_encloses (convertPointToMorton : list Z -> Z)
  (fill : Z) (junk : Box) (fuel : nat) (size : Z) (scale_factor : Q)
  (mem : Memory Box) :
  2 <= size <= 2 ^ 24 + 1 ->
  size <= alen (boxes mem) ->
  (32 <= fuel)%nat -> (Z.to_nat size <= fuel)%nat ->
  exists (mem' : Memory Box) (root : Box),
    build_radix_tree convertPointToMorton fill junk fuel size scale_factor mem
      = Ok mem' /\
    let tree := radix_tree mem' in
    aget (m_inner_aabbs tree) 0 = Ok root /\
    (forall i b, 0 <= i < size -> aget (boxes mem) i = Ok b ->
       encloses root (scale scale_factor b) /\
       encloses (bounds mem') (scale scale_factor b)) /\
    (forall v, 0 <= v < size - 1 ->
       exists box lchild rchild lbox rbox,
         aget (m_inner_aabbs tree) v = Ok box /\
         aget (m_left_children tree) v = Ok lchild /\
         aget (m_right_children tree) v = Ok rchild /\
         box_of (size - 1) (m_leaf_aabbs tree) (m_inner_aabbs tree) lchild
           = Ok lbox /\
         box_of (size - 1) (m_leaf_aabbs tree) (m_inner_aabbs tree) rchild
           = Ok rbox /\
         encloses box lbox /\ encloses box rbox).
Proof.
  intros Hsize Hboxes Hf32 Hfn.
  destruct (pipeline_core convertPointToMorton fuel size scale_factor mem
              Hsize Hboxes Hf32 Hfn)
    as (leafs & mcodes & leaf_aabbs & k & t & st & E & Hlm & Hsm & Hum
        & Hperm & Hla & Hgather & Hreal & Hroot & Hleaves & Hint & Hdone
        & Hlb).
  set (aabbs := map (scale scale_factor)
                    (firstn (Z.to_nat size) (boxes mem))) in *.
  eexists. exists (subtree_box leaf_aabbs t). split; [apply E|].
  cbn [radix_tree bounds m_inner_aabbs m_left_children m_right_children
       m_leaf_aabbs].
  destruct k as [lch rch par]. cbn [lchildren rchildren parents] in *.
  assert (Hrange : forall p, In p (leaves t) -> 0 <= p < alen leaf_aabbs).
  { intros p Hp. rewrite Hleaves in Hp. apply iota_In in Hp. lia. }
  split; [|split].
  - destruct t as [p|v l r].
    + cbn [internals] in Hint. apply Permutation_nil in Hint.
      assert (Hlen : length (iota (Z.to_nat (size - 1))) = 0%nat)
        by (rewrite Hint; reflexivity).
      rewrite iota_length in Hlen. lia.
    + cbn [node_index] in Hroot. subst v. destruct Hdone as (Hb & _).
      exact Hb.
  - intros i b Hi Eb.
    assert (Hab : aget aabbs i = Ok (scale scale_factor b))
      by (apply aget_map_firstn; [lia|exact Eb]).
    split.
    + assert (Hin : In i leafs).
      { apply (Permutation_in i (Permutation_sym Hperm)). apply iota_In.
        lia. }
      destruct (In_nth _ _ 0 Hin) as (p & Hp & Ep).
      assert (Hll : length leafs = Z.to_nat size)
        by (rewrite (Permutation_length Hperm); apply iota_length).
      assert (Hp' : 0 <= Z.of_nat p < size) by lia.
      pose proof (Hgather _ Hp') as Eg. unfold code_at in Eg.
      rewrite Nat2Z.id, Ep, Hab in Eg.
      rewrite (aget_ok leaf_aabbs _ emptyBox) in Eg by lia.
      injection Eg as Eg'. rewrite <- Eg'.
      apply subtree_box_encloses. rewrite Hleaves. apply iota_In. lia.
    + apply fold_addBox_encloses; try assumption. right.
      apply aget_inv in Hab. destruct Hab as [_ Hab].
      apply (nth_error_In _ _ Hab).
  - intros v Hv.
    assert (Hin : In v (internals t)).
    { apply (Permutation_in v (Permutation_sym Hint)). apply iota_In. lia. }
    destruct (boxes_done_union (size - 1) (mkLinks lch rch par) leaf_aabbs st
                t (-1) Hreal Hdone Hrange v Hin)
      as (lc & rc & bl & br & E1 & E2 & E3 & E4 & E5 & _).
    exists (addBox br bl), lc, rc, bl, br.
    split; [exact E5|]. split; [exact E1|]. split; [exact E2|].
    split; [exact E3|]. split; [exact E4|]. split.
    + apply encloses_add_r. apply encloses_refl.
    + apply encloses_add_l. apply encloses_refl.
Qed.

End Enclosed.

Lemma build_radix_tree_encloses_witness :
  let b0 := mkQBox [5 # 1; 0 # 1] [6 # 1; 1 # 1] in
  let b1 := mkQBox [0 # 1; 0 # 1] [1 # 1; 1 # 1] in
  let b2 := mkQBox [2 # 1; 3 # 1] [3 # 1; 4 # 1] in
  let mem := mkMemory [b0; b1; b2] b0 (allocate 0 b0 0) in
  exists (mem' : Memory QBox) (root : QBox),
    build_radix_tree interleave 0 b0 32 3 (1 # 1) mem = Ok mem' /\
    let tree := radix_tree mem' in
    aget (m_inner_aabbs tree) 0 = Ok root /\
    (forall i b, 0 <= i < 3 -> aget (boxes mem) i = Ok b ->
       qbox_encloses root (scale (1 # 1) b) /\
       qbox_encloses (bounds mem') (scale (1 # 1) b)) /\
    (forall v, 0 <= v < 3 - 1 ->
       exists box lchild rchild lbox rbox,
         aget (m_inner_aabbs tree) v = Ok box /\
         aget (m_left_children tree) v = Ok lchild /\
         aget (m_right_children tree) v = Ok rchild /\
         box_of (3 - 1) (m_leaf_aabbs tree) (m_inner_aabbs tree) lchild
           = Ok lbox /\
         box_of (3 - 1) (m_leaf_aabbs tree) (m_inner_aabbs tree) rchild
           = Ok rbox /\
         qbox_encloses box lbox /\ qbox_encloses box rbox).
Proof.
  intros b0 b1 b2 mem.
  apply (build_radix_tree_encloses qbox_encloses qbox_encloses_refl
           qbox_encloses_add_l qbox_encloses_add_r interleave 0 b0 32 3
           (1 # 1) mem).
  - lia.
  - unfold alen; simpl; lia.
  - lia.
  - simpl; lia.
Defined.

(** X21.  [build_radix_tree] returns no tree for a size it cannot serve: a
    size that is not positive fails the assertion, and a positive size
    beyond the input boxes runs into a read outside the input in the first
    stage, whatever the fuel and the allocated contents. *)
Theorem build_radix_tree_rejects {Box : Type} `{BoundingBox Box}
  (convertPointToMorton : list Z -> Z) (fill : Z) (junk : Box) (fuel : nat)
  (size : Z) (scale_factor : Q) (mem : Memory Box) :
  (size <= 0 ->
   build_radix_tree convertPointToMorton fill junk fuel size scale_factor mem
     = AssertFailed) /\
  (0 < size -> alen (boxes mem) < size ->
   build_radix_tree convertPointToMorton fill junk fuel size scale_factor mem
     = OutOfBounds).
Proof.
  unfold build_radix_tree, sort_stage. split.
  - intros Hs. replace (size <=? 0) with true
      by (symmetry; apply Z.leb_le; exact Hs).
    reflexivity.
  - intros Hs Hb. replace (size <=? 0) with false
      by (symmetry; apply Z.leb_gt; exact Hs).
    unfold allocate. cbn [m_leaf_aabbs].
    rewrite transform_boxes_oob; [reflexivity| |exact Hb].
    unfold alen. rewrite repeat_length. lia.
Qed.

(** X22.  The stages up to the reordering complete for every positive size
    within the input, also beyond 2^24 + 1: the caller's boxes are
    untouched, the bounds are the union of the scaled boxes, the codes are
    sorted 32-bit values, [leafs] is a permutation of the positions and the
    leaf box at sorted position p is the scaled copy of the input box at
    [leafs[p]]; the links and inner boxes are still as allocated. *)
Theorem sort_stage_completes {Box : Type} `{BoundingBox Box}
  (convertPointToMorton : list Z -> Z) (fill : Z) (junk : Box)
  (size : Z) (scale_factor : Q) (mem : Memory Box) :
  0 < size <= alen (boxes mem) ->
  exists leafs mcodes leaf_aabbs,
    sort_stage convertPointToMorton fill junk size scale_factor mem
      = Ok (mkMemory (boxes mem)
              (fold_left addBox
                 (map (scale scale_factor)
                      (firstn (Z.to_nat size) (boxes mem))) emptyBox)
              (mkRadixTree size (size - 1)
                 (m_left_children (allocate fill junk size))
                 (m_right_children (allocate fill junk size))
                 (m_parents (allocate fill junk size))
                 (m_inner_aabbs (allocate fill junk size))
                 leafs mcodes leaf_aabbs)) /\
    alen mcodes = size /\ is_sorted mcodes = true /\
    all_uint32 mcodes = true /\
    Permutation leafs (iota (Z.to_nat size)) /\
    alen leaf_aabbs = size /\
    forall p, 0 <= p < size ->
      exists ix b,
        aget leafs p = Ok ix /\ 0 <= ix < size /\
        aget (boxes mem) ix = Ok b /\
        aget leaf_aabbs p = Ok (scale scale_factor b).
Proof.
  intros Hsize.
  destruct (sort_stage_canonical convertPointToMorton size scale_factor mem
              Hsize)
    as (leafs & mcodes & leaf_aabbs & Es & Hlm & Hsm & Hum & Hperm & Hla
        & Hgather).
  exists leafs, mcodes, leaf_aabbs.
  split; [apply Es|]. split; [exact Hlm|]. split; [exact Hsm|].
  split; [exact Hum|]. split; [exact Hperm|]. split; [exact Hla|].
  intros p Hp.
  assert (Hll : length leafs = Z.to_nat size)
    by (rewrite (Permutation_length Hperm); apply iota_length).
  assert (Hix : 0 <= code_at leafs p < size).
  { assert (Hm : In (code_at leafs p) leafs)
      by (unfold code_at; apply nth_In; lia).
    apply (Permutation_in _ Hperm) in Hm. apply iota_In in Hm. lia. }
  exists (code_at leafs p), (nth (Z.to_nat (code_at leafs p)) (boxes mem)
                                 emptyBox).
  split; [apply aget_code_at; unfold alen; lia|]. split; [exact Hix|].
  assert (Eb : aget (boxes mem) (code_at leafs p)
               = Ok (nth (Z.to_nat (code_at leafs p)) (boxes mem) emptyBox))
    by (apply aget_ok; lia).
  split; [exact Eb|].
  rewrite (Hgather p Hp). apply aget_map_firstn; [lia|exact Eb].
Qed.

Lemma sort_stage_completes_witness :
  let b0 := mkQBox [5 # 1; 0 # 1] [6 # 1; 1 # 1] in
  let b1 := mkQBox [0 # 1; 0 # 1] [1 # 1; 1 # 1] in
  let mem := mkMemory [b0; b1] b0 (allocate 0 b0 0) in
  exists leafs mcodes leaf_aabbs,
    sort_stage interleave 7 b0 2 (1 # 1) mem
      = Ok (mkMemory (boxes mem)
              (fold_left addBox
                 (map (scale (1 # 1)) (firstn (Z.to_nat 2) (boxes mem)))
                 emptyBox)
              (mkRadixTree 2 (2 - 1)
                 (m_left_children (allocate 7 b0 2))
                 (m_right_children (allocate 7 b0 2))
                 (m_parents (allocate 7 b0 2))
                 (m_inner_aabbs (allocate 7 b0 2))
                 leafs mcodes leaf_aabbs)) /\
    alen mcodes = 2 /\ is_sorted mcodes = true /\
    all_uint32 mcodes = true /\
    Permutation leafs (iota (Z.to_nat 2)) /\
    alen leaf_aabbs = 2 /\
    forall p, 0 <= p < 2 ->
      exists ix b,
        aget leafs p = Ok ix /\ 0 <= ix < 2 /\
        aget (boxes mem) ix = Ok b /\
        aget leaf_aabbs p = Ok (scale (1 # 1) b).
Proof.
  intros b0 b1 mem.
  apply (sort_stage_completes interleave 7 b0 2 (1 # 1) mem).
  unfold alen; simpl; lia.
Defined.
(* ================================================================== *)
(** * propagate_aabbs: what it starts from and what it leaves alone *)

(** X23.  On links that form a binary tree [propagate_aabbs] first resets
    every inner box, so its result does not depend on what the inner boxes
    held before; it returns the record it was given with the inner boxes
    replaced and every other field as it was. *)
Theorem propagate_aabbs_resets {Box : Type} `{BoundingBox Box} (fuel : nat)
  (data : RadixTree Box) (inner' : list Box) (t : shape) :
  let inner_size := m_inner_size data in
  let k := mkLinks (m_left_children data) (m_right_children data)
             (m_parents data) in
  realizes inner_size k (-1) t ->
  leaves t = iota (Z.to_nat (inner_size + 1)) ->
  NoDup (internals t) ->
  alen (m_inner_aabbs data) = inner_size ->
  alen inner' = inner_size ->
  alen (m_leaf_aabbs data) = inner_size + 1 ->
  m_size data = inner_size + 1 ->
  (height t < fuel)%nat ->
  exists boxes',
    alen boxes' = inner_size /\
    propagate_aabbs fuel data
      = Ok (mkRadixTree (m_size data) inner_size (m_left_children data)
              (m_right_children data) (m_parents data) boxes'
              (m_leafs data) (m_mcodes data) (m_leaf_aabbs data)) /\
    propagate_aabbs fuel
      (mkRadixTree (m_size data) inner_size (m_left_children data)
         (m_right_children data) (m_parents data) inner'
         (m_leafs data) (m_mcodes data) (m_leaf_aabbs data))
      = Ok (mkRadixTree (m_size data) inner_size (m_left_children data)
              (m_right_children data) (m_parents data) boxes'
              (m_leafs data) (m_mcodes data) (m_leaf_aabbs data)).
Proof.
  intros inner_size k Hreal Hleaves Hnodup Hinner Hinner' Hleaf Hsize Hfuel.
  set (data' := mkRadixTree (m_size data) inner_size (m_left_children data)
                  (m_right_children data) (m_parents data) inner'
                  (m_leafs data) (m_mcodes data) (m_leaf_aabbs data)).
  pose proof (propagate_trace_finish data t Hreal Hleaves Hnodup Hinner Hleaf
                fuel Hfuel Hsize) as E1.
  pose proof (propagate_trace_finish data' t Hreal Hleaves Hnodup Hinner'
                Hleaf fuel Hfuel Hsize) as E2.
  cbn [data' m_inner_aabbs m_leaf_aabbs m_inner_size] in E2.
  fold inner_size in E1, E2.
  assert (Hl : length inner' = length (m_inner_aabbs data))
    by (unfold alen in *; lia).
  rewrite Hl in E2.
  set (st := finish (m_leaf_aabbs data) t _) in E1, E2.
  exists (inner_aabbs st). split.
  { unfold st.
    destruct (finish_lengths (m_leaf_aabbs data) t
                (mkPropagation
                   (map (fun _ : Z => emptyBox)
                        (iota (length (m_inner_aabbs data))))
                   (repeat 0 (Z.to_nat inner_size)) [] [])) as [_ Hb].
    rewrite Hb. cbn [inner_aabbs]. unfold alen.
    rewrite length_map, iota_length. exact Hinner. }
  unfold propagate_aabbs. rewrite E1, E2. split; reflexivity.
Qed.

Lemma propagate_aabbs_resets_witness :
  let b01 := mkQBox [0 # 1] [1 # 1] in
  let b23 := mkQBox [2 # 1] [3 # 1] in
  let b56 := mkQBox [5 # 1] [6 # 1] in
  let data :=
    mkRadixTree 3 2 [1; 2] [4; 3] [-1; 0; 1; 1; 0] [b56; b56] [0; 1; 2]
      [1; 2; 4] [b01; b23; b56] in
  exists boxes',
    alen boxes' = 2 /\
    propagate_aabbs 3 data
      = Ok (mkRadixTree 3 2 [1; 2] [4; 3] [-1; 0; 1; 1; 0] boxes'
              [0; 1; 2] [1; 2; 4] [b01; b23; b56]) /\
    propagate_aabbs 3
      (mkRadixTree 3 2 [1; 2] [4; 3] [-1; 0; 1; 1; 0] [b01; b23]
         [0; 1; 2] [1; 2; 4] [b01; b23; b56])
      = Ok (mkRadixTree 3 2 [1; 2] [4; 3] [-1; 0; 1; 1; 0] boxes'
              [0; 1; 2] [1; 2; 4] [b01; b23; b56]).
Proof.
  intros b01 b23 b56 data.
  apply (propagate_aabbs_resets 3 data [b01; b23]
           (Node 0 (Node 1 (Leaf 0) (Leaf 1)) (Leaf 2))).
  - cbn. repeat split; try lia; reflexivity.
  - reflexivity.
  - cbn. constructor; [intros [E|[]]; discriminate|].
    constructor; [intros []|constructor].
  - reflexivity.
  - reflexivity.
  - reflexivity.
  - reflexivity.
  - cbn. lia.
Defined.
